(** * Street-network analysis (analise-redes-viarias-bsb): graph model,
      centralities, bridges and edge-removal impact.

    The Python sources build a [networkx.Graph] from two parsed files and
    call networkx for the graph algorithms.  This development embeds

    - Python dictionaries as insertion-ordered association lists,
    - the [networkx.Graph] adjacency structure and the operations the
      sources call on it,
    - the methods [carregar_dados], [calcular_centralidades] and
      [simular_remocao_ponte] of the analyser classes.

    Python floats are idealised as rationals ([Q]); a call that raises a
    Python exception is a [Raise] of the embedding's [result] type. *)

From Stdlib Require Import ZArith QArith List Lia Lqa Sorted.
From stdpp Require Import base list gmap sets.

Open Scope Z_scope.

(** ** Python dictionaries: insertion-ordered association lists *)

Module PyDict.

Section Dict.
Context {K V : Type} `{EqDecision K}.

(** [d.get(k)] *)
Fixpoint get (k : K) (d : list (K * V)) : option V :=
  match d with
  | [] => None
  | (k', v) :: d' => if decide (k = k') then Some v else get k d'
  end.

(** [d.get(k, default)] *)
Definition get_default (k : K) (default : V) (d : list (K * V)) : V :=
  match get k d with Some v => v | None => default end.

(** [k in d] *)
Definition mem (k : K) (d : list (K * V)) : bool :=
  match get k d with Some _ => true | None => false end.

(** [d[k] = v]: an existing key keeps its place, a new key goes last. *)
Fixpoint set (k : K) (v : V) (d : list (K * V)) : list (K * V) :=
  match d with
  | [] => [(k, v)]
  | (k', v') :: d' =>
      if decide (k = k') then (k, v) :: d' else (k', v') :: set k v d'
  end.

(** [del d[k]]: [None] is Python's [KeyError]. *)
Fixpoint del (k : K) (d : list (K * V)) : option (list (K * V)) :=
  match d with
  | [] => None
  | (k', v') :: d' =>
      if decide (k = k') then Some d'
      else match del k d' with
           | Some r => Some ((k', v') :: r)
           | None => None
           end
  end.

(** [list(d)] and [list(d.values())] *)
Definition keys (d : list (K * V)) : list K := fst <$> d.
Definition values (d : list (K * V)) : list V := snd <$> d.

End Dict.

End PyDict.

(** ** Python exceptions and the outcome of a call *)

Inductive exn : Set :=
  | ZeroDivisionError
  | KeyError
  | ValueError
  | NodeNotFound
  | AttributeError
  | NetworkXError
  | NetworkXNoPath
  | NetworkXPointlessConcept.

(** A call returns a value or raises.  [OutOfFuel] is not a Python
    outcome: it marks a [while] loop of the embedding that used up its
    iteration bound; the bounds are shown sufficient below. *)
Inductive result (A : Type) : Type :=
  | Ok (a : A)
  | Raise (e : exn)
  | OutOfFuel.

Arguments Ok {A} a.
Arguments Raise {A} e.
Arguments OutOfFuel {A}.

#[global] Instance result_ret : MRet result := fun _ a => Ok a.
#[global] Instance result_bind : MBind result := fun _ _ f m =>
  match m with
  | Ok a => f a
  | Raise e => Raise e
  | OutOfFuel => OutOfFuel
  end.

(** [a / b] on Python numbers. *)
Definition py_div (a b : Q) : result Q :=
  if Qeq_bool b 0 then Raise ZeroDivisionError else Ok (a / b)%Q.

(** [sum(xs)] *)
Definition py_sum (xs : list Q) : Q := fold_left Qplus xs 0%Q.

(** ** The [networkx.Graph] data structure

    [G._adj] is a dict of dicts: node -> (neighbour -> edge data).  Every
    edge of these programs carries exactly the attribute [weight]. *)

Module nx.

Definition Graph := list (Z * list (Z * Q)).

(** [nx.Graph()] *)
Definition empty : Graph := [].

(** [list(G.nodes())], [list(G)] *)
Definition nodes (G : Graph) : list Z := PyDict.keys G.

(** [G.number_of_nodes()], [len(G)] *)
Definition number_of_nodes (G : Graph) : Z := Z.of_nat (length G).

(** [n in G] *)
Definition has_node (G : Graph) (n : Z) : bool := PyDict.mem n G.

(** [G._adj[n]], empty for an unknown node. *)
Definition adj (G : Graph) (n : Z) : list (Z * Q) :=
  match PyDict.get n G with Some d => d | None => [] end.

(** [list(G[n])], [list(G.neighbors(n))] *)
Definition neighbors (G : Graph) (n : Z) : list Z := PyDict.keys (adj G n).

(** [G.has_edge(u, v)] *)
Definition has_edge (G : Graph) (u v : Z) : bool := PyDict.mem v (adj G u).

(** [G[u][v]['weight']] *)
Definition weight (G : Graph) (u v : Z) : option Q := PyDict.get v (adj G u).

(** [G.add_node(n)] *)
Definition add_node (n : Z) (G : Graph) : Graph :=
  if has_node G n then G else G ++ [(n, [])].

(** [G.add_edge(u, v, weight=w)]: both endpoints are created when
    missing, then [_adj[u][v]] and [_adj[v][u]] are set; no check is made
    on [w] or on [u != v]. *)
Definition add_edge (u v : Z) (w : Q) (G : Graph) : Graph :=
  let G1 := add_node v (add_node u G) in
  let G2 := PyDict.set u (PyDict.set v w (adj G1 u)) G1 in
  PyDict.set v (PyDict.set u w (adj G2 v)) G2.

(** [G.remove_edge(u, v)]: deletes [_adj[u][v]] and, when [u != v],
    [_adj[v][u]]; a missing entry is a [NetworkXError]. *)
Definition remove_edge (u v : Z) (G : Graph) : result Graph :=
  match PyDict.del v (adj G u) with
  | None => Raise NetworkXError
  | Some du =>
      let G1 := PyDict.set u du G in
      if decide (u = v) then Ok G1
      else match PyDict.del u (adj G1 v) with
           | None => Raise NetworkXError
           | Some dv => Ok (PyDict.set v dv G1)
           end
  end.

(** [G.edges(data='weight')]: every edge once, reported from the endpoint
    met first in node order. *)
Fixpoint edges_from (seen : list Z) (G : Graph) : list (Z * Z * Q) :=
  match G with
  | [] => []
  | (u, d) :: G' =>
      map (fun '(v, w) => (u, v, w))
          (filter (fun '(v, _) => negb (bool_decide (v ∈ seen))) d)
      ++ edges_from (u :: seen) G'
  end.

Definition edges_data (G : Graph) : list (Z * Z * Q) := edges_from [] G.

(** [list(G.edges())] *)
Definition edges (G : Graph) : list (Z * Z) := map fst (edges_data G).

(** [G.number_of_edges()] *)
Definition number_of_edges (G : Graph) : Z := Z.of_nat (length (edges G)).

(** [G.degree(n)]: a self-loop counts twice. *)
Definition degree (G : Graph) (n : Z) : Z :=
  Z.of_nat (length (adj G n)) + (if has_edge G n n then 1 else 0).

(** [dict(G.degree())] *)
Definition degree_view (G : Graph) : list (Z * Z) :=
  map (fun n => (n, degree G n)) (nodes G).

(** [G.copy()]: a new graph that receives the nodes in order and then
    every adjacency entry [(u, v, data)] through [add_edge]. *)
Definition adjacency_entries (G : Graph) : list (Z * Z * Q) :=
  flat_map (fun '(u, d) => map (fun '(v, w) => (u, v, w)) d) G.

Definition copy (G : Graph) : Graph :=
  fold_left (fun H '(u, v, w) => add_edge u v w H) (adjacency_entries G)
            (fold_left (fun H n => add_node n H) (nodes G) empty).

(** *** Connected components ([networkx.algorithms.components]) *)

(** One level of [_plain_bfs]:
    [for v in thislevel: if v not in seen: seen.add(v); nextlevel.update(adj[v])] *)
Fixpoint bfs_level (G : Graph) (thislevel : list Z)
    (seen : gset Z) (nextlevel : list Z) : gset Z * list Z :=
  match thislevel with
  | [] => (seen, nextlevel)
  | v :: rest =>
      if decide (v ∈ seen) then bfs_level G rest seen nextlevel
      else bfs_level G rest ({[v]} ∪ seen) (nextlevel ++ neighbors G v)
  end.

(** [while nextlevel: ...] of [_plain_bfs]. *)
Fixpoint bfs_loop (fuel : nat) (G : Graph) (seen : gset Z)
    (nextlevel : list Z) : result (gset Z) :=
  match nextlevel with
  | [] => Ok seen
  | _ :: _ =>
      match fuel with
      | O => OutOfFuel
      | S fuel' =>
          let '(seen', next') := bfs_level G nextlevel seen [] in
          bfs_loop fuel' G seen' next'
      end
  end.

(** [_plain_bfs(G, source)]: the set of nodes reachable from [source]. *)
Definition plain_bfs (G : Graph) (source : Z) : result (gset Z) :=
  bfs_loop (S (length G)) G ∅ [source].

(** [connected_components(G)]:
    [for v in G: if v not in seen: c = _plain_bfs(G, v); seen.update(c); yield c] *)
Fixpoint components_from (G : Graph) (vs : list Z) (seen : gset Z)
    : result (list (gset Z)) :=
  match vs with
  | [] => Ok []
  | v :: rest =>
      if decide (v ∈ seen) then components_from G rest seen
      else
        c ← plain_bfs G v;
        cs ← components_from G rest (seen ∪ c);
        Ok (c :: cs)
  end.

Definition connected_components (G : Graph) : result (list (gset Z)) :=
  components_from G (nodes G) ∅.

(** [number_connected_components(G)] *)
Definition number_connected_components (G : Graph) : result Z :=
  cs ← connected_components G; Ok (Z.of_nat (length cs)).

(** [is_connected(G)]: undefined on the null graph. *)
Definition is_connected (G : Graph) : result bool :=
  match nodes G with
  | [] => Raise NetworkXPointlessConcept
  | v :: _ =>
      c ← plain_bfs G v;
      Ok (bool_decide (Z.of_nat (size c) = number_of_nodes G))
  end.

(** *** Weighted shortest paths ([networkx.algorithms.shortest_paths.weighted]) *)

(** The heap of [heapq] holds tuples that start with [(distance, count)];
    [count] is unique, so the order is decided by that pair. *)
Definition key_lt (a b : Q * nat) : bool :=
  match Qcompare (fst a) (fst b) with
  | Lt => true
  | Eq => Nat.ltb (snd a) (snd b)
  | Gt => false
  end.

(** [heappop]: the least item and the remaining heap. *)
Fixpoint heappop {A : Type} (key : A -> Q * nat) (h : list A)
    : option (A * list A) :=
  match h with
  | [] => None
  | x :: h' =>
      match heappop key h' with
      | None => Some (x, [])
      | Some (m, r) =>
          if key_lt (key x) (key m) then Some (x, h') else Some (m, x :: r)
      end
  end.

Record dijkstra_state : Type := {
  dist : list (Z * Q);          (* final distances, in settling order *)
  seen : list (Z * Q);          (* best tentative distances *)
  counter : nat;                (* [c = count()] *)
  fringe : list (Q * nat * Z)   (* heap of [(d, next(c), node)] *)
}.

(** The body of [for u, e in G_succ[v].items()] in
    [_dijkstra_multisource], for a settled node at distance [d]. *)
Fixpoint relax (d : Q) (nbrs : list (Z * Q)) (st : dijkstra_state)
    : result dijkstra_state :=
  match nbrs with
  | [] => Ok st
  | (u, cost) :: rest =>
      let vu_dist := (d + cost)%Q in
      match PyDict.get u (dist st) with
      | Some u_dist =>
          if Qlt_le_dec vu_dist u_dist then Raise ValueError
          else relax d rest st
      | None =>
          let better :=
            match PyDict.get u (seen st) with
            | None => true
            | Some s => if Qlt_le_dec vu_dist s then true else false
            end in
          if better then
            relax d rest
              {| dist := dist st;
                 seen := PyDict.set u vu_dist (seen st);
                 counter := S (counter st);
                 fringe := (vu_dist, counter st, u) :: fringe st |}
          else relax d rest st
      end
  end.

(** [while fringe: ...] of [_dijkstra_multisource]; with a [target] the
    loop stops as soon as the target is settled. *)
Fixpoint dijkstra_loop (fuel : nat) (G : Graph) (target : option Z)
    (st : dijkstra_state) : result (list (Z * Q)) :=
  match heappop (fun '(d, c, _) => (d, c)) (fringe st) with
  | None => Ok (dist st)
  | Some ((d, _, v), fringe') =>
      match fuel with
      | O => OutOfFuel
      | S fuel' =>
          if PyDict.mem v (dist st) then
            dijkstra_loop fuel' G target
              {| dist := dist st; seen := seen st;
                 counter := counter st; fringe := fringe' |}
          else
            let dist' := PyDict.set v d (dist st) in
            if bool_decide (target = Some v) then Ok dist'
            else
              st' ← relax d (adj G v)
                      {| dist := dist'; seen := seen st;
                         counter := counter st; fringe := fringe' |};
              dijkstra_loop fuel' G target st'
      end
  end.

(** Every heap item is pushed while one adjacency entry is scanned, and
    every entry is scanned at most once. *)
Definition dijkstra_fuel (G : Graph) : nat :=
  S (length (adjacency_entries G)).

Definition dijkstra (G : Graph) (source : Z) (target : option Z)
    : result (list (Z * Q)) :=
  if has_node G source then
    dijkstra_loop (dijkstra_fuel G) G target
      {| dist := []; seen := [(source, 0%Q)]; counter := 1%nat;
         fringe := [(0%Q, 0%nat, source)] |}
  else Raise NodeNotFound.

(** [single_source_dijkstra_path_length(G, source, weight='weight')] *)
Definition single_source_dijkstra_path_length (G : Graph) (source : Z)
    : result (list (Z * Q)) :=
  dijkstra G source None.

(** [shortest_path_length(G, source, target, weight='weight')] *)
Definition shortest_path_length (G : Graph) (source target : Z) : result Q :=
  length ← dijkstra G source (Some target);
  match PyDict.get target length with
  | Some d => Ok d
  | None => Raise NetworkXNoPath
  end.

(** *** Closeness centrality ([networkx.algorithms.centrality.closeness])

    [wf_improved] keeps its default [True]: the value is scaled by the
    fraction of nodes reached. *)
Definition closeness_of (G : Graph) (n : Z) : result Q :=
  sp ← single_source_dijkstra_path_length G n;
  let totsp := py_sum (PyDict.values sp) in
  let len_G := number_of_nodes G in
  if Qlt_le_dec 0 totsp then
    if decide (1 < len_G) then
      c ← py_div (inject_Z (Z.of_nat (length sp)) - 1) totsp;
      s ← py_div (inject_Z (Z.of_nat (length sp)) - 1) (inject_Z (len_G - 1));
      Ok (c * s)%Q
    else Ok 0%Q
  else Ok 0%Q.

(** [closeness_centrality(G, distance='weight')] *)
Definition closeness_centrality (G : Graph) : result (list (Z * Q)) :=
  mapM (fun n => c ← closeness_of G n; Ok (n, c)) (nodes G).

(** *** Betweenness ([networkx.algorithms.centrality.betweenness]) *)

(** [d[k]], a [KeyError] when absent. *)
Definition lookup {K V : Type} `{EqDecision K} (k : K) (d : list (K * V))
    : result V :=
  match PyDict.get k d with Some v => Ok v | None => Raise KeyError end.

Record sssp_state : Type := {
  sp_S : list Z;                     (* nodes in settling order *)
  sp_P : list (Z * list Z);          (* predecessors on shortest paths *)
  sp_sigma : list (Z * Q);           (* number of shortest paths *)
  sp_D : list (Z * Q);               (* final distances *)
  sp_seen : list (Z * Q);
  sp_count : nat;
  sp_Q : list (Q * nat * Z * Z)      (* heap of [(dist, next(c), pred, v)] *)
}.

(** [for w, edgedata in G[v].items()] of
    [_single_source_dijkstra_path_basic], for the settled node [v]. *)
Fixpoint sssp_scan (v : Z) (dist_v : Q) (nbrs : list (Z * Q))
    (st : sssp_state) : result sssp_state :=
  match nbrs with
  | [] => Ok st
  | (w, cost) :: rest =>
      let vw_dist := (dist_v + cost)%Q in
      let improves :=
        negb (PyDict.mem w (sp_D st)) &&
        match PyDict.get w (sp_seen st) with
        | None => true
        | Some s => if Qlt_le_dec vw_dist s then true else false
        end in
      if improves then
        sssp_scan v dist_v rest
          {| sp_S := sp_S st;
             sp_P := PyDict.set w [v] (sp_P st);
             sp_sigma := PyDict.set w 0%Q (sp_sigma st);
             sp_D := sp_D st;
             sp_seen := PyDict.set w vw_dist (sp_seen st);
             sp_count := S (sp_count st);
             sp_Q := (vw_dist, sp_count st, v, w) :: sp_Q st |}
      else
        seen_w ← lookup w (sp_seen st);
        if Qeq_bool vw_dist seen_w then
          sigma_w ← lookup w (sp_sigma st);
          sigma_v ← lookup v (sp_sigma st);
          P_w ← lookup w (sp_P st);
          sssp_scan v dist_v rest
            {| sp_S := sp_S st;
               sp_P := PyDict.set w (P_w ++ [v]) (sp_P st);
               sp_sigma := PyDict.set w (sigma_w + sigma_v)%Q (sp_sigma st);
               sp_D := sp_D st;
               sp_seen := sp_seen st;
               sp_count := sp_count st;
               sp_Q := sp_Q st |}
        else sssp_scan v dist_v rest st
  end.

(** [while Q: ...] of [_single_source_dijkstra_path_basic]. *)
Fixpoint sssp_loop (fuel : nat) (G : Graph) (st : sssp_state)
    : result sssp_state :=
  match heappop (fun '(d, c, _, _) => (d, c)) (sp_Q st) with
  | None => Ok st
  | Some ((d, _, pred, v), Q') =>
      match fuel with
      | O => OutOfFuel
      | S fuel' =>
          if PyDict.mem v (sp_D st) then
            sssp_loop fuel' G
              {| sp_S := sp_S st; sp_P := sp_P st; sp_sigma := sp_sigma st;
                 sp_D := sp_D st; sp_seen := sp_seen st;
                 sp_count := sp_count st; sp_Q := Q' |}
          else
            sigma_v ← lookup v (sp_sigma st);
            sigma_pred ← lookup pred (sp_sigma st);
            st' ← sssp_scan v d (adj G v)
                    {| sp_S := sp_S st ++ [v];
                       sp_P := sp_P st;
                       sp_sigma :=
                         PyDict.set v (sigma_v + sigma_pred)%Q (sp_sigma st);
                       sp_D := PyDict.set v d (sp_D st);
                       sp_seen := sp_seen st;
                       sp_count := sp_count st;
                       sp_Q := Q' |};
            sssp_loop fuel' G st'
      end
  end.

(** [_single_source_dijkstra_path_basic(G, s, weight)] *)
Definition single_source_dijkstra_path_basic (G : Graph) (s : Z)
    : result sssp_state :=
  sssp_loop (dijkstra_fuel G) G
    {| sp_S := [];
       sp_P := map (fun v => (v, [])) (nodes G);
       sp_sigma := PyDict.set s 1%Q (map (fun v => (v, 0%Q)) (nodes G));
       sp_D := [];
       sp_seen := [(s, 0%Q)];
       sp_count := 1%nat;
       sp_Q := [(0%Q, 0%nat, s, s)] |}.

(** [betweenness[k] += c], a [KeyError] when [k] is absent. *)
Definition add_at {K : Type} `{EqDecision K} (k : K) (c : Q)
    (d : list (K * Q)) : result (list (K * Q)) :=
  x ← lookup k d; Ok (PyDict.set k (x + c)%Q d).

(** [for v in P[w]] of [_accumulate_edges]. *)
Fixpoint accumulate_preds (w : Z) (coeff : Q) (preds : list Z)
    (sigma : list (Z * Q)) (acc : list (Z * Z * Q) * list (Z * Q))
    : result (list (Z * Z * Q) * list (Z * Q)) :=
  match preds with
  | [] => Ok acc
  | v :: rest =>
      sigma_v ← lookup v sigma;
      let c := (sigma_v * coeff)%Q in
      betweenness ←
        (if PyDict.mem (v, w) (fst acc) then add_at (v, w) c (fst acc)
         else add_at (w, v) c (fst acc));
      delta ← add_at v c (snd acc);
      accumulate_preds w coeff rest sigma (betweenness, delta)
  end.

(** [while S: w = S.pop(); ...] of [_accumulate_edges]; [stack] is [S]
    from its last element.  Only the edge entries of [betweenness] are
    kept: the node entries are deleted before the result is returned. *)
Fixpoint accumulate_stack (stack : list Z) (st : sssp_state)
    (acc : list (Z * Z * Q) * list (Z * Q))
    : result (list (Z * Z * Q) * list (Z * Q)) :=
  match stack with
  | [] => Ok acc
  | w :: rest =>
      delta_w ← lookup w (snd acc);
      sigma_w ← lookup w (sp_sigma st);
      coeff ← py_div (1 + delta_w) sigma_w;
      P_w ← lookup w (sp_P st);
      acc' ← accumulate_preds w coeff P_w (sp_sigma st) acc;
      accumulate_stack rest st acc'
  end.

Definition accumulate_edges (betweenness : list (Z * Z * Q))
    (st : sssp_state) : result (list (Z * Z * Q)) :=
  acc ← accumulate_stack (rev (sp_S st)) st
          (betweenness, map (fun v => (v, 0%Q)) (sp_S st));
  Ok (fst acc).

(** [for s in G: ...; betweenness = _accumulate_edges(...)]: the
    accumulation of Brandes' algorithm over all sources. *)
Fixpoint accumulate_sources (G : Graph) (sources : list Z)
    (betweenness : list (Z * Z * Q)) : result (list (Z * Z * Q)) :=
  match sources with
  | [] => Ok betweenness
  | s :: rest =>
      st ← single_source_dijkstra_path_basic G s;
      betweenness' ← accumulate_edges betweenness st;
      accumulate_sources G rest betweenness'
  end.

Definition edge_accumulation (G : Graph) : result (list (Z * Z * Q)) :=
  accumulate_sources G (nodes G) (map (fun e => (e, 0%Q)) (edges G)).

(** [_rescale_e(betweenness, n, normalized, directed=False)] *)
Definition rescale_e (betweenness : list (Z * Z * Q)) (n : Z)
    (normalized : bool) : result (list (Z * Z * Q)) :=
  if normalized then
    if decide (n <= 1) then Ok betweenness
    else
      scale ← py_div 1 (inject_Z (n * (n - 1)));
      Ok (map (fun '(e, b) => (e, (b * scale)%Q)) betweenness)
  else Ok (map (fun '(e, b) => (e, (b * (1 # 2))%Q)) betweenness).

(** [edge_betweenness_centrality(G, normalized=..., weight='weight')] *)
Definition edge_betweenness_centrality (G : Graph) (normalized : bool)
    : result (list (Z * Z * Q)) :=
  betweenness ← edge_accumulation G;
  rescale_e betweenness (number_of_nodes G) normalized.

(** [for v in P[w]: delta[v] += sigma[v] * coeff] of [_accumulate_basic]. *)
Fixpoint accumulate_preds_basic (coeff : Q) (preds : list Z)
    (sigma : list (Z * Q)) (delta : list (Z * Q)) : result (list (Z * Q)) :=
  match preds with
  | [] => Ok delta
  | v :: rest =>
      sigma_v ← lookup v sigma;
      delta' ← add_at v (sigma_v * coeff)%Q delta;
      accumulate_preds_basic coeff rest sigma delta'
  end.

(** [while S: w = S.pop(); ...] of [_accumulate_basic]. *)
Fixpoint accumulate_stack_basic (s : Z) (stack : list Z) (st : sssp_state)
    (acc : list (Z * Q) * list (Z * Q))
    : result (list (Z * Q) * list (Z * Q)) :=
  match stack with
  | [] => Ok acc
  | w :: rest =>
      delta_w ← lookup w (snd acc);
      sigma_w ← lookup w (sp_sigma st);
      coeff ← py_div (1 + delta_w) sigma_w;
      P_w ← lookup w (sp_P st);
      delta ← accumulate_preds_basic coeff P_w (sp_sigma st) (snd acc);
      betweenness ←
        (if decide (w = s) then Ok (fst acc)
         else delta_w' ← lookup w delta; add_at w delta_w' (fst acc));
      accumulate_stack_basic s rest st (betweenness, delta)
  end.

Fixpoint accumulate_sources_basic (G : Graph) (sources : list Z)
    (betweenness : list (Z * Q)) : result (list (Z * Q)) :=
  match sources with
  | [] => Ok betweenness
  | s :: rest =>
      st ← single_source_dijkstra_path_basic G s;
      acc ← accumulate_stack_basic s (rev (sp_S st)) st
              (betweenness, map (fun v => (v, 0%Q)) (sp_S st));
      accumulate_sources_basic G rest (fst acc)
  end.

(** [_rescale(betweenness, n, normalized=True, directed=False)] *)
Definition rescale (betweenness : list (Z * Q)) (n : Z)
    : result (list (Z * Q)) :=
  if decide (n <= 2) then Ok betweenness
  else
    scale ← py_div 1 (inject_Z ((n - 1) * (n - 2)));
    Ok (map (fun '(v, b) => (v, (b * scale)%Q)) betweenness).

(** [betweenness_centrality(G, weight='weight', normalized=True)] *)
Definition betweenness_centrality (G : Graph) : result (list (Z * Q)) :=
  betweenness ←
    accumulate_sources_basic G (nodes G) (map (fun v => (v, 0%Q)) (nodes G));
  rescale betweenness (number_of_nodes G).

(** *** Bridges ([networkx.algorithms.bridges]) *)

Record tarjan_state : Type := {
  disc : gmap Z nat;          (* discovery order number *)
  low : gmap Z nat;           (* low-link value *)
  clock : nat;
  cut : list (Z * Z)          (* tree edges found to be bridges *)
}.

Definition low_of (st : tarjan_state) (v : Z) : nat :=
  default O (low st !! v).

Definition lower (u : Z) (k : nat) (st : tarjan_state) : tarjan_state :=
  {| disc := disc st;
     low := <[u := Nat.min (low_of st u) k]> (low st);
     clock := clock st;
     cut := cut st |}.

Definition discover (u : Z) (st : tarjan_state) : tarjan_state :=
  {| disc := <[u := clock st]> (disc st);
     low := <[u := clock st]> (low st);
     clock := S (clock st);
     cut := cut st |}.

Definition report (u v : Z) (st : tarjan_state) : tarjan_state :=
  {| disc := disc st; low := low st; clock := clock st;
     cut := (u, v) :: cut st |}.

(** Modelled from the spec: [networkx.bridges] is library code that is
    not part of the sources; the detection follows the design of the
    structural critical-point detector (one depth-first traversal with
    discovery numbers and low-link values, the edge used to enter a node
    is not a back-edge, and the tree edge [(u, v)] is a bridge iff
    [low-link(v) > discovery(u)]).

    [visit] is the traversal started at a child; [dfs_children] scans the
    adjacency of [u], entered from [parent]. *)
Fixpoint dfs_children (visit : Z -> tarjan_state -> result tarjan_state)
    (parent : option Z) (u : Z) (nbrs : list Z) (st : tarjan_state)
    : result tarjan_state :=
  match nbrs with
  | [] => Ok st
  | v :: rest =>
      if decide (parent = Some v) then dfs_children visit parent u rest st
      else
        match disc st !! v with
        | Some dv => dfs_children visit parent u rest (lower u dv st)
        | None =>
            st1 ← visit v st;
            let st2 := lower u (low_of st1 v) st1 in
            let st3 :=
              match disc st2 !! u with
              | Some du =>
                  if decide (du < low_of st2 v)%nat then report u v st2
                  else st2
              | None => st2
              end in
            dfs_children visit parent u rest st3
        end
  end.

Fixpoint dfs_visit (fuel : nat) (G : Graph) (parent : option Z) (u : Z)
    (st : tarjan_state) : result tarjan_state :=
  match fuel with
  | O => OutOfFuel
  | S fuel' =>
      dfs_children (dfs_visit fuel' G (Some u)) parent u (neighbors G u)
        (discover u st)
  end.

(** The traversal restarts from every node not yet discovered. *)
Fixpoint dfs_roots (G : Graph) (roots : list Z) (st : tarjan_state)
    : result tarjan_state :=
  match roots with
  | [] => Ok st
  | r :: rest =>
      match disc st !! r with
      | Some _ => dfs_roots G rest st
      | None =>
          st' ← dfs_visit (length G) G None r st;
          dfs_roots G rest st'
      end
  end.

Definition tarjan (G : Graph) : result tarjan_state :=
  dfs_roots G (nodes G)
    {| disc := ∅; low := ∅; clock := O; cut := [] |}.

(** [list(nx.bridges(G))]: the edges of [G.edges()], in that order and
    orientation, that the traversal found to be bridges. *)
Definition bridges (G : Graph) : result (list (Z * Z)) :=
  st ← tarjan G;
  Ok (filter (fun '(u, v) =>
                bool_decide ((u, v) ∈ cut st) || bool_decide ((v, u) ∈ cut st))
             (edges G)).

End nx.


(** ** The graph invariant

    What [add_node], [add_edge], [remove_edge] and [copy] maintain: every
    node has one adjacency dict, a dict has one entry per neighbour, and
    the two entries of an edge carry the same data. *)

Record wf_graph (G : nx.Graph) : Prop := {
  wf_nodes : NoDup (nx.nodes G);
  wf_neighbors : forall u, NoDup (nx.neighbors G u);
  wf_sym : forall u v, nx.weight G u v = nx.weight G v u
}.

(** A graph of the data model has no self-loop. *)
Definition loop_free (G : nx.Graph) : Prop :=
  forall u, nx.has_edge G u u = false.

(** ** Python built-ins used by the analysers *)

(** [sorted(xs)] on integers. *)
Fixpoint insert_asc (x : Z) (xs : list Z) : list Z :=
  match xs with
  | [] => [x]
  | y :: ys => if Z.ltb x y then x :: xs else y :: insert_asc x ys
  end.

Definition sorted_asc (xs : list Z) : list Z := fold_right insert_asc [] xs.

(** [sorted(xs, key=..., reverse=True)]: stable, largest key first. *)
Fixpoint insert_desc {A : Type} (key : A -> Q) (x : A) (xs : list A)
    : list A :=
  match xs with
  | [] => [x]
  | y :: ys =>
      if Qlt_le_dec (key y) (key x) then x :: xs
      else y :: insert_desc key x ys
  end.

Definition sorted_desc {A : Type} (key : A -> Q) (xs : list A) : list A :=
  fold_left (fun acc x => insert_desc key x acc) xs [].

(** [min(xs, key=len)]: the first of the smallest. *)
Fixpoint min_by_size (best : gset Z) (cs : list (gset Z)) : gset Z :=
  match cs with
  | [] => best
  | c :: rest =>
      if decide (size c < size best)%nat then min_by_size c rest
      else min_by_size best rest
  end.

(** [tuple(sorted([no1, no2]))] *)
Definition chave (no1 no2 : Z) : Z * Z := (Z.min no1 no2, Z.max no1 no2).

(** ** Loading ([carregar_dados], the same in the four analysers)

    The two files are taken as parsed: a record of [brasilia_edge_info.txt]
    is [id no1 x1 y1 no2 x2 y2 distancia], a record of [brasilia.net] is
    [no1 no2]. *)

Record edge_info : Type := {
  ei_no1 : Z; ei_x1 : Q; ei_y1 : Q;
  ei_no2 : Z; ei_x2 : Q; ei_y2 : Q;
  ei_distancia : Q
}.

Record dados : Type := {
  dados_grafo : nx.Graph;
  coordenadas : list (Z * (Q * Q));
  distancias : list (Z * Z * Q);
  arestas_adicionadas : Z;
  arestas_sem_distancia : Z     (* counted by the exploratory analyser *)
}.

(** First loop: coordinates and the distance table. *)
Definition ler_edge_info (infos : list edge_info)
    : list (Z * (Q * Q)) * list (Z * Z * Q) :=
  fold_left
    (fun '(coords, dists) r =>
       (PyDict.set (ei_no2 r) (ei_x2 r, ei_y2 r)
          (PyDict.set (ei_no1 r) (ei_x1 r, ei_y1 r) coords),
        PyDict.set (chave (ei_no1 r) (ei_no2 r)) (ei_distancia r) dists))
    infos ([], []).

(** Second loop: one [add_edge] per record of the edge list, with the
    distance of the table or [0] when the table has none. *)
Definition ler_net_step (dists : list (Z * Z * Q))
    (acc : nx.Graph * Z * Z) (r : Z * Z) : nx.Graph * Z * Z :=
  let '(G, adicionadas, sem_distancia) := acc in
  let '(no1, no2) := r in
  let distancia := PyDict.get_default (chave no1 no2) 0%Q dists in
  (nx.add_edge no1 no2 distancia G,
   adicionadas + 1,
   if Qeq_bool distancia 0 then sem_distancia + 1 else sem_distancia).

Definition ler_net (dists : list (Z * Z * Q)) (net : list (Z * Z))
    : nx.Graph * Z * Z :=
  fold_left (ler_net_step dists) net (nx.empty, 0, 0).

Definition carregar_dados (infos : list edge_info) (net : list (Z * Z))
    : dados :=
  let '(coords, dists) := ler_edge_info infos in
  let '(G, adicionadas, sem_distancia) := ler_net dists net in
  {| dados_grafo := G; coordenadas := coords; distancias := dists;
     arestas_adicionadas := adicionadas;
     arestas_sem_distancia := sem_distancia |}.

(** ** [AnalisadorCentralidades] *)

Module Centralidades.

Record analisador : Type := {
  grafo : nx.Graph;
  degree_centrality : list (Z * Q);
  betweenness_centrality : list (Z * Q);
  closeness_centrality : list (Z * Q);
  edge_betweenness_centrality : list (Z * Z * Q)
}.

(** [{no: grau / max_grau for no, grau in graus.items()}] *)
Definition calcular_degree (G : nx.Graph) : result (list (Z * Q)) :=
  let graus := nx.degree_view G in
  let max_grau := nx.number_of_nodes G - 1 in
  mapM (fun '(no, grau) =>
          c ← py_div (inject_Z grau) (inject_Z max_grau); Ok (no, c))
       graus.

(** [calcular_centralidades]: the four measures, in the order of the
    source; an exception of any of them leaves the method. *)
Definition calcular_centralidades (self : analisador) : result analisador :=
  dc ← calcular_degree (grafo self);
  bc ← nx.betweenness_centrality (grafo self);
  cc ← nx.closeness_centrality (grafo self);
  ebc ← nx.edge_betweenness_centrality (grafo self) true;
  Ok {| grafo := grafo self;
        degree_centrality := dc;
        betweenness_centrality := bc;
        closeness_centrality := cc;
        edge_betweenness_centrality := ebc |}.

End Centralidades.

(** ** [AnalisadorEstrutural] *)

Module Estrutural.

(** [identificar_pontes]: [self.pontes = list(nx.bridges(self.grafo))] *)
Definition identificar_pontes (G : nx.Graph) : result (list (Z * Z)) :=
  nx.bridges G.

End Estrutural.

(** ** [AnalisadorImpacto]

    Graphs are Python objects: [self.grafo] holds a reference, [copy()]
    allocates a new object and [remove_edge] updates an object in place.
    The store maps references to graph values. *)

Module Impacto.

Abbreviation store := (list nx.Graph).

Record analisador : Type := {
  grafo : option nat;               (* [None] until [carregar_dados] *)
  tabela_distancias : list (Z * Z * Q)
}.

Record resultado : Type := {
  aresta : Z * Z;
  distancia : Q;
  edge_betweenness : Q;
  componentes_antes : Z;
  componentes_depois : Z;
  is_conexo_antes : bool;
  is_conexo_depois : bool;
  tamanhos_componentes : list Z;
  nos_isolados : list Z;
  aumentos_distancia : list Q;
  pares_desconectados : Z
}.

(** Reading through a reference; [None.copy()] and the like are an
    [AttributeError]. *)
Definition deref (h : store) (r : option nat) : result nx.Graph :=
  match r with
  | Some a => match h !! a with Some G => Ok G | None => Raise AttributeError end
  | None => Raise AttributeError
  end.

(** [G.copy()] on the object at [r]: a fresh object. *)
Definition copy_ref (h : store) (r : option nat) : result (store * nat) :=
  G ← deref h r; Ok (h ++ [nx.copy G], length h).

(** [G.remove_edge(u, v)] on the object at [a]. *)
Definition remove_edge_ref (h : store) (a : nat) (u v : Z) : result store :=
  G ← deref h (Some a);
  G' ← nx.remove_edge u v G;
  Ok (<[a := G']> h).

(** The body of the two nested loops over [nos_amostra], for one pair. *)
Definition comparar_par (G Gmod : nx.Graph) (origem destino : Z)
    (acc : list Q * Z) : result (list Q * Z) :=
  if bool_decide (destino <= origem) then Ok acc
  else
    match nx.shortest_path_length G origem destino with
    | Raise NetworkXNoPath => Ok acc
    | Raise e => Raise e
    | OutOfFuel => OutOfFuel
    | Ok dist_original =>
        match nx.shortest_path_length Gmod origem destino with
        | Raise NetworkXNoPath => Ok (fst acc, snd acc + 1)
        | Raise e => Raise e
        | OutOfFuel => OutOfFuel
        | Ok dist_nova =>
            if Qlt_le_dec dist_original dist_nova then
              q ← py_div (dist_nova - dist_original) dist_original;
              Ok (fst acc ++ [(q * 100)%Q], snd acc)
            else Ok acc
        end
    end.

Fixpoint comparar_destinos (G Gmod : nx.Graph) (origem : Z)
    (destinos : list Z) (acc : list Q * Z) : result (list Q * Z) :=
  match destinos with
  | [] => Ok acc
  | destino :: rest =>
      acc' ← comparar_par G Gmod origem destino acc;
      comparar_destinos G Gmod origem rest acc'
  end.

Fixpoint comparar_origens (G Gmod : nx.Graph) (origens amostra : list Z)
    (acc : list Q * Z) : result (list Q * Z) :=
  match origens with
  | [] => Ok acc
  | origem :: rest =>
      acc' ← comparar_destinos G Gmod origem amostra acc;
      comparar_origens G Gmod rest amostra acc'
  end.

(** One iteration of [for idx, aresta_remover in enumerate(arestas_simular, 1)]. *)
Definition simular_uma (self : analisador) (edge_bet : list (Z * Z * Q))
    (h : store) (aresta_remover : Z * Z) : result (store * resultado) :=
  let '(u, v) := aresta_remover in
  let dist := PyDict.get_default (chave u v) 0%Q (tabela_distancias self) in
  let edge_bet_uv := PyDict.get_default aresta_remover 0%Q edge_bet in
  '(h1, modificado) ← copy_ref h (grafo self);
  h2 ← remove_edge_ref h1 modificado u v;
  G ← deref h2 (grafo self);
  Gmod ← deref h2 (Some modificado);
  num_componentes_antes ← nx.number_connected_components G;
  conexo_antes ← nx.is_connected G;
  num_componentes_depois ← nx.number_connected_components Gmod;
  conexo_depois ← nx.is_connected Gmod;
  '(tamanhos, menor_componente) ←
    (if decide (1 < num_componentes_depois) then
       componentes ← nx.connected_components Gmod;
       Ok (map (fun c => Z.of_nat (size c)) componentes,
           match componentes with
           | [] => []
           | c :: cs => sorted_asc (elements (min_by_size c cs))
           end)
     else Ok ([], []));
  let nos_amostra := take 20 (nx.nodes G) in
  '(aumentos, sem_caminho) ←
    comparar_origens G Gmod nos_amostra nos_amostra ([], 0);
  Ok (h2,
      {| aresta := (u, v);
         distancia := dist;
         edge_betweenness := edge_bet_uv;
         componentes_antes := num_componentes_antes;
         componentes_depois := num_componentes_depois;
         is_conexo_antes := conexo_antes;
         is_conexo_depois := conexo_depois;
         tamanhos_componentes := rev (sorted_asc tamanhos);
         nos_isolados := menor_componente;
         aumentos_distancia := aumentos;
         pares_desconectados := sem_caminho |}).

Fixpoint simular_todas (self : analisador) (edge_bet : list (Z * Z * Q))
    (h : store) (arestas : list (Z * Z)) : result (store * list resultado) :=
  match arestas with
  | [] => Ok (h, [])
  | a :: rest =>
      '(h1, r) ← simular_uma self edge_bet h a;
      '(h2, rs) ← simular_todas self edge_bet h1 rest;
      Ok (h2, r :: rs)
  end.

(** [simular_remocao_ponte(aresta=None, top_n=1)] *)
Definition simular_remocao_ponte (self : analisador) (h : store)
    (aresta_opt : option (Z * Z)) (top_n : nat)
    : result (store * list resultado) :=
  G ← deref h (grafo self);
  pontes ← nx.bridges G;
  match pontes with
  | [] => Ok (h, [])
  | _ :: _ =>
      arestas_simular ←
        match aresta_opt with
        | None =>
            eb ← nx.edge_betweenness_centrality G true;
            let pontes_betweenness :=
              map (fun p => (p, PyDict.get_default p 0%Q eb)) pontes in
            Ok (map fst (take top_n (sorted_desc snd pontes_betweenness)))
        | Some a => Ok [a]
        end;
      eb ← nx.edge_betweenness_centrality G true;
      simular_todas self eb h arestas_simular
  end.

End Impacto.

(** ** Small graphs used as test inputs *)

Module Ex.

(** 1 - 2 - 3, unit weights *)
Definition path3 : nx.Graph :=
  nx.add_edge 2 3 1 (nx.add_edge 1 2 1 nx.empty).

(** the triangle 1, 2, 3 *)
Definition triangle : nx.Graph :=
  nx.add_edge 1 3 1 (nx.add_edge 2 3 1 (nx.add_edge 1 2 1 nx.empty)).

(** two components: 1 - 2 and 3 - 4 *)
Definition two_edges : nx.Graph :=
  nx.add_edge 3 4 1 (nx.add_edge 1 2 1 nx.empty).

(** a self-loop on 1 and the edge 1 - 2, as the edge list
    [1 1], [1 2] loads it *)
Definition with_loop : nx.Graph :=
  nx.add_edge 1 2 1 (nx.add_edge 1 1 1 nx.empty).

(** one node and no edge *)
Definition single : nx.Graph := nx.add_node 1 nx.empty.

(** one node with a self-loop, as the edge list [1 1] loads it *)
Definition single_loop : nx.Graph := nx.add_edge 1 1 0 nx.empty.

(** a triangle with the pendant edge 3 - 4 *)
Definition kite : nx.Graph :=
  nx.add_edge 3 4 1 triangle.

End Ex.

(** ** Notions used in the statements and proofs *)

(** Adjacency entries of the nodes that are not settled yet: the measure
    that bounds the heap loops of the shortest-path engine. *)
Fixpoint pending (G : nx.Graph) (settled : list (Z * Q)) : nat :=
  match G with
  | [] => O
  | (u, d) :: G' =>
      ((if PyDict.mem u settled then O else length d) + pending G' settled)%nat
  end.

(** An analyser right after loading the triangle. *)
Definition triangle_loaded : Centralidades.analisador :=
  {| Centralidades.grafo := Ex.triangle;
     Centralidades.degree_centrality := [];
     Centralidades.betweenness_centrality := [];
     Centralidades.closeness_centrality := [];
     Centralidades.edge_betweenness_centrality := [] |}.

(** The same analyser after one [calcular_centralidades]. *)
Definition triangle_computed : Centralidades.analisador :=
  Eval vm_compute in
    match Centralidades.calcular_centralidades triangle_loaded with
    | Ok s => s
    | _ => triangle_loaded
    end.

(** The accumulation of Brandes' algorithm on the path 1 - 2 - 3. *)
Definition path3_accumulation : list (Z * Z * Q) :=
  Eval vm_compute in
    match nx.edge_accumulation Ex.path3 with Ok a => a | _ => [] end.

(** The node pairs that the two loops of the simulation compare:
    [origem < destino], in loop order. *)
Definition pares_amostra (amostra : list Z) : list (Z * Z) :=
  flat_map
    (fun origem =>
       map (pair origem)
           (filter (fun destino => origem < destino) amostra))
    amostra.

(** What a compared pair contributes to [aumentos]: the percentage
    increase of its shortest-path length when both graphs have a path and
    the removal made it strictly longer. *)
Definition aumento_par (G Gmod : nx.Graph) (p : Z * Z) : list Q :=
  match nx.shortest_path_length G p.1 p.2,
        nx.shortest_path_length Gmod p.1 p.2 with
  | Ok dist_original, Ok dist_nova =>
      if Qlt_le_dec dist_original dist_nova
      then [((dist_nova - dist_original) / dist_original * 100)%Q]
      else []
  | _, _ => []
  end.

(** A compared pair that had a path and lost it. *)
Definition desconectado_par (G Gmod : nx.Graph) (p : Z * Z) : bool :=
  match nx.shortest_path_length G p.1 p.2,
        nx.shortest_path_length Gmod p.1 p.2 with
  | Ok _, Raise NetworkXNoPath => true
  | _, _ => false
  end.

(** An impact analyser whose graph is the first object of the store. *)
Definition impacto_loaded : Impacto.analisador :=
  {| Impacto.grafo := Some O; Impacto.tabela_distancias := [] |}.

(** Removal of the edge (2, 3) from the path 1 - 2 - 3: the store and
    the results after the simulation. *)
Definition path3_simulation : Impacto.store * list Impacto.resultado :=
  Eval vm_compute in
    match Impacto.simular_remocao_ponte impacto_loaded [Ex.path3]
            (Some (2, 3)) 1 with
    | Ok p => p
    | _ => ([], [])
    end.

(** How many of the pairs lost their path. *)
Definition conta_desconectados (G Gmod : nx.Graph) (pares : list (Z * Z)) : Z :=
  Z.of_nat (length (filter (fun p => desconectado_par G Gmod p = true) pares)).

(** ** Connectivity *)

(** [y] is a neighbour of [x]. *)
Definition adjacent (G : nx.Graph) (x y : Z) : Prop := y ∈ nx.neighbors G x.

(** [x] and [y] are joined by a path. *)
Definition connected (G : nx.Graph) : relation Z := rtc (adjacent G).

(** [c] is the set of the nodes joined to [v]: the component of [v]. *)
Definition is_component (G : nx.Graph) (v : Z) (c : gset Z) : Prop :=
  forall x, x ∈ c <-> connected G v x.

(** Adjacency, and connectivity, in the graph without the edge [a - b]. *)
Definition adjacent_without (G : nx.Graph) (a b x y : Z) : Prop :=
  adjacent G x y /\ ~ ((x = a /\ y = b) \/ (x = b /\ y = a)).

Definition connected_without (G : nx.Graph) (a b : Z) : relation Z :=
  rtc (adjacent_without G a b).

(** ** The depth-first traversal: notions of its correctness proof *)

(** The nodes discovered so far. *)
Definition visited (st : nx.tarjan_state) : gset Z := dom (nx.disc st).

(** Joined by a path that stays inside [X]. *)
Definition connected_in (G : nx.Graph) (X : gset Z) : relation Z :=
  rtc (fun x y => adjacent G x y /\ x ∈ X /\ y ∈ X).

(** The edge [x - y] is not a bridge: its endpoints are joined without it. *)
Definition bypass (G : nx.Graph) (x y : Z) : Prop :=
  connected_without G x y x y.

(** The edge [x - y] is settled: reported, or known not to be a bridge. *)
Definition settled (G : nx.Graph) (st : nx.tarjan_state) (x y : Z) : Prop :=
  (x, y) ∈ nx.cut st \/ (y, x) ∈ nx.cut st \/ bypass G x y.

(** Every neighbour of [x] is discovered. *)
Definition closed_at (G : nx.Graph) (st : nx.tarjan_state) (x : Z) : Prop :=
  forall y, adjacent G x y -> y ∈ visited st.

(** Every discovered node that still has an undiscovered neighbour is
    joined to the node being scanned, inside the discovered nodes. *)
Definition gray (G : nx.Graph) (st : nx.tarjan_state) (parent : option Z)
    : Prop :=
  forall w, w ∈ visited st ->
    (exists y, adjacent G w y /\ y ∉ visited st) ->
    match parent with
    | Some p => connected_in G (visited st) w p
    | None => False
    end.

Record st_ok (G : nx.Graph) (st : nx.tarjan_state) : Prop := {
  ok_clock : forall x k, nx.disc st !! x = Some k -> (k < nx.clock st)%nat;
  ok_cut : forall p c, (p, c) ∈ nx.cut st -> adjacent G p c /\ ~ bypass G p c
}.

(** What the traversal started at [u], entered from [parent], achieves. *)
Record visit_post (G : nx.Graph) (parent : option Z) (u : Z)
    (st st' : nx.tarjan_state) : Prop := {
  vp_ok : st_ok G st';
  vp_disc_frame : forall x, x ∈ visited st -> nx.disc st' !! x = nx.disc st !! x;
  vp_low_frame : forall x, x ∈ visited st -> nx.low st' !! x = nx.low st !! x;
  vp_cut_mono : forall e, e ∈ nx.cut st -> e ∈ nx.cut st';
  vp_disc_u : nx.disc st' !! u = Some (nx.clock st);
  vp_disc_new : forall x k,
    x ∉ visited st -> nx.disc st' !! x = Some k -> (nx.clock st <= k)%nat;
  vp_closed : forall x,
    x ∈ visited st' -> x ∉ visited st -> closed_at G st' x;
  vp_conn : forall x,
    x ∈ visited st' -> x ∉ visited st ->
    connected_in G (visited st' ∖ visited st) u x;
  vp_edges : forall x y,
    x ∈ visited st' -> x ∉ visited st -> adjacent G x y ->
    (x = u /\ parent = Some y) \/ settled G st' x y;
  vp_low_le : (nx.low_of st' u <= nx.clock st)%nat;
  vp_low_wit :
    (nx.low_of st' u < nx.clock st)%nat ->
    exists x w,
      x ∈ visited st' /\ x ∉ visited st /\ adjacent G x w
      /\ ~ (x = u /\ parent = Some w)
      /\ nx.disc st !! w = Some (nx.low_of st' u);
  vp_low_min : forall x w k,
    x ∈ visited st' -> x ∉ visited st -> adjacent G x w ->
    ~ (x = u /\ parent = Some w) ->
    nx.disc st !! w = Some k -> (nx.low_of st' u <= k)%nat
}.

(** The invariant of the scan of the adjacency of [u]: [st0] is the
    state when [u] was entered, [pre] the neighbours already scanned. *)
Record loop_inv (G : nx.Graph) (parent : option Z) (u : Z)
    (st0 : nx.tarjan_state) (pre : list Z) (cur : nx.tarjan_state) : Prop := {
  li_ok : st_ok G cur;
  li_disc_frame : forall x,
    x ∈ visited st0 -> nx.disc cur !! x = nx.disc st0 !! x;
  li_low_frame : forall x,
    x ∈ visited st0 -> nx.low cur !! x = nx.low st0 !! x;
  li_cut_mono : forall e, e ∈ nx.cut st0 -> e ∈ nx.cut cur;
  li_disc_u : nx.disc cur !! u = Some (nx.clock st0);
  li_disc_new : forall x k,
    x ∉ visited st0 -> nx.disc cur !! x = Some k -> (nx.clock st0 <= k)%nat;
  li_closed : forall x,
    x ∈ visited cur -> x ∉ visited st0 -> x <> u -> closed_at G cur x;
  li_pre_adjacent : forall y, y ∈ pre -> adjacent G u y;
  li_pre_visited : forall y, y ∈ pre -> y ∈ visited cur;
  li_conn : forall x,
    x ∈ visited cur -> x ∉ visited st0 -> x <> u ->
    exists c, c ∈ pre
      /\ connected_in G (visited cur ∖ visited st0 ∖ {[u]}) c x;
  li_edges : forall x y,
    x ∈ visited cur -> x ∉ visited st0 -> x <> u -> adjacent G x y ->
    settled G cur x y;
  li_edges_u : forall y, y ∈ pre -> parent = Some y \/ settled G cur u y;
  li_low_le : (nx.low_of cur u <= nx.clock st0)%nat;
  li_low_wit :
    (nx.low_of cur u < nx.clock st0)%nat ->
    exists x w,
      x ∈ visited cur /\ x ∉ visited st0 /\ adjacent G x w
      /\ ~ (x = u /\ parent = Some w)
      /\ nx.disc st0 !! w = Some (nx.low_of cur u);
  li_low_min : forall x w k,
    x ∈ visited cur -> x ∉ visited st0 -> (x <> u \/ w ∈ pre) ->
    adjacent G x w -> ~ (x = u /\ parent = Some w) ->
    nx.disc st0 !! w = Some k -> (nx.low_of cur u <= k)%nat
}.

(** The invariant of the loop over the roots. *)
Record roots_inv (G : nx.Graph) (st : nx.tarjan_state) : Prop := {
  ri_ok : st_ok G st;
  ri_closed : forall x, x ∈ visited st -> closed_at G st x;
  ri_edges : forall x y, x ∈ visited st -> adjacent G x y -> settled G st x y
}.

(** The edge [u - v] is among the reported bridges, in either
    orientation. *)
Definition reported (pontes : list (Z * Z)) (u v : Z) : Prop :=
  (u, v) ∈ pontes \/ (v, u) ∈ pontes.

(** The store of the simulation holds well-formed graphs. *)
Definition store_wf (h : list nx.Graph) : Prop :=
  forall a G, h !! a = Some G -> wf_graph G.

(** ** The shortest-path engine: notions of its correctness proof *)

(** [x] is settled or waits in the heap. *)
Definition known (st : nx.dijkstra_state) (x : Z) : Prop :=
  x ∈ PyDict.keys (nx.dist st) \/ exists d c, (d, c, x) ∈ nx.fringe st.

(** What every pass of [while fringe] keeps, for the source [s]. *)
Record reach_inv (G : nx.Graph) (s : Z) (st : nx.dijkstra_state) : Prop := {
  reach_sound : forall x, known st x -> connected G s x;
  reach_seen : forall x, x ∈ PyDict.keys (nx.seen st) -> known st x;
  reach_closed : forall x y,
    x ∈ PyDict.keys (nx.dist st) -> adjacent G x y -> known st y;
  reach_nodup : NoDup (PyDict.keys (nx.dist st));
  reach_source : known st s
}.

(** A walk from [s] along adjacency entries, with the sum of its weights. *)
Inductive walk (G : nx.Graph) (s : Z) : Z -> Q -> Prop :=
  | walk_nil : walk G s s 0
  | walk_step y z w d :
      walk G s y d -> (z, w) ∈ nx.adj G y -> walk G s z (d + w).

(** [d] is the length of a shortest walk from [s] to [x]. *)
Definition is_shortest (G : nx.Graph) (s x : Z) (d : Q) : Prop :=
  walk G s x d /\ forall d', walk G s x d' -> (d <= d')%Q.

(** No edge has a negative weight. *)
Definition nonneg_weights (G : nx.Graph) : Prop :=
  forall y z w, (z, w) ∈ nx.adj G y -> (0 <= w)%Q.

(** What every pass of [while fringe] keeps about the distances. *)
Record dist_inv (G : nx.Graph) (s : Z) (st : nx.dijkstra_state) : Prop := {
  di_dist : forall x d,
    PyDict.get x (nx.dist st) = Some d -> is_shortest G s x d;
  di_fringe : forall d c x, (d, c, x) ∈ nx.fringe st -> walk G s x d;
  di_seen : forall x d,
    PyDict.get x (nx.seen st) = Some d ->
    x ∈ PyDict.keys (nx.dist st) \/ exists c, (d, c, x) ∈ nx.fringe st;
  di_relaxed : forall x dx y w,
    PyDict.get x (nx.dist st) = Some dx -> (y, w) ∈ nx.adj G x ->
    y ∈ PyDict.keys (nx.dist st)
    \/ exists dy, PyDict.get y (nx.seen st) = Some dy /\ (dy <= dx + w)%Q;
  di_source :
    s ∈ PyDict.keys (nx.dist st) \/ exists c, (0%Q, c, s) ∈ nx.fringe st
}.

(** ** The tables of the loader as sequences of writes *)

(** The value written last under the key [k]. *)
Definition ultima {K V : Type} `{EqDecision K} (k : K) (ws : list (K * V))
    : option V :=
  snd <$> last (filter (fun w => w.1 = k) ws).

(** [self.distancias[chave] = distancia], one write per record. *)
Definition escritas_distancias (infos : list edge_info) : list (Z * Z * Q) :=
  map (fun r => (chave (ei_no1 r) (ei_no2 r), ei_distancia r)) infos.

(** [self.coordenadas[no1] = (x1, y1); self.coordenadas[no2] = (x2, y2)],
    two writes per record. *)
Definition escritas_coordenadas (infos : list edge_info)
    : list (Z * (Q * Q)) :=
  flat_map (fun r => [(ei_no1 r, (ei_x1 r, ei_y1 r));
                      (ei_no2 r, (ei_x2 r, ei_y2 r))]) infos.

(** ** [AnalisadorGrafoBrasilia.calcular_estatisticas_basicas] *)

(** [np.mean(xs)] of a non-empty list. *)
Definition np_mean (xs : list Q) : Q :=
  (py_sum xs / inject_Z (Z.of_nat (length xs)))%Q.

(** [nx.density(G)] of an undirected graph:
    [if m == 0 or n <= 1: return 0], else [m / (n * (n - 1)) * 2]. *)
Definition density (G : nx.Graph) : Q :=
  let n := nx.number_of_nodes G in
  let m := nx.number_of_edges G in
  if bool_decide (m = 0 \/ n <= 1) then 0%Q
  else (inject_Z m / inject_Z (n * (n - 1)) * 2)%Q.

Module Exploratoria.

(** The dict that the method returns. *)
Record estatisticas : Type := {
  num_nos : Z;
  num_arestas : Z;
  grau_medio : Q;
  densidade : Q;
  is_conectado : bool;
  graus : list (Z * Z)
}.

(** [calcular_estatisticas_basicas], without what it prints.  On a graph
    without nodes [np.mean] and [np.median] give [nan] and the following
    [min(graus_valores)] raises [ValueError]; when the graph is not
    connected the components are computed for the printed sizes. *)
Definition calcular_estatisticas_basicas (G : nx.Graph)
    : result estatisticas :=
  let num_nos := nx.number_of_nodes G in
  let num_arestas := nx.number_of_edges G in
  let graus := nx.degree_view G in
  let graus_valores := PyDict.values graus in
  match graus_valores with
  | [] => Raise ValueError
  | _ :: _ =>
      let grau_medio := np_mean (map inject_Z graus_valores) in
      let densidade := density G in
      is_conectado ← nx.is_connected G;
      _ ← (if is_conectado then Ok tt
           else
             num_componentes ← nx.number_connected_components G;
             componentes ← nx.connected_components G;
             match componentes with
             | [] => Raise ValueError
             | _ :: _ => Ok tt
             end);
      Ok {| num_nos := num_nos;
            num_arestas := num_arestas;
            grau_medio := grau_medio;
            densidade := densidade;
            is_conectado := is_conectado;
            graus := graus |}
  end.

End Exploratoria.

(** ** [AnalisadorCentralidades]: rankings and export *)

(** [sorted(d.items(), key=lambda x: x[1], reverse=True)[:top_n]], for
    [top_n >= 0]. *)
Definition ranking {K : Type} (top_n : nat) (d : list (K * Q))
    : list (K * Q) :=
  take top_n (sorted_desc snd d).

(** The rows that [criar_rankings] prints: node, real degree and
    centrality; node, centrality and coordinates (twice); the two nodes
    of an edge, its distance and its centrality. *)
Record rankings : Type := {
  top_degree : list (Z * Z * Q);
  top_betweenness : list (Z * Q * (Q * Q));
  top_closeness : list (Z * Q * (Q * Q));
  top_edge_betweenness : list (Z * Z * Q * Q)
}.

(** [criar_rankings(top_n)]; [self.coordenadas] and [self.distancias]
    are passed beside the analyser.  [graus[no]] is a [KeyError] for a
    ranked node that the graph does not have. *)
Definition criar_rankings (self : Centralidades.analisador)
    (coordenadas : list (Z * (Q * Q))) (distancias : list (Z * Z * Q))
    (top_n : nat) : result rankings :=
  let graus := nx.degree_view (Centralidades.grafo self) in
  let com_coord :=
    map (fun '(no, centralidade) =>
           (no, centralidade,
            PyDict.get_default no (0%Q, 0%Q) coordenadas)) in
  td ← mapM (fun '(no, centralidade) =>
               grau ← nx.lookup no graus; Ok (no, grau, centralidade))
            (ranking top_n (Centralidades.degree_centrality self));
  Ok {| top_degree := td;
        top_betweenness :=
          com_coord (ranking top_n (Centralidades.betweenness_centrality self));
        top_closeness :=
          com_coord (ranking top_n (Centralidades.closeness_centrality self));
        top_edge_betweenness :=
          map (fun '((no1, no2), centralidade) =>
                 (no1, no2,
                  PyDict.get_default (chave no1 no2) 0%Q distancias,
                  centralidade))
              (ranking top_n
                 (Centralidades.edge_betweenness_centrality self)) |}.

(** A row of [03_metricas_nodes_centralidades.csv]. *)
Record node_row : Type := {
  Node : Z;
  Degree : Z;
  Degree_Centrality : Q;
  Betweenness_Centrality : Q;
  Closeness_Centrality : Q;
  X_Coord : Q;
  Y_Coord : Q
}.

(** A row of [04_metricas_edges_centralidades.csv]. *)
Record edge_row : Type := {
  Node1 : Z;
  Node2 : Z;
  Distance : Q;
  Edge_Betweenness_Centrality : Q
}.

(** The rows of a data frame built from seven columns of one length. *)
Fixpoint node_rows (ns gs : list Z) (dcs bcs ccs xs ys : list Q)
    : list node_row :=
  match ns, gs, dcs, bcs, ccs, xs, ys with
  | n :: ns', g :: gs', dc :: dcs', bc :: bcs', cc :: ccs', x :: xs',
    y :: ys' =>
      {| Node := n; Degree := g; Degree_Centrality := dc;
         Betweenness_Centrality := bc; Closeness_Centrality := cc;
         X_Coord := x; Y_Coord := y |}
      :: node_rows ns' gs' dcs' bcs' ccs' xs' ys'
  | _, _, _, _, _, _, _ => []
  end.

(** [exportar_metricas], as the two data frames it writes.  The columns
    of the node frame are built one after the other, each by a
    comprehension over [self.grafo.nodes()]; a missing key is a
    [KeyError]. *)
Definition exportar_metricas (self : Centralidades.analisador)
    (coordenadas : list (Z * (Q * Q))) (distancias : list (Z * Z * Q))
    : result (list node_row * list edge_row) :=
  let nos := nx.nodes (Centralidades.grafo self) in
  let graus := nx.degree_view (Centralidades.grafo self) in
  gs ← mapM (fun n => nx.lookup n graus) nos;
  dcs ← mapM (fun n => nx.lookup n (Centralidades.degree_centrality self)) nos;
  bcs ← mapM (fun n => nx.lookup n (Centralidades.betweenness_centrality self))
          nos;
  ccs ← mapM (fun n => nx.lookup n (Centralidades.closeness_centrality self))
          nos;
  xs ← mapM (fun n => c ← nx.lookup n coordenadas; Ok (fst c)) nos;
  ys ← mapM (fun n => c ← nx.lookup n coordenadas; Ok (snd c)) nos;
  let edges_data :=
    map (fun '((u, v), centralidade) =>
           {| Node1 := u; Node2 := v;
              Distance := PyDict.get_default (chave u v) 0%Q distancias;
              Edge_Betweenness_Centrality := centralidade |})
        (Centralidades.edge_betweenness_centrality self) in
  Ok (node_rows nos gs dcs bcs ccs xs ys, edges_data).

(** ** Inputs of the examples *)

(** Removal of the pendant edge (3, 4) of the kite: the store and the
    results after the simulation. *)
Definition kite_simulation : Impacto.store * list Impacto.resultado :=
  Eval vm_compute in
    match Impacto.simular_remocao_ponte impacto_loaded [Ex.kite]
            (Some (3, 4)) 1 with
    | Ok p => p
    | _ => ([], [])
    end.

(** Every edge has a positive weight. *)
Definition positive_weights (G : nx.Graph) : Prop :=
  forall y z w, (z, w) ∈ nx.adj G y -> (0 < w)%Q.

(** A triangle whose edge 1 - 2 has length 0, with the pendant edge
    3 - 4: the distance table has no entry for the pair (1, 2). *)
Definition zero_kite : nx.Graph :=
  nx.add_edge 3 4 1
    (nx.add_edge 2 3 1 (nx.add_edge 1 3 1 (nx.add_edge 1 2 0 nx.empty))).

(** Removal of the edge (1, 2) of the kite, which is no bridge: the
    pair (1, 2) has to go through node 3. *)
Definition kite_desvio : Impacto.store * list Impacto.resultado :=
  Eval vm_compute in
    match Impacto.simular_remocao_ponte impacto_loaded [Ex.kite]
            (Some (1, 2)) 1 with
    | Ok p => p
    | _ => ([], [])
    end.

(** A result without content, the default of [head]. *)
Definition impacto_vazio : Impacto.resultado :=
  {| Impacto.aresta := (0, 0);
     Impacto.distancia := 0;
     Impacto.edge_betweenness := 0;
     Impacto.componentes_antes := 0;
     Impacto.componentes_depois := 0;
     Impacto.is_conexo_antes := false;
     Impacto.is_conexo_depois := false;
     Impacto.tamanhos_componentes := [];
     Impacto.nos_isolados := [];
     Impacto.aumentos_distancia := [];
     Impacto.pares_desconectados := 0 |}.

(** ** The path-counting search of the betweenness measures *)

(** [sigma[x]] in a state of the search, 0 for a missing key. *)
Definition sig (st : nx.sssp_state) (x : Z) : Q :=
  PyDict.get_default x 0%Q (nx.sp_sigma st).

(** What every pass of [while Q] keeps, whatever the weights are: the
    dictionaries hold the keys that the loop reads, and the path count
    of a settled node is positive. *)
Record sssp_keys (G : nx.Graph) (st : nx.sssp_state) : Prop := {
  sk_S : nx.sp_S st = PyDict.keys (nx.sp_D st);
  sk_nodup : NoDup (PyDict.keys (nx.sp_D st));
  sk_sigma : forall x, x ∈ nx.nodes G -> x ∈ PyDict.keys (nx.sp_sigma st);
  sk_P : forall x, x ∈ nx.nodes G -> x ∈ PyDict.keys (nx.sp_P st);
  sk_seen : forall x, x ∈ PyDict.keys (nx.sp_seen st) -> x ∈ nx.nodes G;
  sk_D : forall x,
    x ∈ PyDict.keys (nx.sp_D st) -> x ∈ PyDict.keys (nx.sp_seen st);
  sk_heap : forall d c p v,
    (d, c, p, v) ∈ nx.sp_Q st ->
    v ∈ PyDict.keys (nx.sp_seen st)
    /\ (p ∈ PyDict.keys (nx.sp_D st)
        \/ (nx.sp_D st = [] /\ nx.sp_Q st = [(d, c, p, v)]
            /\ p ∈ nx.nodes G /\ (0 < sig st p)%Q));
  sk_nonneg : forall x, (0 <= sig st x)%Q;
  sk_pos : forall x, x ∈ PyDict.keys (nx.sp_D st) -> (0 < sig st x)%Q;
  sk_pred : forall w Pw u,
    PyDict.get w (nx.sp_P st) = Some Pw -> u ∈ Pw ->
    u ∈ PyDict.keys (nx.sp_D st) /\ adjacent G u w
}.

(** The adjacency entries that the search has scanned between two
    passes of its loop: those of the settled nodes. *)
Definition scanned_all (G : nx.Graph) (st : nx.sssp_state)
    (u w : Z) (c : Q) : Prop :=
  u ∈ PyDict.keys (nx.sp_D st) /\ (w, c) ∈ nx.adj G u.

(** The sum of a list of rationals. *)
Definition Qsum (l : list Q) : Q := foldr Qplus 0%Q l.

(** What the search keeps when every weight is positive; [sc] holds the
    adjacency entries scanned so far.  A node that waits in the heap has
    its best entry there, led by the first of its predecessors, and
    [sigma] counts the paths through the other predecessors; a settled
    node has all its predecessors and its final count. *)
Record brandes_inv (G : nx.Graph) (s : Z) (sc : Z -> Z -> Q -> Prop)
    (st : nx.sssp_state) : Prop := {
  bi_S : nx.sp_S st = PyDict.keys (nx.sp_D st);
  bi_nodup : NoDup (PyDict.keys (nx.sp_D st));
  bi_source : PyDict.get s (nx.sp_D st) = Some 0%Q;
  bi_source_P :
    PyDict.get s (nx.sp_P st) = Some [] /\ (sig st s == 2)%Q;
  bi_dist : forall x dx,
    PyDict.get x (nx.sp_D st) = Some dx -> is_shortest G s x dx;
  bi_sc : forall u w c,
    sc u w c -> u ∈ PyDict.keys (nx.sp_D st) /\ (w, c) ∈ nx.adj G u;
  bi_sc_seen : forall u w c, sc u w c -> w ∈ PyDict.keys (nx.sp_seen st);
  bi_seen_D : forall w dw,
    PyDict.get w (nx.sp_D st) = Some dw ->
    exists x, PyDict.get w (nx.sp_seen st) = Some x /\ (x == dw)%Q;
  bi_walk : forall d c p v, (d, c, p, v) ∈ nx.sp_Q st -> walk G s v d;
  bi_le : forall x dx d c p v,
    PyDict.get x (nx.sp_D st) = Some dx -> (d, c, p, v) ∈ nx.sp_Q st ->
    (dx <= d)%Q;
  bi_order : StronglySorted (fun a b => (snd a <= snd b)%Q) (nx.sp_D st);
  bi_entry : forall d c p w,
    (d, c, p, w) ∈ nx.sp_Q st -> w ∉ PyDict.keys (nx.sp_D st) ->
    exists x,
      PyDict.get w (nx.sp_seen st) = Some x /\ (x <= d)%Q
      /\ ((d <= x)%Q ->
          exists rest, PyDict.get w (nx.sp_P st) = Some (p :: rest));
  bi_pending : forall w x,
    PyDict.get w (nx.sp_seen st) = Some x -> w ∉ PyDict.keys (nx.sp_D st) ->
    exists c p rest,
      (x, c, p, w) ∈ nx.sp_Q st
      /\ PyDict.get w (nx.sp_P st) = Some (p :: rest)
      /\ NoDup (p :: rest)
      /\ (forall u, u ∈ p :: rest
            <-> exists cost du,
                  sc u w cost /\ PyDict.get u (nx.sp_D st) = Some du
                  /\ (du + cost == x)%Q)
      /\ (sig st w == Qsum (map (sig st) rest))%Q
      /\ (forall u cost du,
            sc u w cost -> PyDict.get u (nx.sp_D st) = Some du ->
            (x <= du + cost)%Q);
  bi_settled : forall w dw,
    PyDict.get w (nx.sp_D st) = Some dw -> w <> s ->
    exists Pw,
      PyDict.get w (nx.sp_P st) = Some Pw
      /\ NoDup Pw
      /\ (forall u, u ∈ Pw
            <-> exists cost du,
                  sc u w cost /\ PyDict.get u (nx.sp_D st) = Some du
                  /\ (du + cost == dw)%Q)
      /\ (sig st w == Qsum (map (sig st) Pw))%Q;
  bi_pos : forall w, w ∈ PyDict.keys (nx.sp_D st) -> (0 < sig st w)%Q
}.

(** ** Brandes' formulation of edge betweenness, after the specification

    For a source [s]: the distance [d v] of every node joined to [s],
    the number [sigma v] of shortest paths to it, its immediate
    predecessors on shortest paths, and the dependency [delta v] of the
    source on it; a pair of nodes that are not joined contributes
    nothing. *)

(** [u] is an immediate predecessor of [w] on a shortest path. *)
Definition precede (G : nx.Graph) (d : Z -> option Q) (u w : Z) : bool :=
  match d u, d w, nx.weight G u w with
  | Some du, Some dw, Some c => Qeq_bool (du + c) dw
  | _, _, _ => false
  end.

(** The part of the dependency on [w] that reaches it over the edge
    from [u]: the paths are split by their counts. *)
Definition credit (G : nx.Graph) (d : Z -> option Q) (sigma delta : Z -> Q)
    (u w : Z) : Q :=
  if precede G d u w then (sigma u / sigma w * (1 + delta w))%Q else 0%Q.

(** What the source adds to the betweenness of an edge, whichever way
    the shortest paths cross it. *)
Definition edge_credit (G : nx.Graph) (d : Z -> option Q)
    (sigma delta : Z -> Q) (e : Z * Z) : Q :=
  (credit G d sigma delta e.1 e.2 + credit G d sigma delta e.2 e.1)%Q.

Record brandes_source (G : nx.Graph) (s : Z) (d : Z -> option Q)
    (sigma delta : Z -> Q) : Prop := {
  bs_reach : forall v, d v = None <-> ~ connected G s v;
  bs_dist : forall v x, d v = Some x -> is_shortest G s v x;
  bs_sigma_source : (sigma s == 1)%Q;
  bs_sigma : forall w,
    connected G s w -> w <> s ->
    (sigma w
     == Qsum (map (fun u => if precede G d u w then sigma u else 0%Q)
                (nx.neighbors G w)))%Q;
  bs_sigma_pos : forall w, connected G s w -> (0 < sigma w)%Q;
  bs_delta : forall v,
    connected G s v ->
    (delta v == Qsum (map (credit G d sigma delta v) (nx.neighbors G v)))%Q
}.

(** [u in P[w]] in a state of the search. *)
Definition inP (st : nx.sssp_state) (u w : Z) : bool :=
  match PyDict.get w (nx.sp_P st) with
  | Some Pw => bool_decide (u ∈ Pw)
  | None => false
  end.

(** The amount that the accumulation adds for the predecessor [u] when
    it takes [w] from the stack, [delta w] being final then. *)
Definition cr (st : nx.sssp_state) (delta : Z -> Q) (u w : Z) : Q :=
  if inP st u w then (sig st u * ((1 + delta w) / sig st w))%Q else 0%Q.

(** [D.get(x)] in a state of the search: the distance of a settled
    node. *)
Definition dist_of (st : nx.sssp_state) (x : Z) : option Q :=
  PyDict.get x (nx.sp_D st).

(** What the accumulation keeps while it empties the stack: [T] holds
    the nodes taken so far, [delta] their final dependencies; every
    entry of [delta] and of [betweenness] has received the amounts of
    the nodes in [T]. *)
Definition acc_inv (st : nx.sssp_state) (bet0 : list (Z * Z * Q))
    (T : list Z) (delta : Z -> Q)
    (acc : list (Z * Z * Q) * list (Z * Q)) : Prop :=
  PyDict.keys (fst acc) = PyDict.keys bet0
  /\ (forall x, x ∈ nx.sp_S st ->
        exists q, PyDict.get x (snd acc) = Some q
          /\ (q == Qsum (map (cr st delta x) T))%Q)
  /\ (forall w, w ∈ T ->
        exists q, PyDict.get w (snd acc) = Some q /\ (q == delta w)%Q)
  /\ (forall a b q0,
        PyDict.get (a, b) bet0 = Some q0 ->
        exists q, PyDict.get (a, b) (fst acc) = Some q
          /\ (q == q0
                + Qsum (map (fun w =>
                              (if bool_decide (b = w) then cr st delta a w
                               else 0)
                              + (if bool_decide (a = w) then cr st delta b w
                                 else 0)) T))%Q).

(** * Properties of the embedding *)

(** ** Dictionaries *)

Section DictFacts.
Context {K V : Type} `{EqDecision K}.
Implicit Types (k : K) (v : V) (d : list (K * V)).

Lemma get_set k k' v d :
  PyDict.get k (PyDict.set k' v d)
  = if decide (k = k') then Some v else PyDict.get k d.
Proof.
  induction d as [|[k0 v0] d IH]; simpl.
  - destruct (decide (k = k')); reflexivity.
  - destruct (decide (k' = k0)) as [->|Hne]; simpl.
    + destruct (decide (k = k0)); reflexivity.
    + destruct (decide (k = k0)) as [->|].
      * destruct (decide (k0 = k')); congruence.
      * apply IH.
Qed.

Lemma get_None k d : PyDict.get k d = None <-> k ∉ PyDict.keys d.
Proof.
  induction d as [|[k0 v0] d IH]; simpl.
  - split; [intros _; apply not_elem_of_nil | reflexivity].
  - destruct (decide (k = k0)) as [->|Hne].
    + split; [discriminate | intros Hn; exfalso; apply Hn; left].
    + rewrite IH. rewrite not_elem_of_cons. tauto.
Qed.

Lemma mem_true k d : PyDict.mem k d = true <-> k ∈ PyDict.keys d.
Proof.
  unfold PyDict.mem. destruct (PyDict.get k d) eqn:E.
  - split; [intros _|reflexivity].
    destruct (decide (k ∈ PyDict.keys d)) as [|Hn]; [assumption|].
    apply get_None in Hn. congruence.
  - apply get_None in E. split; [discriminate | contradiction].
Qed.

Lemma mem_false k d : PyDict.mem k d = false <-> k ∉ PyDict.keys d.
Proof.
  rewrite <- mem_true. destruct (PyDict.mem k d); split; congruence.
Qed.

Lemma get_in k v d : PyDict.get k d = Some v -> (k, v) ∈ d.
Proof.
  induction d as [|[k0 v0] d IH]; simpl; [discriminate|].
  destruct (decide (k = k0)) as [->|Hne].
  - intros [= ->]. left.
  - intros Hg. right. auto.
Qed.

Lemma in_get k v d :
  NoDup (PyDict.keys d) -> (k, v) ∈ d -> PyDict.get k d = Some v.
Proof.
  induction d as [|[k0 v0] d IH]; simpl; intros Hnd Hin.
  - inversion Hin.
  - apply NoDup_cons in Hnd as [Hk0 Hnd].
    apply elem_of_cons in Hin as [Heq|Hin].
    + injection Heq as -> ->. destruct (decide (k0 = k0)); congruence.
    + destruct (decide (k = k0)) as [->|Hne]; [|auto].
      exfalso. apply Hk0. apply (list_elem_of_fmap_2 fst) in Hin. exact Hin.
Qed.

Lemma keys_set k v d :
  PyDict.keys (PyDict.set k v d)
  = if PyDict.mem k d then PyDict.keys d else PyDict.keys d ++ [k].
Proof.
  induction d as [|[k0 v0] d IH]; simpl; [reflexivity|].
  unfold PyDict.mem in *. simpl.
  destruct (decide (k = k0)) as [->|Hne]; simpl; [reflexivity|].
  rewrite IH. destruct (PyDict.get k d); reflexivity.
Qed.

Lemma keys_set_perm k v d :
  k ∈ PyDict.keys d -> PyDict.keys (PyDict.set k v d) = PyDict.keys d.
Proof. intros Hk. rewrite keys_set. apply mem_true in Hk. now rewrite Hk. Qed.

Lemma length_set_in k v d :
  k ∈ PyDict.keys d -> length (PyDict.set k v d) = length d.
Proof.
  intros Hk. pose proof (keys_set_perm k v d Hk) as Hl.
  apply (f_equal (@length K)) in Hl.
  unfold PyDict.keys in Hl. now rewrite !length_fmap in Hl.
Qed.

Lemma NoDup_keys_set k v d :
  NoDup (PyDict.keys d) -> NoDup (PyDict.keys (PyDict.set k v d)).
Proof.
  intros Hnd. rewrite keys_set. destruct (PyDict.mem k d) eqn:E; [assumption|].
  apply mem_false in E. apply NoDup_app. split; [assumption|].
  split; [|apply NoDup_singleton].
  intros x Hx Hx'. apply list_elem_of_singleton in Hx'. subst. contradiction.
Qed.

Lemma del_None k d : PyDict.del k d = None <-> k ∉ PyDict.keys d.
Proof.
  induction d as [|[k0 v0] d IH]; simpl.
  - split; [intros _; apply not_elem_of_nil | reflexivity].
  - destruct (decide (k = k0)) as [->|Hne].
    + split; [discriminate | intros Hn; exfalso; apply Hn; left].
    + rewrite not_elem_of_cons. destruct (PyDict.del k d).
      * split; [discriminate|]. intros [_ Hn]. apply IH in Hn. discriminate.
      * split; [|reflexivity]. intros _. split; [assumption|]. now apply IH.
Qed.

Lemma get_del k k' d d' :
  NoDup (PyDict.keys d) -> PyDict.del k d = Some d' ->
  PyDict.get k' d' = if decide (k' = k) then None else PyDict.get k' d.
Proof.
  revert d'. induction d as [|[k0 v0] d IH]; simpl; intros d' Hnd Hd.
  - discriminate.
  - apply NoDup_cons in Hnd as [Hk0 Hnd].
    destruct (decide (k = k0)) as [->|Hne].
    + injection Hd as <-. destruct (decide (k' = k0)) as [->|]; [|reflexivity].
      now apply get_None.
    + destruct (PyDict.del k d) as [r|] eqn:E; [|discriminate].
      injection Hd as <-. simpl.
      destruct (decide (k' = k0)) as [->|Hne'].
      * destruct (decide (k0 = k)); congruence.
      * now apply IH.
Qed.

Lemma keys_del k d d' :
  PyDict.del k d = Some d' ->
  forall x, x ∈ PyDict.keys d' -> x ∈ PyDict.keys d.
Proof.
  revert d'. induction d as [|[k0 v0] d IH]; simpl; intros d' Hd x Hx.
  - discriminate.
  - destruct (decide (k = k0)) as [->|Hne].
    + injection Hd as <-. now right.
    + destruct (PyDict.del k d) as [r|] eqn:E; [|discriminate].
      injection Hd as <-. simpl in Hx.
      apply elem_of_cons in Hx as [->|Hx]; [left | right; eauto].
Qed.

Lemma NoDup_keys_del k d d' :
  NoDup (PyDict.keys d) -> PyDict.del k d = Some d' -> NoDup (PyDict.keys d').
Proof.
  revert d'. induction d as [|[k0 v0] d IH]; simpl; intros d' Hnd Hd.
  - discriminate.
  - apply NoDup_cons in Hnd as [Hk0 Hnd].
    destruct (decide (k = k0)) as [->|Hne].
    + now injection Hd as <-.
    + destruct (PyDict.del k d) as [r|] eqn:E; [|discriminate].
      injection Hd as <-. simpl. apply NoDup_cons. split; [|auto].
      intros Hin. apply Hk0. eapply keys_del; eauto.
Qed.

Lemma length_del k d d' :
  PyDict.del k d = Some d' -> length d = S (length d').
Proof.
  revert d'. induction d as [|[k0 v0] d IH]; simpl; intros d' Hd.
  - discriminate.
  - destruct (decide (k = k0)) as [->|Hne].
    + now injection Hd as <-.
    + destruct (PyDict.del k d) as [r|] eqn:E; [|discriminate].
      injection Hd as <-. simpl. f_equal. now apply IH.
Qed.

End DictFacts.

(** ** The graph structure *)

Section GraphFacts.
Implicit Types (G : nx.Graph) (u v x y : Z) (w : Q).

Lemma has_node_true G x : nx.has_node G x = true <-> x ∈ nx.nodes G.
Proof. apply mem_true. Qed.

Lemma has_edge_neighbors G u v :
  nx.has_edge G u v = true <-> v ∈ nx.neighbors G u.
Proof. apply mem_true. Qed.

Lemma has_edge_weight G u v :
  nx.has_edge G u v = true <-> is_Some (nx.weight G u v).
Proof.
  unfold nx.has_edge, nx.weight, PyDict.mem.
  destruct (PyDict.get v (nx.adj G u)); split; intros Hx;
    try reflexivity; try discriminate; eauto.
  destruct Hx; discriminate.
Qed.

Lemma adj_not_node G x : x ∉ nx.nodes G -> nx.adj G x = [].
Proof.
  intros Hx. unfold nx.adj. apply get_None in Hx. now rewrite Hx.
Qed.

Lemma neighbors_node G u v : v ∈ nx.neighbors G u -> u ∈ nx.nodes G.
Proof.
  intros Hv. destruct (decide (u ∈ nx.nodes G)) as [|Hn]; [assumption|].
  unfold nx.neighbors in Hv. rewrite (adj_not_node G u Hn) in Hv.
  inversion Hv.
Qed.

Lemma adj_set G u d x :
  nx.adj (PyDict.set u d G) x = if decide (x = u) then d else nx.adj G x.
Proof. unfold nx.adj. rewrite get_set. now destruct (decide (x = u)). Qed.

Lemma nodes_add_node G n x :
  x ∈ nx.nodes (nx.add_node n G) <-> x ∈ nx.nodes G \/ x = n.
Proof.
  unfold nx.add_node. destruct (nx.has_node G n) eqn:E.
  - apply has_node_true in E. split; [auto|]. intros [?| ->]; assumption.
  - unfold nx.nodes, PyDict.keys. rewrite fmap_app, elem_of_app. simpl.
    rewrite list_elem_of_singleton. reflexivity.
Qed.

Lemma nodes_add_node_in G n :
  n ∈ nx.nodes G -> nx.add_node n G = G.
Proof.
  intros Hn. unfold nx.add_node. apply has_node_true in Hn. now rewrite Hn.
Qed.

Lemma NoDup_add_node G n :
  NoDup (nx.nodes G) -> NoDup (nx.nodes (nx.add_node n G)).
Proof.
  intros Hnd. unfold nx.add_node. destruct (nx.has_node G n) eqn:E; [assumption|].
  apply mem_false in E. unfold nx.nodes, PyDict.keys. rewrite fmap_app.
  apply NoDup_app. split; [assumption|]. split; [|apply NoDup_singleton].
  intros x Hx Hx'. apply list_elem_of_singleton in Hx'. subst. contradiction.
Qed.

Lemma get_app_not_in {V : Type} (k : Z) (d e : list (Z * V)) :
  PyDict.get k (d ++ e)
  = match PyDict.get k d with Some v => Some v | None => PyDict.get k e end.
Proof.
  induction d as [|[k0 v0] d IH]; simpl; [reflexivity|].
  destruct (decide (k = k0)); [reflexivity | apply IH].
Qed.

Lemma adj_add_node G n x : nx.adj (nx.add_node n G) x = nx.adj G x.
Proof.
  unfold nx.add_node. destruct (nx.has_node G n) eqn:E; [reflexivity|].
  unfold nx.adj. rewrite get_app_not_in. simpl.
  destruct (PyDict.get x G); [reflexivity|].
  destruct (decide (x = n)); reflexivity.
Qed.

Lemma weight_add_edge G a b w x y :
  nx.weight (nx.add_edge a b w G) x y
  = if decide ((x = a /\ y = b) \/ (x = b /\ y = a)) then Some w
    else nx.weight G x y.
Proof.
  unfold nx.weight, nx.add_edge. rewrite !adj_set.
  repeat (rewrite ?adj_set, ?adj_add_node, ?get_set; case_decide; subst);
    try reflexivity; try tauto; try congruence.
Qed.

Lemma nodes_set_in G u d : u ∈ nx.nodes G -> nx.nodes (PyDict.set u d G) = nx.nodes G.
Proof. apply keys_set_perm. Qed.

Lemma nodes_add_edge_eq G a b w :
  nx.nodes (nx.add_edge a b w G) = nx.nodes (nx.add_node b (nx.add_node a G)).
Proof.
  unfold nx.add_edge. rewrite !nodes_set_in; [reflexivity| |].
  - apply nodes_add_node. left. apply nodes_add_node. now right.
  - rewrite nodes_set_in; apply nodes_add_node; [now right|].
    left. apply nodes_add_node. now right.
Qed.

Lemma nodes_add_edge G a b w x :
  x ∈ nx.nodes (nx.add_edge a b w G) <-> x ∈ nx.nodes G \/ x = a \/ x = b.
Proof. rewrite nodes_add_edge_eq, !nodes_add_node. tauto. Qed.

Lemma nodes_add_edge_in G a b w :
  a ∈ nx.nodes G -> b ∈ nx.nodes G -> nx.nodes (nx.add_edge a b w G) = nx.nodes G.
Proof.
  intros Ha Hb. rewrite nodes_add_edge_eq.
  now rewrite (nodes_add_node_in G a Ha), (nodes_add_node_in G b Hb).
Qed.

Lemma neighbors_add_edge_NoDup G a b w x :
  NoDup (nx.neighbors G x) -> NoDup (nx.neighbors (nx.add_edge a b w G) x).
Proof.
  intros Hnd. unfold nx.neighbors, nx.add_edge in *.
  repeat (rewrite ?adj_set, ?adj_add_node; case_decide; subst);
    repeat apply NoDup_keys_set; assumption.
Qed.

Lemma wf_empty : wf_graph nx.empty.
Proof. split; intros; try apply NoDup_nil_2; reflexivity. Qed.

Lemma wf_add_node G n : wf_graph G -> wf_graph (nx.add_node n G).
Proof.
  intros [H1 H2 H3]. split.
  - now apply NoDup_add_node.
  - intros u. unfold nx.neighbors. rewrite adj_add_node. apply H2.
  - intros u v. unfold nx.weight. rewrite !adj_add_node. apply H3.
Qed.

Lemma wf_add_edge G a b w : wf_graph G -> wf_graph (nx.add_edge a b w G).
Proof.
  intros [H1 H2 H3]. split.
  - rewrite nodes_add_edge_eq. now do 2 apply NoDup_add_node.
  - intros u. now apply neighbors_add_edge_NoDup.
  - intros u v. rewrite !weight_add_edge.
    repeat case_decide; try reflexivity; try tauto. apply H3.
Qed.

Lemma wf_edge_nodes G u v :
  wf_graph G -> v ∈ nx.neighbors G u -> u ∈ nx.nodes G /\ v ∈ nx.nodes G.
Proof.
  intros Hwf Hv. split; [eapply neighbors_node; eauto|].
  apply has_edge_neighbors, has_edge_weight in Hv.
  rewrite (wf_sym G Hwf) in Hv.
  apply has_edge_weight, has_edge_neighbors in Hv.
  eapply neighbors_node; eauto.
Qed.

Lemma wf_neighbors_sym G u v :
  wf_graph G -> v ∈ nx.neighbors G u -> u ∈ nx.neighbors G v.
Proof.
  intros Hwf Hv. apply has_edge_neighbors, has_edge_weight in Hv.
  rewrite (wf_sym G Hwf) in Hv. now apply has_edge_neighbors, has_edge_weight.
Qed.

(** [remove_edge] on an edge of the graph. *)
Lemma remove_edge_spec G u v :
  wf_graph G -> v ∈ nx.neighbors G u ->
  exists G', nx.remove_edge u v G = Ok G'
    /\ nx.nodes G' = nx.nodes G
    /\ wf_graph G'
    /\ forall x y, nx.weight G' x y
         = if decide ((x = u /\ y = v) \/ (x = v /\ y = u)) then None
           else nx.weight G x y.
Proof.
  intros Hwf Huv.
  destruct (wf_edge_nodes G u v Hwf Huv) as [Hu Hv].
  pose proof (wf_neighbors_sym G u v Hwf Huv) as Hvu.
  unfold nx.remove_edge.
  destruct (PyDict.del v (nx.adj G u)) as [du|] eqn:Edu;
    [|apply del_None in Edu; contradiction].
  pose proof (wf_neighbors G Hwf u) as Hndu.
  assert (HG1 : forall x y, nx.weight (PyDict.set u du G) x y
            = if decide (x = u /\ y = v) then None else nx.weight G x y).
  { intros x y. unfold nx.weight. rewrite adj_set.
    destruct (decide (x = u)) as [->|].
    - rewrite (get_del v y _ _ Hndu Edu).
      repeat case_decide; try reflexivity; tauto.
    - case_decide; [tauto | reflexivity]. }
  assert (Hnd1 : forall x, NoDup (nx.neighbors (PyDict.set u du G) x)).
  { intros x. unfold nx.neighbors. rewrite adj_set. case_decide; subst.
    - eapply NoDup_keys_del; eauto.
    - apply (wf_neighbors G Hwf). }
  destruct (decide (u = v)) as [->|Hne].
  - eexists. split; [reflexivity|]. split; [now apply nodes_set_in|].
    split.
    + split.
      * rewrite nodes_set_in by assumption. apply Hwf.
      * exact Hnd1.
      * intros x y. rewrite !HG1.
        repeat case_decide; try reflexivity; try tauto; try apply Hwf.
        all: exfalso; intuition congruence.
    + intros x y. rewrite HG1. repeat case_decide; try reflexivity; tauto.
  - assert (Hadj : nx.adj (PyDict.set u du G) v = nx.adj G v).
    { rewrite adj_set. case_decide; congruence. }
    rewrite Hadj.
    destruct (PyDict.del u (nx.adj G v)) as [dv|] eqn:Edv;
      [|apply del_None in Edv; contradiction].
    pose proof (wf_neighbors G Hwf v) as Hndv.
    assert (HG2 : forall x y,
              nx.weight (PyDict.set v dv (PyDict.set u du G)) x y
              = if decide ((x = u /\ y = v) \/ (x = v /\ y = u)) then None
                else nx.weight G x y).
    { intros x y. unfold nx.weight at 1. rewrite adj_set.
      destruct (decide (x = v)) as [->|Hxv].
      - rewrite (get_del u y _ _ Hndv Edv).
        repeat case_decide; try reflexivity; try tauto.
        all: exfalso; intuition congruence.
      - fold (nx.weight (PyDict.set u du G) x y). rewrite HG1.
        repeat case_decide; try reflexivity; tauto. }
    eexists. split; [reflexivity|]. split.
    { rewrite !nodes_set_in; try reflexivity; try assumption.
      now rewrite nodes_set_in. }
    split; [|exact HG2].
    split.
    + rewrite !nodes_set_in; try assumption; [apply Hwf|].
      now rewrite nodes_set_in.
    + intros x. unfold nx.neighbors. rewrite adj_set. case_decide; subst.
      * eapply NoDup_keys_del; eauto.
      * apply Hnd1.
    + intros x y. rewrite !HG2.
      repeat case_decide; try reflexivity; try tauto. apply Hwf.
Qed.

Lemma nodes_fold_add_node (l : list Z) G :
  NoDup (nx.nodes G ++ l) ->
  nx.nodes (fold_left (fun H n => nx.add_node n H) l G) = nx.nodes G ++ l.
Proof.
  revert G. induction l as [|n l IH]; intros G Hnd; simpl.
  - now rewrite app_nil_r.
  - assert (Hn : n ∉ nx.nodes G).
    { apply NoDup_app in Hnd as (_ & Hd & _). intros Hin.
      apply (Hd n Hin). left. }
    assert (Hnodes : nx.nodes (nx.add_node n G) = nx.nodes G ++ [n]).
    { unfold nx.add_node. apply mem_false in Hn.
      unfold nx.has_node. rewrite Hn. unfold nx.nodes, PyDict.keys.
      now rewrite fmap_app. }
    rewrite IH; rewrite Hnodes, <- app_assoc; [reflexivity | exact Hnd].
Qed.

Lemma adj_fold_add_node (l : list Z) G x :
  nx.adj (fold_left (fun H n => nx.add_node n H) l G) x = nx.adj G x.
Proof.
  revert G. induction l as [|n l IH]; intros G; simpl; [reflexivity|].
  now rewrite IH, adj_add_node.
Qed.

Lemma wf_fold_add_node (l : list Z) G :
  wf_graph G -> wf_graph (fold_left (fun H n => nx.add_node n H) l G).
Proof.
  revert G. induction l as [|n l IH]; intros G Hwf; simpl; [assumption|].
  apply IH. now apply wf_add_node.
Qed.

Lemma get_Some_node G u d : PyDict.get u G = Some d -> nx.adj G u = d.
Proof. intros Hg. unfold nx.adj. now rewrite Hg. Qed.

Lemma entries_weight G u v w :
  wf_graph G ->
  (u, v, w) ∈ nx.adjacency_entries G <-> nx.weight G u v = Some w.
Proof.
  intros Hwf. unfold nx.adjacency_entries.
  rewrite list_elem_of_In, in_flat_map. split.
  - intros [[u' d] [Hin Hm]]. apply in_map_iff in Hm as [[v' w'] [Heq Hin']].
    injection Heq as -> -> ->.
    apply list_elem_of_In in Hin, Hin'.
    apply (in_get _ _ _ (wf_nodes G Hwf)) in Hin.
    unfold nx.weight. rewrite (get_Some_node G u d Hin).
    apply in_get; [|assumption].
    pose proof (wf_neighbors G Hwf u) as Hnd. unfold nx.neighbors in Hnd.
    now rewrite (get_Some_node G u d Hin) in Hnd.
  - intros Hw. unfold nx.weight in Hw. exists (u, nx.adj G u). split.
    + apply list_elem_of_In, get_in. unfold nx.adj in *.
      destruct (PyDict.get u G); [reflexivity | discriminate].
    + apply in_map_iff. exists (v, w). split; [reflexivity|].
      now apply list_elem_of_In, get_in.
Qed.

Lemma fold_add_edge_spec G (l : list (Z * Z * Q)) H :
  wf_graph G ->
  (forall e, e ∈ l -> e ∈ nx.adjacency_entries G) ->
  wf_graph H -> nx.nodes H = nx.nodes G ->
  (forall x y w, nx.weight H x y = Some w -> nx.weight G x y = Some w) ->
  let H' := fold_left (fun H '(u, v, w) => nx.add_edge u v w H) l H in
  wf_graph H' /\ nx.nodes H' = nx.nodes G
  /\ (forall x y w, nx.weight H' x y = Some w -> nx.weight G x y = Some w)
  /\ (forall x y, is_Some (nx.weight H x y) -> is_Some (nx.weight H' x y))
  /\ (forall u v w, (u, v, w) ∈ l -> is_Some (nx.weight H' u v)).
Proof.
  intros Hwf. revert H. induction l as [|[[a b] c] l IH];
    intros H Hl HwfH Hnodes Hsub; simpl.
  - split; [assumption|]. split; [assumption|]. split; [assumption|].
    split; [auto|]. intros u v w Hin. inversion Hin.
  - assert (Hab : nx.weight G a b = Some c).
    { apply entries_weight; [assumption|]. apply Hl. left. }
    assert (Hnb : b ∈ nx.neighbors G a).
    { apply has_edge_neighbors, has_edge_weight. rewrite Hab. eauto. }
    destruct (wf_edge_nodes G a b Hwf Hnb) as [Ha Hb].
    specialize (IH (nx.add_edge a b c H)).
    destruct IH as (I1 & I2 & I3 & I4 & I5).
    + intros e He. apply Hl. now right.
    + now apply wf_add_edge.
    + rewrite nodes_add_edge_in; rewrite ?Hnodes; auto.
    + intros x y w. rewrite weight_add_edge. case_decide as Hc; [|apply Hsub].
      intros [= <-]. destruct Hc as [[-> ->]|[-> ->]]; [assumption|].
      now rewrite (wf_sym G Hwf).
    + split; [assumption|]. split; [assumption|]. split; [assumption|].
      split.
      * intros x y Hs. apply I4. rewrite weight_add_edge. case_decide; eauto.
      * intros u v w Hin. apply elem_of_cons in Hin as [Heq|Hin]; [|eauto].
        injection Heq as -> -> ->. apply I4. rewrite weight_add_edge.
        case_decide; [eauto | tauto].
Qed.

(** [copy] yields a graph with the same nodes, in the same order, and
    the same weighted edges. *)
Lemma copy_spec G :
  wf_graph G ->
  nx.nodes (nx.copy G) = nx.nodes G /\ wf_graph (nx.copy G)
  /\ forall x y, nx.weight (nx.copy G) x y = nx.weight G x y.
Proof.
  intros Hwf. unfold nx.copy.
  set (H0 := fold_left (fun H n => nx.add_node n H) (nx.nodes G) nx.empty).
  assert (Hn0 : nx.nodes H0 = nx.nodes G).
  { unfold H0. rewrite nodes_fold_add_node; [reflexivity|]. apply Hwf. }
  assert (Hw0 : forall x y, nx.weight H0 x y = None).
  { intros x y. unfold nx.weight, H0. now rewrite adj_fold_add_node. }
  destruct (fold_add_edge_spec G (nx.adjacency_entries G) H0 Hwf)
    as (I1 & I2 & I3 & I4 & I5).
  - auto.
  - apply wf_fold_add_node, wf_empty.
  - assumption.
  - intros x y w. now rewrite Hw0.
  - split; [assumption|]. split; [assumption|]. intros x y.
    remember (fold_left (fun H '(u, v, w) => nx.add_edge u v w H)
                (nx.adjacency_entries G) H0) as H' eqn:EH'.
    destruct (nx.weight G x y) as [w|] eqn:E.
    + apply entries_weight in E as Hin; [|assumption].
      destruct (I5 _ _ _ Hin) as [w' Hw']. rewrite Hw'.
      apply I3 in Hw'. congruence.
    + destruct (nx.weight H' x y) as [w'|] eqn:E'; [|reflexivity].
      apply I3 in E'. congruence.
Qed.

End GraphFacts.

(** ** Loading *)

Lemma chave_comm a b : chave a b = chave b a.
Proof. unfold chave. now rewrite Z.min_comm, Z.max_comm. Qed.

Lemma ler_net_weight dists net G a s x y :
  nx.weight (fold_left (ler_net_step dists) net (G, a, s)).1.1 x y
  = if bool_decide ((x, y) ∈ net \/ (y, x) ∈ net)
    then Some (PyDict.get_default (chave x y) 0%Q dists)
    else nx.weight G x y.
Proof.
  revert G a s. induction net as [|[no1 no2] net IH]; intros G a s;
    cbn [fold_left ler_net_step].
  - rewrite bool_decide_eq_false_2; [reflexivity|].
    intros [H|H]; inversion H.
  - rewrite IH. rewrite weight_add_edge.
    destruct (bool_decide ((x, y) ∈ net \/ (y, x) ∈ net)) eqn:E.
    + apply bool_decide_eq_true in E. rewrite bool_decide_eq_true_2; [reflexivity|].
      destruct E; [left | right]; now right.
    + apply bool_decide_eq_false in E. case_decide as Hc.
      * rewrite bool_decide_eq_true_2.
        -- destruct Hc as [[-> ->]|[-> ->]]; [reflexivity|]. now rewrite chave_comm.
        -- destruct Hc as [[-> ->]|[-> ->]]; [left | right]; left.
      * rewrite bool_decide_eq_false_2; [reflexivity|].
        intros [H|H]; apply elem_of_cons in H as [H|H]; try tauto;
          injection H as -> ->; tauto.
Qed.

Lemma carregar_dados_grafo infos net :
  dados_grafo (carregar_dados infos net)
  = (ler_net (ler_edge_info infos).2 net).1.1 /\
  distancias (carregar_dados infos net) = (ler_edge_info infos).2.
Proof.
  unfold carregar_dados. destruct (ler_edge_info infos) as [coords dists].
  simpl. destruct (ler_net dists net) as [[G a] s]. simpl. auto.
Qed.

(** C10: an edge record whose node pair has no entry in the distance
    table does not make loading fail ([carregar_dados] is total); the
    loaded graph has that edge, in both directions, with weight 0. *)
Theorem c10_missing_distance_gives_zero_weight infos net no1 no2 :
  (no1, no2) ∈ net ->
  PyDict.get (chave no1 no2) (distancias (carregar_dados infos net)) = None ->
  let G := dados_grafo (carregar_dados infos net) in
  nx.weight G no1 no2 = Some 0%Q /\ nx.weight G no2 no1 = Some 0%Q
  /\ no1 ∈ nx.nodes G /\ no2 ∈ nx.nodes G.
Proof.
  intros Hin Hnone G.
  destruct (carregar_dados_grafo infos net) as [HG Hd].
  rewrite Hd in Hnone. subst G. rewrite HG. unfold ler_net.
  assert (Hw : forall x y, (x, y) ∈ net \/ (y, x) ∈ net ->
             chave x y = chave no1 no2 ->
             nx.weight (fold_left (ler_net_step (ler_edge_info infos).2) net
                          (nx.empty, 0, 0)).1.1 x y = Some 0%Q).
  { intros x y Hxy Hk. rewrite ler_net_weight.
    rewrite bool_decide_eq_true_2 by assumption.
    unfold PyDict.get_default. now rewrite Hk, Hnone. }
  assert (H12 := Hw no1 no2 (or_introl Hin) eq_refl).
  assert (H21 := Hw no2 no1 (or_intror Hin) (chave_comm _ _)).
  split; [assumption|]. split; [assumption|].
  split.
  - eapply neighbors_node. apply has_edge_neighbors, has_edge_weight.
    rewrite H12. eauto.
  - eapply neighbors_node. apply has_edge_neighbors, has_edge_weight.
    rewrite H21. eauto.
Qed.

Lemma c10_witness :
  let infos := [ {| ei_no1 := 1; ei_x1 := 0; ei_y1 := 0;
                    ei_no2 := 2; ei_x2 := 1; ei_y2 := 0;
                    ei_distancia := 7 # 2 |} ] in
  let G := dados_grafo (carregar_dados infos [(1, 2); (2, 3)]) in
  nx.weight G 2 3 = Some 0%Q /\ nx.weight G 3 2 = Some 0%Q
  /\ 2 ∈ nx.nodes G /\ 3 ∈ nx.nodes G.
Proof.
  intros infos G.
  apply (c10_missing_distance_gives_zero_weight infos [(1, 2); (2, 3)] 2 3).
  - right. left.
  - reflexivity.
Defined.

(** C6, as the code has it: [add_edge] performs no validation; an edge
    with a negative weight is inserted (or overwrites) like any other. *)
Theorem c6_negative_weight_is_inserted G u v w :
  (w < 0)%Q ->
  let G' := nx.add_edge u v w G in
  nx.weight G' u v = Some w /\ nx.weight G' v u = Some w
  /\ u ∈ nx.nodes G' /\ v ∈ nx.nodes G'.
Proof.
  intros _ G'. subst G'. rewrite !weight_add_edge, !nodes_add_edge.
  repeat case_decide; tauto.
Qed.

Lemma c6_witness :
  let G' := nx.add_edge 1 2 (-5 # 1) nx.empty in
  nx.weight G' 1 2 = Some (-5 # 1) /\ nx.weight G' 2 1 = Some (-5 # 1)
  /\ 1 ∈ nx.nodes G' /\ 2 ∈ nx.nodes G'.
Proof.
  apply (c6_negative_weight_is_inserted nx.empty 1 2 (-5 # 1)).
  reflexivity.
Defined.

(** C6, as stated, fails: loading an edge whose table distance is
    negative succeeds and the graph holds the edge with that weight. *)
Lemma c6_counterexample :
  let infos := [ {| ei_no1 := 1; ei_x1 := 0; ei_y1 := 0;
                    ei_no2 := 2; ei_x2 := 1; ei_y2 := 0;
                    ei_distancia := -5 # 1 |} ] in
  nx.weight (dados_grafo (carregar_dados infos [(1, 2)])) 1 2 = Some (-5 # 1)
  /\ nx.has_edge (nx.add_edge 1 2 (-5 # 1) nx.empty) 1 2 = true.
Proof. split; reflexivity. Qed.

(** ** Degree centrality *)

Lemma mapM_Ok {A B : Type} (f : A -> result B) (g : A -> B) (l : list A) :
  (forall x, x ∈ l -> f x = Ok (g x)) -> mapM f l = Ok (map g l).
Proof.
  induction l as [|x l IH]; intros Hf; [reflexivity|].
  cbn. rewrite (Hf x) by left. cbn. rewrite IH; [reflexivity|].
  intros y Hy. apply Hf. now right.
Qed.

Lemma Qeq_bool_inject_Z_0 m : Qeq_bool (inject_Z m) 0 = (m =? 0).
Proof. unfold Qeq_bool, inject_Z. simpl. now rewrite Z.mul_1_r. Qed.

Lemma py_div_inject_Z a m :
  m <> 0 -> py_div a (inject_Z m) = Ok (a / inject_Z m)%Q.
Proof.
  intros Hm. unfold py_div. rewrite Qeq_bool_inject_Z_0.
  apply Z.eqb_neq in Hm. now rewrite Hm.
Qed.

Lemma calcular_degree_Ok G :
  nx.number_of_nodes G <> 1 ->
  Centralidades.calcular_degree G
  = Ok (map (fun n => (n, (inject_Z (nx.degree G n)
                           / inject_Z (nx.number_of_nodes G - 1))%Q))
            (nx.nodes G)).
Proof.
  intros HN. unfold Centralidades.calcular_degree, nx.degree_view.
  rewrite (mapM_Ok _ (fun p => (p.1, (inject_Z p.2
                  / inject_Z (nx.number_of_nodes G - 1))%Q))).
  - rewrite map_map. reflexivity.
  - intros [n d] _. rewrite py_div_inject_Z by lia. reflexivity.
Qed.

Lemma get_map_key (f : Z -> Q) (l : list Z) n :
  n ∈ l -> PyDict.get n (map (fun n => (n, f n)) l) = Some (f n).
Proof.
  induction l as [|x l IH]; intros Hn; [inversion Hn|].
  simpl. destruct (decide (n = x)) as [->|Hne]; [reflexivity|].
  apply elem_of_cons in Hn as [?|Hn]; [contradiction | auto].
Qed.

(** Without self-loops a node has at most [nodeCount - 1] neighbours. *)
Lemma degree_bound G n :
  wf_graph G -> loop_free G -> n ∈ nx.nodes G ->
  0 <= nx.degree G n <= nx.number_of_nodes G - 1.
Proof.
  intros Hwf Hlf Hn. unfold nx.degree, nx.number_of_nodes. rewrite Hlf.
  split; [lia|].
  assert (Hlen : (length (n :: nx.neighbors G n) <= length (nx.nodes G))%nat).
  { apply submseteq_length, NoDup_submseteq.
    - apply NoDup_cons. split; [|apply Hwf].
      intros Hin. apply has_edge_neighbors in Hin. rewrite Hlf in Hin. discriminate.
    - intros x Hx. apply elem_of_cons in Hx as [->|Hx]; [assumption|].
      eapply wf_edge_nodes; eauto. }
  simpl in Hlen. unfold nx.neighbors, PyDict.keys in Hlen.
  rewrite length_fmap in Hlen.
  unfold nx.nodes, PyDict.keys in Hlen. rewrite length_fmap in Hlen. lia.
Qed.

Lemma Qdiv_unit_interval d m :
  0 <= d <= m -> 0 < m ->
  (0 <= inject_Z d / inject_Z m)%Q /\ (inject_Z d / inject_Z m <= 1)%Q.
Proof.
  intros Hd Hm.
  assert (Hm' : (0 < inject_Z m)%Q).
  { change 0%Q with (inject_Z 0). now rewrite <- Zlt_Qlt. }
  split.
  - apply Qle_shift_div_l; [assumption|]. rewrite Qmult_0_l.
    change 0%Q with (inject_Z 0). rewrite <- Zle_Qle. lia.
  - apply Qle_shift_div_r; [assumption|]. rewrite Qmult_1_l.
    rewrite <- Zle_Qle. lia.
Qed.

(** C2, as the code has it: in a graph with more than one node and no
    self-loop, the degree centrality computed for a node [n] is
    [degree(n) / (nodeCount - 1)] and lies in [0, 1]. *)
Theorem c2_degree_centrality G n :
  wf_graph G -> loop_free G -> 1 < nx.number_of_nodes G -> n ∈ nx.nodes G ->
  exists dc c,
    Centralidades.calcular_degree G = Ok dc
    /\ PyDict.get n dc = Some c
    /\ c = (inject_Z (nx.degree G n) / inject_Z (nx.number_of_nodes G - 1))%Q
    /\ (0 <= c)%Q /\ (c <= 1)%Q.
Proof.
  intros Hwf Hlf HN Hn. eexists. eexists.
  split; [apply calcular_degree_Ok; lia|].
  split; [apply (get_map_key (fun n => (inject_Z (nx.degree G n)
            / inject_Z (nx.number_of_nodes G - 1))%Q) _ _ Hn)|].
  split; [reflexivity|].
  apply Qdiv_unit_interval; [|lia]. now apply degree_bound.
Qed.

(** The formula alone needs no assumption on self-loops. *)
Lemma degree_centrality_formula G n :
  nx.number_of_nodes G <> 1 -> n ∈ nx.nodes G ->
  exists dc,
    Centralidades.calcular_degree G = Ok dc
    /\ PyDict.get n dc
       = Some (inject_Z (nx.degree G n) / inject_Z (nx.number_of_nodes G - 1))%Q.
Proof.
  intros HN Hn. eexists. split; [now apply calcular_degree_Ok|].
  apply (get_map_key (fun n => (inject_Z (nx.degree G n)
            / inject_Z (nx.number_of_nodes G - 1))%Q) _ _ Hn).
Qed.

(** The degree centralities are the ones the method stores. *)
Lemma calcular_centralidades_degree self self' :
  Centralidades.calcular_centralidades self = Ok self' ->
  Centralidades.calcular_degree (Centralidades.grafo self)
  = Ok (Centralidades.degree_centrality self').
Proof.
  unfold Centralidades.calcular_centralidades.
  destruct (Centralidades.calcular_degree _) as [dc| |]; cbn; try discriminate.
  destruct (nx.betweenness_centrality _) as [bc| |]; cbn; try discriminate.
  destruct (nx.closeness_centrality _) as [cc| |]; cbn; try discriminate.
  destruct (nx.edge_betweenness_centrality _ _) as [ebc| |]; cbn; try discriminate.
  now intros [= <-].
Qed.

Lemma loop_free_empty : loop_free nx.empty.
Proof. intros u. reflexivity. Qed.

Lemma loop_free_add_edge G a b w :
  a <> b -> loop_free G -> loop_free (nx.add_edge a b w G).
Proof.
  intros Hab Hlf u. specialize (Hlf u).
  destruct (nx.has_edge (nx.add_edge a b w G) u u) eqn:E; [|reflexivity].
  apply has_edge_weight in E. rewrite weight_add_edge in E.
  case_decide as Hc; [exfalso; intuition congruence|].
  apply has_edge_weight in E. congruence.
Qed.

Lemma c2_witness :
  exists dc c,
    Centralidades.calcular_degree Ex.triangle = Ok dc
    /\ PyDict.get 1 dc = Some c
    /\ c = (inject_Z (nx.degree Ex.triangle 1)
            / inject_Z (nx.number_of_nodes Ex.triangle - 1))%Q
    /\ (0 <= c)%Q /\ (c <= 1)%Q.
Proof.
  apply (c2_degree_centrality Ex.triangle 1).
  - repeat apply wf_add_edge. apply wf_empty.
  - repeat apply loop_free_add_edge; try discriminate. apply loop_free_empty.
  - reflexivity.
  - apply list_elem_of_In. vm_compute. auto.
Defined.

(** C2, as stated, fails on a graph the loader builds from the edge list
    [1 1], [1 2]: the graph has two nodes and the degree centrality of
    node 1 is 3. *)
Lemma c2_counterexample :
  wf_graph Ex.with_loop /\ 1 < nx.number_of_nodes Ex.with_loop
  /\ 1 ∈ nx.nodes Ex.with_loop
  /\ exists dc,
       Centralidades.calcular_degree Ex.with_loop = Ok dc
       /\ PyDict.get 1 dc = Some (3 / 1)%Q /\ ~ (3 / 1 <= 1)%Q.
Proof.
  split; [repeat apply wf_add_edge; apply wf_empty|].
  split; [reflexivity|].
  split; [apply list_elem_of_In; vm_compute; auto|].
  eexists. split; [reflexivity|]. split; [reflexivity|].
  intros H. vm_compute in H. now apply H.
Qed.

(** ** Degenerate graphs *)

(** C5: with exactly one node [max_grau] is 0 and the division of the
    degree centrality raises; the method does not return. *)
Theorem c5_single_node_raises self :
  nx.number_of_nodes (Centralidades.grafo self) = 1 ->
  Centralidades.calcular_centralidades self = Raise ZeroDivisionError.
Proof.
  intros HN. unfold Centralidades.calcular_centralidades.
  assert (Hd : Centralidades.calcular_degree (Centralidades.grafo self)
               = Raise ZeroDivisionError).
  { unfold Centralidades.calcular_degree, nx.degree_view, nx.nodes, PyDict.keys.
    rewrite HN. unfold nx.number_of_nodes in HN.
    destruct (Centralidades.grafo self) as [|[n d] [|? ?]]; simpl in HN; try lia.
    reflexivity. }
  now rewrite Hd.
Qed.

Lemma c5_witness :
  Centralidades.calcular_centralidades
    {| Centralidades.grafo := Ex.single_loop;
       Centralidades.degree_centrality := [];
       Centralidades.betweenness_centrality := [];
       Centralidades.closeness_centrality := [];
       Centralidades.edge_betweenness_centrality := [] |}
  = Raise ZeroDivisionError.
Proof.
  apply (c5_single_node_raises
           {| Centralidades.grafo := Ex.single_loop;
              Centralidades.degree_centrality := [];
              Centralidades.betweenness_centrality := [];
              Centralidades.closeness_centrality := [];
              Centralidades.edge_betweenness_centrality := [] |}).
  reflexivity.
Defined.

(** The same on one isolated node; the three networkx measures do
    return there, with value 0. *)
Lemma c5_failing_input :
  Centralidades.calcular_centralidades
    {| Centralidades.grafo := Ex.single;
       Centralidades.degree_centrality := [];
       Centralidades.betweenness_centrality := [];
       Centralidades.closeness_centrality := [];
       Centralidades.edge_betweenness_centrality := [] |}
  = Raise ZeroDivisionError
  /\ Centralidades.calcular_degree Ex.single_loop = Raise ZeroDivisionError
  /\ nx.betweenness_centrality Ex.single = Ok [(1, 0%Q)]
  /\ nx.closeness_centrality Ex.single = Ok [(1, 0%Q)]
  /\ nx.edge_betweenness_centrality Ex.single true = Ok [].
Proof. repeat split; reflexivity. Qed.

(** The empty graph is the degenerate case that does return: every
    mapping is empty. *)
Lemma calcular_centralidades_empty dc bc cc ebc :
  Centralidades.calcular_centralidades
    {| Centralidades.grafo := nx.empty;
       Centralidades.degree_centrality := dc;
       Centralidades.betweenness_centrality := bc;
       Centralidades.closeness_centrality := cc;
       Centralidades.edge_betweenness_centrality := ebc |}
  = Ok {| Centralidades.grafo := nx.empty;
          Centralidades.degree_centrality := [];
          Centralidades.betweenness_centrality := [];
          Centralidades.closeness_centrality := [];
          Centralidades.edge_betweenness_centrality := [] |}.
Proof. reflexivity. Qed.

(** ** The loops of the shortest-path engine stay within their bounds *)

Section Fuel.

Lemma pending_nil G : pending G [] = length (nx.adjacency_entries G).
Proof.
  induction G as [|[u d] G IH]; [reflexivity|].
  cbn [pending]. unfold nx.adjacency_entries in *. cbn [flat_map].
  rewrite length_app, length_map, IH. reflexivity.
Qed.

Lemma mem_set (k k' : Z) (v : Q) d :
  PyDict.mem k (PyDict.set k' v d)
  = if decide (k = k') then true else PyDict.mem k d.
Proof. unfold PyDict.mem. rewrite get_set. now case_decide. Qed.

Lemma pending_mono G v d settled :
  (pending G (PyDict.set v d settled) <= pending G settled)%nat.
Proof.
  induction G as [|[u du] G IH]; [reflexivity|].
  cbn [pending]. rewrite mem_set. case_decide; [|lia].
  destruct (PyDict.mem u settled); lia.
Qed.

Lemma pending_settle G v d settled :
  PyDict.mem v settled = false ->
  (pending G (PyDict.set v d settled) + length (nx.adj G v)
   <= pending G settled)%nat.
Proof.
  intros Hv. induction G as [|[u du] G IH]; [reflexivity|].
  cbn [pending]. rewrite mem_set. unfold nx.adj in *. cbn [PyDict.get].
  destruct (decide (v = u)) as [->|Hne].
  - rewrite decide_True by reflexivity. rewrite Hv.
    pose proof (pending_mono G u d settled). lia.
  - rewrite decide_False by congruence. lia.
Qed.

Lemma heappop_length {A : Type} (key : A -> Q * nat) h x r :
  nx.heappop key h = Some (x, r) -> length h = S (length r).
Proof.
  revert x r. induction h as [|y h IH]; intros x r; simpl; [discriminate|].
  destruct (nx.heappop key h) as [[m r']|] eqn:E.
  - specialize (IH m r' eq_refl).
    destruct (nx.key_lt (key y) (key m)); intros [= <- <-]; simpl; lia.
  - intros [= <- <-]. destruct h as [|z h]; [reflexivity|].
    simpl in E. destruct (nx.heappop key h) as [[? ?]|];
      [destruct (nx.key_lt _ _)|]; discriminate.
Qed.

Lemma heappop_None {A : Type} (key : A -> Q * nat) h :
  nx.heappop key h = None -> h = [].
Proof.
  destruct h as [|y h]; [reflexivity|]. simpl.
  destruct (nx.heappop key h) as [[? ?]|];
    [destruct (nx.key_lt _ _)|]; discriminate.
Qed.

Lemma relax_bound d nbrs st :
  match nx.relax d nbrs st with
  | Ok st' =>
      nx.dist st' = nx.dist st
      /\ (length (nx.fringe st') <= length (nx.fringe st) + length nbrs)%nat
  | Raise _ => True
  | OutOfFuel => False
  end.
Proof.
  revert st. induction nbrs as [|[u cost] nbrs IH]; intros st; simpl.
  - split; [reflexivity | lia].
  - destruct (PyDict.get u (nx.dist st)) as [ud|].
    + destruct (Qlt_le_dec _ _); [exact I|].
      specialize (IH st). destruct (nx.relax d nbrs st); try assumption.
      destruct IH. split; [assumption | lia].
    + match goal with |- context [if ?b then _ else _] => destruct b end.
      * match goal with |- context [nx.relax d nbrs ?s] =>
          specialize (IH s); destruct (nx.relax d nbrs s) end;
          try assumption.
        simpl in IH. destruct IH. split; [assumption | lia].
      * specialize (IH st). destruct (nx.relax d nbrs st); try assumption.
        destruct IH. split; [assumption | lia].
Qed.

Lemma dijkstra_loop_fuel G target fuel st :
  (length (nx.fringe st) + pending G (nx.dist st) <= fuel)%nat ->
  nx.dijkstra_loop fuel G target st <> OutOfFuel.
Proof.
  revert st. induction fuel as [|fuel IH]; intros st Hle.
  - destruct (nx.fringe st) eqn:E; simpl in Hle; [|lia].
    simpl. rewrite E. discriminate.
  - simpl.
    destruct (nx.heappop _ (nx.fringe st)) as [[[[d c] v] fr]|] eqn:E;
      [|discriminate].
    apply heappop_length in E.
    destruct (PyDict.mem v (nx.dist st)) eqn:Hm.
    + apply IH. simpl. lia.
    + case_bool_decide; [discriminate|].
      pose proof (pending_settle G v d (nx.dist st) Hm) as Hp.
      match goal with |- context [nx.relax d ?n ?s] =>
        pose proof (relax_bound d n s) as Hr; destruct (nx.relax d n s) end;
        cbn; try discriminate; [|contradiction].
      simpl in Hr. destruct Hr as [Hd Hf]. apply IH. rewrite Hd. lia.
Qed.

(** Dijkstra returns or raises; its loop bound is never reached. *)
Lemma dijkstra_fuel_enough G source target :
  nx.dijkstra G source target <> OutOfFuel.
Proof.
  unfold nx.dijkstra. destruct (nx.has_node G source); [|discriminate].
  apply dijkstra_loop_fuel. simpl. rewrite pending_nil.
  unfold nx.dijkstra_fuel. lia.
Qed.

Lemma sssp_scan_bound v d nbrs st :
  match nx.sssp_scan v d nbrs st with
  | Ok st' =>
      nx.sp_D st' = nx.sp_D st
      /\ (length (nx.sp_Q st') <= length (nx.sp_Q st) + length nbrs)%nat
  | Raise _ => True
  | OutOfFuel => False
  end.
Proof.
  revert st. induction nbrs as [|[w cost] nbrs IH]; intros st; simpl.
  - split; [reflexivity | lia].
  - match goal with |- context [if ?b then _ else _] => destruct b end.
    + match goal with |- context [nx.sssp_scan v d nbrs ?s] =>
        specialize (IH s); destruct (nx.sssp_scan v d nbrs s) end;
        try assumption.
      simpl in IH. destruct IH. split; [assumption | lia].
    + destruct (nx.lookup w (nx.sp_seen st)) as [sw| |] eqn:E1; cbn;
        try exact I.
      { destruct (Qeq_bool _ sw).
        - destruct (nx.lookup w (nx.sp_sigma st)) as [?| |] eqn:E2; cbn;
            try exact I.
          + destruct (nx.lookup v (nx.sp_sigma st)) as [?| |] eqn:E3; cbn;
              try exact I.
            * destruct (nx.lookup w (nx.sp_P st)) as [?| |] eqn:E4; cbn;
                try exact I.
              -- match goal with |- context [nx.sssp_scan v d nbrs ?s] =>
                   specialize (IH s); destruct (nx.sssp_scan v d nbrs s) end;
                   try assumption.
                 simpl in IH. destruct IH. split; [assumption | lia].
              -- unfold nx.lookup in E4. destruct (PyDict.get _ _); discriminate.
            * unfold nx.lookup in E3. destruct (PyDict.get _ _); discriminate.
          + unfold nx.lookup in E2. destruct (PyDict.get _ _); discriminate.
        - specialize (IH st). destruct (nx.sssp_scan v d nbrs st); try assumption.
          destruct IH. split; [assumption | lia]. }
      unfold nx.lookup in E1. destruct (PyDict.get _ _); discriminate.
Qed.

Lemma lookup_not_fuel {K V : Type} `{EqDecision K} (k : K) (d : list (K * V)) :
  nx.lookup k d <> OutOfFuel.
Proof. unfold nx.lookup. destruct (PyDict.get k d); discriminate. Qed.

Lemma sssp_loop_fuel G fuel st :
  (length (nx.sp_Q st) + pending G (nx.sp_D st) <= fuel)%nat ->
  nx.sssp_loop fuel G st <> OutOfFuel.
Proof.
  revert st. induction fuel as [|fuel IH]; intros st Hle.
  - destruct (nx.sp_Q st) eqn:E; simpl in Hle; [|lia].
    simpl. rewrite E. discriminate.
  - simpl.
    destruct (nx.heappop _ (nx.sp_Q st)) as [[[[[d c] p] v] fr]|] eqn:E;
      [|discriminate].
    apply heappop_length in E.
    destruct (PyDict.mem v (nx.sp_D st)) eqn:Hm.
    + apply IH. simpl. lia.
    + pose proof (pending_settle G v d (nx.sp_D st) Hm) as Hp.
      destruct (nx.lookup v (nx.sp_sigma st)) as [sv| |] eqn:E1; cbn;
        try discriminate; [|now apply lookup_not_fuel in E1].
      destruct (nx.lookup p (nx.sp_sigma st)) as [spd| |] eqn:E2; cbn;
        try discriminate; [|now apply lookup_not_fuel in E2].
      match goal with |- context [nx.sssp_scan v d ?n ?s] =>
        pose proof (sssp_scan_bound v d n s) as Hr;
        destruct (nx.sssp_scan v d n s) end;
        cbn; try discriminate; [|contradiction].
      simpl in Hr. destruct Hr as [Hd Hf]. apply IH. rewrite Hd. lia.
Qed.

Lemma sssp_fuel_enough G s :
  nx.single_source_dijkstra_path_basic G s <> OutOfFuel.
Proof.
  apply sssp_loop_fuel. simpl. rewrite pending_nil.
  unfold nx.dijkstra_fuel. lia.
Qed.

End Fuel.

Lemma bind_not_fuel {A B : Type} (m : result A) (f : A -> result B) :
  m <> OutOfFuel -> (forall a, m = Ok a -> f a <> OutOfFuel) ->
  m ≫= f <> OutOfFuel.
Proof. destruct m; cbn; intros H1 H2; [now apply H2 | discriminate | congruence]. Qed.

Lemma py_div_not_fuel a b : py_div a b <> OutOfFuel.
Proof. unfold py_div. destruct (Qeq_bool b 0); discriminate. Qed.

Lemma add_at_not_fuel {K : Type} `{EqDecision K} (k : K) c d :
  nx.add_at k c d <> OutOfFuel.
Proof.
  unfold nx.add_at. apply bind_not_fuel; [apply lookup_not_fuel | discriminate].
Qed.

Lemma mapM_not_fuel {A B : Type} (f : A -> result B) l :
  (forall x, f x <> OutOfFuel) -> mapM f l <> OutOfFuel.
Proof.
  intros Hf. induction l as [|x l IH]; [discriminate|].
  cbn. apply bind_not_fuel; [apply Hf|]. intros b _.
  apply bind_not_fuel; [apply IH | discriminate].
Qed.

Ltac no_fuel :=
  repeat first
    [ apply lookup_not_fuel | apply py_div_not_fuel | apply add_at_not_fuel
    | apply sssp_fuel_enough | apply dijkstra_fuel_enough
    | discriminate
    | apply bind_not_fuel; [|intros ? _] ].

Lemma accumulate_preds_not_fuel w coeff preds sigma acc :
  nx.accumulate_preds w coeff preds sigma acc <> OutOfFuel.
Proof.
  revert acc. induction preds as [|v preds IH]; intros acc; simpl; [discriminate|].
  no_fuel; [|apply IH]. destruct (PyDict.mem _ _); no_fuel.
Qed.

Lemma accumulate_stack_not_fuel stack st acc :
  nx.accumulate_stack stack st acc <> OutOfFuel.
Proof.
  revert acc. induction stack as [|w stack IH]; intros acc; simpl; [discriminate|].
  no_fuel; [apply accumulate_preds_not_fuel | apply IH].
Qed.

Lemma accumulate_sources_not_fuel G sources b :
  nx.accumulate_sources G sources b <> OutOfFuel.
Proof.
  revert b. induction sources as [|s sources IH]; intros b; simpl; [discriminate|].
  no_fuel; [|apply IH]. unfold nx.accumulate_edges. no_fuel.
  apply accumulate_stack_not_fuel.
Qed.

Lemma edge_betweenness_not_fuel G normalized :
  nx.edge_betweenness_centrality G normalized <> OutOfFuel.
Proof.
  unfold nx.edge_betweenness_centrality, nx.edge_accumulation.
  no_fuel; [apply accumulate_sources_not_fuel|].
  unfold nx.rescale_e. destruct normalized; [case_decide|]; no_fuel.
Qed.

Lemma accumulate_preds_basic_not_fuel coeff preds sigma delta :
  nx.accumulate_preds_basic coeff preds sigma delta <> OutOfFuel.
Proof.
  revert delta. induction preds as [|v preds IH]; intros delta; simpl;
    [discriminate|]. no_fuel. apply IH.
Qed.

Lemma accumulate_stack_basic_not_fuel s stack st acc :
  nx.accumulate_stack_basic s stack st acc <> OutOfFuel.
Proof.
  revert acc. induction stack as [|w stack IH]; intros acc; simpl; [discriminate|].
  no_fuel; [apply accumulate_preds_basic_not_fuel | | apply IH].
  case_decide; no_fuel.
Qed.

Lemma betweenness_not_fuel G : nx.betweenness_centrality G <> OutOfFuel.
Proof.
  unfold nx.betweenness_centrality. no_fuel.
  - generalize (map (fun v => (v, 0%Q)) (nx.nodes G)).
    induction (nx.nodes G) as [|s l IH]; intros b; simpl; [discriminate|].
    no_fuel; [apply accumulate_stack_basic_not_fuel | apply IH].
  - unfold nx.rescale. case_decide; no_fuel.
Qed.

Lemma closeness_not_fuel G : nx.closeness_centrality G <> OutOfFuel.
Proof.
  unfold nx.closeness_centrality. apply mapM_not_fuel. intros n.
  no_fuel. unfold nx.closeness_of. no_fuel.
  destruct (Qlt_le_dec _ _); [case_decide|]; no_fuel.
Qed.

(** [calcular_centralidades] returns or raises. *)
Lemma calcular_centralidades_not_fuel self :
  Centralidades.calcular_centralidades self <> OutOfFuel.
Proof.
  unfold Centralidades.calcular_centralidades.
  apply bind_not_fuel; [|intros dc _].
  { unfold Centralidades.calcular_degree. apply mapM_not_fuel.
    intros [n g]. no_fuel. }
  apply bind_not_fuel; [apply betweenness_not_fuel | intros bc _].
  apply bind_not_fuel; [apply closeness_not_fuel | intros cc _].
  apply bind_not_fuel; [apply edge_betweenness_not_fuel | intros ebc _].
  discriminate.
Qed.

(** ** Closeness centrality *)

Lemma py_div_pos a b : (0 < b)%Q -> py_div a b = Ok (a / b)%Q.
Proof.
  intros Hb. unfold py_div. destruct (Qeq_bool b 0) eqn:E; [|reflexivity].
  apply Qeq_bool_iff in E. rewrite E in Hb. now apply Qlt_irrefl in Hb.
Qed.

Lemma Qscale_full (a t m : Q) :
  (0 < t)%Q -> ~ (m == 0)%Q -> (a == m)%Q -> (a / t * (a / m) == a / t)%Q.
Proof.
  intros Ht Hm Ha. rewrite Ha at 2. rewrite Ha in *.
  assert (~ (t == 0)%Q).
  { intros E. rewrite E in Ht. now apply Qlt_irrefl in Ht. }
  field. split; assumption.
Qed.

(** An isolated node has closeness 0. *)
Lemma closeness_isolated G n :
  n ∈ nx.nodes G -> nx.adj G n = [] -> nx.closeness_of G n = Ok 0%Q.
Proof.
  intros Hn Hadj. unfold nx.closeness_of, nx.single_source_dijkstra_path_length,
    nx.dijkstra.
  apply has_node_true in Hn. rewrite Hn. unfold nx.dijkstra_fuel.
  cbn. rewrite Hadj. cbn.
  destruct (length (nx.adjacency_entries G)); reflexivity.
Qed.

(** ** Edge betweenness: normalisation *)

Lemma add_at_keys {K : Type} `{EqDecision K} (k : K) c d d' :
  nx.add_at k c d = Ok d' -> PyDict.keys d' = PyDict.keys d.
Proof.
  unfold nx.add_at, nx.lookup. destruct (PyDict.get k d) as [x|] eqn:E; cbn;
    [|discriminate].
  intros [= <-]. apply keys_set_perm.
  destruct (decide (k ∈ PyDict.keys d)) as [|Hn]; [assumption|].
  apply get_None in Hn. congruence.
Qed.

Lemma accumulate_preds_keys w coeff preds sigma acc acc' :
  nx.accumulate_preds w coeff preds sigma acc = Ok acc' ->
  PyDict.keys (fst acc') = PyDict.keys (fst acc).
Proof.
  revert acc. induction preds as [|v preds IH]; intros acc; simpl.
  - now intros [= <-].
  - destruct (nx.lookup v sigma) as [sv| |]; cbn; try discriminate.
    destruct (if PyDict.mem (v, w) acc.1 then _ else _) as [b| |] eqn:Eb;
      cbn; try discriminate.
    destruct (nx.add_at v _ acc.2) as [dl| |]; cbn; try discriminate.
    intros Hr. apply IH in Hr. simpl in Hr. rewrite Hr.
    destruct (PyDict.mem (v, w) acc.1); eapply add_at_keys; eauto.
Qed.

Lemma accumulate_stack_keys stack st acc acc' :
  nx.accumulate_stack stack st acc = Ok acc' ->
  PyDict.keys (fst acc') = PyDict.keys (fst acc).
Proof.
  revert acc. induction stack as [|w stack IH]; intros acc; simpl.
  - now intros [= <-].
  - destruct (nx.lookup w acc.2) as [dw| |]; cbn; try discriminate.
    destruct (nx.lookup w (nx.sp_sigma st)) as [sw| |]; cbn; try discriminate.
    destruct (py_div _ sw) as [coeff| |]; cbn; try discriminate.
    destruct (nx.lookup w (nx.sp_P st)) as [pw| |]; cbn; try discriminate.
    destruct (nx.accumulate_preds _ _ _ _ _) as [a1| |] eqn:E1; cbn;
      try discriminate.
    intros Hr. apply IH in Hr. rewrite Hr.
    eapply accumulate_preds_keys; eauto.
Qed.

Lemma accumulate_sources_keys G sources b b' :
  nx.accumulate_sources G sources b = Ok b' ->
  PyDict.keys b' = PyDict.keys b.
Proof.
  revert b. induction sources as [|s sources IH]; intros b; simpl.
  - now intros [= <-].
  - destruct (nx.single_source_dijkstra_path_basic G s) as [st| |]; cbn;
      try discriminate.
    unfold nx.accumulate_edges.
    destruct (nx.accumulate_stack _ _ _) as [a1| |] eqn:E1; cbn;
      try discriminate.
    intros Hr. apply IH in Hr. rewrite Hr.
    apply accumulate_stack_keys in E1. exact E1.
Qed.

(** The accumulation has one entry per edge of [G.edges()]. *)
Lemma edge_accumulation_keys G acc :
  nx.edge_accumulation G = Ok acc -> PyDict.keys acc = nx.edges G.
Proof.
  unfold nx.edge_accumulation. intros H. apply accumulate_sources_keys in H.
  rewrite H. unfold PyDict.keys.
  change (map (fun e => (e, 0%Q)) (nx.edges G))
    with ((fun e : Z * Z => (e, 0%Q)) <$> nx.edges G).
  rewrite <- list_fmap_compose. apply list_fmap_id.
Qed.

Lemma get_map_values {K : Type} `{EqDecision K} (g : Q -> Q) (k : K)
    (d : list (K * Q)) :
  PyDict.get k (map (fun '(e, b) => (e, g b)) d) = g <$> PyDict.get k d.
Proof.
  induction d as [|[e b] d IH]; simpl; [reflexivity|].
  destruct (decide (k = e)); [reflexivity | apply IH].
Qed.

Lemma Qnormalise (raw n : Q) :
  ~ (n == 0)%Q -> ~ (n - 1 == 0)%Q ->
  (raw * (1 / (n * (n - 1))) == raw * (1 # 2) / (n * (n - 1) / 2))%Q.
Proof. intros H1 H2. field. split; assumption. Qed.

(** The two rescalings of an accumulation: with more than two nodes the
    normalised value of an edge is its accumulated value over
    [n * (n - 1)], the unnormalised value is half of the accumulated
    one. *)
Lemma edge_betweenness_rescaled G acc e :
  2 < nx.number_of_nodes G ->
  nx.edge_accumulation G = Ok acc ->
  e ∈ nx.edges G ->
  let n := inject_Z (nx.number_of_nodes G) in
  exists normalised raw total,
    nx.edge_betweenness_centrality G true = Ok normalised
    /\ nx.edge_betweenness_centrality G false = Ok raw
    /\ PyDict.keys normalised = nx.edges G
    /\ PyDict.keys raw = nx.edges G
    /\ PyDict.get e acc = Some total
    /\ PyDict.get e raw = Some (total * (1 # 2))%Q
    /\ exists x, PyDict.get e normalised = Some x
         /\ (x == total * (1 # 2) / (n * (n - 1) / 2))%Q
         /\ (x == total / (n * (n - 1)))%Q.
Proof.
  intros HN Hacc He n.
  pose proof (edge_accumulation_keys G acc Hacc) as Hkeys.
  assert (Hget : exists total, PyDict.get e acc = Some total).
  { destruct (PyDict.get e acc) as [t|] eqn:E; [eauto|].
    apply get_None in E. rewrite Hkeys in E. contradiction. }
  destruct Hget as [total Htotal].
  unfold nx.edge_betweenness_centrality. rewrite Hacc.
  unfold mbind, result_bind. unfold nx.rescale_e.
  rewrite decide_False by lia.
  rewrite py_div_inject_Z by nia.
  assert (Hmapkeys : forall g : Q -> Q,
            PyDict.keys (map (fun '(e, b) => (e, g b)) acc) = PyDict.keys acc).
  { intros g. unfold PyDict.keys. clear. induction acc as [|[k b] acc IH];
      [reflexivity|]. simpl. cbn. f_equal. apply IH. }
  eexists. eexists. exists total.
  split; [reflexivity|]. split; [reflexivity|].
  split; [now rewrite (Hmapkeys (fun b => (b * (1 / inject_Z _))%Q))|].
  split; [now rewrite (Hmapkeys (fun b => (b * (1 # 2))%Q))|].
  split; [assumption|].
  split; [now rewrite (get_map_values (fun b => (b * (1 # 2))%Q)), Htotal|].
  eexists. split.
  { rewrite (get_map_values (fun b => (b * (1 / inject_Z _))%Q)), Htotal.
    reflexivity. }
  assert (Hn0 : ~ (n == 0)%Q).
  { unfold n. change 0%Q with (inject_Z 0). rewrite inject_Z_injective. lia. }
  assert (Hn1 : ~ (n - 1 == 0)%Q).
  { unfold n. change 1%Q with (inject_Z 1). unfold Qminus.
    rewrite <- inject_Z_opp, <- inject_Z_plus.
    change 0%Q with (inject_Z 0). rewrite inject_Z_injective. lia. }
  assert (Hmul : (inject_Z (nx.number_of_nodes G * (nx.number_of_nodes G - 1))
                  == n * (n - 1))%Q).
  { unfold n. rewrite inject_Z_mult. unfold Z.sub, Qminus.
    rewrite inject_Z_plus. reflexivity. }
  split.
  - rewrite Hmul. now apply Qnormalise.
  - rewrite Hmul. field. split; assumption.
Qed.

(** On the path 1 - 2 - 3 the edge (1, 2) lies on the shortest paths of
    the pairs {1, 2} and {1, 3}: the accumulation is 4, the raw
    betweenness 2 and the normalised betweenness 2/3. *)
Lemma edge_betweenness_path3 :
  (PyDict.get_default (1%Z, 2%Z) 0 path3_accumulation == 4)%Q
  /\ match nx.edge_betweenness_centrality Ex.path3 false with
     | Ok raw => (PyDict.get_default (1%Z, 2%Z) 0 raw == 2)%Q
     | _ => False
     end
  /\ match nx.edge_betweenness_centrality Ex.path3 true with
     | Ok normalised => (PyDict.get_default (1%Z, 2%Z) 0 normalised == 2 # 3)%Q
     | _ => False
     end.
Proof. vm_compute. repeat split. Qed.

(** ** Determinism of [calcular_centralidades] *)

(** The method reads [self.grafo] only. *)
Lemma calcular_centralidades_reads_grafo self self' :
  Centralidades.grafo self = Centralidades.grafo self' ->
  Centralidades.calcular_centralidades self
  = Centralidades.calcular_centralidades self'.
Proof.
  intros HG. unfold Centralidades.calcular_centralidades. now rewrite HG.
Qed.

Lemma calcular_centralidades_grafo self s1 :
  Centralidades.calcular_centralidades self = Ok s1 ->
  Centralidades.grafo s1 = Centralidades.grafo self.
Proof.
  unfold Centralidades.calcular_centralidades.
  destruct (Centralidades.calcular_degree _) as [dc| |]; cbn; try discriminate.
  destruct (nx.betweenness_centrality _) as [bc| |]; cbn; try discriminate.
  destruct (nx.closeness_centrality _) as [cc| |]; cbn; try discriminate.
  destruct (nx.edge_betweenness_centrality _ _) as [ebc| |]; cbn; try discriminate.
  now intros [= <-].
Qed.

(** ** The impact simulation *)

Lemma bind_Ok {A B : Type} (m : result A) (f : A -> result B) b :
  m ≫= f = Ok b -> exists a, m = Ok a /\ f a = Ok b.
Proof. destruct m; cbn; intros H; try discriminate. eauto. Qed.

Lemma deref_Some h a G : Impacto.deref h (Some a) = Ok G <-> h !! a = Some G.
Proof.
  unfold Impacto.deref. destruct (h !! a); split; intros H; congruence.
Qed.

(** What one simulation does to the store and what it reads. *)
Lemma simular_uma_inv self eb h u v h' r :
  Impacto.simular_uma self eb h (u, v) = Ok (h', r) ->
  exists G Gmod,
    Impacto.deref h (Impacto.grafo self) = Ok G
    /\ nx.remove_edge u v (nx.copy G) = Ok Gmod
    /\ h' = h ++ [Gmod]
    /\ nx.number_connected_components G = Ok (Impacto.componentes_antes r)
    /\ nx.number_connected_components Gmod = Ok (Impacto.componentes_depois r)
    /\ Impacto.comparar_origens G Gmod (take 20 (nx.nodes G))
         (take 20 (nx.nodes G)) ([], 0)
       = Ok (Impacto.aumentos_distancia r, Impacto.pares_desconectados r).
Proof.
  unfold Impacto.simular_uma. intros H.
  apply bind_Ok in H as ([h1 modificado] & Hcopy & H).
  apply bind_Ok in H as (h2 & Hrem & H).
  unfold Impacto.copy_ref in Hcopy.
  apply bind_Ok in Hcopy as (G & HG & Hcopy). injection Hcopy as <- <-.
  unfold Impacto.remove_edge_ref in Hrem.
  apply bind_Ok in Hrem as (G1 & HG1 & Hrem).
  apply bind_Ok in Hrem as (Gmod & HGmod & Hrem). injection Hrem as <-.
  apply deref_Some in HG1.
  rewrite lookup_app_r in HG1 by lia. rewrite Nat.sub_diag in HG1.
  injection HG1 as <-.
  assert (Hh2 : <[length h := Gmod]> (h ++ [nx.copy G]) = h ++ [Gmod]).
  { rewrite insert_app_r_alt by lia. now rewrite Nat.sub_diag. }
  rewrite Hh2 in H.
  assert (HG' : Impacto.deref (h ++ [Gmod]) (Impacto.grafo self) = Ok G).
  { destruct (Impacto.grafo self) as [a|]; [|discriminate].
    apply deref_Some in HG. apply deref_Some.
    rewrite lookup_app_l; [assumption|]. now apply lookup_lt_Some in HG. }
  assert (HGm : Impacto.deref (h ++ [Gmod]) (Some (length h)) = Ok Gmod).
  { apply deref_Some. rewrite lookup_app_r by lia. now rewrite Nat.sub_diag. }
  rewrite HG', HGm in H. cbn [mbind result_bind] in H.
  apply bind_Ok in H as (ka & Hka & H).
  apply bind_Ok in H as (ca & Hca & H).
  apply bind_Ok in H as (kd & Hkd & H).
  apply bind_Ok in H as (cd & Hcd & H).
  apply bind_Ok in H as ([tam menor] & Htam & H).
  apply bind_Ok in H as ([aum sem] & Hcmp & H).
  injection H as <- <-. simpl.
  exists G, Gmod. repeat (split; [first [assumption | reflexivity]|]).
  assumption.
Qed.

Lemma simular_todas_inv self eb h arestas h' rs :
  Impacto.simular_todas self eb h arestas = Ok (h', rs) ->
  length rs = length arestas /\ exists hs, h' = h ++ hs.
Proof.
  revert h h' rs. induction arestas as [|a arestas IH]; intros h h' rs; simpl.
  - intros [= <- <-]. split; [reflexivity|]. exists []. now rewrite app_nil_r.
  - intros H. apply bind_Ok in H as ([h1 r] & H1 & H).
    apply bind_Ok in H as ([h2 rs'] & H2 & H). injection H as <- <-.
    destruct a as [u v].
    apply simular_uma_inv in H1 as (G & Gmod & _ & _ & -> & _).
    apply IH in H2 as [Hlen [hs ->]]. split; [simpl; now rewrite Hlen|].
    exists ([Gmod] ++ hs). now rewrite app_assoc.
Qed.

Lemma simular_remocao_ponte_store self h aresta top_n h' rs :
  Impacto.simular_remocao_ponte self h aresta top_n = Ok (h', rs) ->
  exists hs, h' = h ++ hs.
Proof.
  unfold Impacto.simular_remocao_ponte. intros H.
  apply bind_Ok in H as (G & HG & H).
  apply bind_Ok in H as (pontes & Hp & H).
  destruct pontes as [|p pontes].
  - injection H as <- <-. exists []. now rewrite app_nil_r.
  - apply bind_Ok in H as (arestas & _ & H).
    apply bind_Ok in H as (eb & _ & H).
    now apply simular_todas_inv in H as [_ ?].
Qed.

(** C7: the simulation leaves every graph object that existed before it
    as it was, the graph of the analyser in particular: same nodes, same
    edges, same weights.  The removal happened in an object allocated by
    [copy]. *)
Theorem c7_simulation_preserves_graph self h aresta top_n h' rs :
  Impacto.simular_remocao_ponte self h aresta top_n = Ok (h', rs) ->
  Impacto.deref h' (Impacto.grafo self) = Impacto.deref h (Impacto.grafo self)
  /\ forall a G, h !! a = Some G -> h' !! a = Some G.
Proof.
  intros H. pose proof H as H0.
  apply simular_remocao_ponte_store in H as [hs ->].
  assert (Hframe : forall a G, h !! a = Some G -> (h ++ hs) !! a = Some G).
  { intros a G Ha. rewrite lookup_app_l; [assumption|].
    now apply lookup_lt_Some in Ha. }
  split; [|assumption].
  unfold Impacto.simular_remocao_ponte in H0.
  apply bind_Ok in H0 as (G & HG & _). rewrite HG.
  destruct (Impacto.grafo self) as [a|]; [|discriminate].
  apply deref_Some in HG. apply deref_Some. now apply Hframe.
Qed.

Lemma c7_witness :
  Impacto.deref path3_simulation.1 (Impacto.grafo impacto_loaded)
    = Impacto.deref [Ex.path3] (Impacto.grafo impacto_loaded)
  /\ forall a G, [Ex.path3] !! a = Some G -> path3_simulation.1 !! a = Some G.
Proof.
  apply (c7_simulation_preserves_graph impacto_loaded [Ex.path3]
           (Some (2, 3)) 1 path3_simulation.1 path3_simulation.2).
  vm_compute. reflexivity.
Defined.

(** The simulated removal did take place, in the copy: the store holds
    the original path and a second graph without the edge (2, 3). *)
Lemma path3_simulation_store :
  exists Gmod, path3_simulation.1 = [Ex.path3; Gmod]
    /\ nx.has_edge Ex.path3 2 3 = true /\ nx.has_edge Gmod 2 3 = false.
Proof. eexists. repeat split. Qed.

(** *** The sampled pairs *)

Lemma comparar_par_inv G Gmod o d acc acc' :
  Impacto.comparar_par G Gmod o d acc = Ok acc' ->
  acc' = (acc.1 ++ (if decide (o < d) then aumento_par G Gmod (o, d) else []),
          acc.2 + (if decide (o < d)
                   then if desconectado_par G Gmod (o, d) then 1 else 0
                   else 0)).
Proof.
  unfold Impacto.comparar_par, aumento_par, desconectado_par. simpl.
  destruct acc as [aum sem]. simpl.
  case_bool_decide as Hod.
  - intros [= <-]. rewrite !decide_False by lia.
    now rewrite app_nil_r, Z.add_0_r.
  - rewrite !decide_True by lia.
    destruct (nx.shortest_path_length G o d) as [d0|e|].
    + destruct (nx.shortest_path_length Gmod o d) as [d1|e|].
      * destruct (Qlt_le_dec d0 d1).
        -- unfold py_div. destruct (Qeq_bool d0 0); cbn; [discriminate|].
           intros [= <-]. now rewrite Z.add_0_r.
        -- intros [= <-]. now rewrite app_nil_r, Z.add_0_r.
      * destruct e; try discriminate. intros [= <-]. now rewrite app_nil_r.
      * discriminate.
    + destruct e; try discriminate. intros [= <-].
      now rewrite app_nil_r, Z.add_0_r.
    + discriminate.
Qed.

Lemma conta_desconectados_app G Gmod l1 l2 :
  conta_desconectados G Gmod (l1 ++ l2)
  = conta_desconectados G Gmod l1 + conta_desconectados G Gmod l2.
Proof.
  unfold conta_desconectados. rewrite filter_app, length_app. lia.
Qed.

Lemma comparar_destinos_inv G Gmod o ds acc acc' :
  Impacto.comparar_destinos G Gmod o ds acc = Ok acc' ->
  let pares := map (pair o) (filter (fun d => o < d) ds) in
  acc' = (acc.1 ++ flat_map (aumento_par G Gmod) pares,
          acc.2 + conta_desconectados G Gmod pares).
Proof.
  revert acc. induction ds as [|d ds IH]; intros acc; simpl.
  - intros [= <-]. unfold conta_desconectados. simpl.
    rewrite app_nil_r, Z.add_0_r. now destruct acc.
  - intros H. apply bind_Ok in H as (acc1 & H1 & H).
    apply comparar_par_inv in H1. apply IH in H. subst acc1. simpl in H.
    rewrite H. rewrite filter_cons. destruct (decide (o < d)) as [Hod|Hod].
    + cbn [map flat_map]. rewrite <- app_assoc.
      change ((o, d) :: map (pair o) (filter (fun d => o < d) ds))
        with ([(o, d)] ++ map (pair o) (filter (fun d => o < d) ds)).
      rewrite conta_desconectados_app. f_equal.
      unfold conta_desconectados at 2. rewrite filter_cons, filter_nil.
      destruct (desconectado_par G Gmod (o, d)) eqn:E.
      * rewrite decide_True by reflexivity. simpl. lia.
      * rewrite decide_False by discriminate. simpl. lia.
    + now rewrite app_nil_r, Z.add_0_r.
Qed.

Lemma comparar_origens_inv G Gmod os amostra acc acc' :
  Impacto.comparar_origens G Gmod os amostra acc = Ok acc' ->
  let pares :=
    flat_map (fun o => map (pair o) (filter (fun d => o < d) amostra)) os in
  acc' = (acc.1 ++ flat_map (aumento_par G Gmod) pares,
          acc.2 + conta_desconectados G Gmod pares).
Proof.
  revert acc. induction os as [|o os IH]; intros acc; simpl.
  - intros [= <-]. unfold conta_desconectados. simpl.
    rewrite app_nil_r, Z.add_0_r. now destruct acc.
  - intros H. apply bind_Ok in H as (acc1 & H1 & H).
    apply comparar_destinos_inv in H1. apply IH in H. subst acc1. simpl in H.
    rewrite H. rewrite flat_map_app, conta_desconectados_app, <- app_assoc.
    f_equal. lia.
Qed.




(** ** Connected components *)

Lemma rtc_symmetric {A : Type} (R : relation A) :
  (forall x y, R x y -> R y x) -> forall x y, rtc R x y -> rtc R y x.
Proof.
  intros Hsym x y H. induction H as [|x y z Hxy _ IH]; [constructor|].
  eapply rtc_r; [exact IH|]. now apply Hsym.
Qed.

Lemma adjacent_sym G x y : wf_graph G -> adjacent G x y -> adjacent G y x.
Proof. intros Hwf. now apply wf_neighbors_sym. Qed.

Lemma connected_sym G x y : wf_graph G -> connected G x y -> connected G y x.
Proof. intros Hwf. apply rtc_symmetric. intros ? ?. now apply adjacent_sym. Qed.

Lemma connected_node G x y :
  wf_graph G -> x ∈ nx.nodes G -> connected G x y -> y ∈ nx.nodes G.
Proof.
  intros Hwf Hx H. induction H as [|x y z Hxy _ IH]; [assumption|].
  apply IH. eapply wf_edge_nodes; eauto.
Qed.

(** A set that holds [v] and is closed under adjacency holds the
    component of [v]. *)
Lemma closed_connected G (X : gset Z) v x :
  (forall a b, a ∈ X -> adjacent G a b -> b ∈ X) ->
  v ∈ X -> connected G v x -> x ∈ X.
Proof.
  intros Hcl Hv H. induction H as [|a b c Hab _ IH]; [assumption|].
  apply IH. eapply Hcl; eauto.
Qed.

Lemma is_component_unique G v c c' :
  is_component G v c -> is_component G v c' -> c = c'.
Proof.
  intros H H'. apply set_eq. intros x. now rewrite (H x), (H' x).
Qed.

Lemma is_component_connected G v v' c :
  wf_graph G -> connected G v v' -> is_component G v c -> is_component G v' c.
Proof.
  intros Hwf Hvv Hc x. rewrite (Hc x). split; intros H.
  - etransitivity; [|exact H]. now apply connected_sym.
  - etransitivity; eauto.
Qed.

(** *** One level of the breadth-first search *)

Lemma bfs_level_spec G level seen next seen' next' :
  nx.bfs_level G level seen next = (seen', next') ->
  seen' = seen ∪ list_to_set level
  /\ forall x, x ∈ next' <->
       x ∈ next \/ exists v, v ∈ level /\ v ∉ seen /\ adjacent G v x.
Proof.
  revert seen next. induction level as [|v level IH]; intros seen next; simpl.
  - intros [= <- <-]. split; [set_solver|]. intros x. split; [auto|].
    intros [?|(v & Hv & _)]; [assumption | inversion Hv].
  - destruct (decide (v ∈ seen)) as [Hin|Hnin]; intros H; apply IH in H as [-> Hn].
    + split; [set_solver|]. intros x. rewrite Hn. split.
      * intros [?|(w & Hw & Hws & Hadj)]; [auto|]. right. exists w.
        split; [now right | auto].
      * intros [?|(w & Hw & Hws & Hadj)]; [auto|]. right. exists w.
        apply elem_of_cons in Hw as [->|Hw]; [contradiction | auto].
    + split; [set_solver|]. intros x. rewrite Hn, elem_of_app. split.
      * intros [[?|Hx]|(w & Hw & Hws & Hadj)]; [auto| |].
        -- right. exists v. split; [left | auto].
        -- right. exists w. split; [now right|]. split; [set_solver | auto].
      * intros [?|(w & Hw & Hws & Hadj)]; [auto|].
        destruct (decide (w = v)) as [->|Hne]; [left; now right|].
        right. exists w. apply elem_of_cons in Hw as [?|Hw]; [contradiction|].
        split; [assumption|]. split; [set_solver | assumption].
Qed.

(** *** The search returns the component of its source *)

Lemma bfs_loop_spec G s fuel seen level :
  wf_graph G ->
  (forall x, x ∈ level -> x ∈ nx.nodes G) ->
  (forall x, x ∈ seen -> x ∈ nx.nodes G) ->
  (forall x, x ∈ seen \/ x ∈ level -> connected G s x) ->
  (forall x y, x ∈ seen -> adjacent G x y -> y ∈ seen \/ y ∈ level) ->
  s ∈ seen \/ s ∈ level ->
  (size (list_to_set (nx.nodes G) ∖ seen : gset Z) < fuel)%nat ->
  exists c, nx.bfs_loop fuel G seen level = Ok c /\ is_component G s c.
Proof.
  intros Hwf. revert seen level.
  induction fuel as [|fuel IH]; intros seen level Hlev Hseen Hreach Hclosed Hs Hfuel;
    [lia|].
  destruct level as [|v level].
  - exists seen. split; [reflexivity|]. intros x. split; [auto|].
    intros Hx. eapply closed_connected; eauto.
    + intros a b Ha Hab. destruct (Hclosed a b Ha Hab) as [?|Hb]; [assumption|].
      inversion Hb.
    + destruct Hs as [?|Hs]; [assumption | inversion Hs].
  - cbn [nx.bfs_loop].
    destruct (nx.bfs_level G (v :: level) seen []) as [seen' next'] eqn:E.
    apply bfs_level_spec in E as [Hseen' Hnext'].
    assert (Hnext : forall x, x ∈ next' ->
              exists w, w ∈ v :: level /\ w ∉ seen /\ adjacent G w x).
    { intros x Hx. apply Hnext' in Hx as [Hx|?]; [inversion Hx | assumption]. }
    assert (Hlev' : forall x, x ∈ next' -> x ∈ nx.nodes G).
    { intros x Hx. apply Hnext in Hx as (w & Hw & _ & Hadj).
      eapply wf_edge_nodes; eauto. }
    assert (Hseen2 : forall x, x ∈ seen' -> x ∈ nx.nodes G).
    { intros x. rewrite Hseen'. rewrite elem_of_union, elem_of_list_to_set.
      intros [?|?]; auto. }
    assert (Hreach' : forall x, x ∈ seen' \/ x ∈ next' -> connected G s x).
    { intros x [Hx|Hx].
      - rewrite Hseen', elem_of_union, elem_of_list_to_set in Hx.
        apply Hreach. tauto.
      - apply Hnext in Hx as (w & Hw & _ & Hadj).
        eapply rtc_r; [|exact Hadj]. apply Hreach. now right. }
    assert (Hclosed' : forall x y, x ∈ seen' -> adjacent G x y ->
              y ∈ seen' \/ y ∈ next').
    { intros x y Hx Hxy. rewrite Hseen' in *.
      rewrite elem_of_union, elem_of_list_to_set in Hx.
      destruct (decide (x ∈ seen)) as [Hxs|Hxs].
      - destruct (Hclosed x y Hxs Hxy) as [?|?]; left; set_solver.
      - right. apply Hnext'. right. exists x. destruct Hx; [contradiction|auto]. }
    assert (Hs' : s ∈ seen' \/ s ∈ next').
    { left. rewrite Hseen'. set_solver. }
    destruct (decide (Forall (fun x => x ∈ seen) (v :: level))) as [Hall|Hnall].
    + (* nothing new: the next level is empty *)
      assert (next' = []) as ->.
      { destruct next' as [|x next']; [reflexivity|]. exfalso.
        destruct (Hnext x) as (w & Hw & Hws & _); [left|].
        rewrite Forall_forall in Hall. apply Hws, Hall. assumption. }
      exists seen'. split; [destruct fuel; reflexivity|].
      intros x. split; [auto|]. intros Hx. eapply closed_connected; eauto.
      * intros a b Ha Hab. destruct (Hclosed' a b Ha Hab) as [?|Hb]; [assumption|].
        inversion Hb.
      * destruct Hs' as [?|Hb]; [assumption | inversion Hb].
    + apply IH; try assumption.
      apply not_Forall_Exists in Hnall; [|intros ?; apply _].
      apply Exists_exists in Hnall as (w & Hw & Hws).
      assert (Hsub : list_to_set (nx.nodes G) ∖ seen'
                     ⊂ (list_to_set (nx.nodes G) ∖ seen : gset Z)).
      { rewrite Hseen'. apply strict_spec_alt. split; [set_solver|].
        intros Heq. assert (Hin : w ∈ (list_to_set (nx.nodes G) ∖ seen : gset Z)).
        { apply elem_of_difference. split; [|assumption].
          apply elem_of_list_to_set. apply Hlev. assumption. }
        rewrite <- Heq in Hin. set_solver. }
      apply subset_size in Hsub. lia.
Qed.

Lemma plain_bfs_spec G s :
  wf_graph G -> s ∈ nx.nodes G ->
  exists c, nx.plain_bfs G s = Ok c /\ is_component G s c.
Proof.
  intros Hwf Hs. unfold nx.plain_bfs. apply bfs_loop_spec; try assumption.
  - intros x Hx. apply list_elem_of_singleton in Hx. now subst.
  - set_solver.
  - intros x [Hx|Hx]; [set_solver|]. apply list_elem_of_singleton in Hx.
    subst. constructor.
  - set_solver.
  - right. left.
  - rewrite difference_empty_L.
    rewrite size_list_to_set by apply Hwf.
    unfold nx.nodes, PyDict.keys. rewrite length_fmap. lia.
Qed.

(** *** The list of components *)

Lemma components_from_spec G vs seen :
  wf_graph G ->
  (forall v, v ∈ vs -> v ∈ nx.nodes G) ->
  (forall x y, x ∈ seen -> connected G x y -> y ∈ seen) ->
  exists cs,
    nx.components_from G vs seen = Ok cs
    /\ NoDup cs
    /\ forall c, c ∈ cs <->
         exists v, v ∈ vs /\ v ∉ seen /\ is_component G v c.
Proof.
  intros Hwf. revert seen. induction vs as [|v vs IH]; intros seen Hvs Hcl.
  - exists []. split; [reflexivity|]. split; [constructor|].
    intros c. split; [intros H; inversion H|].
    intros (v & Hv & _). inversion Hv.
  - cbn [nx.components_from]. destruct (decide (v ∈ seen)) as [Hin|Hnin].
    + destruct (IH seen) as (cs & Hcs & Hnd & Hiff); [|assumption|].
      { intros w Hw. apply Hvs. now right. }
      exists cs. split; [assumption|]. split; [assumption|].
      intros c. rewrite Hiff. split.
      * intros (w & Hw & H1 & H2). exists w. split; [now right | auto].
      * intros (w & Hw & H1 & H2). exists w.
        apply elem_of_cons in Hw as [->|Hw]; [contradiction | auto].
    + destruct (plain_bfs_spec G v Hwf) as (c & Hc & Hcomp); [apply Hvs; left|].
      rewrite Hc. cbn [mbind result_bind].
      destruct (IH (seen ∪ c)) as (cs & Hcs & Hnd & Hiff).
      { intros w Hw. apply Hvs. now right. }
      { intros x y Hx Hxy. apply elem_of_union in Hx as [Hx|Hx].
        - apply elem_of_union. left. eauto.
        - apply elem_of_union. right. apply Hcomp. etransitivity; [|exact Hxy].
          now apply Hcomp. }
      rewrite Hcs. cbn [mbind result_bind].
      exists (c :: cs). split; [reflexivity|]. split.
      { apply NoDup_cons. split; [|assumption]. intros Hin.
        apply Hiff in Hin as (w & _ & Hw & Hcw). apply Hw.
        apply elem_of_union. right. apply Hcw. constructor. }
      intros c'. rewrite elem_of_cons, Hiff. split.
      * intros [->|(w & Hw & H1 & H2)].
        -- exists v. split; [left | auto].
        -- exists w. split; [now right|]. split; [set_solver | assumption].
      * intros (w & Hw & H1 & H2).
        destruct (decide (w ∈ c)) as [Hwc|Hwc].
        -- left. apply Hcomp in Hwc.
           eapply is_component_unique; [exact H2|].
           eapply is_component_connected; eauto.
        -- right. exists w. apply elem_of_cons in Hw as [->|Hw].
           ++ exfalso. apply Hwc, Hcomp. constructor.
           ++ split; [assumption|]. split; [set_solver | assumption].
Qed.

(** [connected_components] returns every component once. *)
Lemma connected_components_spec G :
  wf_graph G ->
  exists cs,
    nx.connected_components G = Ok cs
    /\ NoDup cs
    /\ forall c, c ∈ cs <-> exists v, v ∈ nx.nodes G /\ is_component G v c.
Proof.
  intros Hwf. unfold nx.connected_components.
  destruct (components_from_spec G (nx.nodes G) ∅ Hwf) as (cs & H1 & H2 & H3).
  - auto.
  - set_solver.
  - exists cs. split; [assumption|]. split; [assumption|].
    intros c. rewrite H3. split.
    + intros (v & ? & _ & ?). eauto.
    + intros (v & ? & ?). exists v. split; [assumption|]. split; [set_solver|auto].
Qed.

Lemma number_connected_components_spec G :
  wf_graph G ->
  exists cs : list (gset Z),
    nx.number_connected_components G = Ok (Z.of_nat (size (list_to_set cs : gset (gset Z))))
    /\ forall c, c ∈ cs <-> exists v, v ∈ nx.nodes G /\ is_component G v c.
Proof.
  intros Hwf. destruct (connected_components_spec G Hwf) as (cs & H1 & H2 & H3).
  exists cs. split; [|assumption].
  unfold nx.number_connected_components. rewrite H1. cbn [mbind result_bind].
  now rewrite size_list_to_set.
Qed.

(** *** Removing one edge *)

Section EdgeRemoval.

Context (G G' : nx.Graph) (a b : Z).
Hypothesis wfG : wf_graph G.
Hypothesis wfG' : wf_graph G'.
Hypothesis same_nodes : forall x, x ∈ nx.nodes G' <-> x ∈ nx.nodes G.
Hypothesis edge_ab : adjacent G a b.
Hypothesis removed :
  forall x y, adjacent G' x y <-> adjacent_without G a b x y.

Lemma removed_sub x y : connected G' x y -> connected G x y.
Proof.
  intros H. induction H as [|x y z Hxy _ IH]; [constructor|].
  econstructor; [|exact IH]. apply removed in Hxy. apply Hxy.
Qed.

Lemma adjacent_cases x y :
  adjacent G x y -> adjacent G' x y \/ (x = a /\ y = b) \/ (x = b /\ y = a).
Proof.
  intros H. destruct (decide ((x = a /\ y = b) \/ (x = b /\ y = a))) as [|Hn];
    [auto|]. left. apply removed. split; assumption.
Qed.

(** A path of [G] is a path of [G'] or goes through the removed edge. *)
Lemma connected_split x y :
  connected G x y <->
  connected G' x y
  \/ (connected G' x a /\ connected G' b y)
  \/ (connected G' x b /\ connected G' a y).
Proof.
  split.
  - intros H. induction H as [x|x z y Hxz _ IH]; [left; constructor|].
    apply adjacent_cases in Hxz as [Hxz|[[-> ->]|[-> ->]]].
    + destruct IH as [IH|[[I1 I2]|[I1 I2]]].
      * left. econstructor; eauto.
      * right. left. split; [econstructor; eauto | assumption].
      * right. right. split; [econstructor; eauto | assumption].
    + destruct IH as [IH|[[I1 I2]|[I1 I2]]].
      * right. left. split; [constructor | assumption].
      * left. etransitivity; [|exact I2]. now apply connected_sym.
      * left. assumption.
    + destruct IH as [IH|[[I1 I2]|[I1 I2]]].
      * right. right. split; [constructor | assumption].
      * left. assumption.
      * left. etransitivity; [|exact I2]. now apply connected_sym.
  - intros [H|[[H1 H2]|[H1 H2]]].
    + now apply removed_sub.
    + etransitivity; [apply removed_sub; exact H1|].
      econstructor; [exact edge_ab|]. now apply removed_sub.
    + etransitivity; [apply removed_sub; exact H1|].
      econstructor; [apply adjacent_sym; [assumption | exact edge_ab]|].
      now apply removed_sub.
Qed.

Lemma node_a : a ∈ nx.nodes G.
Proof. now destruct (wf_edge_nodes G a b wfG edge_ab). Qed.

Lemma node_b : b ∈ nx.nodes G.
Proof. now destruct (wf_edge_nodes G a b wfG edge_ab). Qed.

(** The endpoints stay joined: the components are the same. *)
Lemma components_same :
  connected G' a b ->
  forall k k',
    nx.number_connected_components G = Ok k ->
    nx.number_connected_components G' = Ok k' -> k' = k.
Proof.
  intros Hab k k' Hk Hk'.
  destruct (number_connected_components_spec G wfG) as (cs & Hn & Hcs).
  destruct (number_connected_components_spec G' wfG') as (cs' & Hn' & Hcs').
  rewrite Hn in Hk. rewrite Hn' in Hk'. injection Hk as <-. injection Hk' as <-.
  assert (Hconn : forall x y, connected G x y <-> connected G' x y).
  { intros x y. rewrite connected_split. split; [|auto].
    intros [H|[[H1 H2]|[H1 H2]]]; [assumption| |].
    - etransitivity; [exact H1|]. etransitivity; eauto.
    - etransitivity; [exact H1|]. etransitivity; [|exact H2].
      now apply connected_sym. }
  assert (Heq : (list_to_set cs' : gset (gset Z)) = list_to_set cs).
  { apply set_eq. intros c. rewrite !elem_of_list_to_set, Hcs, Hcs'.
    split; intros (v & Hv & Hc); exists v; (split; [now apply same_nodes|]);
      intros x; rewrite (Hc x); [symmetry|]; apply Hconn. }
  now rewrite Heq.
Qed.

(** The endpoints are separated: the component of the edge splits in
    two, the others stay. *)
Lemma components_split :
  ~ connected G' a b ->
  forall k k',
    nx.number_connected_components G = Ok k ->
    nx.number_connected_components G' = Ok k' -> k' = k + 1.
Proof.
  intros Hab k k' Hk Hk'.
  destruct (number_connected_components_spec G wfG) as (cs & Hn & Hcs).
  destruct (number_connected_components_spec G' wfG') as (cs' & Hn' & Hcs').
  rewrite Hn in Hk. rewrite Hn' in Hk'. injection Hk as <-. injection Hk' as <-.
  pose proof node_a as Ha. pose proof node_b as Hb.
  destruct (plain_bfs_spec G a wfG Ha) as (C & _ & HC).
  destruct (plain_bfs_spec G' a wfG') as (A & _ & HA); [now apply same_nodes|].
  destruct (plain_bfs_spec G' b wfG') as (B & _ & HB); [now apply same_nodes|].
  set (S := list_to_set cs : gset (gset Z)).
  set (S' := list_to_set cs' : gset (gset Z)).
  assert (HCS : C ∈ S).
  { apply elem_of_list_to_set, Hcs. eauto. }
  assert (HAB : A <> B).
  { intros Heq. apply Hab. apply HA. rewrite Heq. apply HB. constructor. }
  assert (Hother : forall v c, is_component G v c -> v ∉ C -> is_component G' v c).
  { intros v c Hc HvC x. rewrite (Hc x), connected_split.
    split; [|auto]. intros [H|[[H1 H2]|[H1 H2]]]; [assumption| |]; exfalso;
      apply HvC, HC, connected_sym; try assumption.
    - now apply removed_sub.
    - etransitivity; [apply removed_sub; exact H1|].
      econstructor; [apply adjacent_sym; [assumption | exact edge_ab]|constructor]. }
  assert (Hother' : forall v c, is_component G' v c -> v ∉ C -> is_component G v c).
  { intros v c Hc HvC x. rewrite (Hc x), connected_split.
    split; [auto|]. intros [H|[[H1 H2]|[H1 H2]]]; [assumption| |]; exfalso;
      apply HvC, HC, connected_sym; try assumption.
    - now apply removed_sub.
    - etransitivity; [apply removed_sub; exact H1|].
      econstructor; [apply adjacent_sym; [assumption | exact edge_ab]|constructor]. }
  assert (HinC : forall v, v ∈ C -> connected G' v a \/ connected G' v b).
  { intros v Hv. apply HC, connected_sym in Hv; [|assumption].
    apply connected_split in Hv as [H|[[H1 H2]|[H1 H2]]]; auto. }
  assert (HS' : S' = (S ∖ {[C]}) ∪ {[A; B]}).
  { apply set_eq. intros c. unfold S', S.
    rewrite elem_of_union, elem_of_difference, !elem_of_list_to_set, Hcs, Hcs'.
    rewrite elem_of_union, !elem_of_singleton. split.
    - intros (v & Hv & Hc). destruct (decide (v ∈ C)) as [HvC|HvC].
      + right. destruct (HinC v HvC) as [H|H].
        * left. eapply is_component_unique; [exact Hc|].
          eapply is_component_connected; [assumption| |exact HA].
          now apply connected_sym.
        * right. eapply is_component_unique; [exact Hc|].
          eapply is_component_connected; [assumption| |exact HB].
          now apply connected_sym.
      + left. split.
        * exists v. split; [now apply same_nodes | now apply Hother'].
        * intros ->. apply HvC, Hc. constructor.
    - intros [[(v & Hv & Hc) HcC]|[->| ->]].
      + destruct (decide (v ∈ C)) as [HvC|HvC].
        * exfalso. apply HcC. eapply is_component_unique; [exact Hc|].
          eapply is_component_connected; [assumption| |exact HC].
          now apply HC.
        * exists v. split; [now apply same_nodes | now apply Hother].
      + exists a. split; [now apply same_nodes | assumption].
      + exists b. split; [now apply same_nodes | assumption]. }
  assert (HA' : A ∉ S ∖ {[C]}).
  { intros HAin. apply elem_of_difference in HAin as [HAin HAC].
    apply elem_of_list_to_set, Hcs in HAin as (v & Hv & Hc).
    apply Hab. apply HA. apply Hc.
    assert (Hva : connected G v a).
    { apply Hc. apply HA. constructor. }
    etransitivity; [exact Hva|]. econstructor; [exact edge_ab | constructor]. }
  assert (HB' : B ∉ S ∖ {[C]}).
  { intros HBin. apply elem_of_difference in HBin as [HBin HBC].
    apply elem_of_list_to_set, Hcs in HBin as (v & Hv & Hc).
    apply Hab. apply connected_sym; [assumption|]. apply HB. apply Hc.
    assert (Hvb : connected G v b).
    { apply Hc. apply HB. constructor. }
    etransitivity; [exact Hvb|].
    econstructor; [apply adjacent_sym; [assumption | exact edge_ab] | constructor]. }
  fold S S'. rewrite HS'.
  rewrite size_union by set_solver.
  rewrite size_difference by set_solver.
  rewrite size_singleton.
  rewrite size_union by set_solver. rewrite !size_singleton.
  assert (size S <> 0)%nat.
  { intros Hz. apply size_empty_inv in Hz. set_solver. }
  lia.
Qed.

End EdgeRemoval.

(** ** Bridges: the depth-first traversal *)

Lemma visited_lookup st x : x ∈ visited st <-> is_Some (nx.disc st !! x).
Proof. apply elem_of_dom. Qed.

Lemma visited_Some st x k : nx.disc st !! x = Some k -> x ∈ visited st.
Proof. intros H. apply visited_lookup. eauto. Qed.

Lemma not_visited_None st x : x ∉ visited st <-> nx.disc st !! x = None.
Proof. apply not_elem_of_dom. Qed.

Lemma low_of_lower st u k x :
  nx.low_of (nx.lower u k st) x
  = if decide (x = u) then Nat.min (nx.low_of st u) k else nx.low_of st x.
Proof.
  unfold nx.low_of, nx.lower. simpl. destruct (decide (x = u)) as [->|Hne].
  - now rewrite lookup_insert_eq.
  - now rewrite lookup_insert_ne by congruence.
Qed.

Lemma visited_lower st u k : visited (nx.lower u k st) = visited st.
Proof. reflexivity. Qed.

Lemma visited_report st u v : visited (nx.report u v st) = visited st.
Proof. reflexivity. Qed.

Lemma visited_discover st u : visited (nx.discover u st) = {[u]} ∪ visited st.
Proof. unfold visited, nx.discover. simpl. apply dom_insert_L. Qed.

(** *** Paths *)

Lemma adjacent_without_sym G a b x y :
  wf_graph G -> adjacent_without G a b x y -> adjacent_without G a b y x.
Proof.
  intros Hwf [H1 H2]. split; [now apply adjacent_sym|]. tauto.
Qed.

Lemma connected_without_sym G a b x y :
  wf_graph G -> connected_without G a b x y -> connected_without G a b y x.
Proof.
  intros Hwf. apply rtc_symmetric. intros ? ?. now apply adjacent_without_sym.
Qed.

Lemma connected_without_swap G a b x y :
  connected_without G a b x y -> connected_without G b a x y.
Proof.
  intros H. induction H as [|x y z [H1 H2] _ IH]; [constructor|].
  econstructor; [|exact IH]. split; [assumption | tauto].
Qed.

Lemma bypass_sym G x y : wf_graph G -> bypass G x y -> bypass G y x.
Proof.
  intros Hwf H. unfold bypass in *.
  now apply connected_without_swap, connected_without_sym.
Qed.

Lemma settled_sym G st x y : wf_graph G -> settled G st x y -> settled G st y x.
Proof.
  intros Hwf [H|[H|H]]; unfold settled; [tauto | tauto |].
  right. right. now apply bypass_sym.
Qed.

Lemma connected_in_sym G X x y :
  wf_graph G -> connected_in G X x y -> connected_in G X y x.
Proof.
  intros Hwf. apply rtc_symmetric. intros a b (H1 & H2 & H3).
  split; [now apply adjacent_sym | tauto].
Qed.

Lemma connected_in_mono G (X Y : gset Z) x y :
  X ⊆ Y -> connected_in G X x y -> connected_in G Y x y.
Proof.
  intros Hsub H. induction H as [|x y z (H1 & H2 & H3) _ IH]; [constructor|].
  econstructor; [|exact IH]. split; [assumption|]. split; set_solver.
Qed.

Lemma connected_in_start G (X : gset Z) x y :
  connected_in G X x y -> y ∈ X -> x ∈ X.
Proof. intros H Hy. destruct H as [|x y z (_ & H2 & _) _]; assumption. Qed.

(** A path inside [X] avoids every edge that has an endpoint outside. *)
Lemma connected_in_without G (X : gset Z) a b x y :
  (a ∉ X \/ b ∉ X) -> connected_in G X x y -> connected_without G a b x y.
Proof.
  intros Hab H. induction H as [|x y z (H1 & H2 & H3) _ IH]; [constructor|].
  econstructor; [|exact IH]. split; [assumption|].
  intros [[-> ->]|[-> ->]]; tauto.
Qed.

(** A set closed under the adjacency without [a - b] keeps the paths. *)
Lemma closed_without G (X : gset Z) a b x y :
  (forall p q, p ∈ X -> adjacent_without G a b p q -> q ∈ X) ->
  x ∈ X -> connected_without G a b x y -> y ∈ X.
Proof.
  intros Hcl Hx H. induction H as [|p q r Hpq _ IH]; [assumption|].
  apply IH. eapply Hcl; eauto.
Qed.

Lemma settled_mono G st st' x y :
  (forall e, e ∈ nx.cut st -> e ∈ nx.cut st') ->
  settled G st x y -> settled G st' x y.
Proof. intros Hm [H|[H|H]]; unfold settled; auto. Qed.

Lemma closed_at_mono G st st' x :
  visited st ⊆ visited st' -> closed_at G st x -> closed_at G st' x.
Proof. intros Hsub H y Hy. apply Hsub. now apply H. Qed.

Lemma frame_subset st st' :
  (forall x, x ∈ visited st -> nx.disc st' !! x = nx.disc st !! x) ->
  visited st ⊆ visited st'.
Proof.
  intros Hf x Hx. apply visited_lookup. rewrite (Hf x Hx).
  now apply visited_lookup.
Qed.

(** *** The scan of one adjacency list *)

Ltac inv_li LI :=
  destruct LI as [li_ok0 li_disc_frame0 li_low_frame0 li_cut_mono0 li_disc_u0
                  li_disc_new0 li_closed0 li_pre_adjacent0 li_pre_visited0
                  li_conn0 li_edges0 li_edges_u0 li_low_le0 li_low_wit0
                  li_low_min0].

Ltac inv_vp VP :=
  destruct VP as [vp_ok0 vp_disc_frame0 vp_low_frame0 vp_cut_mono0 vp_disc_u0
                  vp_disc_new0 vp_closed0 vp_conn0 vp_edges0 vp_low_le0
                  vp_low_wit0 vp_low_min0].

Section Scan.

Context (G : nx.Graph) (parent : option Z) (u : Z) (st0 : nx.tarjan_state).
Hypothesis Hwf : wf_graph G.
Hypothesis Hst0 : st_ok G st0.
Hypothesis Hu : u ∉ visited st0.
Hypothesis Hpar : forall p, parent = Some p -> adjacent G p u /\ p ∈ visited st0.
Hypothesis Hgray : gray G st0 parent.

Lemma li_visited_sub pre cur :
  loop_inv G parent u st0 pre cur -> visited st0 ⊆ visited cur.
Proof. intros LI. apply frame_subset, LI. Qed.

Lemma li_u_visited pre cur :
  loop_inv G parent u st0 pre cur -> u ∈ visited cur.
Proof. intros LI. eapply visited_Some, LI. Qed.

Lemma li_clock pre cur :
  loop_inv G parent u st0 pre cur -> (nx.clock st0 < nx.clock cur)%nat.
Proof. intros LI. eapply (ok_clock G cur); [apply LI|]. apply LI. Qed.

(** Old nodes were discovered before [u]. *)
Lemma li_old_disc pre cur w k :
  loop_inv G parent u st0 pre cur ->
  nx.disc cur !! w = Some k -> (k < nx.clock st0)%nat -> w ∈ visited st0.
Proof.
  intros LI Hk Hlt. destruct (decide (w ∈ visited st0)) as [|Hn]; [assumption|].
  pose proof (li_disc_new _ _ _ _ _ _ LI w k Hn Hk). lia.
Qed.

(** The precondition of a call on a child. *)
Lemma li_gray pre cur :
  loop_inv G parent u st0 pre cur -> gray G cur (Some u).
Proof.
  intros LI w Hw (y & Hwy & Hy).
  pose proof (li_visited_sub _ _ LI) as Hsub.
  pose proof (li_u_visited _ _ LI) as Huvis.
  destruct (decide (w = u)) as [->|Hne]; [constructor|].
  destruct (decide (w ∈ visited st0)) as [Hold|Hnew].
  - assert (Hy0 : y ∉ visited st0).
    { intros H. apply Hy. now apply Hsub. }
    specialize (Hgray w Hold (ex_intro _ y (conj Hwy Hy0))).
    destruct parent as [p|]; [|contradiction].
    destruct (Hpar p eq_refl) as [Hpu Hp].
    apply rtc_r with p.
    + eapply connected_in_mono; [|exact Hgray]. exact Hsub.
    + split; [assumption|]. split; [now apply Hsub | assumption].
  - exfalso. apply Hy. eapply (li_closed _ _ _ _ _ _ LI w); eauto.
Qed.

(** The neighbour is the parent: the entering edge is skipped. *)
Lemma scan_skip pre cur v :
  loop_inv G parent u st0 pre cur -> adjacent G u v -> parent = Some v ->
  loop_inv G parent u st0 (pre ++ [v]) cur.
Proof.
  intros LI Huv Hv. destruct (Hpar v Hv) as [_ Hvis].
  inv_li LI. split; try assumption.
  - intros y Hy. apply elem_of_app in Hy as [Hy|Hy]; [auto|].
    now apply list_elem_of_singleton in Hy as ->.
  - intros y Hy. apply elem_of_app in Hy as [Hy|Hy]; [auto|].
    apply list_elem_of_singleton in Hy as ->.
    apply visited_lookup. rewrite li_disc_frame0 by assumption.
    now apply visited_lookup.
  - intros x Hx Hx0 Hxu. destruct (li_conn0 x Hx Hx0 Hxu) as (c & Hc & Hcx).
    exists c. split; [apply elem_of_app; now left | assumption].
  - intros y Hy. apply elem_of_app in Hy as [Hy|Hy]; [auto|].
    apply list_elem_of_singleton in Hy as ->. now left.
  - intros x w k Hx Hx0 Hor Hxw Hnp Hk.
    destruct (decide (x = u)) as [->|Hne].
    + destruct Hor as [?|Hw]; [contradiction|].
      apply elem_of_app in Hw as [Hw|Hw]; [eapply li_low_min0; eauto|].
      apply list_elem_of_singleton in Hw as ->. tauto.
    + eapply li_low_min0; eauto.
Qed.

(** The edge [u - v] to a node discovered already, other than the
    parent, is not a bridge. *)
Lemma back_edge_bypass pre cur v :
  loop_inv G parent u st0 pre cur ->
  adjacent G u v -> v ∉ pre -> parent <> Some v -> v ∈ visited cur ->
  bypass G u v.
Proof.
  intros LI Huv Hvpre Hvp Hvis. unfold bypass.
  destruct (decide (v = u)) as [->|Hvu]; [constructor|].
  destruct (decide (v ∈ visited st0)) as [Hold|Hnew].
  - assert (Hvu' : adjacent G v u) by (now apply adjacent_sym).
    specialize (Hgray v Hold (ex_intro _ u (conj Hvu' Hu))).
    destruct parent as [p|]; [|contradiction].
    destruct (Hpar p eq_refl) as [Hpu Hp].
    apply connected_without_sym; [assumption|].
    apply rtc_r with p.
    + eapply connected_in_without; [|exact Hgray]. now left.
    + split; [assumption|]. intros [[? ?]|[? ?]]; congruence.
  - destruct (li_conn _ _ _ _ _ _ LI v) as (c & Hc & Hcv); try assumption.
    assert (Hcv' : c <> v) by (intros ->; contradiction).
    pose proof (li_pre_adjacent _ _ _ _ _ _ LI c Hc) as Huc.
    apply rtc_l with c.
    + split; [assumption|]. intros [[? ?]|[? ?]]; congruence.
    + eapply connected_in_without; [|exact Hcv]. left. set_solver.
Qed.

(** The neighbour is discovered already: a back edge. *)
Lemma scan_back pre cur v dv :
  loop_inv G parent u st0 pre cur ->
  adjacent G u v -> v ∉ pre -> parent <> Some v ->
  nx.disc cur !! v = Some dv ->
  loop_inv G parent u st0 (pre ++ [v]) (nx.lower u dv cur).
Proof.
  intros LI Huv Hvpre Hvp Hdv.
  pose proof (li_visited_sub _ _ LI) as Hsub.
  pose proof (li_u_visited _ _ LI) as Huvis.
  pose proof (visited_Some _ _ _ Hdv) as Hvvis.
  pose proof (back_edge_bypass _ _ _ LI Huv Hvpre Hvp Hvvis) as Hby.
  assert (Hlow : nx.low_of (nx.lower u dv cur) u
                 = Nat.min (nx.low_of cur u) dv).
  { rewrite low_of_lower. now rewrite decide_True. }
  inv_li LI. split; try assumption.
  - destruct li_ok0. split; assumption.
  - (* low frame *)
    intros x Hx. unfold nx.lower. simpl.
    rewrite lookup_insert_ne; [auto|]. intros ->. contradiction.
  - intros y Hy. apply elem_of_app in Hy as [Hy|Hy]; [auto|].
    now apply list_elem_of_singleton in Hy as ->.
  - intros y Hy. apply elem_of_app in Hy as [Hy|Hy]; [auto|].
    now apply list_elem_of_singleton in Hy as ->.
  - intros x Hx Hx0 Hxu. destruct (li_conn0 x Hx Hx0 Hxu) as (c & Hc & Hcx).
    exists c. split; [apply elem_of_app; now left | assumption].
  - intros y Hy. apply elem_of_app in Hy as [Hy|Hy]; [auto|].
    apply list_elem_of_singleton in Hy as ->. right. right. right. assumption.
  - rewrite Hlow. lia.
  - rewrite Hlow. intros Hlt.
    destruct (decide (dv < nx.low_of cur u)%nat) as [Hd|Hd].
    + rewrite Nat.min_r by lia. rewrite Nat.min_r in Hlt by lia.
      assert (Hv0 : v ∈ visited st0).
      { destruct (decide (v ∈ visited st0)) as [|Hn]; [assumption|].
        pose proof (li_disc_new0 v dv Hn Hdv). lia. }
      exists u, v. split; [assumption|]. split; [assumption|].
      split; [assumption|]. split; [intros [_ ?]; contradiction|].
      now rewrite <- li_disc_frame0.
    + rewrite Nat.min_l by lia. rewrite Nat.min_l in Hlt by lia. auto.
  - rewrite Hlow. intros x w k Hx Hx0 Hor Hxw Hnp Hk.
    destruct (decide (x = u /\ w = v)) as [[-> ->]|Hn].
    + rewrite <- li_disc_frame0 in Hk by (eapply visited_Some; eauto).
      assert (k = dv) by congruence. lia.
    + assert (nx.low_of cur u <= k)%nat; [|lia].
      eapply li_low_min0; eauto. destruct Hor as [?|Hw]; [now left|].
      apply elem_of_app in Hw as [?|Hw]; [now right|].
      apply list_elem_of_singleton in Hw as ->.
      left. intros ->. tauto.
Qed.

(** The neighbour [v] is new and its traversal returned: whether the
    tree edge [u - v] is a bridge. *)
Section Child.

Context (pre : list Z) (cur st1 : nx.tarjan_state) (v : Z).
Hypothesis LI : loop_inv G parent u st0 pre cur.
Hypothesis Huv : adjacent G u v.
Hypothesis Hvpre : v ∉ pre.
Hypothesis Hvnew : v ∉ visited cur.
Hypothesis VP : visit_post G (Some u) v cur st1.

Lemma child_v_ne_u : v <> u.
Proof. intros ->. apply Hvnew. eapply li_u_visited; eauto. Qed.

Lemma child_sub : visited cur ⊆ visited st1.
Proof. apply frame_subset, VP. Qed.

Lemma child_disc_u : nx.disc st1 !! u = Some (nx.clock st0).
Proof.
  rewrite (vp_disc_frame _ _ _ _ _ VP); [apply LI|].
  eapply li_u_visited; eauto.
Qed.

Lemma child_low_u : nx.low_of st1 u = nx.low_of cur u.
Proof.
  unfold nx.low_of. rewrite (vp_low_frame _ _ _ _ _ VP); [reflexivity|].
  eapply li_u_visited; eauto.
Qed.

(** The low-link of the child stays above [u]: no edge leaves the
    subtree of [v] except the tree edge, the edge is a bridge. *)
Lemma child_bridge :
  (nx.clock st0 < nx.low_of st1 v)%nat -> ~ bypass G u v.
Proof.
  intros Hlow Hby. unfold bypass in Hby.
  pose proof (li_u_visited _ _ LI) as Huvis.
  pose proof child_sub as Hsub.
  pose proof (li_visited_sub _ _ LI) as Hsub0.
  set (X := visited st1 ∖ visited cur).
  assert (HvX : v ∈ X).
  { apply elem_of_difference. split; [|assumption].
    eapply visited_Some, VP. }
  assert (HuX : u ∉ X) by set_solver.
  apply HuX.
  apply (closed_without G X u v v u); [|assumption|].
  2:{ now apply connected_without_sym. }
  intros x y Hx [Hxy Hne]. apply elem_of_difference in Hx as [Hx1 Hx0].
  apply elem_of_difference. split; [eapply (vp_closed _ _ _ _ _ VP x); eauto|].
  intros Hy. apply visited_lookup in Hy as [k Hk].
  assert (Hnp : ~ (x = v /\ Some u = Some y)).
  { intros [-> [= <-]]. tauto. }
  pose proof (vp_low_min _ _ _ _ _ VP x y k Hx1 Hx0 Hxy Hnp Hk) as Hle.
  assert (Hyu : y <> u).
  { intros ->. rewrite (li_disc_u _ _ _ _ _ _ LI) in Hk. injection Hk as <-. lia. }
  assert (Hy0 : y ∉ visited st0).
  { intros Hy0. rewrite (li_disc_frame _ _ _ _ _ _ LI) in Hk by assumption.
    apply (ok_clock G st0 Hst0) in Hk. lia. }
  apply Hx0. eapply (li_closed _ _ _ _ _ _ LI y); eauto.
  - eapply visited_Some; eauto.
  - now apply adjacent_sym.
Qed.

(** The low-link of the child reaches [u] or above: an edge leaves the
    subtree, the tree edge is not a bridge. *)
Lemma child_no_bridge :
  (nx.low_of st1 v <= nx.clock st0)%nat -> bypass G u v.
Proof.
  intros Hlow. unfold bypass.
  pose proof (li_u_visited _ _ LI) as Huvis.
  pose proof (li_clock _ _ LI) as Hclk.
  destruct (vp_low_wit _ _ _ _ _ VP) as (x & w & Hx1 & Hx0 & Hxw & Hnp & Hw);
    [lia|].
  apply connected_without_sym; [assumption|].
  (* v ~> x inside the subtree *)
  apply rtc_trans with x.
  { eapply connected_in_without; [|eapply (vp_conn _ _ _ _ _ VP)]; eauto.
    left. set_solver. }
  (* x - w *)
  apply rtc_l with w.
  { split; [assumption|]. intros [[? ?]|[? ?]].
    - subst x. contradiction.
    - apply Hnp. split; congruence. }
  (* w ~> u inside the nodes discovered before v *)
  eapply connected_in_without; [|eapply (li_gray _ _ LI w)].
  - now right.
  - eapply visited_Some; eauto.
  - exists x. split; [now apply adjacent_sym | assumption].
Qed.

Context (st3 : nx.tarjan_state).
Hypothesis Hdisc3 : nx.disc st3 = nx.disc st1.
Hypothesis Hclock3 : nx.clock st3 = nx.clock st1.
Hypothesis Hlow3 :
  nx.low st3
  = <[u := Nat.min (nx.low_of st1 u) (nx.low_of st1 v)]> (nx.low st1).
Hypothesis Hcut3 : forall e, e ∈ nx.cut st1 -> e ∈ nx.cut st3.
Hypothesis Hcutok3 :
  forall p c, (p, c) ∈ nx.cut st3 -> adjacent G p c /\ ~ bypass G p c.
Hypothesis Hset3 : settled G st3 u v.

Lemma child_visited3 : visited st3 = visited st1.
Proof. unfold visited. now rewrite Hdisc3. Qed.

Lemma child_low3 :
  nx.low_of st3 u = Nat.min (nx.low_of cur u) (nx.low_of st1 v).
Proof.
  unfold nx.low_of at 1. rewrite Hlow3, lookup_insert_eq. simpl.
  now rewrite child_low_u.
Qed.

Lemma scan_child : loop_inv G parent u st0 (pre ++ [v]) st3.
Proof.
  pose proof (li_u_visited _ _ LI) as Huvis.
  pose proof child_sub as Hsub.
  pose proof (li_visited_sub _ _ LI) as Hsub0.
  pose proof (li_clock _ _ LI) as Hclk.
  pose proof child_v_ne_u as Hvu.
  pose proof child_visited3 as Hvis3.
  pose proof child_low3 as Hl3.
  assert (Hcut03 : forall e, e ∈ nx.cut cur -> e ∈ nx.cut st3).
  { intros e He. apply Hcut3. now apply (vp_cut_mono _ _ _ _ _ VP). }
  split.
  - (* st_ok *)
    split; [|exact Hcutok3]. intros x k. rewrite Hdisc3, Hclock3.
    apply (ok_clock G st1). apply VP.
  - (* disc frame *)
    intros x Hx. rewrite Hdisc3.
    rewrite (vp_disc_frame _ _ _ _ _ VP) by (now apply Hsub0).
    now apply LI.
  - (* low frame *)
    intros x Hx. rewrite Hlow3.
    rewrite lookup_insert_ne by (intros ->; contradiction).
    rewrite (vp_low_frame _ _ _ _ _ VP) by (now apply Hsub0).
    now apply LI.
  - (* cut *)
    intros e He. apply Hcut03. now apply LI.
  - (* disc u *)
    rewrite Hdisc3. apply child_disc_u.
  - (* disc new *)
    intros x k Hx0 Hk. rewrite Hdisc3 in Hk.
    destruct (decide (x ∈ visited cur)) as [Hxc|Hxc].
    + rewrite (vp_disc_frame _ _ _ _ _ VP) in Hk by assumption.
      eapply (li_disc_new _ _ _ _ _ _ LI); eauto.
    + pose proof (vp_disc_new _ _ _ _ _ VP x k Hxc Hk). lia.
  - (* closed *)
    intros x Hx Hx0 Hxu. rewrite Hvis3 in Hx.
    intros y Hy. rewrite Hvis3.
    destruct (decide (x ∈ visited cur)) as [Hxc|Hxc].
    + apply Hsub. eapply (li_closed _ _ _ _ _ _ LI x); eauto.
    + eapply (vp_closed _ _ _ _ _ VP x); eauto.
  - (* pre adjacent *)
    intros y Hy. apply elem_of_app in Hy as [Hy|Hy].
    + eapply li_pre_adjacent; eauto.
    + now apply list_elem_of_singleton in Hy as ->.
  - (* pre visited *)
    intros y Hy. rewrite Hvis3. apply elem_of_app in Hy as [Hy|Hy].
    + apply Hsub. eapply li_pre_visited; eauto.
    + apply list_elem_of_singleton in Hy as ->. eapply visited_Some, VP.
  - (* conn *)
    intros x Hx Hx0 Hxu. rewrite Hvis3 in *.
    destruct (decide (x ∈ visited cur)) as [Hxc|Hxc].
    + destruct (li_conn _ _ _ _ _ _ LI x Hxc Hx0 Hxu) as (c & Hc & Hcx).
      exists c. split; [apply elem_of_app; now left|].
      eapply connected_in_mono; [|exact Hcx]. set_solver.
    + exists v. split; [apply elem_of_app; right; left|].
      eapply connected_in_mono; [|eapply (vp_conn _ _ _ _ _ VP x)]; eauto.
      set_solver.
  - (* edges *)
    intros x y Hx Hx0 Hxu Hxy. rewrite Hvis3 in Hx.
    destruct (decide (x ∈ visited cur)) as [Hxc|Hxc].
    + eapply settled_mono; [exact Hcut03|].
      eapply (li_edges _ _ _ _ _ _ LI x); eauto.
    + destruct (vp_edges _ _ _ _ _ VP x y Hx Hxc Hxy) as [[-> [= <-]]|Hs].
      * now apply settled_sym.
      * eapply settled_mono; [exact Hcut3 | exact Hs].
  - (* edges of u *)
    intros y Hy. apply elem_of_app in Hy as [Hy|Hy].
    + destruct (li_edges_u _ _ _ _ _ _ LI y Hy) as [?|Hs]; [now left|].
      right. eapply settled_mono; [exact Hcut03 | exact Hs].
    + apply list_elem_of_singleton in Hy as ->. now right.
  - (* low le *)
    rewrite Hl3. pose proof (li_low_le _ _ _ _ _ _ LI). lia.
  - (* low witness *)
    rewrite Hl3. intros Hlt.
    destruct (decide (nx.low_of st1 v < nx.low_of cur u)%nat) as [Hd|Hd].
    + rewrite Nat.min_r by lia. rewrite Nat.min_r in Hlt by lia.
      destruct (vp_low_wit _ _ _ _ _ VP) as (x & w & Hx1 & Hxc & Hxw & Hnp & Hw);
        [lia|].
      assert (Hw0 : w ∈ visited st0).
      { eapply (li_old_disc _ _ w); eauto. }
      exists x, w. rewrite Hvis3. split; [assumption|].
      split; [intros ?; apply Hxc; now apply Hsub0|].
      split; [assumption|].
      split; [intros [-> _]; contradiction|].
      now rewrite <- (li_disc_frame _ _ _ _ _ _ LI).
    + rewrite Nat.min_l by lia. rewrite Nat.min_l in Hlt by lia.
      destruct (li_low_wit _ _ _ _ _ _ LI Hlt) as (x & w & H1 & H2 & H3 & H4 & H5).
      exists x, w. rewrite Hvis3. split; [now apply Hsub|]. auto.
  - (* low minimal *)
    rewrite Hl3. intros x w k Hx Hx0 Hor Hxw Hnp Hk. rewrite Hvis3 in Hx.
    destruct (decide (x ∈ visited cur)) as [Hxc|Hxc].
    + assert (nx.low_of cur u <= k)%nat; [|lia].
      eapply (li_low_min _ _ _ _ _ _ LI x w k); eauto.
      destruct Hor as [?|Hw]; [now left|].
      apply elem_of_app in Hw as [?|Hw]; [now right|].
      apply list_elem_of_singleton in Hw as ->. exfalso.
      apply Hvnew, Hsub0. eapply visited_Some; eauto.
    + assert (nx.low_of st1 v <= k)%nat; [|lia].
      assert (Hw0 : w ∈ visited st0) by (eapply visited_Some; eauto).
      eapply (vp_low_min _ _ _ _ _ VP x w k); eauto.
      * intros [_ [= <-]]. contradiction.
      * now rewrite (li_disc_frame _ _ _ _ _ _ LI).
Qed.

End Child.

(** The scan of the whole adjacency list. *)
Section Loop.

Context (visit : Z -> nx.tarjan_state -> result nx.tarjan_state) (f : nat).
Hypothesis Hvisit : forall c st,
  st_ok G st -> c ∈ nx.nodes G -> c ∉ visited st ->
  adjacent G u c -> u ∈ visited st -> gray G st (Some u) ->
  (size (list_to_set (nx.nodes G) ∖ visited st : gset Z) <= f)%nat ->
  exists st', visit c st = Ok st' /\ visit_post G (Some u) c st st'.
Hypothesis Hsize :
  (size (list_to_set (nx.nodes G) ∖ ({[u]} ∪ visited st0) : gset Z) <= f)%nat.

Lemma scan_loop suf :
  forall pre cur,
    pre ++ suf = nx.neighbors G u ->
    loop_inv G parent u st0 pre cur ->
    exists st',
      nx.dfs_children visit parent u suf cur = Ok st'
      /\ loop_inv G parent u st0 (nx.neighbors G u) st'.
Proof.
  induction suf as [|v suf IH]; intros pre cur Hsplit LI.
  - rewrite app_nil_r in Hsplit. subst pre. exists cur. split; [reflexivity|assumption].
  - assert (Huv : adjacent G u v).
    { unfold adjacent. rewrite <- Hsplit. apply elem_of_app. right. left. }
    assert (Hvpre : v ∉ pre).
    { pose proof (wf_neighbors G Hwf u) as Hnd. rewrite <- Hsplit in Hnd.
      apply NoDup_app in Hnd as (_ & Hd & _). intros Hin.
      apply (Hd v Hin). left. }
    assert (Hsplit' : (pre ++ [v]) ++ suf = nx.neighbors G u).
    { now rewrite <- app_assoc. }
    cbn [nx.dfs_children].
    destruct (decide (parent = Some v)) as [Hp|Hp].
    { apply (IH (pre ++ [v]) cur Hsplit'). now apply scan_skip. }
    destruct (nx.disc cur !! v) as [dv|] eqn:Hdv.
    { apply (IH (pre ++ [v]) _ Hsplit'). now apply scan_back. }
    assert (Hvnew : v ∉ visited cur) by (now apply not_visited_None).
    pose proof (li_u_visited _ _ LI) as Huvis.
    pose proof (li_visited_sub _ _ LI) as Hsub0.
    destruct (Hvisit v cur) as (st1 & Hst1 & VP); try assumption.
    { apply LI. }
    { destruct (wf_edge_nodes G u v Hwf Huv). assumption. }
    { eapply li_gray; eauto. }
    { etransitivity; [|exact Hsize]. apply subseteq_size. set_solver. }
    rewrite Hst1. cbn [mbind result_bind].
    assert (Hdu : nx.disc st1 !! u = Some (nx.clock st0)).
    { eapply child_disc_u; eauto. }
    assert (Hvu : v <> u).
    { eapply child_v_ne_u; eauto. }
    assert (Hd2 : nx.disc (nx.lower u (nx.low_of st1 v) st1) !! u
                  = Some (nx.clock st0)) by exact Hdu.
    rewrite Hd2. rewrite low_of_lower.
    rewrite (decide_False (P := v = u)) by assumption.
    apply (IH (pre ++ [v]) _ Hsplit').
    destruct (decide (nx.clock st0 < nx.low_of st1 v)%nat) as [Hlt|Hge].
    + assert (Hbr : ~ bypass G u v).
      { eapply child_bridge; eauto. }
      eapply (scan_child); try exact VP; try exact LI; try assumption;
        try reflexivity.
      * intros e He. now right.
      * intros p c Hpc. apply elem_of_cons in Hpc as [Heq|Hpc].
        -- injection Heq as -> ->. split; assumption.
        -- apply (ok_cut G st1); [apply VP | exact Hpc].
      * left. left.
    + assert (Hnb : bypass G u v).
      { eapply child_no_bridge; eauto. lia. }
      eapply (scan_child); try exact VP; try exact LI; try assumption;
        try reflexivity.
      * auto.
      * intros p c Hpc. apply (ok_cut G st1); [apply VP | exact Hpc].
      * right. right. assumption.
Qed.

End Loop.

End Scan.

(** *** The traversal from one node *)

Lemma discover_loop_inv G parent u st :
  st_ok G st -> u ∉ visited st ->
  loop_inv G parent u st [] (nx.discover u st).
Proof.
  intros Hok Hu.
  assert (Hvis : forall x, x ∈ visited (nx.discover u st) ->
            x ∉ visited st -> x = u).
  { intros x. rewrite visited_discover. set_solver. }
  assert (Hlow : nx.low_of (nx.discover u st) u = nx.clock st).
  { unfold nx.low_of, nx.discover. simpl. now rewrite lookup_insert_eq. }
  split.
  - split.
    + intros x k. unfold nx.discover. simpl.
      destruct (decide (x = u)) as [->|Hne].
      * rewrite lookup_insert_eq. intros [= <-]. lia.
      * rewrite lookup_insert_ne by congruence. intros Hk.
        apply (ok_clock G st Hok) in Hk. lia.
    + apply Hok.
  - intros x Hx. unfold nx.discover. simpl.
    rewrite lookup_insert_ne; [reflexivity|]. intros ->. contradiction.
  - intros x Hx. unfold nx.discover. simpl.
    rewrite lookup_insert_ne; [reflexivity|]. intros ->. contradiction.
  - auto.
  - unfold nx.discover. simpl. apply lookup_insert_eq.
  - intros x k Hx. unfold nx.discover. simpl.
    destruct (decide (x = u)) as [->|Hne].
    + rewrite lookup_insert_eq. intros [= <-]. lia.
    + rewrite lookup_insert_ne by congruence. intros Hk.
      exfalso. apply Hx. eapply visited_Some; eauto.
  - intros x Hx Hx0 Hxu. exfalso. auto.
  - intros y Hy. inversion Hy.
  - intros y Hy. inversion Hy.
  - intros x Hx Hx0 Hxu. exfalso. auto.
  - intros x y Hx Hx0 Hxu. exfalso. auto.
  - intros y Hy. inversion Hy.
  - rewrite Hlow. lia.
  - rewrite Hlow. lia.
  - intros x w k Hx Hx0 [Hne|Hw]; [exfalso; auto | inversion Hw].
Qed.

Lemma loop_inv_post G parent u st st' :
  wf_graph G -> u ∉ visited st ->
  loop_inv G parent u st (nx.neighbors G u) st' ->
  visit_post G parent u st st'.
Proof.
  intros Hwf Hu LI. inv_li LI.
  assert (Huvis : u ∈ visited st') by (eapply visited_Some; eauto).
  split; try assumption.
  - intros x Hx Hx0. destruct (decide (x = u)) as [->|Hne]; [|auto].
    intros y Hy. now apply li_pre_visited0.
  - intros x Hx Hx0. destruct (decide (x = u)) as [->|Hne]; [constructor|].
    destruct (li_conn0 x Hx Hx0 Hne) as (c & Hc & Hcx).
    assert (Hcin : c ∈ visited st' ∖ visited st ∖ {[u]}).
    { eapply connected_in_start; [exact Hcx|]. set_solver. }
    apply rtc_l with c.
    + split; [now apply li_pre_adjacent0|]. split; set_solver.
    + eapply connected_in_mono; [|exact Hcx]. set_solver.
  - intros x y Hx Hx0 Hxy. destruct (decide (x = u)) as [->|Hne].
    + destruct (li_edges_u0 y Hxy) as [?|?]; [left; auto | now right].
    + right. eauto.
  - intros x w k Hx Hx0 Hxw Hnp Hk. eapply li_low_min0; eauto.
    destruct (decide (x = u)) as [->|Hne]; [now right | now left].
Qed.

Lemma dfs_visit_spec G :
  wf_graph G ->
  forall fuel parent u st,
    st_ok G st -> u ∈ nx.nodes G -> u ∉ visited st ->
    (forall p, parent = Some p -> adjacent G p u /\ p ∈ visited st) ->
    gray G st parent ->
    (size (list_to_set (nx.nodes G) ∖ visited st : gset Z) <= fuel)%nat ->
    exists st',
      nx.dfs_visit fuel G parent u st = Ok st'
      /\ visit_post G parent u st st'.
Proof.
  intros Hwf. induction fuel as [|fuel IH];
    intros parent u st Hok Hnode Hu Hpar Hgray Hsize.
  - exfalso.
    assert (Hin : u ∈ (list_to_set (nx.nodes G) ∖ visited st : gset Z)).
    { apply elem_of_difference. split; [now apply elem_of_list_to_set | assumption]. }
    assert (Hz : size (list_to_set (nx.nodes G) ∖ visited st : gset Z) = O) by lia.
    apply size_empty_inv in Hz. set_solver.
  - cbn [nx.dfs_visit].
    destruct (scan_loop G parent u st Hwf Hok Hu Hpar Hgray
                (nx.dfs_visit fuel G (Some u)) fuel) with
      (suf := nx.neighbors G u) (pre := @nil Z) (cur := nx.discover u st)
      as (st' & Hst' & LI).
    + intros c st1 Hok1 Hc Hc1 Huc Hu1 Hg1 Hsz1.
      apply IH; try assumption.
      intros p [= <-]. split; assumption.
    + assert (Hsub : list_to_set (nx.nodes G) ∖ ({[u]} ∪ visited st)
                     ⊂ (list_to_set (nx.nodes G) ∖ visited st : gset Z)).
      { apply strict_spec_alt. split; [set_solver|]. intros Heq.
        assert (Hin : u ∈ (list_to_set (nx.nodes G) ∖ visited st : gset Z)).
        { apply elem_of_difference.
          split; [now apply elem_of_list_to_set | assumption]. }
        rewrite <- Heq in Hin. set_solver. }
      apply subset_size in Hsub. lia.
    + reflexivity.
    + now apply discover_loop_inv.
    + exists st'. split; [assumption|]. now apply loop_inv_post.
Qed.

(** *** The traversal from every root *)

Lemma roots_inv_init G :
  roots_inv G {| nx.disc := ∅; nx.low := ∅; nx.clock := O; nx.cut := [] |}.
Proof.
  split.
  - split; simpl.
    + intros x k Hk. rewrite lookup_empty in Hk. discriminate.
    + intros p c Hpc. inversion Hpc.
  - intros x Hx. unfold visited in Hx. simpl in Hx. set_solver.
  - intros x y Hx. unfold visited in Hx. simpl in Hx. set_solver.
Qed.

Lemma dfs_roots_spec G :
  wf_graph G ->
  forall roots st,
    (forall r, r ∈ roots -> r ∈ nx.nodes G) ->
    roots_inv G st ->
    exists st',
      nx.dfs_roots G roots st = Ok st'
      /\ roots_inv G st'
      /\ visited st ⊆ visited st'
      /\ forall r, r ∈ roots -> r ∈ visited st'.
Proof.
  intros Hwf. induction roots as [|r roots IH]; intros st Hroots RI.
  - exists st. split; [reflexivity|]. split; [assumption|].
    split; [reflexivity|]. intros r Hr. inversion Hr.
  - cbn [nx.dfs_roots]. destruct (nx.disc st !! r) as [k|] eqn:Hr.
    + destruct (IH st) as (st' & H1 & H2 & H3 & H4); [|assumption|].
      { intros x Hx. apply Hroots. now right. }
      exists st'. split; [assumption|]. split; [assumption|].
      split; [assumption|]. intros x Hx.
      apply elem_of_cons in Hx as [->|Hx]; [|auto].
      apply H3. eapply visited_Some; eauto.
    + assert (Hrn : r ∉ visited st) by (now apply not_visited_None).
      destruct (dfs_visit_spec G Hwf (length G) None r st)
        as (st1 & Hst1 & VP); try assumption.
      { apply RI. }
      { apply Hroots. left. }
      { intros p Hp. discriminate. }
      { intros w Hw (y & Hwy & Hy). apply Hy.
        now apply (ri_closed G st RI w). }
      { etransitivity; [apply subseteq_size|].
        - apply subseteq_difference_l. reflexivity.
        - rewrite size_list_to_set by apply Hwf.
          unfold nx.nodes, PyDict.keys. now rewrite length_fmap. }
      rewrite Hst1. cbn [mbind result_bind].
      pose proof (frame_subset st st1 (vp_disc_frame _ _ _ _ _ VP)) as Hsub.
      destruct (IH st1) as (st' & H1 & H2 & H3 & H4).
      { intros x Hx. apply Hroots. now right. }
      { split.
        - apply VP.
        - intros x Hx. destruct (decide (x ∈ visited st)) as [Hx0|Hx0].
          + eapply closed_at_mono; [exact Hsub|]. now apply RI.
          + now apply (vp_closed _ _ _ _ _ VP).
        - intros x y Hx Hxy. destruct (decide (x ∈ visited st)) as [Hx0|Hx0].
          + eapply settled_mono; [apply VP|]. now apply RI.
          + destruct (vp_edges _ _ _ _ _ VP x y Hx Hx0 Hxy) as [[_ ?]|?];
              [discriminate | assumption]. }
      exists st'. split; [assumption|]. split; [assumption|].
      split; [set_solver|]. intros x Hx.
      apply elem_of_cons in Hx as [->|Hx]; [|auto].
      apply H3. eapply visited_Some, VP.
Qed.

(** The traversal reports exactly the edges whose endpoints are not
    joined without them. *)
Lemma tarjan_spec G :
  wf_graph G ->
  exists st,
    nx.tarjan G = Ok st
    /\ forall a b, adjacent G a b ->
         ((a, b) ∈ nx.cut st \/ (b, a) ∈ nx.cut st) <-> ~ bypass G a b.
Proof.
  intros Hwf. unfold nx.tarjan.
  destruct (dfs_roots_spec G Hwf (nx.nodes G) _ (fun r H => H) (roots_inv_init G))
    as (st & Hst & RI & _ & Hall).
  exists st. split; [assumption|]. intros a b Hab.
  destruct (wf_edge_nodes G a b Hwf Hab) as [Ha _].
  split.
  - intros [Hc|Hc] Hby.
    + now apply (ok_cut G st (ri_ok G st RI)) in Hc as [_ Hn].
    + apply (ok_cut G st (ri_ok G st RI)) in Hc as [_ Hn].
      apply Hn. now apply bypass_sym.
  - intros Hby. destruct (ri_edges G st RI a b (Hall a Ha) Hab) as [?|[?|?]];
      [auto | auto | contradiction].
Qed.

(** *** The list of edges *)

Lemma edges_from_either (G' : nx.Graph) seen a b da db wa wb :
  PyDict.get a G' = Some da -> (b, wa) ∈ da ->
  PyDict.get b G' = Some db -> (a, wb) ∈ db ->
  a ∉ seen -> b ∉ seen ->
  (exists w, (a, b, w) ∈ nx.edges_from seen G')
  \/ (exists w, (b, a, w) ∈ nx.edges_from seen G').
Proof.
  revert seen. induction G' as [|[u d] G' IH]; intros seen Ha Hba Hb Hab Has Hbs;
    [discriminate|].
  cbn [nx.edges_from]. simpl in Ha, Hb.
  assert (Hchunk : forall x w, (x, w) ∈ d -> x ∉ seen ->
            (u, x, w) ∈ map (fun '(v, w) => (u, v, w))
              (filter (fun '(v, _) => negb (bool_decide (v ∈ seen))) d)).
  { intros x w Hin Hx. apply list_elem_of_In, in_map_iff. exists (x, w).
    split; [reflexivity|]. apply list_elem_of_In, list_elem_of_filter.
    split; [|assumption]. simpl. rewrite bool_decide_eq_false_2 by assumption.
    exact I. }
  destruct (decide (a = u)) as [->|Hau].
  - injection Ha as <-. left. exists wa. apply elem_of_app. left. auto.
  - destruct (decide (b = u)) as [->|Hbu].
    + injection Hb as <-. right. exists wb. apply elem_of_app. left. auto.
    + destruct (IH (u :: seen)) as [[w Hw]|[w Hw]]; try assumption.
      * rewrite not_elem_of_cons. auto.
      * rewrite not_elem_of_cons. auto.
      * left. exists w. apply elem_of_app. now right.
      * right. exists w. apply elem_of_app. now right.
Qed.

Lemma adjacent_entry G a b :
  adjacent G a b ->
  exists da wa, PyDict.get a G = Some da /\ (b, wa) ∈ da.
Proof.
  unfold adjacent, nx.neighbors, nx.adj. intros H.
  destruct (PyDict.get a G) as [da|]; [|inversion H].
  exists da. unfold PyDict.keys in H. apply list_elem_of_fmap in H as ([x w] & -> & Hin).
  exists w. split; [reflexivity | assumption].
Qed.

(** Every edge is listed, in one orientation or the other. *)
Lemma edges_either G a b :
  wf_graph G -> adjacent G a b -> (a, b) ∈ nx.edges G \/ (b, a) ∈ nx.edges G.
Proof.
  intros Hwf Hab. pose proof (adjacent_sym G a b Hwf Hab) as Hba.
  destruct (adjacent_entry G a b Hab) as (da & wa & Ha & Hina).
  destruct (adjacent_entry G b a Hba) as (db & wb & Hb & Hinb).
  unfold nx.edges, nx.edges_data.
  destruct (edges_from_either G [] a b da db wa wb) as [[w Hw]|[w Hw]];
    try assumption; try apply not_elem_of_nil.
  - left. apply list_elem_of_In, in_map_iff. exists (a, b, w).
    split; [reflexivity | now apply list_elem_of_In].
  - right. apply list_elem_of_In, in_map_iff. exists (b, a, w).
    split; [reflexivity | now apply list_elem_of_In].
Qed.

(** [bridges] returns, and an edge is reported iff its endpoints are not
    joined without it. *)
Lemma bridges_spec G :
  wf_graph G ->
  exists pontes,
    nx.bridges G = Ok pontes
    /\ (forall e, e ∈ pontes -> e ∈ nx.edges G)
    /\ forall a b, adjacent G a b ->
         reported pontes a b <-> ~ bypass G a b.
Proof.
  intros Hwf. destruct (tarjan_spec G Hwf) as (st & Hst & Hcut).
  unfold nx.bridges. rewrite Hst. cbn [mbind result_bind].
  eexists. split; [reflexivity|].
  assert (Hmem : forall x y,
            (x, y) ∈ filter (fun '(u, v) =>
                bool_decide ((u, v) ∈ nx.cut st)
                || bool_decide ((v, u) ∈ nx.cut st)) (nx.edges G)
            <-> ((x, y) ∈ nx.cut st \/ (y, x) ∈ nx.cut st)
                /\ (x, y) ∈ nx.edges G).
  { intros x y. rewrite list_elem_of_filter. simpl.
    rewrite orb_True, !bool_decide_spec. reflexivity. }
  split.
  - intros [x y] He. now apply Hmem in He.
  - intros a b Hab. unfold reported. rewrite !Hmem, <- (Hcut a b Hab). split.
    + intros [[H _]|[H _]]; tauto.
    + intros H. destruct (edges_either G a b Hwf Hab) as [He|He].
      * left. tauto.
      * right. tauto.
Qed.

(** ** Bridges and the number of components *)

Lemma adjacent_weight G x y : adjacent G x y <-> is_Some (nx.weight G x y).
Proof.
  unfold adjacent. rewrite <- has_edge_neighbors. apply has_edge_weight.
Qed.

(** The graph of the simulation after [copy] and [remove_edge]. *)
Lemma copy_remove_spec G u v :
  wf_graph G -> adjacent G u v ->
  exists Gmod,
    nx.remove_edge u v (nx.copy G) = Ok Gmod
    /\ wf_graph Gmod
    /\ nx.nodes Gmod = nx.nodes G
    /\ forall x y, adjacent Gmod x y <-> adjacent_without G u v x y.
Proof.
  intros Hwf Huv. destruct (copy_spec G Hwf) as (Hn & Hwfc & Hw).
  assert (Huvc : v ∈ nx.neighbors (nx.copy G) u).
  { apply adjacent_weight. rewrite Hw. now apply adjacent_weight. }
  destruct (remove_edge_spec (nx.copy G) u v Hwfc Huvc)
    as (Gmod & Hrem & Hnm & Hwfm & Hwm).
  exists Gmod. split; [assumption|]. split; [assumption|].
  split; [congruence|]. intros x y. unfold adjacent_without.
  rewrite !adjacent_weight, Hwm, Hw. case_decide as Hc.
  - split; [intros [? ?]; discriminate | tauto].
  - tauto.
Qed.

Lemma rtc_iff {A : Type} (R R' : relation A) :
  (forall x y, R x y <-> R' x y) -> forall x y, rtc R x y <-> rtc R' x y.
Proof.
  intros H x y. split; intros Hr; induction Hr as [|a b c Hab _ IH];
    try constructor; econstructor; eauto; now apply H.
Qed.

(** Whether the endpoints of an edge are joined without it is decided
    by a search in the graph without the edge. *)
Lemma bypass_decidable G u v :
  wf_graph G -> adjacent G u v -> bypass G u v \/ ~ bypass G u v.
Proof.
  intros Hwf Huv.
  destruct (copy_remove_spec G u v Hwf Huv) as (Gmod & _ & Hwfm & Hnm & Hadj).
  assert (Hconn : connected Gmod u v <-> bypass G u v).
  { unfold connected, bypass, connected_without. now apply rtc_iff. }
  destruct (wf_edge_nodes G u v Hwf Huv) as [Hu _].
  destruct (plain_bfs_spec Gmod u Hwfm) as (c & _ & Hc); [now rewrite Hnm|].
  destruct (decide (v ∈ c)) as [Hvc|Hvc].
  - left. now apply Hconn, Hc.
  - right. intros H. now apply Hvc, Hc, Hconn.
Qed.

(** The component count after the removal of an edge: one more when
    the endpoints are not joined without the edge, the same otherwise. *)
Lemma components_after_removal G u v Gmod k k' :
  wf_graph G -> adjacent G u v ->
  nx.remove_edge u v (nx.copy G) = Ok Gmod ->
  nx.number_connected_components G = Ok k ->
  nx.number_connected_components Gmod = Ok k' ->
  (k' = k + 1 <-> ~ bypass G u v) /\ (bypass G u v -> k' = k).
Proof.
  intros Hwf Huv Hrem Hk Hk'.
  destruct (copy_remove_spec G u v Hwf Huv) as (Gmod' & Hrem' & Hwfm & Hnm & Hadj).
  rewrite Hrem in Hrem'. injection Hrem' as <-.
  assert (Hnodes : forall x, x ∈ nx.nodes Gmod <-> x ∈ nx.nodes G).
  { intros x. now rewrite Hnm. }
  assert (Hconn : connected Gmod u v <-> bypass G u v).
  { unfold connected, bypass, connected_without. now apply rtc_iff. }
  destruct (wf_edge_nodes G u v Hwf Huv) as [Hu _].
  destruct (plain_bfs_spec Gmod u Hwfm) as (c & _ & Hc); [now apply Hnodes|].
  rewrite <- Hconn.
  destruct (decide (v ∈ c)) as [Hvc|Hvc].
  - apply Hc in Hvc.
    pose proof (components_same G Gmod u v Hwf Hwfm Hnodes Huv Hadj Hvc
                  _ _ Hk Hk') as Heq.
    split; [|auto]. split; [lia | tauto].
  - assert (Hnc : ~ connected Gmod u v) by (intros H; now apply Hvc, Hc).
    pose proof (components_split G Gmod u v Hwf Hwfm Hnodes Huv Hadj Hnc
                  _ _ Hk Hk') as Heq.
    split; tauto.
Qed.

(** C1: for every edge [u - v] of a graph, [bridges] returns, the copy
    without the edge and both component counts are computed, and the
    count of the copy is the count of the graph plus one iff the edge is
    reported as a bridge; for an edge that is not reported the two counts
    are equal. *)
Theorem c1_bridge_iff_one_more_component G u v :
  wf_graph G -> adjacent G u v ->
  exists pontes Gmod k k',
    Estrutural.identificar_pontes G = Ok pontes
    /\ nx.remove_edge u v (nx.copy G) = Ok Gmod
    /\ nx.number_connected_components G = Ok k
    /\ nx.number_connected_components Gmod = Ok k'
    /\ (k' = k + 1 <-> reported pontes u v)
    /\ (~ reported pontes u v -> k' = k).
Proof.
  intros Hwf Huv.
  destruct (bridges_spec G Hwf) as (pontes & Hp & _ & Hrep).
  destruct (copy_remove_spec G u v Hwf Huv) as (Gmod & Hrem & Hwfm & _ & _).
  destruct (number_connected_components_spec G Hwf) as (cs & Hk & _).
  destruct (number_connected_components_spec Gmod Hwfm) as (cs' & Hk' & _).
  destruct (components_after_removal G u v Gmod _ _ Hwf Huv Hrem Hk Hk')
    as [Hiff Hsame].
  exists pontes, Gmod. eexists. eexists.
  split; [exact Hp|]. split; [exact Hrem|].
  split; [exact Hk|]. split; [exact Hk'|].
  rewrite (Hrep u v Huv). split; [exact Hiff|].
  intros Hn. apply Hsame.
  destruct (bypass_decidable G u v Hwf Huv) as [Hby|Hnby];
    [assumption | contradiction].
Qed.

Lemma c1_witness :
  exists pontes Gmod k k',
    Estrutural.identificar_pontes Ex.kite = Ok pontes
    /\ nx.remove_edge 3 4 (nx.copy Ex.kite) = Ok Gmod
    /\ nx.number_connected_components Ex.kite = Ok k
    /\ nx.number_connected_components Gmod = Ok k'
    /\ (k' = k + 1 <-> reported pontes 3 4)
    /\ (~ reported pontes 3 4 -> k' = k).
Proof.
  apply (c1_bridge_iff_one_more_component Ex.kite 3 4).
  - repeat apply wf_add_edge. apply wf_empty.
  - apply list_elem_of_In. vm_compute. auto.
Defined.

(** The same in the result of the simulation: when the simulation of
    the removal of an edge returns, its two component counts differ by
    one exactly for a reported bridge. *)
Lemma simular_uma_componentes self eb h u v h' r G :
  wf_graph G -> Impacto.deref h (Impacto.grafo self) = Ok G ->
  adjacent G u v ->
  Impacto.simular_uma self eb h (u, v) = Ok (h', r) ->
  exists pontes,
    nx.bridges G = Ok pontes
    /\ (Impacto.componentes_depois r = Impacto.componentes_antes r + 1
        <-> reported pontes u v)
    /\ (~ reported pontes u v ->
        Impacto.componentes_depois r = Impacto.componentes_antes r).
Proof.
  intros Hwf HG Huv Hsim.
  apply simular_uma_inv in Hsim
    as (G0 & Gmod & HG0 & Hrem & _ & Hka & Hkd & _).
  rewrite HG in HG0. injection HG0 as <-.
  destruct (bridges_spec G Hwf) as (pontes & Hp & _ & Hrep).
  destruct (components_after_removal G u v Gmod _ _ Hwf Huv Hrem Hka Hkd)
    as [Hiff Hsame].
  exists pontes. split; [exact Hp|]. rewrite (Hrep u v Huv).
  split; [exact Hiff|]. intros Hn. apply Hsame.
  destruct (bypass_decidable G u v Hwf Huv) as [Hby|Hnby];
    [assumption | contradiction].
Qed.

(** On the triangle with a pendant edge: (3, 4) is the only bridge. *)
Lemma bridges_kite : nx.bridges Ex.kite = Ok [(3, 4)].
Proof. reflexivity. Qed.

(** ** The graphs of the analysers satisfy the invariant *)

Lemma ler_net_wf dists net G a s :
  wf_graph G -> wf_graph (fold_left (ler_net_step dists) net (G, a, s)).1.1.
Proof.
  revert G a s. induction net as [|[no1 no2] net IH]; intros G a s Hwf;
    [assumption|].
  cbn [fold_left ler_net_step]. apply IH. now apply wf_add_edge.
Qed.

(** Every graph that [carregar_dados] builds is well formed. *)
Lemma carregar_dados_wf infos net :
  wf_graph (dados_grafo (carregar_dados infos net)).
Proof.
  destruct (carregar_dados_grafo infos net) as [-> _].
  unfold ler_net. apply ler_net_wf, wf_empty.
Qed.

(** ** The simulation returns or raises *)

Lemma result_not_fuel_Ok {A : Type} (m : result A) a : m = Ok a -> m <> OutOfFuel.
Proof. intros ->. discriminate. Qed.

Lemma bridges_not_fuel G : wf_graph G -> nx.bridges G <> OutOfFuel.
Proof.
  intros Hwf. destruct (bridges_spec G Hwf) as (p & Hp & _).
  now rewrite Hp.
Qed.

Lemma number_connected_components_not_fuel G :
  wf_graph G -> nx.number_connected_components G <> OutOfFuel.
Proof.
  intros Hwf. destruct (number_connected_components_spec G Hwf) as (cs & H & _).
  now rewrite H.
Qed.

Lemma connected_components_not_fuel G :
  wf_graph G -> nx.connected_components G <> OutOfFuel.
Proof.
  intros Hwf. destruct (connected_components_spec G Hwf) as (cs & H & _).
  now rewrite H.
Qed.

Lemma is_connected_not_fuel G : wf_graph G -> nx.is_connected G <> OutOfFuel.
Proof.
  intros Hwf. unfold nx.is_connected.
  destruct (nx.nodes G) as [|v vs] eqn:E; [discriminate|].
  destruct (plain_bfs_spec G v Hwf) as (c & Hc & _).
  { rewrite E. left. }
  rewrite Hc. discriminate.
Qed.

Lemma shortest_path_length_not_fuel G s t :
  nx.shortest_path_length G s t <> OutOfFuel.
Proof.
  unfold nx.shortest_path_length.
  apply bind_not_fuel; [apply dijkstra_fuel_enough|].
  intros l _. destruct (PyDict.get t l); discriminate.
Qed.

Lemma comparar_par_not_fuel G Gmod o d acc :
  Impacto.comparar_par G Gmod o d acc <> OutOfFuel.
Proof.
  unfold Impacto.comparar_par. case_bool_decide; [discriminate|].
  pose proof (shortest_path_length_not_fuel G o d) as H1.
  pose proof (shortest_path_length_not_fuel Gmod o d) as H2.
  destruct (nx.shortest_path_length G o d) as [d0|e|]; [| |contradiction].
  - destruct (nx.shortest_path_length Gmod o d) as [d1|e|]; [| |contradiction].
    + destruct (Qlt_le_dec d0 d1); [|discriminate].
      apply bind_not_fuel; [apply py_div_not_fuel | discriminate].
    + destruct e; discriminate.
  - destruct e; discriminate.
Qed.

Lemma comparar_destinos_not_fuel G Gmod o ds acc :
  Impacto.comparar_destinos G Gmod o ds acc <> OutOfFuel.
Proof.
  revert acc. induction ds as [|d ds IH]; intros acc; simpl; [discriminate|].
  apply bind_not_fuel; [apply comparar_par_not_fuel | intros; apply IH].
Qed.

Lemma comparar_origens_not_fuel G Gmod os amostra acc :
  Impacto.comparar_origens G Gmod os amostra acc <> OutOfFuel.
Proof.
  revert acc. induction os as [|o os IH]; intros acc; simpl; [discriminate|].
  apply bind_not_fuel; [apply comparar_destinos_not_fuel | intros; apply IH].
Qed.

Lemma simular_uma_not_fuel self eb h e :
  store_wf h -> Impacto.simular_uma self eb h e <> OutOfFuel.
Proof.
  intros Hh. destruct e as [u v]. unfold Impacto.simular_uma.
  unfold Impacto.copy_ref.
  destruct (Impacto.deref h (Impacto.grafo self)) as [G| |] eqn:HG;
    cbn [mbind result_bind]; try discriminate.
  2:{ unfold Impacto.deref in HG. destruct (Impacto.grafo self) as [a|];
        [destruct (h !! a)|]; discriminate. }
  assert (Hwf : wf_graph G).
  { destruct (Impacto.grafo self) as [a|]; [|discriminate].
    apply deref_Some in HG. eauto. }
  unfold Impacto.remove_edge_ref.
  assert (HGc : Impacto.deref (h ++ [nx.copy G]) (Some (length h))
                = Ok (nx.copy G)).
  { apply deref_Some. rewrite lookup_app_r by lia. now rewrite Nat.sub_diag. }
  rewrite HGc. cbn [mbind result_bind].
  destruct (nx.remove_edge u v (nx.copy G)) as [Gmod| |] eqn:Hrem;
    cbn [mbind result_bind]; try discriminate.
  2:{ unfold nx.remove_edge in Hrem.
      destruct (PyDict.del v _); [|discriminate].
      destruct (decide (u = v)); [discriminate|].
      destruct (PyDict.del u _); discriminate. }
  assert (Hwfm : wf_graph Gmod).
  { destruct (copy_spec G Hwf) as (_ & Hwfc & _).
    destruct (decide (v ∈ nx.neighbors (nx.copy G) u)) as [Hin|Hnin].
    - destruct (remove_edge_spec _ u v Hwfc Hin) as (G' & H1 & _ & H3 & _).
      rewrite Hrem in H1. now injection H1 as <-.
    - exfalso. unfold nx.remove_edge in Hrem.
      apply del_None in Hnin. unfold nx.neighbors in Hnin.
      now rewrite Hnin in Hrem. }
  assert (Hh2 : <[length h := Gmod]> (h ++ [nx.copy G]) = h ++ [Gmod]).
  { rewrite insert_app_r_alt by lia. now rewrite Nat.sub_diag. }
  rewrite Hh2.
  assert (HG' : Impacto.deref (h ++ [Gmod]) (Impacto.grafo self) = Ok G).
  { destruct (Impacto.grafo self) as [a|]; [|discriminate].
    apply deref_Some in HG. apply deref_Some.
    rewrite lookup_app_l; [assumption|]. now apply lookup_lt_Some in HG. }
  assert (HGm : Impacto.deref (h ++ [Gmod]) (Some (length h)) = Ok Gmod).
  { apply deref_Some. rewrite lookup_app_r by lia. now rewrite Nat.sub_diag. }
  rewrite HG', HGm. cbn [mbind result_bind].
  apply bind_not_fuel; [now apply number_connected_components_not_fuel|].
  intros ka _.
  apply bind_not_fuel; [now apply is_connected_not_fuel | intros ca _].
  apply bind_not_fuel; [now apply number_connected_components_not_fuel|].
  intros kd _.
  apply bind_not_fuel; [now apply is_connected_not_fuel | intros cd _].
  apply bind_not_fuel.
  { case_decide; [|discriminate].
    apply bind_not_fuel; [now apply connected_components_not_fuel|].
    discriminate. }
  intros [tam menor] _.
  apply bind_not_fuel; [apply comparar_origens_not_fuel|].
  intros [aum sem] _. discriminate.
Qed.

Lemma simular_uma_store_wf self eb h e h' r :
  store_wf h -> Impacto.simular_uma self eb h e = Ok (h', r) -> store_wf h'.
Proof.
  intros Hh Hsim. destruct e as [u v].
  apply simular_uma_inv in Hsim as (G & Gmod & HG & Hrem & -> & _).
  assert (Hwf : wf_graph G).
  { destruct (Impacto.grafo self) as [a|]; [|discriminate].
    apply deref_Some in HG. eauto. }
  assert (Hwfm : wf_graph Gmod).
  { destruct (copy_spec G Hwf) as (_ & Hwfc & _).
    destruct (decide (v ∈ nx.neighbors (nx.copy G) u)) as [Hin|Hnin].
    - destruct (remove_edge_spec _ u v Hwfc Hin) as (G' & H1 & _ & H3 & _).
      rewrite Hrem in H1. now injection H1 as <-.
    - exfalso. unfold nx.remove_edge in Hrem.
      apply del_None in Hnin. unfold nx.neighbors in Hnin.
      now rewrite Hnin in Hrem. }
  intros a G' Ha. apply lookup_app_Some in Ha as [Ha|[_ Ha]]; [eauto|].
  apply list_lookup_singleton_Some in Ha as [_ <-]. assumption.
Qed.

Lemma simular_todas_not_fuel self eb arestas :
  forall h, store_wf h -> Impacto.simular_todas self eb h arestas <> OutOfFuel.
Proof.
  induction arestas as [|e arestas IH]; intros h Hh; simpl; [discriminate|].
  apply bind_not_fuel; [now apply simular_uma_not_fuel|].
  intros [h1 r] H1. apply bind_not_fuel.
  - apply IH. eapply simular_uma_store_wf; eauto.
  - intros [h2 rs] _. discriminate.
Qed.

(** On a store of well-formed graphs every loop of the simulation ends
    within its bound: [simular_remocao_ponte] returns or raises. *)
Lemma simular_remocao_ponte_not_fuel self h aresta top_n :
  store_wf h ->
  Impacto.simular_remocao_ponte self h aresta top_n <> OutOfFuel.
Proof.
  intros Hh. unfold Impacto.simular_remocao_ponte.
  destruct (Impacto.deref h (Impacto.grafo self)) as [G| |] eqn:HG;
    cbn [mbind result_bind]; try discriminate.
  2:{ unfold Impacto.deref in HG. destruct (Impacto.grafo self) as [a|];
        [destruct (h !! a)|]; discriminate. }
  assert (Hwf : wf_graph G).
  { destruct (Impacto.grafo self) as [a|]; [|discriminate].
    apply deref_Some in HG. eauto. }
  apply bind_not_fuel; [now apply bridges_not_fuel|].
  intros [|p pontes] _; [discriminate|].
  apply bind_not_fuel.
  { destruct aresta; [discriminate|].
    apply bind_not_fuel; [apply edge_betweenness_not_fuel | discriminate]. }
  intros arestas _.
  apply bind_not_fuel; [apply edge_betweenness_not_fuel|].
  intros eb _. now apply simular_todas_not_fuel.
Qed.

(** ** The shortest-path engine settles the component of the source *)

Lemma heappop_elem {A : Type} (key : A -> Q * nat) h x r :
  nx.heappop key h = Some (x, r) -> forall y, y ∈ h <-> y = x \/ y ∈ r.
Proof.
  revert x r. induction h as [|z h IH]; intros x r; simpl; [discriminate|].
  destruct (nx.heappop key h) as [[m r']|] eqn:E.
  - specialize (IH m r' eq_refl).
    destruct (nx.key_lt (key z) (key m)); intros [= <- <-]; intros y.
    + rewrite elem_of_cons. reflexivity.
    + rewrite !elem_of_cons, IH. tauto.
  - intros [= <- <-]. apply heappop_None in E. subst. intros y.
    rewrite elem_of_cons. reflexivity.
Qed.

Lemma closed_holds_connected G (X : Z -> Prop) v x :
  (forall a b, X a -> adjacent G a b -> X b) ->
  X v -> connected G v x -> X x.
Proof.
  intros Hcl Hv H. induction H as [|a b c Hab _ IH]; [assumption|].
  apply IH. eapply Hcl; eauto.
Qed.

Section Reach.
Variables (G : nx.Graph) (s : Z).

Lemma known_push st d c u x :
  known {| nx.dist := nx.dist st; nx.seen := PyDict.set u d (nx.seen st);
           nx.counter := S (nx.counter st);
           nx.fringe := (d, c, u) :: nx.fringe st |} x
  <-> known st x \/ x = u.
Proof.
  unfold known. cbn [nx.dist nx.fringe]. split.
  - intros [H|(d' & c' & H)]; [tauto|].
    apply elem_of_cons in H as [[= -> -> ->]|H]; [tauto|]. left. right. eauto.
  - intros [[H|(d' & c' & H)]| ->]; [tauto| |].
    + right. exists d', c'. now apply elem_of_cons; right.
    + right. exists d, c. apply elem_of_cons; now left.
Qed.

Lemma relax_reach d v nbrs st st' :
  connected G s v ->
  (forall y, y ∈ PyDict.keys nbrs -> adjacent G v y) ->
  (forall x, known st x -> connected G s x) ->
  (forall x, x ∈ PyDict.keys (nx.seen st) -> known st x) ->
  nx.relax d nbrs st = Ok st' ->
  nx.dist st' = nx.dist st /\
  (forall x, known st x -> known st' x) /\
  (forall x, known st' x -> connected G s x) /\
  (forall x, x ∈ PyDict.keys (nx.seen st') -> known st' x) /\
  (forall y, y ∈ PyDict.keys nbrs -> known st' y).
Proof.
  intros Hv. revert st.
  induction nbrs as [|[u cost] rest IH]; intros st Hadj Hsound Hseen Hrel.
  - simpl in Hrel. injection Hrel as <-. repeat split; try assumption; auto.
    intros y Hy. inversion Hy.
  - simpl in Hrel.
    assert (Hrest : forall y, y ∈ PyDict.keys rest -> adjacent G v y).
    { intros y Hy. apply Hadj. unfold PyDict.keys. simpl. now right. }
    assert (Hu : connected G s u).
    { apply rtc_r with v; [assumption|]. apply Hadj.
      unfold PyDict.keys. simpl. left. }
    destruct (PyDict.get u (nx.dist st)) as [u_dist|] eqn:Eu.
    + destruct (Qlt_le_dec (d + cost) u_dist); [discriminate|].
      destruct (IH st Hrest Hsound Hseen Hrel) as (H1 & H2 & H3 & H4 & H5).
      repeat split; try assumption.
      intros y Hy. unfold PyDict.keys in Hy. simpl in Hy.
      apply elem_of_cons in Hy as [->|Hy]; [|now apply H5].
      apply H2. left. apply mem_true. unfold PyDict.mem. now rewrite Eu.
    + match type of Hrel with
      | (if ?b then _ else _) = _ => destruct b eqn:Eb
      end.
      * apply IH in Hrel as (H1 & H2 & H3 & H4 & H5); try assumption.
        -- repeat split; try assumption.
           ++ intros x Hx. apply H2. apply known_push. now left.
           ++ intros y Hy. unfold PyDict.keys in Hy. simpl in Hy.
              apply elem_of_cons in Hy as [->|Hy]; [|now apply H5].
              apply H2. apply known_push. now right.
        -- intros x Hx. apply known_push in Hx as [Hx| ->]; auto.
        -- cbn [nx.seen]. intros x Hx. apply known_push.
           rewrite keys_set in Hx.
           destruct (PyDict.mem u (nx.seen st)); [left; auto|].
           apply elem_of_app in Hx as [Hx|Hx]; [left; auto|].
           right. now apply list_elem_of_singleton in Hx.
      * destruct (IH st Hrest Hsound Hseen Hrel) as (H1 & H2 & H3 & H4 & H5).
        repeat split; try assumption.
        intros y Hy. unfold PyDict.keys in Hy. simpl in Hy.
        apply elem_of_cons in Hy as [->|Hy]; [|now apply H5].
        apply H2, Hseen. apply mem_true. unfold PyDict.mem.
        destruct (PyDict.get u (nx.seen st)); [reflexivity|discriminate].
Qed.

Lemma reach_inv_pop st d c v fr :
  reach_inv G s st ->
  nx.heappop (fun '(d, c, _) => (d, c)) (nx.fringe st) = Some (d, c, v, fr) ->
  PyDict.mem v (nx.dist st) = true ->
  reach_inv G s {| nx.dist := nx.dist st; nx.seen := nx.seen st;
                   nx.counter := nx.counter st; nx.fringe := fr |}.
Proof.
  intros [Hsound Hseen Hclosed Hnd Hsrc] Ep Em.
  pose proof (heappop_elem _ _ _ _ Ep) as Hpop.
  set (st2 := {| nx.dist := nx.dist st; nx.seen := nx.seen st;
                 nx.counter := nx.counter st; nx.fringe := fr |}).
  assert (Hk : forall x, known st x -> known st2 x).
  { intros x [H|(d' & c' & H)]; [now left|].
    apply Hpop in H as [[= -> -> ->]|H].
    - left. now apply mem_true.
    - right. eauto. }
  assert (Hk' : forall x, known st2 x -> known st x).
  { intros x [H|(d' & c' & H)]; [now left|].
    right. exists d', c'. apply Hpop. now right. }
  constructor; cbn [st2 nx.dist nx.seen]; eauto.
Qed.

Lemma reach_inv_settle st d c v fr :
  reach_inv G s st ->
  nx.heappop (fun '(d, c, _) => (d, c)) (nx.fringe st) = Some (d, c, v, fr) ->
  PyDict.mem v (nx.dist st) = false ->
  let st1 := {| nx.dist := PyDict.set v d (nx.dist st);
                nx.seen := nx.seen st; nx.counter := nx.counter st;
                nx.fringe := fr |} in
  connected G s v /\
  NoDup (PyDict.keys (nx.dist st1)) /\
  (forall x, known st x -> known st1 x) /\
  (forall x, known st1 x -> connected G s x) /\
  (forall x, x ∈ PyDict.keys (nx.seen st1) -> known st1 x) /\
  (forall x, x ∈ PyDict.keys (nx.dist st1) ->
     x = v \/ x ∈ PyDict.keys (nx.dist st)).
Proof.
  intros [Hsound Hseen Hclosed Hnd Hsrc] Ep Em st1.
  pose proof (heappop_elem _ _ _ _ Ep) as Hpop.
  assert (Hv : known st v).
  { right. exists d, c. apply Hpop. now left. }
  assert (Hk : forall x, known st x -> known st1 x).
  { intros x [H|(d' & c' & H)].
    - left. cbn [st1 nx.dist]. rewrite keys_set, Em.
      apply elem_of_app. now left.
    - apply Hpop in H as [[= -> -> ->]|H].
      + left. cbn [st1 nx.dist]. rewrite keys_set, Em.
        apply elem_of_app. right. now apply list_elem_of_singleton.
      + right. eauto. }
  assert (Hk' : forall x, known st1 x -> known st x).
  { intros x [H|(d' & c' & H)].
    - cbn [st1 nx.dist] in H. rewrite keys_set, Em in H.
      apply elem_of_app in H as [H|H]; [now left|].
      apply list_elem_of_singleton in H. now subst.
    - right. exists d', c'. apply Hpop. now right. }
  repeat split; auto.
  - cbn [st1 nx.dist]. now apply NoDup_keys_set.
  - intros x Hx. cbn [st1 nx.dist] in Hx. rewrite keys_set, Em in Hx.
    apply elem_of_app in Hx as [Hx|Hx]; [now right|].
    apply list_elem_of_singleton in Hx. now left.
Qed.

Lemma reach_inv_end st :
  reach_inv G s st -> nx.fringe st = [] ->
  forall x, connected G s x -> x ∈ PyDict.keys (nx.dist st).
Proof.
  intros [Hsound Hseen Hclosed Hnd Hsrc] Ep.
  assert (Hk : forall x, known st x -> x ∈ PyDict.keys (nx.dist st)).
  { intros x [H|(d & c & H)]; [assumption|]. rewrite Ep in H. inversion H. }
  intros x Hx.
  apply (closed_holds_connected G
           (fun x => x ∈ PyDict.keys (nx.dist st)) s x); eauto.
Qed.

(** The loop returns distinct nodes that are joined to the source: all
    of them, unless it stopped at the target. *)
Lemma dijkstra_loop_reach target fuel : forall st l,
  reach_inv G s st ->
  nx.dijkstra_loop fuel G target st = Ok l ->
  NoDup (PyDict.keys l) /\
  (forall x, x ∈ PyDict.keys l -> connected G s x) /\
  ((forall x, connected G s x -> x ∈ PyDict.keys l)
   \/ exists t, target = Some t /\ t ∈ PyDict.keys l).
Proof.
  induction fuel as [|fuel IH]; intros st l Hinv Hl.
  - simpl in Hl.
    destruct (nx.heappop _ (nx.fringe st)) as [[[[d c] v] fr]|] eqn:Ep;
      [discriminate|].
    injection Hl as <-. apply heappop_None in Ep.
    split; [apply Hinv|]. split; [intros; apply Hinv; now left|].
    left. now apply reach_inv_end.
  - simpl in Hl.
    destruct (nx.heappop _ (nx.fringe st)) as [[[[d c] v] fr]|] eqn:Ep.
    2:{ injection Hl as <-. apply heappop_None in Ep.
        split; [apply Hinv|]. split; [intros; apply Hinv; now left|].
        left. now apply reach_inv_end. }
    destruct (PyDict.mem v (nx.dist st)) eqn:Em.
    + apply IH in Hl; [assumption|]. eapply reach_inv_pop; eauto.
    + destruct (reach_inv_settle st d c v fr Hinv Ep Em)
        as (Hv & Hnd1 & Hk & Hsound1 & Hseen1 & Hdist1).
      case_bool_decide as Ht.
      * injection Hl as <-. split; [assumption|].
        split; [intros x Hx; apply Hsound1; now left|].
        right. exists v. split; [assumption|].
        rewrite keys_set, Em. apply elem_of_app. right.
        now apply list_elem_of_singleton.
      * destruct (nx.relax d (nx.adj G v) _) as [st'| |] eqn:Er;
          cbn [mbind result_bind] in Hl; try discriminate.
        apply relax_reach with (v := v) in Er
          as (H1 & H2 & H3 & H4 & H5); auto.
        apply IH in Hl; [assumption|].
        destruct Hinv as [Hsound Hseen Hclosed Hnd Hsrc].
        constructor; auto.
        -- intros x y Hx Hxy. rewrite H1 in Hx.
           apply Hdist1 in Hx as [->|Hx]; [now apply H5|].
           apply H2, Hk. eauto.
        -- now rewrite H1.
Qed.

Lemma reach_inv_init :
  reach_inv G s {| nx.dist := []; nx.seen := [(s, 0%Q)]; nx.counter := 1%nat;
                   nx.fringe := [(0%Q, 0%nat, s)] |}.
Proof.
  constructor; cbn [nx.dist nx.seen nx.fringe].
  - intros x [H|(d & c & H)]; [inversion H|].
    apply list_elem_of_singleton in H. injection H as -> -> ->. constructor.
  - intros x Hx. apply list_elem_of_singleton in Hx. subst.
    right. exists 0%Q, 0%nat. now apply list_elem_of_singleton.
  - intros x y Hx. inversion Hx.
  - constructor.
  - right. exists 0%Q, 0%nat. now apply list_elem_of_singleton.
Qed.

(** The result of [single_source_dijkstra_path_length] has one entry for
    every node joined to the source, and no other entry. *)
Lemma dijkstra_reaches l :
  nx.single_source_dijkstra_path_length G s = Ok l ->
  NoDup (PyDict.keys l) /\
  forall x, x ∈ PyDict.keys l <-> connected G s x.
Proof.
  unfold nx.single_source_dijkstra_path_length, nx.dijkstra.
  destruct (nx.has_node G s); [|discriminate].
  intros Hl. apply dijkstra_loop_reach in Hl as (Hnd & Hs & [Hc|Hc]);
    [| |apply reach_inv_init].
  - split; [assumption|]. intros x. split; auto.
  - destruct Hc as (t & [=] & _).
Qed.

(** The number of entries is the size of the component of the source. *)
Lemma dijkstra_length_component l c :
  nx.single_source_dijkstra_path_length G s = Ok l ->
  is_component G s c ->
  length l = size c.
Proof.
  intros Hl Hc. apply dijkstra_reaches in Hl as [Hnd Hx].
  assert (E : c = list_to_set (PyDict.keys l)).
  { apply set_eq. intros x. rewrite elem_of_list_to_set, Hx. apply Hc. }
  rewrite E, size_list_to_set by assumption.
  unfold PyDict.keys. now rewrite length_fmap.
Qed.

End Reach.

(** ** The shortest-path engine computes shortest distances *)

Lemma key_lt_le a b : nx.key_lt a b = true -> (fst a <= fst b)%Q.
Proof.
  unfold nx.key_lt. destruct (Qcompare (fst a) (fst b)) eqn:E; try discriminate.
  - intros _. apply Qeq_alt in E. rewrite E. apply Qle_refl.
  - intros _. apply Qlt_alt in E. now apply Qlt_le_weak.
Qed.

Lemma key_lt_ge a b : nx.key_lt a b = false -> (fst b <= fst a)%Q.
Proof.
  unfold nx.key_lt. destruct (Qcompare (fst a) (fst b)) eqn:E; try discriminate.
  - intros _. apply Qeq_alt in E. rewrite E. apply Qle_refl.
  - intros _. apply Qgt_alt in E. now apply Qlt_le_weak.
Qed.

(** [heappop] returns an item of least distance. *)
Lemma heappop_min {A : Type} (key : A -> Q * nat) h x r :
  nx.heappop key h = Some (x, r) ->
  forall y, y ∈ h -> (fst (key x) <= fst (key y))%Q.
Proof.
  revert x r. induction h as [|z h IH]; intros x r; simpl; [discriminate|].
  destruct (nx.heappop key h) as [[m r']|] eqn:E.
  - specialize (IH m r' eq_refl).
    destruct (nx.key_lt (key z) (key m)) eqn:Ek; intros [= <- <-]; intros y Hy;
      apply elem_of_cons in Hy as [->|Hy].
    + apply Qle_refl.
    + apply key_lt_le in Ek. eapply Qle_trans; eauto.
    + now apply key_lt_ge.
    + auto.
  - intros [= <- <-]. apply heappop_None in E. subst. intros y Hy.
    apply list_elem_of_singleton in Hy. subst. apply Qle_refl.
Qed.

Lemma walk_connected G s x d : walk G s x d -> connected G s x.
Proof.
  induction 1 as [|y z w d _ IH Hz]; [constructor|].
  apply rtc_r with y; [assumption|].
  unfold adjacent, nx.neighbors, PyDict.keys.
  apply list_elem_of_fmap. exists (z, w). auto.
Qed.

Lemma connected_walk G s x : connected G s x -> exists d, walk G s x d.
Proof.
  intros H. apply rtc_nsteps in H as [n H]. revert x H.
  induction n as [|n IH]; intros x H.
  - inversion H; subst. eexists. constructor.
  - apply nsteps_inv_r in H as (y & Hy & Hyx). apply IH in Hy as [d Hd].
    unfold adjacent, nx.neighbors, PyDict.keys in Hyx.
    apply list_elem_of_fmap in Hyx as ([z w] & -> & Hzw).
    eexists. econstructor; eauto.
Qed.

Section Dist.
Variables (G : nx.Graph) (s : Z).
Hypothesis Hnonneg : nonneg_weights G.

Lemma walk_nonneg x d : walk G s x d -> (0 <= d)%Q.
Proof.
  induction 1 as [|y z w d _ IH Hz]; [apply Qle_refl|].
  apply Hnonneg in Hz. lra.
Qed.

(** Every walk that leaves the settled nodes is at least as long as the
    least distance of the heap. *)
Lemma frontier st m c v fr :
  dist_inv G s st ->
  nx.heappop (fun '(d, c, _) => (d, c)) (nx.fringe st) = Some (m, c, v, fr) ->
  forall x L, walk G s x L -> x ∈ PyDict.keys (nx.dist st) \/ (m <= L)%Q.
Proof.
  intros [Hdist Hfr Hseen Hrel Hsrc] Ep.
  assert (Hmin : forall d' c' x, (d', c', x) ∈ nx.fringe st -> (m <= d')%Q).
  { intros d' c' x H. apply (heappop_min _ _ _ _ Ep) in H. exact H. }
  induction 1 as [|y z w d Hw IH Hz].
  - destruct Hsrc as [H|[c0 H]]; [now left|]. right. eauto.
  - pose proof (Hnonneg _ _ _ Hz) as Hw0.
    destruct IH as [Hy|Hm]; [|right; lra].
    apply mem_true in Hy. unfold PyDict.mem in Hy.
    destruct (PyDict.get y (nx.dist st)) as [dy|] eqn:Ey; [|discriminate].
    destruct (Hrel _ _ _ _ Ey Hz) as [H|(dz & Hdz & Hle)]; [now left|].
    destruct (Hseen _ _ Hdz) as [H|[c' H]]; [now left|].
    right. apply Hmin in H. destruct (Hdist _ _ Ey) as [_ Hsh].
    specialize (Hsh _ Hw). lra.
Qed.

Lemma relax_dist d v nbrs : forall st,
  walk G s v d ->
  (forall y w, (y, w) ∈ nbrs -> (y, w) ∈ nx.adj G v) ->
  (forall x dx, PyDict.get x (nx.dist st) = Some dx -> is_shortest G s x dx) ->
  (forall d c x, (d, c, x) ∈ nx.fringe st -> walk G s x d) ->
  (forall x d, PyDict.get x (nx.seen st) = Some d ->
     x ∈ PyDict.keys (nx.dist st) \/ exists c, (d, c, x) ∈ nx.fringe st) ->
  exists st',
    nx.relax d nbrs st = Ok st' /\
    nx.dist st' = nx.dist st /\
    (forall i, i ∈ nx.fringe st -> i ∈ nx.fringe st') /\
    (forall d c x, (d, c, x) ∈ nx.fringe st' -> walk G s x d) /\
    (forall x d, PyDict.get x (nx.seen st') = Some d ->
       x ∈ PyDict.keys (nx.dist st') \/ exists c, (d, c, x) ∈ nx.fringe st') /\
    (forall y dy, PyDict.get y (nx.seen st) = Some dy ->
       exists dy', PyDict.get y (nx.seen st') = Some dy' /\ (dy' <= dy)%Q) /\
    (forall y w, (y, w) ∈ nbrs ->
       y ∈ PyDict.keys (nx.dist st)
       \/ exists dy, PyDict.get y (nx.seen st') = Some dy /\ (dy <= d + w)%Q).
Proof.
  induction nbrs as [|[u cost] rest IH]; intros st Hv Hadj Hdist Hfr Hseen.
  - exists st. simpl. repeat split; auto.
    + intros y dy Hy. exists dy. split; [assumption|apply Qle_refl].
    + intros y w Hy. inversion Hy.
  - assert (Hrest : forall y w, (y, w) ∈ rest -> (y, w) ∈ nx.adj G v).
    { intros y w Hy. apply Hadj. now right. }
    assert (Hu : walk G s u (d + cost)).
    { econstructor; [eassumption|]. apply Hadj. left. }
    set (st2 := {| nx.dist := nx.dist st;
                   nx.seen := PyDict.set u (d + cost)%Q (nx.seen st);
                   nx.counter := S (nx.counter st);
                   nx.fringe := (d + cost, nx.counter st, u)%Q :: nx.fringe st |}).
    assert (Hpush : forall sv,
      (PyDict.get u (nx.seen st) = None
       \/ (PyDict.get u (nx.seen st) = Some sv /\ (d + cost <= sv)%Q)) ->
      exists st',
        nx.relax d rest st2 = Ok st' /\
        nx.dist st' = nx.dist st /\
        (forall i, i ∈ nx.fringe st -> i ∈ nx.fringe st') /\
        (forall d c x, (d, c, x) ∈ nx.fringe st' -> walk G s x d) /\
        (forall x d, PyDict.get x (nx.seen st') = Some d ->
           x ∈ PyDict.keys (nx.dist st')
           \/ exists c, (d, c, x) ∈ nx.fringe st') /\
        (forall y dy, PyDict.get y (nx.seen st) = Some dy ->
           exists dy', PyDict.get y (nx.seen st') = Some dy'
                       /\ (dy' <= dy)%Q) /\
        (forall y w, (y, w) ∈ (u, cost) :: rest ->
           y ∈ PyDict.keys (nx.dist st)
           \/ exists dy, PyDict.get y (nx.seen st') = Some dy
                         /\ (dy <= d + w)%Q)).
    { intros sv Hsv.
      destruct (IH st2 Hv Hrest) as (st' & E & H1 & H2 & H3 & H4 & H5 & H6).
      - exact Hdist.
      - cbn [st2 nx.fringe]. intros d' c' x H.
        apply elem_of_cons in H as [[= -> -> ->]|H]; eauto.
      - cbn [st2 nx.fringe nx.seen nx.dist]. intros x d' H.
        rewrite get_set in H. destruct (decide (x = u)) as [->|Hne].
        + injection H as <-. right. exists (nx.counter st). left.
        + apply Hseen in H as [H|[c' H]]; [now left|].
          right. exists c'. now right.
      - exists st'. split; [assumption|]. split; [assumption|].
        split; [intros i Hi; apply H2; now right|].
        split; [assumption|]. split; [assumption|]. split.
        + intros y dy Hy.
          assert (Hy2 : exists d2, PyDict.get y (nx.seen st2) = Some d2
                                   /\ (d2 <= dy)%Q).
          { cbn [st2 nx.seen]. rewrite get_set.
            destruct (decide (y = u)) as [->|Hne].
            - exists (d + cost)%Q. split; [reflexivity|].
              destruct Hsv as [Hn|[Hs Hle]]; [congruence|].
              rewrite Hs in Hy. injection Hy as <-. assumption.
            - exists dy. split; [assumption|apply Qle_refl]. }
          destruct Hy2 as (d2 & Hd2 & Hle2).
          apply H5 in Hd2 as (dy' & Hdy' & Hle'). exists dy'.
          split; [assumption|lra].
        + intros y w Hy. apply elem_of_cons in Hy as [[= -> ->]|Hy].
          * right.
            assert (Hd2 : PyDict.get u (nx.seen st2) = Some (d + cost)%Q).
            { cbn [st2 nx.seen]. rewrite get_set.
              now rewrite decide_True by reflexivity. }
            apply H5 in Hd2 as (dy' & Hdy' & Hle'). eauto.
          * apply H6 in Hy. exact Hy. }
    cbn [nx.relax].
    destruct (PyDict.get u (nx.dist st)) as [u_dist|] eqn:Eu.
    + destruct (Hdist _ _ Eu) as [_ Hsh]. specialize (Hsh _ Hu).
      destruct (Qlt_le_dec (d + cost) u_dist) as [Hlt|Hge]; [lra|].
      destruct (IH st Hv Hrest Hdist Hfr Hseen)
        as (st' & E & H1 & H2 & H3 & H4 & H5 & H6).
      exists st'. repeat split; try assumption.
      intros y w Hy. apply elem_of_cons in Hy as [[= -> ->]|Hy]; [|auto].
      left. apply mem_true. unfold PyDict.mem. now rewrite Eu.
    + destruct (PyDict.get u (nx.seen st)) as [sv|] eqn:Es.
      * destruct (Qlt_le_dec (d + cost) sv) as [Hlt|Hge].
        -- apply (Hpush sv). right. split; [reflexivity|lra].
        -- destruct (IH st Hv Hrest Hdist Hfr Hseen)
             as (st' & E & H1 & H2 & H3 & H4 & H5 & H6).
           exists st'. repeat split; try assumption.
           intros y w Hy. apply elem_of_cons in Hy as [[= -> ->]|Hy]; [|auto].
           right. apply H5 in Es as (dy' & Hdy' & Hle'). exists dy'.
           split; [assumption|lra].
      * apply (Hpush 0%Q). now left.
Qed.

Lemma dist_inv_pop st d c v fr :
  dist_inv G s st ->
  nx.heappop (fun '(d, c, _) => (d, c)) (nx.fringe st) = Some (d, c, v, fr) ->
  PyDict.mem v (nx.dist st) = true ->
  dist_inv G s {| nx.dist := nx.dist st; nx.seen := nx.seen st;
                  nx.counter := nx.counter st; nx.fringe := fr |}.
Proof.
  intros [Hdist Hfr Hseen Hrel Hsrc] Ep Em.
  pose proof (heappop_elem _ _ _ _ Ep) as Hpop. apply mem_true in Em.
  constructor; cbn [nx.dist nx.seen nx.fringe]; auto.
  - intros d' c' x H. eapply Hfr, Hpop. right. eassumption.
  - intros x d' H. apply Hseen in H as [H|[c' H]]; [now left|].
    apply Hpop in H as [[= -> -> ->]|H]; [now left|]. right. eauto.
  - destruct Hsrc as [H|[c' H]]; [now left|].
    apply Hpop in H as [[= <- <- <-]|H]; [now left|]. right. eauto.
Qed.

Lemma dist_settle st d c v fr :
  dist_inv G s st ->
  nx.heappop (fun '(d, c, _) => (d, c)) (nx.fringe st) = Some (d, c, v, fr) ->
  PyDict.mem v (nx.dist st) = false ->
  forall x dx, PyDict.get x (PyDict.set v d (nx.dist st)) = Some dx ->
    is_shortest G s x dx.
Proof.
  intros Hinv Ep Em x dx Hx. rewrite get_set in Hx.
  destruct (decide (x = v)) as [->|Hne]; [|now apply Hinv].
  injection Hx as <-. split.
  - apply Hinv with c. apply (heappop_elem _ _ _ _ Ep). now left.
  - intros L HL. destruct (frontier st d c v fr Hinv Ep v L HL) as [H|H];
      [|assumption].
    apply mem_true in H. congruence.
Qed.

Lemma dijkstra_loop_dist target fuel : forall st,
  dist_inv G s st ->
  match nx.dijkstra_loop fuel G target st with
  | Ok l => forall x d, PyDict.get x l = Some d -> is_shortest G s x d
  | Raise _ => False
  | OutOfFuel => True
  end.
Proof.
  induction fuel as [|fuel IH]; intros st Hinv.
  - simpl. destruct (nx.heappop _ (nx.fringe st)) as [[[[d c] v] fr]|] eqn:Ep;
      [exact I|]. apply Hinv.
  - simpl. destruct (nx.heappop _ (nx.fringe st)) as [[[[d c] v] fr]|] eqn:Ep;
      [|apply Hinv].
    destruct (PyDict.mem v (nx.dist st)) eqn:Em.
    + apply IH. eapply dist_inv_pop; eauto.
    + pose proof (dist_settle st d c v fr Hinv Ep Em) as Hdist1.
      case_bool_decide as Ht; [exact Hdist1|].
      pose proof (heappop_elem _ _ _ _ Ep) as Hpop.
      destruct Hinv as [Hdist Hfr Hseen Hrel Hsrc].
      assert (Hin1 : forall x, x ∈ PyDict.keys (nx.dist st) ->
                x ∈ PyDict.keys (PyDict.set v d (nx.dist st))).
      { intros x Hx. rewrite keys_set, Em. apply elem_of_app. now left. }
      assert (Hv1 : v ∈ PyDict.keys (PyDict.set v d (nx.dist st))).
      { rewrite keys_set, Em. apply elem_of_app. right.
        now apply list_elem_of_singleton. }
      destruct (relax_dist d v (nx.adj G v)
                  {| nx.dist := PyDict.set v d (nx.dist st);
                     nx.seen := nx.seen st; nx.counter := nx.counter st;
                     nx.fringe := fr |})
        as (st' & E & H1 & H2 & H3 & H4 & H5 & H6);
        cbn [nx.dist nx.seen nx.fringe] in *.
      * apply Hfr with c. apply Hpop. now left.
      * auto.
      * exact Hdist1.
      * intros d' c' x H. eapply Hfr, Hpop. right. eassumption.
      * intros x d' H. apply Hseen in H as [H|[c' H]]; [left; auto|].
        apply Hpop in H as [[= -> -> ->]|H]; [now left|]. right. eauto.
      * rewrite E. cbn [mbind result_bind]. apply IH.
        constructor.
        -- now rewrite H1.
        -- assumption.
        -- assumption.
        -- rewrite H1. intros x dx y w Hx Hy. rewrite get_set in Hx.
           destruct (decide (x = v)) as [->|Hne].
           ++ injection Hx as <-. auto.
           ++ destruct (Hrel _ _ _ _ Hx Hy) as [H|(dy & Hdy & Hle)];
                [left; auto|].
              right. apply H5 in Hdy as (dy' & Hdy' & Hle'). exists dy'.
              split; [assumption|lra].
        -- rewrite H1. destruct Hsrc as [H|[c' H]]; [left; auto|].
           destruct (proj1 (Hpop _) H) as [[= E1 E2 E3]|H'];
             [left; now rewrite E3|].
           right. eauto.
Qed.

Lemma dist_inv_init :
  dist_inv G s {| nx.dist := []; nx.seen := [(s, 0%Q)]; nx.counter := 1%nat;
                  nx.fringe := [(0%Q, 0%nat, s)] |}.
Proof.
  constructor; cbn [nx.dist nx.seen nx.fringe].
  - intros x d H. discriminate.
  - intros d c x H. apply elem_of_cons in H as [H|H]; [|inversion H].
    injection H as E1 E2 E3. subst. constructor.
  - intros x d H. cbn in H. destruct (decide (x = s)); [|discriminate].
    injection H as <-. subst. right. exists 0%nat.
    now apply list_elem_of_singleton.
  - intros x dx y w H. discriminate.
  - right. exists 0%nat. now apply list_elem_of_singleton.
Qed.

(** With non-negative weights [dijkstra] returns, and what it returns
    are shortest distances from the source. *)
Lemma dijkstra_dist target :
  s ∈ nx.nodes G ->
  exists l, nx.dijkstra G s target = Ok l
    /\ forall x d, PyDict.get x l = Some d -> is_shortest G s x d.
Proof.
  intros Hs. pose proof (dijkstra_fuel_enough G s target) as Hfuel.
  unfold nx.dijkstra in *. apply has_node_true in Hs. rewrite Hs in *.
  pose proof (dijkstra_loop_dist target (nx.dijkstra_fuel G) _ dist_inv_init)
    as H.
  destruct (nx.dijkstra_loop _ _ _ _) as [l| |]; [eauto|contradiction|].
  now contradiction Hfuel.
Qed.

(** [single_source_dijkstra_path_length]: the shortest distance to every
    node joined to the source. *)
Lemma single_source_dijkstra_spec :
  s ∈ nx.nodes G ->
  exists l, nx.single_source_dijkstra_path_length G s = Ok l
    /\ NoDup (PyDict.keys l)
    /\ (forall x, x ∈ PyDict.keys l <-> connected G s x)
    /\ forall x d, PyDict.get x l = Some d -> is_shortest G s x d.
Proof.
  intros Hs. destruct (dijkstra_dist None Hs) as (l & Hl & Hd).
  exists l. split; [exact Hl|].
  destruct (dijkstra_reaches G s l Hl) as [Hnd Hk]. auto.
Qed.

(** [shortest_path_length]: the shortest distance between joined nodes,
    [NetworkXNoPath] otherwise. *)
Lemma shortest_path_length_spec t :
  s ∈ nx.nodes G ->
  (connected G s t ->
   exists d, nx.shortest_path_length G s t = Ok d /\ is_shortest G s t d)
  /\ (~ connected G s t ->
      nx.shortest_path_length G s t = Raise NetworkXNoPath).
Proof.
  intros Hs. destruct (dijkstra_dist (Some t) Hs) as (l & Hl & Hd).
  unfold nx.shortest_path_length. rewrite Hl. cbn [mbind result_bind].
  assert (Hreach : (forall x, x ∈ PyDict.keys l -> connected G s x)
                   /\ (connected G s t -> t ∈ PyDict.keys l)).
  { unfold nx.dijkstra in Hl. destruct (nx.has_node G s); [|discriminate].
    apply (dijkstra_loop_reach G s) in Hl as (_ & H1 & [H2|(t' & [= <-] & H2)]);
      [| |apply reach_inv_init]; auto. }
  destruct Hreach as [H1 H2]. split.
  - intros Hc. apply H2, mem_true in Hc. unfold PyDict.mem in Hc.
    destruct (PyDict.get t l) as [d|] eqn:E; [|discriminate]. eauto.
  - intros Hc. destruct (PyDict.get t l) as [d|] eqn:E; [|reflexivity].
    exfalso. apply Hc, H1. apply mem_true. unfold PyDict.mem. now rewrite E.
Qed.

End Dist.

(** ** Closeness centrality *)

Lemma dijkstra_Ok_node G s target l :
  nx.dijkstra G s target = Ok l -> s ∈ nx.nodes G.
Proof.
  unfold nx.dijkstra. destruct (nx.has_node G s) eqn:E; [|discriminate].
  intros _. now apply has_node_true.
Qed.

(** C3, as the code has it: the search from [n] returns one entry for
    every node joined to [n] ([n] included), holding its shortest
    distance when no weight is negative; with [r] the number of entries
    and [totsp] the sum of their distances, the closeness of [n] is
    [((r - 1) / totsp) * ((r - 1) / (nodeCount - 1))]; it is
    [(r - 1) / totsp] when every node is reached, and 0 when the sum is 0
    or the graph has at most one node. *)
Theorem c3_closeness_reachable_scaled G n sp :
  nx.single_source_dijkstra_path_length G n = Ok sp ->
  let r := inject_Z (Z.of_nat (length sp)) in
  let totsp := py_sum (PyDict.values sp) in
  let N := nx.number_of_nodes G in
  (NoDup (PyDict.keys sp) /\ forall x, x ∈ PyDict.keys sp <-> connected G n x)
  /\ (nonneg_weights G ->
      forall x d, PyDict.get x sp = Some d -> is_shortest G n x d)
  /\ exists c,
       nx.closeness_of G n = Ok c
       /\ ((0 < totsp)%Q -> 1 < N ->
           c = (((r - 1) / totsp) * ((r - 1) / inject_Z (N - 1)))%Q)
       /\ ((0 < totsp)%Q -> 1 < N -> Z.of_nat (length sp) = N ->
           (c == (r - 1) / totsp)%Q)
       /\ ((totsp <= 0)%Q \/ N <= 1 -> c = 0%Q).
Proof.
  intros Hsp r totsp N.
  split; [now apply dijkstra_reaches|]. split.
  { intros Hnn. pose proof (dijkstra_Ok_node _ _ _ _ Hsp) as Hn.
    destruct (dijkstra_dist G n Hnn None Hn) as (l & Hl & Hd).
    unfold nx.single_source_dijkstra_path_length in Hsp.
    rewrite Hsp in Hl. now injection Hl as <-. }
  unfold nx.closeness_of. rewrite Hsp.
  unfold mbind at 1. unfold result_bind at 1. cbv beta iota.
  fold totsp. fold N. destruct (Qlt_le_dec 0 totsp) as [Hpos|Hle].
  - destruct (decide (1 < N)) as [HN|HN].
    + rewrite (py_div_pos _ totsp Hpos).
      unfold mbind at 1. unfold result_bind at 1. cbv beta iota.
      rewrite py_div_inject_Z by lia.
      unfold mbind at 1. unfold result_bind at 1. cbv beta iota. eexists. split; [reflexivity|].
      split; [reflexivity|]. split.
      * intros _ _ Hr. fold r. apply Qscale_full; [assumption| |].
        -- change 0%Q with (inject_Z 0). rewrite inject_Z_injective. lia.
        -- unfold r. rewrite Hr. unfold Z.sub, Qminus.
           rewrite inject_Z_plus. reflexivity.
      * intros [Hc|Hc]; [|lia]. exfalso. apply (Qlt_irrefl 0).
        eapply Qlt_le_trans; eauto.
    + eexists. split; [reflexivity|]. split; [intros; lia|].
      split; [intros; lia | reflexivity].
  - eexists. split; [reflexivity|].
    split; [intros Hc; exfalso; apply (Qlt_irrefl 0); eapply Qlt_le_trans; eauto|].
    split; [intros Hc; exfalso; apply (Qlt_irrefl 0); eapply Qlt_le_trans; eauto|].
    reflexivity.
Qed.

Lemma c3_witness :
  (NoDup [1; 2] /\ forall x, x ∈ [1; 2] <-> connected Ex.two_edges 1 x)
  /\ (nonneg_weights Ex.two_edges ->
      forall x d, PyDict.get x [(1, 0%Q); (2, 1%Q)] = Some d ->
        is_shortest Ex.two_edges 1 x d)
  /\ exists c,
       nx.closeness_of Ex.two_edges 1 = Ok c
       /\ ((0 < 1)%Q -> 1 < 4 ->
           c = (((inject_Z 2 - 1) / py_sum [0%Q; 1%Q])
                * ((inject_Z 2 - 1) / inject_Z (4 - 1)))%Q)
       /\ ((0 < 1)%Q -> 1 < 4 -> 2 = 4 -> (c == (inject_Z 2 - 1) / 1)%Q)
       /\ ((1 <= 0)%Q \/ 4 <= 1 -> c = 0%Q).
Proof.
  apply (c3_closeness_reachable_scaled Ex.two_edges 1 [(1, 0%Q); (2, 1%Q)]).
  vm_compute. reflexivity.
Defined.

(** C3, as stated, fails on a disconnected graph: in 1 - 2, 3 - 4 node 1
    reaches two nodes at total distance 1, the claim gives
    (2 - 1) / 1 = 1, the code gives 1/3. *)
Lemma c3_counterexample :
  nx.single_source_dijkstra_path_length Ex.two_edges 1
    = Ok [(1, 0%Q); (2, 1%Q)]
  /\ exists c, nx.closeness_of Ex.two_edges 1 = Ok c
       /\ (c == 1 # 3)%Q
       /\ ~ (c == (inject_Z 2 - 1) / py_sum [0%Q; 1%Q])%Q.
Proof.
  split; [reflexivity|]. eexists. split; [reflexivity|].
  split; [reflexivity|]. intros H. vm_compute in H. discriminate.
Qed.

(** On a graph without negative weights the closeness of every node is
    computed: the search neither raises nor runs out of its bound. *)
Lemma closeness_of_returns G n :
  nonneg_weights G -> n ∈ nx.nodes G -> exists c, nx.closeness_of G n = Ok c.
Proof.
  intros Hnn Hn.
  destruct (single_source_dijkstra_spec G n Hnn Hn) as (sp & Hsp & _).
  unfold nx.closeness_of. rewrite Hsp. cbn [mbind result_bind].
  destruct (Qlt_le_dec 0 _) as [Hpos|Hle]; [|eauto].
  destruct (decide (1 < nx.number_of_nodes G)) as [HN|HN]; [|eauto].
  rewrite (py_div_pos _ _ Hpos). cbn [mbind result_bind].
  rewrite py_div_inject_Z by lia. cbn [mbind result_bind]. eauto.
Qed.

(** ** What the simulation compares *)

Lemma shortest_path_length_Ok G s t d :
  nonneg_weights G ->
  nx.shortest_path_length G s t = Ok d -> is_shortest G s t d.
Proof.
  intros Hnn H. unfold nx.shortest_path_length in H.
  destruct (nx.dijkstra G s (Some t)) as [l| |] eqn:Hl;
    cbn [mbind result_bind] in H; try discriminate.
  pose proof (dijkstra_Ok_node _ _ _ _ Hl) as Hs.
  destruct (dijkstra_dist G s Hnn (Some t) Hs) as (l' & Hl' & Hd).
  rewrite Hl in Hl'. injection Hl' as <-.
  destruct (PyDict.get t l) as [d'|] eqn:E; [|discriminate].
  injection H as <-. eauto.
Qed.

(** A sampled pair is counted as disconnected exactly when its nodes are
    joined in the graph and no longer joined in the modified graph. *)
Lemma desconectado_par_spec G Gmod p :
  nonneg_weights G -> nonneg_weights Gmod ->
  p.1 ∈ nx.nodes G -> p.1 ∈ nx.nodes Gmod ->
  desconectado_par G Gmod p = true
  <-> connected G p.1 p.2 /\ ~ connected Gmod p.1 p.2.
Proof.
  intros Hnn Hnn' Hs Hs'. unfold desconectado_par.
  destruct (shortest_path_length_spec G p.1 Hnn p.2 Hs) as [H1 H2].
  destruct (shortest_path_length_spec Gmod p.1 Hnn' p.2 Hs') as [H1' H2'].
  split.
  - destruct (nx.shortest_path_length G p.1 p.2) as [d| |] eqn:E;
      try discriminate.
    intros H. split.
    + eapply walk_connected, shortest_path_length_Ok; eauto.
    + intros Hc. apply H1' in Hc as (d' & Hd' & _). rewrite Hd' in H.
      discriminate.
  - intros [Hc Hc']. apply H1 in Hc as (d & -> & _).
    now rewrite (H2' Hc').
Qed.

(** A sampled pair contributes a percentage exactly when its nodes are
    joined in both graphs and the shortest distance grew. *)
Lemma aumento_par_spec G Gmod p :
  nonneg_weights G -> nonneg_weights Gmod ->
  p.1 ∈ nx.nodes G -> p.1 ∈ nx.nodes Gmod ->
  (forall d d', is_shortest G p.1 p.2 d -> is_shortest Gmod p.1 p.2 d' ->
     (d < d')%Q ->
     exists e e', (e == d)%Q /\ (e' == d')%Q
       /\ aumento_par G Gmod p = [((e' - e) / e * 100)%Q])
  /\ (forall d d', is_shortest G p.1 p.2 d -> is_shortest Gmod p.1 p.2 d' ->
        (d' <= d)%Q -> aumento_par G Gmod p = [])
  /\ (~ connected G p.1 p.2 \/ ~ connected Gmod p.1 p.2 ->
      aumento_par G Gmod p = []).
Proof.
  intros Hnn Hnn' Hs Hs'. unfold aumento_par.
  destruct (shortest_path_length_spec G p.1 Hnn p.2 Hs) as [H1 H2].
  destruct (shortest_path_length_spec Gmod p.1 Hnn' p.2 Hs') as [H1' H2'].
  assert (Huniq : forall H s t a b,
            is_shortest H s t a -> is_shortest H s t b -> (a == b)%Q).
  { intros H s t a b [Wa Ha] [Wb Hb]. apply Qle_antisym; auto. }
  split; [|split].
  - intros d d' Hd Hd' Hlt.
    destruct (H1 (walk_connected _ _ _ _ (proj1 Hd))) as (e & He & Hes).
    destruct (H1' (walk_connected _ _ _ _ (proj1 Hd'))) as (e' & He' & Hes').
    rewrite He, He'.
    pose proof (Huniq _ _ _ _ _ Hd Hes) as E.
    pose proof (Huniq _ _ _ _ _ Hd' Hes') as E'.
    destruct (Qlt_le_dec e e') as [_|Hle]; [|lra].
    exists e, e'. repeat split; [lra|lra].
  - intros d d' Hd Hd' Hle.
    destruct (H1 (walk_connected _ _ _ _ (proj1 Hd))) as (e & He & Hes).
    destruct (H1' (walk_connected _ _ _ _ (proj1 Hd'))) as (e' & He' & Hes').
    rewrite He, He'.
    pose proof (Huniq _ _ _ _ _ Hd Hes) as E.
    pose proof (Huniq _ _ _ _ _ Hd' Hes') as E'.
    destruct (Qlt_le_dec e e') as [Hlt|_]; [lra|reflexivity].
  - intros [Hc|Hc].
    + now rewrite (H2 Hc).
    + rewrite (H2' Hc). now destruct (nx.shortest_path_length G p.1 p.2).
Qed.

(** ** The graphs of the analysers and non-negative weights *)

Lemma adj_weight G y z w :
  wf_graph G -> (z, w) ∈ nx.adj G y <-> nx.weight G y z = Some w.
Proof.
  intros Hwf. unfold nx.weight. split.
  - apply in_get. apply (wf_neighbors G Hwf y).
  - apply get_in.
Qed.

Lemma nonneg_weights_weight G :
  wf_graph G ->
  nonneg_weights G <-> forall y z w, nx.weight G y z = Some w -> (0 <= w)%Q.
Proof.
  intros Hwf. split; intros H y z w Hw.
  - apply (H y z w). now apply adj_weight.
  - apply (H y z w). now apply adj_weight.
Qed.

Lemma ler_edge_info_dists infos : forall coords dists k d,
  (forall k d, PyDict.get k dists = Some d -> (0 <= d)%Q) ->
  (forall r, r ∈ infos -> (0 <= ei_distancia r)%Q) ->
  PyDict.get k
    (fold_left
       (fun '(coords, dists) r =>
          (PyDict.set (ei_no2 r) (ei_x2 r, ei_y2 r)
             (PyDict.set (ei_no1 r) (ei_x1 r, ei_y1 r) coords),
           PyDict.set (chave (ei_no1 r) (ei_no2 r)) (ei_distancia r) dists))
       infos (coords, dists)).2 = Some d ->
  (0 <= d)%Q.
Proof.
  induction infos as [|r infos IH]; intros coords dists k d Hd Hr; simpl.
  - apply Hd.
  - apply IH.
    + intros k' d' H. rewrite get_set in H.
      destruct (decide (k' = chave (ei_no1 r) (ei_no2 r))); [|eauto].
      injection H as <-. apply Hr. left.
    + intros r' Hr'. apply Hr. now right.
Qed.

(** A distance table without negative entries gives a graph without
    negative weights: a missing entry counts as 0. *)
Lemma carregar_dados_nonneg infos net :
  (forall r, r ∈ infos -> (0 <= ei_distancia r)%Q) ->
  nonneg_weights (dados_grafo (carregar_dados infos net)).
Proof.
  intros Hr. apply nonneg_weights_weight; [apply carregar_dados_wf|].
  destruct (carregar_dados_grafo infos net) as [-> _].
  intros y z w. unfold ler_net. rewrite ler_net_weight.
  case_bool_decide; [|discriminate]. intros [= <-].
  unfold PyDict.get_default.
  destruct (PyDict.get (chave y z) (ler_edge_info infos).2) as [d|] eqn:E;
    [|apply Qle_refl].
  unfold ler_edge_info in E.
  eapply ler_edge_info_dists; [| exact Hr | exact E]. discriminate.
Qed.

(** The graph that the simulation modifies keeps the weights
    non-negative. *)
Lemma copy_remove_nonneg G u v Gmod :
  wf_graph G -> nonneg_weights G ->
  nx.remove_edge u v (nx.copy G) = Ok Gmod ->
  wf_graph Gmod /\ nx.nodes Gmod = nx.nodes G /\ nonneg_weights Gmod.
Proof.
  intros Hwf Hnn Hrem.
  destruct (copy_spec G Hwf) as (Hnodes & Hwfc & Hw).
  assert (Hin : v ∈ nx.neighbors (nx.copy G) u).
  { destruct (decide (v ∈ nx.neighbors (nx.copy G) u)) as [|Hnin];
      [assumption|].
    exfalso. unfold nx.remove_edge in Hrem.
    apply del_None in Hnin. unfold nx.neighbors in Hnin.
    now rewrite Hnin in Hrem. }
  destruct (remove_edge_spec _ u v Hwfc Hin) as (G' & H1 & H2 & H3 & H4).
  rewrite Hrem in H1. injection H1 as <-.
  split; [assumption|]. split; [congruence|].
  apply nonneg_weights_weight; [assumption|].
  intros y z w. rewrite H4. case_decide; [discriminate|].
  rewrite Hw. intros Hyz. apply (Hnn y z w). now apply adj_weight.
Qed.

(** * Further properties of the analysers *)

(** ** Loading: the tables *)

Lemma ultima_snoc {K V : Type} `{EqDecision K} (k k' : K) (v : V) ws :
  ultima k (ws ++ [(k', v)])
  = if decide (k = k') then Some v else ultima k ws.
Proof.
  unfold ultima. rewrite filter_app.
  destruct (decide (k = k')) as [->|Hne].
  - rewrite filter_cons_True by reflexivity. rewrite filter_nil.
    now rewrite last_snoc.
  - rewrite filter_cons_False by (simpl; congruence).
    now rewrite filter_nil, app_nil_r.
Qed.

(** A dict filled by a sequence of writes holds, under every key, the
    value written last. *)
Lemma get_escritas {K V : Type} `{EqDecision K} (k : K) (ws : list (K * V)) :
  forall d,
  PyDict.get k (fold_left (fun d w => PyDict.set w.1 w.2 d) ws d)
  = match ultima k ws with Some v => Some v | None => PyDict.get k d end.
Proof.
  induction ws as [|[k' v] ws IH] using rev_ind; intros d.
  - reflexivity.
  - rewrite fold_left_app. cbn [fold_left fst snd].
    rewrite get_set, ultima_snoc. destruct (decide (k = k')); [reflexivity|].
    apply IH.
Qed.

Lemma ler_edge_info_escritas infos : forall coords dists,
  fold_left
    (fun '(coords, dists) r =>
       (PyDict.set (ei_no2 r) (ei_x2 r, ei_y2 r)
          (PyDict.set (ei_no1 r) (ei_x1 r, ei_y1 r) coords),
        PyDict.set (chave (ei_no1 r) (ei_no2 r)) (ei_distancia r) dists))
    infos (coords, dists)
  = (fold_left (fun d w => PyDict.set w.1 w.2 d)
       (escritas_coordenadas infos) coords,
     fold_left (fun d w => PyDict.set w.1 w.2 d)
       (escritas_distancias infos) dists).
Proof.
  induction infos as [|r infos IH]; intros coords dists; [reflexivity|].
  cbn [fold_left escritas_coordenadas escritas_distancias flat_map map app
       fst snd]. apply IH.
Qed.

Lemma carregar_dados_coordenadas infos net :
  coordenadas (carregar_dados infos net) = (ler_edge_info infos).1.
Proof.
  unfold carregar_dados. destruct (ler_edge_info infos) as [coords dists].
  simpl. destruct (ler_net dists net) as [[G a] s]. reflexivity.
Qed.

(** Later records of [brasilia_edge_info.txt] overwrite earlier ones: the
    distance table holds, for a pair of nodes in either order, the
    distance of the last record of that pair, and a node has the
    coordinates that were written last for it. *)
Theorem carregar_dados_ultima_escrita infos net no1 no2 n :
  PyDict.get (chave no1 no2) (distancias (carregar_dados infos net))
  = ultima (chave no2 no1) (escritas_distancias infos)
  /\ PyDict.get n (coordenadas (carregar_dados infos net))
     = ultima n (escritas_coordenadas infos).
Proof.
  destruct (carregar_dados_grafo infos net) as [_ ->].
  rewrite carregar_dados_coordenadas. unfold ler_edge_info.
  rewrite ler_edge_info_escritas. cbn [fst snd].
  rewrite !get_escritas, (chave_comm no2 no1). cbn [PyDict.get].
  split; [destruct (ultima _ _) | destruct (ultima _ _)]; reflexivity.
Qed.

(** ** Loading: the graph *)

Lemma ler_net_nodes dists net : forall G a s x,
  x ∈ nx.nodes (fold_left (ler_net_step dists) net (G, a, s)).1.1
  <-> x ∈ nx.nodes G \/ exists r, r ∈ net /\ (x = r.1 \/ x = r.2).
Proof.
  induction net as [|[no1 no2] net IH]; intros G a s x;
    cbn [fold_left ler_net_step].
  - split; [auto|]. intros [H|(r & Hr & _)]; [assumption|inversion Hr].
  - rewrite IH, nodes_add_edge. split.
    + intros [[H|H]|(r & Hr & H)].
      * now left.
      * right. exists (no1, no2). split; [left|exact H].
      * right. exists r. split; [now right|exact H].
    + intros [H|(r & Hr & H)]; [tauto|].
      apply elem_of_cons in Hr as [->|Hr]; [tauto|]. right. eauto.
Qed.

Lemma ler_net_adicionadas dists net : forall G a s,
  (fold_left (ler_net_step dists) net (G, a, s)).1.2
  = a + Z.of_nat (length net).
Proof.
  induction net as [|[no1 no2] net IH]; intros G a s;
    cbn [fold_left ler_net_step length]; [simpl; lia|].
  rewrite IH. lia.
Qed.

(** The graph that [carregar_dados] builds: its nodes are the endpoints
    of the records of [brasilia.net]; two nodes are joined exactly when
    the file has a record of them, in either order, and the weight of
    the edge is the distance of the table, or 0 without one. *)
Theorem carregar_dados_grafo_lido infos net x y :
  let d := carregar_dados infos net in
  (x ∈ nx.nodes (dados_grafo d)
   <-> exists r, r ∈ net /\ (x = r.1 \/ x = r.2))
  /\ nx.weight (dados_grafo d) x y
     = if bool_decide ((x, y) ∈ net \/ (y, x) ∈ net)
       then Some (PyDict.get_default (chave x y) 0%Q (distancias d))
       else None.
Proof.
  cbv zeta. destruct (carregar_dados_grafo infos net) as [-> ->].
  unfold ler_net. split.
  - rewrite ler_net_nodes. split; [|auto].
    intros [H|H]; [inversion H|exact H].
  - rewrite ler_net_weight. now case_bool_decide.
Qed.

(** The loaded graph is a simple undirected structure: no node and no
    adjacency entry is duplicated, and both directions of an edge carry
    the same distance. *)
Theorem carregar_dados_simetrico infos net :
  let G := dados_grafo (carregar_dados infos net) in
  NoDup (nx.nodes G)
  /\ (forall u, NoDup (nx.neighbors G u))
  /\ forall u v, nx.weight G u v = nx.weight G v u.
Proof.
  cbv zeta. destruct (carregar_dados_wf infos net) as [H1 H2 H3]. auto.
Qed.

(** ** The edge list of a graph *)

Lemma chave_inj_r u v v' : chave u v = chave u v' -> v = v'.
Proof. unfold chave. intros [= H1 H2]. lia. Qed.

Lemma chave_elems u v a b :
  chave u v = chave a b -> (u = a /\ v = b) \/ (u = b /\ v = a).
Proof. unfold chave. intros [= H1 H2]. lia. Qed.

(** An entry of [edges_from] comes from the adjacency of a node of the
    list and leads outside [seen]. *)
Lemma edges_from_elem seen (G : nx.Graph) u v w :
  (u, v, w) ∈ nx.edges_from seen G ->
  (exists d, (u, d) ∈ G /\ (v, w) ∈ d) /\ v ∉ seen.
Proof.
  revert seen. induction G as [|[u0 d0] G IH]; intros seen; simpl.
  - intros H. inversion H.
  - rewrite elem_of_app. intros [H|H].
    + apply (list_elem_of_fmap (fun '(v, w) => (u0, v, w))) in H
        as ([v' w'] & [= -> -> ->] & H).
      apply list_elem_of_filter in H as [HP Hin]. split.
      * exists d0. split; [left|assumption].
      * intros Hs. apply negb_prop_elim in HP. apply HP.
        now apply bool_decide_pack.
    + apply IH in H as [(d & Hd & Hvw) Hs]. split.
      * exists d. split; [now right|assumption].
      * intros Hin. apply Hs. now right.
Qed.

Lemma NoDup_edges_from seen (G : nx.Graph) :
  NoDup (PyDict.keys G) ->
  (forall u d, (u, d) ∈ G -> NoDup (PyDict.keys d)) ->
  NoDup ((fun '(u, v, w) => chave u v) <$> nx.edges_from seen G).
Proof.
  revert seen. induction G as [|[u0 d0] G IH]; intros seen Hnd Hd; simpl.
  - constructor.
  - apply NoDup_cons in Hnd as [Hu0 Hnd]. rewrite fmap_app.
    apply NoDup_app. split; [|split].
    + assert (Hd0 : NoDup (PyDict.keys d0)) by (apply (Hd u0); left).
      clear -Hd0. induction d0 as [|[v w] d0 IHd]; simpl; [constructor|].
      apply NoDup_cons in Hd0 as [Hv Hd0].
      rewrite filter_cons. destruct (decide _); [|now apply IHd].
      simpl. apply NoDup_cons. split; [|now apply IHd].
      intros Hin. apply Hv.
      apply list_elem_of_fmap in Hin as ([[u1 v1] w1] & E & Hin).
      apply (list_elem_of_fmap (fun '(v, w) => (u0, v, w))) in Hin
        as ([v2 w2] & [= -> -> ->] & Hin).
      apply chave_inj_r in E. subst.
      apply list_elem_of_filter in Hin as [_ Hin].
      apply (list_elem_of_fmap_2 fst) in Hin. exact Hin.
    + intros k Hk1 Hk2.
      apply list_elem_of_fmap in Hk1 as ([[u1 v1] w1] & -> & Hin1).
      apply (list_elem_of_fmap (fun '(v, w) => (u0, v, w))) in Hin1
        as ([v' w'] & [= -> -> ->] & Hin1).
      apply list_elem_of_fmap in Hk2 as ([[u2 v2] w2] & E & Hin2).
      apply edges_from_elem in Hin2 as [(d2 & Hd2 & _) Hs2].
      assert (Hu2 : u2 ∈ PyDict.keys G)
        by (apply (list_elem_of_fmap_2 fst) in Hd2; exact Hd2).
      apply chave_elems in E as [[E1 _]|[E1 _]].
      * apply Hu0. simpl. rewrite E1. exact Hu2.
      * apply Hs2. rewrite E1. left.
    + apply IH; [assumption|]. intros u d Hud. apply (Hd u). now right.
Qed.

Lemma wf_adj_entry G u d :
  wf_graph G -> (u, d) ∈ G -> nx.adj G u = d.
Proof.
  intros Hwf Hud. unfold nx.adj.
  now rewrite (in_get u d G (wf_nodes G Hwf) Hud).
Qed.

Lemma edges_chave G :
  (fun '(u, v) => chave u v) <$> nx.edges G
  = (fun '(u, v, w) => chave u v) <$> nx.edges_data G.
Proof.
  unfold nx.edges. change (map fst (nx.edges_data G)) with (fst <$> nx.edges_data G).
  rewrite <- list_fmap_compose. apply list_fmap_ext.
  intros _ [[u v] w] _. reflexivity.
Qed.

(** No edge is listed twice by [G.edges()], in either orientation. *)
Lemma NoDup_edges_chave G :
  wf_graph G -> NoDup ((fun '(u, v) => chave u v) <$> nx.edges G).
Proof.
  intros Hwf. rewrite edges_chave. apply NoDup_edges_from.
  - apply Hwf.
  - intros u d Hud. rewrite <- (wf_adj_entry G u d Hwf Hud).
    apply (wf_neighbors G Hwf).
Qed.

Lemma edges_adjacent G u v :
  wf_graph G -> (u, v) ∈ nx.edges G -> adjacent G u v.
Proof.
  intros Hwf H. unfold nx.edges in H.
  apply (list_elem_of_fmap fst) in H as ([[u' v'] w] & [= <- <-] & H).
  apply edges_from_elem in H as [(d & Hd & Hvw) _].
  unfold adjacent, nx.neighbors. rewrite (wf_adj_entry G u d Hwf Hd).
  apply (list_elem_of_fmap_2 fst) in Hvw. exact Hvw.
Qed.

(** The pairs that the edge list of a graph holds are, up to their
    order, the pairs of adjacent nodes. *)
Lemma edges_chave_elem G k :
  wf_graph G ->
  k ∈ (fun '(u, v) => chave u v) <$> nx.edges G
  <-> exists u v, adjacent G u v /\ k = chave u v.
Proof.
  intros Hwf. split.
  - intros Hk. apply list_elem_of_fmap in Hk as ([u v] & -> & Huv).
    exists u, v. split; [now apply edges_adjacent|reflexivity].
  - intros (u & v & Huv & ->).
    destruct (edges_either G u v Hwf Huv) as [H|H].
    + apply (list_elem_of_fmap_2 (fun '(u, v) => chave u v)) in H. exact H.
    + apply (list_elem_of_fmap_2 (fun '(u, v) => chave u v)) in H.
      rewrite chave_comm. exact H.
Qed.

(** Two nodes of the loaded graph are adjacent exactly when the file
    has a record of them, in either order. *)
Lemma carregar_dados_adjacent infos net x y :
  adjacent (dados_grafo (carregar_dados infos net)) x y
  <-> (x, y) ∈ net \/ (y, x) ∈ net.
Proof.
  rewrite adjacent_weight.
  destruct (carregar_dados_grafo infos net) as [HG _]. rewrite HG.
  unfold ler_net. rewrite ler_net_weight.
  case_bool_decide as Hin.
  - split; [intros _; exact Hin|intros _; eexists; reflexivity].
  - split; [intros [w Hw]|intros H; contradiction].
    unfold nx.weight, nx.adj, nx.empty in Hw. simpl in Hw. discriminate.
Qed.

(** [carregar_dados] counts the records it reads, not the edges of the
    graph: the counter is the number of records of [brasilia.net], while
    the graph has one edge per distinct pair of nodes among the records,
    the order within a pair left aside; repeated records of a pair give
    one edge, so that the edges are never more than the counter. *)
Theorem carregar_dados_arestas_adicionadas infos net :
  let d := carregar_dados infos net in
  arestas_adicionadas d = Z.of_nat (length net)
  /\ nx.number_of_edges (dados_grafo d)
     = Z.of_nat
         (length (remove_dups ((fun '(u, v) => chave u v) <$> net)))
  /\ nx.number_of_edges (dados_grafo d) <= arestas_adicionadas d.
Proof.
  cbv zeta.
  assert (Ha : arestas_adicionadas (carregar_dados infos net)
               = Z.of_nat (length net)).
  { unfold carregar_dados. destruct (ler_edge_info infos) as [coords dists].
    pose proof (ler_net_adicionadas dists net nx.empty 0 0) as H.
    unfold ler_net. destruct (fold_left _ net _) as [[G a] s]. simpl in *. lia. }
  pose proof (carregar_dados_wf infos net) as Hwf.
  set (G := dados_grafo (carregar_dados infos net)) in *.
  assert (He : nx.number_of_edges G
               = Z.of_nat
                   (length (remove_dups ((fun '(u, v) => chave u v) <$> net)))).
  { unfold nx.number_of_edges. f_equal.
    rewrite <- (length_fmap (fun '(u, v) => chave u v) (nx.edges G)).
    apply Permutation_length, NoDup_Permutation.
    - now apply NoDup_edges_chave.
    - apply NoDup_remove_dups.
    - intros k. rewrite elem_of_remove_dups, (edges_chave_elem G k Hwf).
      split.
      + intros (u & v & Huv & ->).
        apply carregar_dados_adjacent in Huv as [Hin|Hin].
        * apply (list_elem_of_fmap_2 (fun '(u, v) => chave u v)) in Hin.
          exact Hin.
        * apply (list_elem_of_fmap_2 (fun '(u, v) => chave u v)) in Hin.
          rewrite chave_comm. exact Hin.
      + intros Hk. apply list_elem_of_fmap in Hk as ([u v] & -> & Huv).
        exists u, v. split; [|reflexivity].
        apply carregar_dados_adjacent. now left. }
  split; [exact Ha|]. split; [exact He|].
  rewrite He, Ha. apply inj_le.
  rewrite <- (length_fmap (fun '(u, v) => chave u v) net).
  apply submseteq_length, NoDup_submseteq; [apply NoDup_remove_dups|].
  intros k. now rewrite elem_of_remove_dups.
Qed.

(** ** Degrees and edges *)

Lemma filter_iff_in {A : Type} (P Q : A -> Prop)
    `{!forall x, Decision (P x)} `{!forall x, Decision (Q x)} (l : list A) :
  (forall x, x ∈ l -> P x <-> Q x) -> filter P l = filter Q l.
Proof.
  induction l as [|x l IH]; intros Hpq; [reflexivity|].
  rewrite !filter_cons.
  rewrite IH by (intros y Hy; apply Hpq; now right).
  destruct (decide (P x)) as [HP|HP].
  - rewrite decide_True; [reflexivity|]. apply Hpq; [left|assumption].
  - rewrite decide_False; [reflexivity|].
    intros HQ. apply HP, Hpq; [left|assumption].
Qed.

Lemma length_filter_not {A : Type} (P : A -> Prop) `{!forall x, Decision (P x)}
    (l : list A) :
  (length l = length (filter P l) + length (filter (fun x => ~ P x) l))%nat.
Proof.
  induction l as [|x l IH]; [reflexivity|].
  rewrite !filter_cons. destruct (decide (P x)) as [HP|HP].
  - rewrite decide_False by tauto. simpl. lia.
  - rewrite decide_True by tauto. simpl. lia.
Qed.

Lemma length_filter_or {A : Type} (P Q : A -> Prop)
    `{!forall x, Decision (P x)} `{!forall x, Decision (Q x)} (l : list A) :
  (forall x, x ∈ l -> P x -> Q x -> False) ->
  (length (filter (fun x => P x \/ Q x) l)
   = length (filter P l) + length (filter Q l))%nat.
Proof.
  induction l as [|x l IH]; intros Hex; [reflexivity|].
  assert (IH' := IH (fun y Hy => Hex y (list_elem_of_further _ _ _ Hy))).
  rewrite !filter_cons.
  destruct (decide (P x)) as [HP|HP], (decide (Q x)) as [HQ|HQ].
  - exfalso. apply (Hex x); [left|assumption..].
  - rewrite decide_True by tauto. simpl. lia.
  - rewrite decide_True by tauto. simpl. lia.
  - rewrite decide_False by tauto. lia.
Qed.

Lemma NoDup_keys_filter {K V : Type} (P : K * V -> Prop)
    `{!forall x, Decision (P x)} (d : list (K * V)) :
  NoDup (PyDict.keys d) -> NoDup (PyDict.keys (filter P d)).
Proof.
  unfold PyDict.keys. induction d as [|[k v] d IH]; intros Hnd; [constructor|].
  cbn [fmap list_fmap] in Hnd. apply NoDup_cons in Hnd as [Hk Hnd].
  rewrite filter_cons. destruct (decide _); [|now apply IH].
  cbn [fmap list_fmap]. apply NoDup_cons. split; [|now apply IH].
  intros Hin. apply Hk. apply list_elem_of_fmap in Hin as ([k' v'] & E & Hin).
  apply list_elem_of_filter in Hin as [_ Hin]. simpl in E. subst.
  apply (list_elem_of_fmap_2 fst) in Hin. exact Hin.
Qed.

(** In a dict the entries of one key are at most one. *)
Lemma length_filter_key {V : Type} (u : Z) (d : list (Z * V)) :
  NoDup (PyDict.keys d) ->
  length (filter (fun e : Z * V => e.1 = u) d)
  = if PyDict.mem u d then 1%nat else 0%nat.
Proof.
  unfold PyDict.keys, PyDict.mem.
  induction d as [|[k v] d IH]; intros Hnd; [reflexivity|].
  cbn [fmap list_fmap] in Hnd. apply NoDup_cons in Hnd as [Hk Hnd].
  rewrite filter_cons. cbn [PyDict.get fst].
  destruct (decide (k = u)) as [->|Hne].
  - rewrite decide_True by reflexivity. cbn [length]. f_equal.
    destruct (filter _ d) as [|[k' v'] r] eqn:E; [reflexivity|].
    exfalso. apply Hk.
    assert (Hin : (k', v') ∈ filter (fun e : Z * V => e.1 = u) d)
      by (rewrite E; left).
    apply list_elem_of_filter in Hin as [Hu Hin]. simpl in Hu. subst.
    apply (list_elem_of_fmap_2 fst) in Hin. exact Hin.
  - rewrite decide_False by congruence. now apply IH.
Qed.

Section Handshake.
Variable G0 : nx.Graph.
Hypothesis Hwf : wf_graph G0.

Lemma handshake_suffix : forall suf pre seen,
  G0 = pre ++ suf ->
  (forall x, x ∈ seen <-> x ∈ PyDict.keys pre) ->
  (sum_list_with
     (fun '(u, d) => length d + (if PyDict.mem u d then 1 else 0)) suf
   = 2 * length (nx.edges_from seen suf)
     + sum_list_with
         (fun '(u, d) => length (filter (fun e : Z * Q => e.1 ∈ seen) d)) suf)%nat.
Proof.
  induction suf as [|[u d] suf IH]; intros pre seen HG Hseen; [reflexivity|].
  assert (Hnodes : NoDup (PyDict.keys pre ++ u :: PyDict.keys suf)).
  { pose proof (wf_nodes G0 Hwf) as H. unfold nx.nodes in H. rewrite HG in H.
    unfold PyDict.keys in *. rewrite fmap_app in H. exact H. }
  apply NoDup_app in Hnodes as (Hpre & Hdisj & Hsuf).
  apply NoDup_cons in Hsuf as [Hu_suf Hsuf].
  assert (Hu_pre : u ∉ seen).
  { intros H. apply Hseen in H. apply (Hdisj u H). left. }
  assert (Hin0 : forall x dx, (x, dx) ∈ (u, d) :: suf -> (x, dx) ∈ G0).
  { intros x dx H. rewrite HG. apply elem_of_app. now right. }
  assert (Hadj : forall x dx, (x, dx) ∈ (u, d) :: suf -> nx.adj G0 x = dx).
  { intros x dx H. apply wf_adj_entry; auto. }
  assert (Hd : NoDup (PyDict.keys d)).
  { rewrite <- (Hadj u d) by left. apply (wf_neighbors G0 Hwf). }
  (* every neighbour is in exactly one of the three parts *)
  assert (Hpart : forall e : Z * Q, e ∈ d ->
            e.1 ∈ seen \/ e.1 = u \/ e.1 ∈ PyDict.keys suf).
  { intros [v w] Hvw. simpl.
    assert (Hv : v ∈ nx.nodes G0).
    { refine (proj2 (wf_edge_nodes G0 u v Hwf _)). unfold nx.neighbors.
      rewrite (Hadj u d) by left.
      apply (list_elem_of_fmap_2 fst) in Hvw. exact Hvw. }
    unfold nx.nodes in Hv. rewrite HG in Hv. unfold PyDict.keys in *.
    rewrite fmap_app in Hv. apply elem_of_app in Hv as [Hv|Hv].
    - left. now apply Hseen.
    - apply elem_of_cons in Hv as [->|Hv]; auto. }
  assert (Hsuf_seen : forall x, x ∈ PyDict.keys suf -> x ∉ seen /\ x <> u).
  { intros x Hx. split.
    - intros H. apply Hseen in H. apply (Hdisj x H). now right.
    - intros ->. contradiction. }
  (* the entries of [d] outside [seen] *)
  assert (HB : (length (filter (fun e : Z * Q => ~ e.1 ∈ seen) d)
                = (if PyDict.mem u d then 1 else 0)
                  + length (filter (fun e : Z * Q => e.1 ∈ PyDict.keys suf) d))%nat).
  { rewrite <- (length_filter_key u d Hd).
    rewrite <- (length_filter_or (fun e : Z * Q => e.1 = u)
                  (fun e : Z * Q => e.1 ∈ PyDict.keys suf)).
    - f_equal. apply filter_iff_in. intros e He.
      destruct (Hpart e He) as [H|[H|H]].
      + split; [contradiction|]. intros [H'|H'].
        * rewrite H' in H. contradiction.
        * now apply Hsuf_seen in H'.
      + split; [auto|]. intros _. now rewrite H.
      + split; [auto|]. intros _. now apply Hsuf_seen.
    - intros e He H1 H2. rewrite H1 in H2. contradiction. }
  (* the entries of the later nodes that lead to [u] *)
  assert (HC : (sum_list_with
                  (fun '(x, dx) =>
                     length (filter (fun e : Z * Q => e.1 ∈ u :: seen) dx)) suf
                = sum_list_with
                    (fun '(x, dx) =>
                       length (filter (fun e : Z * Q => e.1 ∈ seen) dx)) suf
                  + length (filter (fun e : Z * Q => e.1 ∈ PyDict.keys suf) d))%nat).
  { assert (Hper : forall x dx, (x, dx) ∈ suf ->
              (length (filter (fun e : Z * Q => e.1 ∈ u :: seen) dx)
               = length (filter (fun e : Z * Q => e.1 ∈ seen) dx)
                 + (if PyDict.mem u dx then 1 else 0))%nat).
    { intros x dx Hx.
      assert (Hdx : NoDup (PyDict.keys dx)).
      { rewrite <- (Hadj x dx) by now right. apply (wf_neighbors G0 Hwf). }
      rewrite <- (length_filter_key u dx Hdx).
      rewrite <- (length_filter_or (fun e : Z * Q => e.1 ∈ seen)
                    (fun e : Z * Q => e.1 = u)).
      - f_equal. apply filter_iff_in. intros e _.
        rewrite elem_of_cons. tauto.
      - intros e _ H1 H2. rewrite H2 in H1. contradiction. }
    assert (Hcount :
      (sum_list_with (fun '(x, dx) => if PyDict.mem u dx then 1 else 0) suf
       = length (filter (fun e : Z * Q => e.1 ∈ PyDict.keys suf) d))%nat).
    { transitivity
        (length (filter (fun p : Z * list (Z * Q) => u ∈ PyDict.keys p.2) suf)).
      - clear. induction suf as [|[x dx] suf IHs]; [reflexivity|].
        cbn [sum_list_with]. rewrite filter_cons. cbn [snd].
        destruct (PyDict.mem u dx) eqn:E.
        + apply mem_true in E. rewrite decide_True by assumption.
          simpl. now rewrite IHs.
        + apply mem_false in E. rewrite decide_False by assumption.
          simpl. now rewrite IHs.
      - rewrite <- (length_fmap fst (filter _ suf)).
        rewrite <- (length_fmap fst (filter _ d)).
        apply Permutation_length, NoDup_Permutation.
        + apply (NoDup_keys_filter
                   (fun p : Z * list (Z * Q) => u ∈ PyDict.keys p.2) suf Hsuf).
        + apply (NoDup_keys_filter
                   (fun e : Z * Q => e.1 ∈ PyDict.keys suf) d Hd).
        + intros x. rewrite !list_elem_of_fmap. split.
          * intros ([x' dx] & -> & Hin).
            apply list_elem_of_filter in Hin as [Hu Hin]. cbn [fst snd] in *.
            assert (Hxu : x' ∈ nx.neighbors G0 u).
            { apply wf_neighbors_sym; [assumption|]. unfold nx.neighbors.
              rewrite (Hadj x' dx) by now right. exact Hu. }
            unfold nx.neighbors in Hxu. rewrite (Hadj u d) in Hxu by left.
            apply list_elem_of_fmap in Hxu as ([v w] & -> & Hvw).
            exists (v, w). split; [reflexivity|].
            apply list_elem_of_filter. split; [|assumption]. cbn [fst].
            apply (list_elem_of_fmap_2 fst) in Hin. exact Hin.
          * intros ([v w] & -> & Hin).
            apply list_elem_of_filter in Hin as [Hv Hin]. cbn [fst] in *.
            apply list_elem_of_fmap in Hv as ([x' dx] & E & Hx).
            cbn [fst] in E. subst x'.
            exists (v, dx). split; [reflexivity|].
            apply list_elem_of_filter. split; [|assumption]. cbn [snd].
            assert (Huv : u ∈ nx.neighbors G0 v).
            { apply wf_neighbors_sym; [assumption|]. unfold nx.neighbors.
              rewrite (Hadj u d) by left.
              apply (list_elem_of_fmap_2 fst) in Hin. exact Hin. }
            unfold nx.neighbors in Huv.
            rewrite (Hadj v dx) in Huv by now right. exact Huv. }
    rewrite <- Hcount. clear -Hper.
    induction suf as [|[x dx] suf IHs]; [reflexivity|].
    cbn [sum_list_with]. rewrite (Hper x dx) by left.
    rewrite IHs; [lia|]. intros y dy Hy. apply (Hper y dy). now right. }
  cbn [sum_list_with nx.edges_from].
  rewrite (IH (pre ++ [(u, d)]) (u :: seen)).
  - rewrite HC, length_app, length_map.
    pose proof (length_filter_not (fun e : Z * Q => e.1 ∈ seen) d) as HA.
    assert (HE : length (filter (fun '(v, _) => negb (bool_decide (v ∈ seen))) d)
                 = length (filter (fun e : Z * Q => ~ e.1 ∈ seen) d)).
    { f_equal. apply filter_iff_in. intros [v w] _. cbn [fst].
      rewrite negb_True. now rewrite bool_decide_spec. }
    rewrite HE. lia.
  - rewrite HG, <- app_assoc. reflexivity.
  - intros x. unfold PyDict.keys. rewrite fmap_app, elem_of_app, elem_of_cons.
    cbn [fmap list_fmap fst]. rewrite list_elem_of_singleton, (Hseen x).
    unfold PyDict.keys. tauto.
Qed.

(** Every edge contributes two to the sum of the degrees; a self-loop
    is one edge and counts twice in the degree of its node. *)
Lemma handshake :
  foldr Z.add 0 (PyDict.values (nx.degree_view G0))
  = 2 * nx.number_of_edges G0.
Proof.
  pose proof (handshake_suffix G0 [] [] eq_refl (fun x => iff_refl _)) as H.
  assert (Hz : sum_list_with
                 (fun '(u, d) =>
                    length (filter (fun e : Z * Q => e.1 ∈ []) d)) G0 = 0%nat).
  { clear. induction G0 as [|[u d] G IH]; [reflexivity|].
    cbn [sum_list_with]. rewrite IH.
    assert (E : filter (fun e : Z * Q => e.1 ∈ []) d = []).
    { clear. induction d as [|e d IHd]; [reflexivity|].
      rewrite filter_cons, decide_False; [assumption|]. apply not_elem_of_nil. }
    now rewrite E. }
  rewrite Hz in H.
  unfold nx.number_of_edges, nx.edges. rewrite length_map.
  unfold nx.edges_data.
  assert (Hs : foldr Z.add 0 (PyDict.values (nx.degree_view G0))
               = Z.of_nat
                   (sum_list_with
                      (fun '(u, d) =>
                         (length d + (if PyDict.mem u d then 1 else 0))%nat) G0)).
  { unfold nx.degree_view, nx.nodes, PyDict.values, PyDict.keys.
    assert (Hgen : forall G : nx.Graph,
              (forall u d, (u, d) ∈ G -> nx.adj G0 u = d) ->
              foldr Z.add 0
                (snd <$> map (fun n => (n, nx.degree G0 n)) (fst <$> G))
              = Z.of_nat
                  (sum_list_with
                     (fun '(u, d) =>
                        (length d + (if PyDict.mem u d then 1 else 0))%nat) G)).
    { induction G as [|[u d] G IH]; intros Hall; [reflexivity|].
      cbn [fmap list_fmap map foldr sum_list_with fst snd].
      cbn [fmap list_fmap] in IH.
      rewrite IH by (intros; apply Hall; now right).
      unfold nx.degree at 1. unfold nx.has_edge.
      rewrite (Hall u d) by left. destruct (PyDict.mem u d); lia. }
    apply Hgen. intros. now apply wf_adj_entry. }
  rewrite Hs. lia.
Qed.

End Handshake.

(** ** The exploratory statistics *)

Lemma py_sum_inject_Z (l : list Z) : forall a : Q,
  (fold_left Qplus (map inject_Z l) a == a + inject_Z (foldr Z.add 0%Z l))%Q.
Proof.
  induction l as [|x l IH]; intros a; cbn [map fold_left foldr].
  - change (inject_Z 0) with 0%Q. ring.
  - rewrite IH, inject_Z_plus. ring.
Qed.

(** [nx.is_connected] on a graph with a node: every node is joined to
    the first one. *)
Lemma is_connected_spec G v vs :
  wf_graph G -> nx.nodes G = v :: vs ->
  exists b, nx.is_connected G = Ok b
    /\ (b = true <-> forall x, x ∈ nx.nodes G -> connected G v x).
Proof.
  intros Hwf Hn. unfold nx.is_connected. rewrite Hn.
  destruct (plain_bfs_spec G v Hwf) as (c & Hc & Hcomp).
  { rewrite Hn. left. }
  rewrite Hc. cbn [mbind result_bind]. eexists. split; [reflexivity|].
  assert (Hsub : c ⊆ list_to_set (nx.nodes G)).
  { intros x Hx. apply elem_of_list_to_set. apply Hcomp in Hx.
    eapply connected_node; eauto. rewrite Hn. left. }
  assert (Hsize : size (list_to_set (nx.nodes G) : gset Z)
                  = length (nx.nodes G)).
  { apply size_list_to_set, Hwf. }
  rewrite bool_decide_eq_true. unfold nx.number_of_nodes. split.
  - intros Hs x Hx. apply Hcomp.
    assert (E : c = list_to_set (nx.nodes G)).
    { apply set_subseteq_size_eq; [assumption|]. rewrite Hsize.
      unfold nx.nodes, PyDict.keys. rewrite length_fmap.
      apply Nat2Z.inj in Hs. rewrite Hs. constructor. }
    rewrite E. apply elem_of_list_to_set. now rewrite Hn.
  - intros Hall.
    assert (E : c = list_to_set (nx.nodes G)).
    { apply set_eq. intros x. rewrite elem_of_list_to_set. split.
      - intros Hx. apply Hsub in Hx. now apply elem_of_list_to_set in Hx.
      - intros Hx. apply Hcomp. apply Hall. now rewrite <- Hn. }
    rewrite E, Hsize. unfold nx.nodes, PyDict.keys. now rewrite length_fmap.
Qed.

Lemma connected_components_nonempty G v cs :
  wf_graph G -> v ∈ nx.nodes G -> nx.connected_components G = Ok cs ->
  cs <> [].
Proof.
  intros Hwf Hv Hcs.
  destruct (connected_components_spec G Hwf) as (cs' & Hcs' & _ & Hin).
  rewrite Hcs in Hcs'. injection Hcs' as <-.
  destruct (plain_bfs_spec G v Hwf Hv) as (c & _ & Hc).
  assert (Hc' : c ∈ cs) by (apply Hin; eauto).
  intros ->. inversion Hc'.
Qed.

Lemma estatisticas_Ok G v vs :
  wf_graph G -> nx.nodes G = v :: vs ->
  exists b,
    nx.is_connected G = Ok b
    /\ Exploratoria.calcular_estatisticas_basicas G
       = Ok {| Exploratoria.num_nos := nx.number_of_nodes G;
               Exploratoria.num_arestas := nx.number_of_edges G;
               Exploratoria.grau_medio :=
                 np_mean (map inject_Z (PyDict.values (nx.degree_view G)));
               Exploratoria.densidade := density G;
               Exploratoria.is_conectado := b;
               Exploratoria.graus := nx.degree_view G |}.
Proof.
  intros Hwf Hn. destruct (is_connected_spec G v vs Hwf Hn) as (b & Hb & _).
  exists b. split; [assumption|].
  unfold Exploratoria.calcular_estatisticas_basicas.
  unfold nx.degree_view at 1. rewrite Hn. cbn [map PyDict.values fmap list_fmap].
  rewrite Hb. cbn [mbind result_bind].
  assert (Hv : v ∈ nx.nodes G) by (rewrite Hn; left).
  destruct b; cbn [mbind result_bind].
  - unfold nx.degree_view. rewrite Hn. reflexivity.
  - destruct (number_connected_components_spec G Hwf) as (cs0 & Hk & _).
    rewrite Hk. cbn [mbind result_bind].
    destruct (connected_components_spec G Hwf) as (cs & Hcs & _).
    rewrite Hcs. cbn [mbind result_bind].
    pose proof (connected_components_nonempty G v cs Hwf Hv Hcs) as Hne.
    destruct cs as [|c cs]; [contradiction|]. cbn [mbind result_bind].
    unfold nx.degree_view. rewrite Hn. reflexivity.
Qed.

(** The statistics are returned for every graph with a node; on the
    graph without nodes, which an empty edge list gives, [min] of the
    empty degree list raises [ValueError]. *)
Theorem estatisticas_retorna G :
  wf_graph G ->
  (nx.nodes G <> [] ->
   exists e, Exploratoria.calcular_estatisticas_basicas G = Ok e)
  /\ (nx.nodes G = [] ->
      Exploratoria.calcular_estatisticas_basicas G = Raise ValueError).
Proof.
  intros Hwf. split.
  - intros Hne. destruct (nx.nodes G) as [|v vs] eqn:Hn; [contradiction|].
    destruct (estatisticas_Ok G v vs Hwf Hn) as (b & _ & ->). eauto.
  - intros Hn. unfold Exploratoria.calcular_estatisticas_basicas.
    unfold nx.degree_view. now rewrite Hn.
Qed.

Lemma wf_triangle : wf_graph Ex.triangle.
Proof. repeat apply wf_add_edge. apply wf_empty. Qed.

Lemma estatisticas_retorna_witness :
  (nx.nodes Ex.triangle <> [] ->
   exists e, Exploratoria.calcular_estatisticas_basicas Ex.triangle = Ok e)
  /\ (nx.nodes Ex.triangle = [] ->
      Exploratoria.calcular_estatisticas_basicas Ex.triangle
      = Raise ValueError).
Proof.
  apply (estatisticas_retorna Ex.triangle).
  repeat apply wf_add_edge. apply wf_empty.
Defined.

(** The mean degree that the statistics report is twice the number of
    edges over the number of nodes. *)
Theorem estatisticas_grau_medio G e :
  wf_graph G ->
  Exploratoria.calcular_estatisticas_basicas G = Ok e ->
  (Exploratoria.grau_medio e * inject_Z (Exploratoria.num_nos e)
   == 2 * inject_Z (Exploratoria.num_arestas e))%Q.
Proof.
  intros Hwf He. destruct (nx.nodes G) as [|v vs] eqn:Hn.
  { unfold Exploratoria.calcular_estatisticas_basicas, nx.degree_view in He.
    rewrite Hn in He. discriminate. }
  destruct (estatisticas_Ok G v vs Hwf Hn) as (b & _ & He').
  rewrite He' in He. injection He as <-.
  cbn [Exploratoria.grau_medio Exploratoria.num_nos Exploratoria.num_arestas].
  unfold np_mean, py_sum. rewrite py_sum_inject_Z, (handshake G Hwf).
  rewrite length_map. unfold PyDict.values. rewrite length_fmap.
  unfold nx.degree_view. rewrite length_map.
  unfold nx.number_of_nodes, nx.nodes, PyDict.keys. rewrite length_fmap.
  assert (Hpos : ~ (inject_Z (Z.of_nat (length G)) == 0)%Q).
  { change 0%Q with (inject_Z 0). rewrite inject_Z_injective.
    unfold nx.nodes, PyDict.keys in Hn. destruct G; [discriminate|].
    simpl. lia. }
  rewrite inject_Z_mult. change (inject_Z 2) with 2%Q. field. exact Hpos.
Qed.

Lemma estatisticas_grau_medio_witness :
  exists e,
    Exploratoria.calcular_estatisticas_basicas Ex.triangle = Ok e
    /\ (Exploratoria.grau_medio e * inject_Z (Exploratoria.num_nos e)
        == 2 * inject_Z (Exploratoria.num_arestas e))%Q.
Proof.
  eexists. split; [vm_compute; reflexivity|].
  apply (estatisticas_grau_medio Ex.triangle).
  - repeat apply wf_add_edge. apply wf_empty.
  - vm_compute. reflexivity.
Defined.

Lemma sum_degree_bound G :
  wf_graph G -> loop_free G ->
  0 <= foldr Z.add 0 (PyDict.values (nx.degree_view G))
    <= nx.number_of_nodes G * (nx.number_of_nodes G - 1).
Proof.
  intros Hwf Hlf. unfold nx.degree_view, PyDict.values.
  assert (Hb : forall n, n ∈ nx.nodes G ->
            0 <= nx.degree G n <= nx.number_of_nodes G - 1)
    by (intros; now apply degree_bound).
  assert (Hlen : nx.number_of_nodes G = Z.of_nat (length (nx.nodes G))).
  { unfold nx.number_of_nodes, nx.nodes, PyDict.keys. now rewrite length_fmap. }
  assert (Hgen : forall (k : Z) (ns : list Z),
            (forall n, n ∈ ns -> 0 <= nx.degree G n <= k) ->
            0 <= foldr Z.add 0 (snd <$> map (fun n => (n, nx.degree G n)) ns)
              <= Z.of_nat (length ns) * k).
  { intros k ns. induction ns as [|n ns IH]; intros Hk.
    - simpl. lia.
    - cbn [map fmap list_fmap foldr snd length].
      assert (H1 := Hk n ltac:(left)).
      assert (H2 : 0 <= foldr Z.add 0
                          (snd <$> map (fun n => (n, nx.degree G n)) ns)
                   <= Z.of_nat (length ns) * k).
      { apply IH. intros m Hm. apply Hk. now right. }
      cbn [fmap list_fmap] in H2. rewrite Nat2Z.inj_succ. nia. }
  rewrite Hlen at 1. now apply Hgen.
Qed.

(** Without self-loops the density that the statistics report lies
    between 0 and 1. *)
Theorem estatisticas_densidade G e :
  wf_graph G -> loop_free G ->
  Exploratoria.calcular_estatisticas_basicas G = Ok e ->
  (0 <= Exploratoria.densidade e)%Q /\ (Exploratoria.densidade e <= 1)%Q.
Proof.
  intros Hwf Hlf He. destruct (nx.nodes G) as [|v vs] eqn:Hn.
  { unfold Exploratoria.calcular_estatisticas_basicas, nx.degree_view in He.
    rewrite Hn in He. discriminate. }
  destruct (estatisticas_Ok G v vs Hwf Hn) as (b & _ & He').
  rewrite He' in He. injection He as <-. cbn [Exploratoria.densidade].
  unfold density. case_bool_decide as Hc; [split; discriminate|].
  pose proof (sum_degree_bound G Hwf Hlf) as Hs.
  rewrite (handshake G Hwf) in Hs.
  set (n := nx.number_of_nodes G) in *. set (m := nx.number_of_edges G) in *.
  assert (Hn1 : 1 < n) by lia.
  assert (Hk : 0 < n * (n - 1)) by nia.
  destruct (Qdiv_unit_interval (2 * m) (n * (n - 1))) as [H0 H1]; [lia|lia|].
  assert (E : (inject_Z m / inject_Z (n * (n - 1)) * 2
               == inject_Z (2 * m) / inject_Z (n * (n - 1)))%Q).
  { rewrite (inject_Z_mult 2 m). change (inject_Z 2) with 2%Q. field.
    change 0%Q with (inject_Z 0). rewrite inject_Z_injective. lia. }
  rewrite E. split; assumption.
Qed.

Lemma estatisticas_densidade_witness :
  exists e,
    Exploratoria.calcular_estatisticas_basicas Ex.triangle = Ok e
    /\ (0 <= Exploratoria.densidade e)%Q /\ (Exploratoria.densidade e <= 1)%Q.
Proof.
  eexists. split; [vm_compute; reflexivity|].
  apply (estatisticas_densidade Ex.triangle).
  - repeat apply wf_add_edge. apply wf_empty.
  - repeat apply loop_free_add_edge; try apply loop_free_empty; lia.
  - vm_compute. reflexivity.
Defined.

(** [is_conectado] is true exactly when every two nodes of the graph are
    joined by a path. *)
Theorem estatisticas_is_conectado G e :
  wf_graph G ->
  Exploratoria.calcular_estatisticas_basicas G = Ok e ->
  Exploratoria.is_conectado e = true
  <-> forall x y, x ∈ nx.nodes G -> y ∈ nx.nodes G -> connected G x y.
Proof.
  intros Hwf He. destruct (nx.nodes G) as [|v vs] eqn:Hn.
  { unfold Exploratoria.calcular_estatisticas_basicas, nx.degree_view in He.
    rewrite Hn in He. discriminate. }
  destruct (is_connected_spec G v vs Hwf Hn) as (b & Hb & Hspec).
  destruct (estatisticas_Ok G v vs Hwf Hn) as (b' & Hb' & He').
  rewrite Hb in Hb'. injection Hb' as <-.
  rewrite He' in He. injection He as <-. cbn [Exploratoria.is_conectado].
  rewrite Hspec, Hn. split.
  - intros Hall x y Hx Hy. etransitivity; [|now apply Hall].
    apply connected_sym; auto.
  - intros Hall x Hx. apply Hall; [left|assumption].
Qed.

Lemma estatisticas_is_conectado_witness :
  exists e,
    Exploratoria.calcular_estatisticas_basicas Ex.two_edges = Ok e
    /\ (Exploratoria.is_conectado e = true
        <-> forall x y, x ∈ nx.nodes Ex.two_edges ->
              y ∈ nx.nodes Ex.two_edges -> connected Ex.two_edges x y).
Proof.
  eexists. split; [vm_compute; reflexivity|].
  apply (estatisticas_is_conectado Ex.two_edges).
  - repeat apply wf_add_edge. apply wf_empty.
  - vm_compute. reflexivity.
Defined.

(** ** Rankings *)

Section Sorting.
Context {A : Type} (key : A -> Q).

Lemma insert_desc_perm x xs : insert_desc key x xs ≡ₚ x :: xs.
Proof.
  induction xs as [|y ys IH]; simpl; [reflexivity|].
  destruct (Qlt_le_dec (key y) (key x)); [reflexivity|].
  rewrite IH. apply Permutation_swap.
Qed.

Lemma sorted_desc_perm_acc xs : forall acc,
  fold_left (fun acc x => insert_desc key x acc) xs acc ≡ₚ xs ++ acc.
Proof.
  induction xs as [|x xs IH]; intros acc; simpl; [reflexivity|].
  rewrite IH, insert_desc_perm. symmetry. apply Permutation_middle.
Qed.

Lemma sorted_desc_perm xs : sorted_desc key xs ≡ₚ xs.
Proof.
  unfold sorted_desc. rewrite sorted_desc_perm_acc. now rewrite app_nil_r.
Qed.

Lemma insert_desc_sorted x xs :
  StronglySorted (fun a b => (key b <= key a)%Q) xs ->
  StronglySorted (fun a b => (key b <= key a)%Q) (insert_desc key x xs).
Proof.
  induction 1 as [|y ys Hs IH Hall]; simpl.
  - repeat constructor.
  - destruct (Qlt_le_dec (key y) (key x)) as [Hlt|Hle].
    + constructor; [now constructor|]. constructor; [lra|].
      eapply Forall_impl; [exact Hall|]. intros z Hz. simpl in Hz. lra.
    + constructor; [assumption|].
      rewrite insert_desc_perm. constructor; assumption.
Qed.

Lemma sorted_desc_sorted xs :
  StronglySorted (fun a b => (key b <= key a)%Q) (sorted_desc key xs).
Proof.
  unfold sorted_desc.
  assert (H : forall acc,
            StronglySorted (fun a b => (key b <= key a)%Q) acc ->
            StronglySorted (fun a b => (key b <= key a)%Q)
              (fold_left (fun acc x => insert_desc key x acc) xs acc)).
  { induction xs as [|x xs IH]; intros acc Hacc; simpl; [assumption|].
    apply IH. now apply insert_desc_sorted. }
  apply H. constructor.
Qed.

Lemma StronglySorted_lookup_le (R : A -> A -> Prop) l i j a b :
  StronglySorted R l -> (i < j)%nat ->
  l !! i = Some a -> l !! j = Some b -> R a b.
Proof.
  intros Hs. revert i j a b.
  induction Hs as [|x l Hs IH Hall]; intros i j a b Hij Hi Hj.
  - discriminate.
  - destruct j as [|j]; [lia|]. cbn in Hj. destruct i as [|i].
    + cbn in Hi. injection Hi as <-.
      rewrite Forall_forall in Hall. apply Hall.
      eapply list_elem_of_lookup_2; eauto.
    + cbn in Hi. apply (IH i j); [lia|assumption..].
Qed.

End Sorting.

Lemma ranking_length {K : Type} (top_n : nat) (d : list (K * Q)) :
  length (ranking top_n d) = Nat.min top_n (length d).
Proof.
  unfold ranking. rewrite length_take.
  now rewrite (Permutation_length (sorted_desc_perm snd d)).
Qed.

Lemma ranking_elem {K : Type} (top_n : nat) (d : list (K * Q)) a :
  a ∈ ranking top_n d -> a ∈ d.
Proof.
  unfold ranking. intros Ha. rewrite <- (sorted_desc_perm snd d).
  apply elem_of_take in Ha as (i & Hi & _).
  eapply list_elem_of_lookup_2; eauto.
Qed.

Lemma ranking_sorted {K : Type} (top_n : nat) (d : list (K * Q)) i j a b :
  (i < j)%nat -> ranking top_n d !! i = Some a ->
  ranking top_n d !! j = Some b -> (snd b <= snd a)%Q.
Proof.
  unfold ranking. intros Hij Hi Hj.
  apply lookup_take_Some in Hi as [Hi _].
  apply lookup_take_Some in Hj as [Hj _].
  apply (StronglySorted_lookup_le (fun a b => (snd b <= snd a)%Q)
           (sorted_desc snd d) i j a b); try assumption.
  apply sorted_desc_sorted.
Qed.

Lemma ranking_dominates {K : Type} (top_n : nat) (d : list (K * Q)) a b :
  a ∈ ranking top_n d -> b ∈ d -> b ∉ ranking top_n d ->
  (snd b <= snd a)%Q.
Proof.
  unfold ranking. intros Ha Hb Hnb.
  apply elem_of_take in Ha as (i & Hi & Hlt).
  rewrite <- (sorted_desc_perm snd d) in Hb.
  apply list_elem_of_lookup_1 in Hb as [j Hj].
  destruct (decide (j < top_n)%nat) as [Hjn|Hjn].
  - exfalso. apply Hnb. apply elem_of_take. eauto.
  - apply (StronglySorted_lookup_le (fun a b => (snd b <= snd a)%Q)
             (sorted_desc snd d) i j a b); try assumption; [|lia].
    apply sorted_desc_sorted.
Qed.

(** A ranking holds [top_n] entries of the mapping, or all of them when
    there are fewer; they are listed by non-increasing value, and no
    entry that was left out has a greater value than a listed one. *)
Theorem ranking_maiores {K : Type} (top_n : nat) (d : list (K * Q)) :
  let r := ranking top_n d in
  length r = Nat.min top_n (length d)
  /\ (forall a, a ∈ r -> a ∈ d)
  /\ (forall i j a b, (i < j)%nat -> r !! i = Some a -> r !! j = Some b ->
        (snd b <= snd a)%Q)
  /\ (forall a b, a ∈ r -> b ∈ d -> b ∉ r -> (snd b <= snd a)%Q).
Proof.
  cbv zeta. split; [apply ranking_length|].
  split; [apply ranking_elem|].
  split; [apply ranking_sorted | apply ranking_dominates].
Qed.

(** ** The four mappings of [calcular_centralidades] *)

Lemma mapM_keys {B : Type} (f : Z -> result (Z * B)) (l : list Z) r :
  (forall n b, f n = Ok b -> b.1 = n) ->
  mapM f l = Ok r -> PyDict.keys r = l.
Proof.
  intros Hf. revert r. induction l as [|n l IH]; intros r; cbn.
  - now intros [= <-].
  - destruct (f n) as [b| |] eqn:E; cbn; try discriminate.
    destruct (mapM f l) as [r'| |]; cbn; try discriminate.
    intros [= <-]. cbn. rewrite (Hf n b E). f_equal. now apply IH.
Qed.

Lemma closeness_centrality_keys G cc :
  nx.closeness_centrality G = Ok cc -> PyDict.keys cc = nx.nodes G.
Proof.
  apply mapM_keys. intros n b.
  destruct (nx.closeness_of G n) as [c| |]; cbn; try discriminate.
  now intros [= <-].
Qed.

Lemma accumulate_stack_basic_keys s stack st acc acc' :
  nx.accumulate_stack_basic s stack st acc = Ok acc' ->
  PyDict.keys (fst acc') = PyDict.keys (fst acc).
Proof.
  revert acc. induction stack as [|w stack IH]; intros acc; simpl.
  - now intros [= <-].
  - destruct (nx.lookup w acc.2) as [dw| |]; cbn; try discriminate.
    destruct (nx.lookup w (nx.sp_sigma st)) as [sw| |]; cbn; try discriminate.
    destruct (py_div _ sw) as [coeff| |]; cbn; try discriminate.
    destruct (nx.lookup w (nx.sp_P st)) as [pw| |]; cbn; try discriminate.
    destruct (nx.accumulate_preds_basic _ _ _ _) as [dl| |]; cbn;
      try discriminate.
    destruct (decide (w = s)) as [->|Hne]; cbn.
    + intros Hr. apply IH in Hr. exact Hr.
    + destruct (nx.lookup w dl) as [dw'| |]; cbn; try discriminate.
      destruct (nx.add_at w dw' acc.1) as [b| |] eqn:Eb; cbn;
        try discriminate.
      intros Hr. apply IH in Hr. cbn in Hr. rewrite Hr.
      eapply add_at_keys; eauto.
Qed.

Lemma accumulate_sources_basic_keys G sources b b' :
  nx.accumulate_sources_basic G sources b = Ok b' ->
  PyDict.keys b' = PyDict.keys b.
Proof.
  revert b. induction sources as [|s sources IH]; intros b; simpl.
  - now intros [= <-].
  - destruct (nx.single_source_dijkstra_path_basic G s) as [st| |]; cbn;
      try discriminate.
    destruct (nx.accumulate_stack_basic _ _ _ _) as [a1| |] eqn:E1; cbn;
      try discriminate.
    intros Hr. apply IH in Hr. rewrite Hr.
    apply accumulate_stack_basic_keys in E1. exact E1.
Qed.

Lemma keys_map_values {K : Type} (g : K -> Q -> Q) (d : list (K * Q)) :
  PyDict.keys (map (fun '(k, b) => (k, g k b)) d) = PyDict.keys d.
Proof.
  unfold PyDict.keys. induction d as [|[k b] d IH]; [reflexivity|].
  cbn. f_equal. exact IH.
Qed.

Lemma betweenness_centrality_keys G bc :
  nx.betweenness_centrality G = Ok bc -> PyDict.keys bc = nx.nodes G.
Proof.
  unfold nx.betweenness_centrality. intros H.
  apply bind_Ok in H as (b & Hb & H).
  apply accumulate_sources_basic_keys in Hb.
  assert (Hk : PyDict.keys b = nx.nodes G).
  { rewrite Hb. unfold PyDict.keys.
    change (map (fun v => (v, 0%Q)) (nx.nodes G))
      with ((fun v : Z => (v, 0%Q)) <$> nx.nodes G).
    rewrite <- list_fmap_compose. apply list_fmap_id. }
  unfold nx.rescale in H. case_decide.
  - now injection H as <-.
  - apply bind_Ok in H as (scale & _ & H). injection H as <-.
    now rewrite (keys_map_values (fun _ b => (b * scale)%Q)).
Qed.

Lemma edge_betweenness_centrality_keys G normalized ebc :
  nx.edge_betweenness_centrality G normalized = Ok ebc ->
  PyDict.keys ebc = nx.edges G.
Proof.
  unfold nx.edge_betweenness_centrality. intros H.
  apply bind_Ok in H as (b & Hb & H).
  apply edge_accumulation_keys in Hb.
  unfold nx.rescale_e in H. destruct normalized.
  - case_decide.
    + now injection H as <-.
    + apply bind_Ok in H as (scale & _ & H). injection H as <-.
      now rewrite (keys_map_values (fun _ b => (b * scale)%Q)).
  - injection H as <-.
    now rewrite (keys_map_values (fun _ b => (b * (1 # 2))%Q)).
Qed.

Lemma calcular_degree_keys G dc :
  Centralidades.calcular_degree G = Ok dc -> PyDict.keys dc = nx.nodes G.
Proof.
  unfold Centralidades.calcular_degree. intros H.
  assert (Hk : PyDict.keys dc = PyDict.keys (nx.degree_view G)).
  { revert dc H. generalize (nx.degree_view G) as graus.
    induction graus as [|[no grau] graus IH]; intros dc; cbn.
    - now intros [= <-].
    - destruct (py_div _ _) as [c| |]; cbn; try discriminate.
      destruct (mapM _ graus) as [r| |] eqn:E; cbn; try discriminate.
      intros [= <-]. cbn. f_equal. now apply IH. }
  rewrite Hk. unfold nx.degree_view, PyDict.keys.
  change (map (fun n => (n, nx.degree G n)) (nx.nodes G))
    with ((fun n : Z => (n, nx.degree G n)) <$> nx.nodes G).
  rewrite <- list_fmap_compose. apply list_fmap_id.
Qed.

Lemma calcular_centralidades_inv self s :
  Centralidades.calcular_centralidades self = Ok s ->
  Centralidades.grafo s = Centralidades.grafo self
  /\ Centralidades.calcular_degree (Centralidades.grafo self)
     = Ok (Centralidades.degree_centrality s)
  /\ nx.betweenness_centrality (Centralidades.grafo self)
     = Ok (Centralidades.betweenness_centrality s)
  /\ nx.closeness_centrality (Centralidades.grafo self)
     = Ok (Centralidades.closeness_centrality s)
  /\ nx.edge_betweenness_centrality (Centralidades.grafo self) true
     = Ok (Centralidades.edge_betweenness_centrality s).
Proof.
  unfold Centralidades.calcular_centralidades.
  destruct (Centralidades.calcular_degree _) as [dc| |]; cbn; try discriminate.
  destruct (nx.betweenness_centrality _) as [bc| |]; cbn; try discriminate.
  destruct (nx.closeness_centrality _) as [cc| |]; cbn; try discriminate.
  destruct (nx.edge_betweenness_centrality _ _) as [ebc| |]; cbn; try discriminate.
  intros [= <-]. cbn. auto.
Qed.

(** After [calcular_centralidades] the three node mappings have one
    entry per node of the graph, in the order of the nodes, and the edge
    mapping has one entry per edge, in the order of [G.edges()]. *)
Theorem centralidades_chaves self s :
  Centralidades.calcular_centralidades self = Ok s ->
  let G := Centralidades.grafo self in
  PyDict.keys (Centralidades.degree_centrality s) = nx.nodes G
  /\ PyDict.keys (Centralidades.betweenness_centrality s) = nx.nodes G
  /\ PyDict.keys (Centralidades.closeness_centrality s) = nx.nodes G
  /\ PyDict.keys (Centralidades.edge_betweenness_centrality s) = nx.edges G.
Proof.
  intros H. apply calcular_centralidades_inv in H as (_ & H1 & H2 & H3 & H4).
  cbv zeta. split; [now apply calcular_degree_keys|].
  split; [now apply betweenness_centrality_keys|].
  split; [now apply closeness_centrality_keys|].
  eapply edge_betweenness_centrality_keys; eauto.
Qed.

Lemma centralidades_chaves_witness :
  let G := Centralidades.grafo triangle_loaded in
  PyDict.keys (Centralidades.degree_centrality triangle_computed) = nx.nodes G
  /\ PyDict.keys (Centralidades.betweenness_centrality triangle_computed)
     = nx.nodes G
  /\ PyDict.keys (Centralidades.closeness_centrality triangle_computed)
     = nx.nodes G
  /\ PyDict.keys (Centralidades.edge_betweenness_centrality triangle_computed)
     = nx.edges G.
Proof.
  apply (centralidades_chaves triangle_loaded triangle_computed).
  vm_compute. reflexivity.
Defined.

(** ** [criar_rankings] after [calcular_centralidades] *)

Lemma get_map_fn {V : Type} (f : Z -> V) (l : list Z) n :
  n ∈ l -> PyDict.get n (map (fun n => (n, f n)) l) = Some (f n).
Proof.
  induction l as [|x l IH]; intros Hn; [inversion Hn|].
  simpl. destruct (decide (n = x)) as [->|Hne]; [reflexivity|].
  apply elem_of_cons in Hn as [?|Hn]; [contradiction | auto].
Qed.

Lemma lookup_degree_view G n :
  n ∈ nx.nodes G -> nx.lookup n (nx.degree_view G) = Ok (nx.degree G n).
Proof.
  intros Hn. unfold nx.lookup, nx.degree_view.
  now rewrite (get_map_fn (fun n => nx.degree G n) _ _ Hn).
Qed.

(** Once the centralities are computed the rankings are produced
    without any [KeyError]: each has [top_n] rows, or one per node (per
    edge) when there are fewer, and the degree ranking shows beside
    every node the degree it has in the graph. *)
Theorem criar_rankings_retorna self s coordenadas distancias top_n :
  Centralidades.calcular_centralidades self = Ok s ->
  let G := Centralidades.grafo self in
  exists rk,
    criar_rankings s coordenadas distancias top_n = Ok rk
    /\ top_degree rk
       = map (fun '(no, c) => (no, nx.degree G no, c))
             (ranking top_n (Centralidades.degree_centrality s))
    /\ length (top_degree rk) = Nat.min top_n (length (nx.nodes G))
    /\ length (top_betweenness rk) = Nat.min top_n (length (nx.nodes G))
    /\ length (top_closeness rk) = Nat.min top_n (length (nx.nodes G))
    /\ length (top_edge_betweenness rk)
       = Nat.min top_n (length (nx.edges G)).
Proof.
  intros H. cbv zeta.
  pose proof (calcular_centralidades_inv self s H) as (HG & H1 & H2 & H3 & H4).
  apply calcular_degree_keys in H1. apply betweenness_centrality_keys in H2.
  apply closeness_centrality_keys in H3.
  apply edge_betweenness_centrality_keys in H4.
  assert (Hlen : forall {K V : Type} (d : list (K * V)),
            length d = length (PyDict.keys d)).
  { intros K V d. unfold PyDict.keys. now rewrite length_fmap. }
  unfold criar_rankings. rewrite HG.
  rewrite (mapM_Ok _
             (fun p : Z * Q =>
                (p.1, nx.degree (Centralidades.grafo self) p.1, p.2))).
  - cbn [mbind result_bind]. eexists. split; [reflexivity|].
    cbn [top_degree top_betweenness top_closeness top_edge_betweenness].
    split; [apply map_ext; now intros [no c]|].
    rewrite !length_map, !ranking_length.
    rewrite (Hlen _ _ (Centralidades.degree_centrality s)), H1.
    rewrite (Hlen _ _ (Centralidades.betweenness_centrality s)), H2.
    rewrite (Hlen _ _ (Centralidades.closeness_centrality s)), H3.
    rewrite (Hlen _ _ (Centralidades.edge_betweenness_centrality s)), H4.
    auto.
  - intros [no c] Hin. apply ranking_elem in Hin.
    apply (list_elem_of_fmap_2 fst) in Hin. cbn [fst snd] in *.
    change (fst <$> Centralidades.degree_centrality s)
      with (PyDict.keys (Centralidades.degree_centrality s)) in Hin.
    rewrite H1 in Hin. rewrite (lookup_degree_view _ _ Hin). reflexivity.
Qed.

Lemma criar_rankings_retorna_witness :
  let G := Centralidades.grafo triangle_loaded in
  exists rk,
    criar_rankings triangle_computed [] [] 2 = Ok rk
    /\ top_degree rk
       = map (fun '(no, c) => (no, nx.degree G no, c))
             (ranking 2 (Centralidades.degree_centrality triangle_computed))
    /\ length (top_degree rk) = Nat.min 2 (length (nx.nodes G))
    /\ length (top_betweenness rk) = Nat.min 2 (length (nx.nodes G))
    /\ length (top_closeness rk) = Nat.min 2 (length (nx.nodes G))
    /\ length (top_edge_betweenness rk)
       = Nat.min 2 (length (nx.edges G)).
Proof.
  apply (criar_rankings_retorna triangle_loaded triangle_computed [] [] 2).
  vm_compute. reflexivity.
Defined.

(** ** [exportar_metricas] *)

Lemma node_rows_map (f1 : Z -> Z) (f2 f3 f4 f5 f6 : Z -> Q) (l : list Z) :
  node_rows l (map f1 l) (map f2 l) (map f3 l) (map f4 l) (map f5 l)
    (map f6 l)
  = map (fun n => {| Node := n; Degree := f1 n; Degree_Centrality := f2 n;
                     Betweenness_Centrality := f3 n;
                     Closeness_Centrality := f4 n;
                     X_Coord := f5 n; Y_Coord := f6 n |}) l.
Proof. induction l as [|n l IH]; [reflexivity|]. cbn. now rewrite IH. Qed.

Lemma mapM_lookup_Ok {V : Type} (d : list (Z * V)) (l : list Z) (dflt : V) :
  (forall n, n ∈ l -> n ∈ PyDict.keys d) ->
  mapM (fun n => nx.lookup n d) l
  = Ok (map (fun n => PyDict.get_default n dflt d) l).
Proof.
  intros Hin. apply mapM_Ok. intros n Hn. apply Hin, mem_true in Hn.
  unfold nx.lookup, PyDict.get_default, PyDict.mem in *.
  destruct (PyDict.get n d); [reflexivity|discriminate].
Qed.

(** With the centralities computed and coordinates for every node, the
    export writes one node row per node, in node order, holding the
    node's degree, its three centralities and its coordinates, and one
    edge row per edge of [G.edges()]. *)
Theorem exportar_metricas_retorna self s coordenadas distancias :
  Centralidades.calcular_centralidades self = Ok s ->
  let G := Centralidades.grafo self in
  (forall n, n ∈ nx.nodes G -> n ∈ PyDict.keys coordenadas) ->
  exists nos arestas,
    exportar_metricas s coordenadas distancias = Ok (nos, arestas)
    /\ map Node nos = nx.nodes G
    /\ (forall r, r ∈ nos ->
          Degree r = nx.degree G (Node r)
          /\ PyDict.get (Node r) (Centralidades.degree_centrality s)
             = Some (Degree_Centrality r)
          /\ PyDict.get (Node r) (Centralidades.betweenness_centrality s)
             = Some (Betweenness_Centrality r)
          /\ PyDict.get (Node r) (Centralidades.closeness_centrality s)
             = Some (Closeness_Centrality r)
          /\ PyDict.get (Node r) coordenadas = Some (X_Coord r, Y_Coord r))
    /\ map (fun e => (Node1 e, Node2 e)) arestas = nx.edges G.
Proof.
  intros H. cbv zeta. intros Hcoord.
  pose proof (calcular_centralidades_inv self s H) as (HG & H1 & H2 & H3 & H4).
  apply calcular_degree_keys in H1. apply betweenness_centrality_keys in H2.
  apply closeness_centrality_keys in H3.
  apply edge_betweenness_centrality_keys in H4.
  set (G := Centralidades.grafo self) in *.
  unfold exportar_metricas. rewrite HG. fold G.
  rewrite (mapM_Ok _ (fun n => nx.degree G n))
    by (intros; now apply lookup_degree_view).
  cbn [mbind result_bind].
  rewrite (mapM_lookup_Ok (Centralidades.degree_centrality s) _ 0%Q)
    by (intros n Hn; now rewrite H1).
  cbn [mbind result_bind].
  rewrite (mapM_lookup_Ok (Centralidades.betweenness_centrality s) _ 0%Q)
    by (intros n Hn; now rewrite H2).
  cbn [mbind result_bind].
  rewrite (mapM_lookup_Ok (Centralidades.closeness_centrality s) _ 0%Q)
    by (intros n Hn; now rewrite H3).
  cbn [mbind result_bind].
  assert (Hc : forall n, n ∈ nx.nodes G ->
            nx.lookup n coordenadas
            = Ok (PyDict.get_default n (0%Q, 0%Q) coordenadas)).
  { intros n Hn. apply Hcoord, mem_true in Hn.
    unfold nx.lookup, PyDict.get_default, PyDict.mem in *.
    destruct (PyDict.get n coordenadas); [reflexivity|discriminate]. }
  rewrite (mapM_Ok (fun n => c ← nx.lookup n coordenadas; Ok (fst c))
             (fun n => (PyDict.get_default n (0%Q, 0%Q) coordenadas).1))
    by (intros n Hn; now rewrite (Hc n Hn)).
  cbn [mbind result_bind].
  rewrite (mapM_Ok (fun n => c ← nx.lookup n coordenadas; Ok (snd c))
             (fun n => (PyDict.get_default n (0%Q, 0%Q) coordenadas).2))
    by (intros n Hn; now rewrite (Hc n Hn)).
  cbn [mbind result_bind].
  rewrite node_rows_map. eexists _, _. split; [reflexivity|].
  split; [|split].
  - rewrite map_map. cbn [Node]. apply map_id.
  - intros r Hr. apply (list_elem_of_fmap _ (nx.nodes G)) in Hr as (n & -> & Hn).
    cbn [Node Degree Degree_Centrality Betweenness_Centrality
         Closeness_Centrality X_Coord Y_Coord].
    assert (Hget : forall {V : Type} (d : list (Z * V)) (dflt : V),
              n ∈ PyDict.keys d ->
              PyDict.get n d = Some (PyDict.get_default n dflt d)).
    { intros V d dflt Hd. apply mem_true in Hd.
      unfold PyDict.get_default, PyDict.mem in *.
      destruct (PyDict.get n d); [reflexivity|discriminate]. }
    split; [reflexivity|].
    split; [apply Hget; now rewrite H1|].
    split; [apply Hget; now rewrite H2|].
    split; [apply Hget; now rewrite H3|].
    rewrite (Hget _ coordenadas (0%Q, 0%Q)) by now apply Hcoord.
    now destruct (PyDict.get_default n _ coordenadas).
  - rewrite map_map, <- H4. unfold PyDict.keys.
    apply map_ext. now intros [[u v] c].
Qed.

Lemma exportar_metricas_retorna_witness :
  let G := Centralidades.grafo triangle_loaded in
  let coordenadas := [(1, (0%Q, 0%Q)); (2, (1%Q, 0%Q)); (3, (0%Q, 1%Q))] in
  (forall n, n ∈ nx.nodes G -> n ∈ PyDict.keys coordenadas)
  /\ exists nos arestas,
    exportar_metricas triangle_computed coordenadas [] = Ok (nos, arestas)
    /\ map Node nos = nx.nodes G
    /\ (forall r, r ∈ nos ->
          Degree r = nx.degree G (Node r)
          /\ PyDict.get (Node r)
               (Centralidades.degree_centrality triangle_computed)
             = Some (Degree_Centrality r)
          /\ PyDict.get (Node r)
               (Centralidades.betweenness_centrality triangle_computed)
             = Some (Betweenness_Centrality r)
          /\ PyDict.get (Node r)
               (Centralidades.closeness_centrality triangle_computed)
             = Some (Closeness_Centrality r)
          /\ PyDict.get (Node r) coordenadas = Some (X_Coord r, Y_Coord r))
    /\ map (fun e => (Node1 e, Node2 e)) arestas = nx.edges G.
Proof.
  cbv zeta.
  assert (Hc : forall n, n ∈ nx.nodes (Centralidades.grafo triangle_loaded) ->
            n ∈ PyDict.keys [(1, (0%Q, 0%Q)); (2, (1%Q, 0%Q)); (3, (0%Q, 1%Q))]).
  { intros n Hn. exact Hn. }
  split; [exact Hc|].
  apply (exportar_metricas_retorna triangle_loaded triangle_computed
           [(1, (0%Q, 0%Q)); (2, (1%Q, 0%Q)); (3, (0%Q, 1%Q))] []).
  - vm_compute. reflexivity.
  - exact Hc.
Defined.

Lemma mapM_raises {A B : Type} (f : A -> result B) (l : list A) e x :
  (forall y, y ∈ l -> f y = Raise e \/ exists b, f y = Ok b) ->
  x ∈ l -> f x = Raise e -> mapM f l = Raise e.
Proof.
  intros Hall. induction l as [|y l IH]; intros Hx Hfx; [inversion Hx|].
  cbn. destruct (Hall y ltac:(left)) as [Hy|[b Hy]]; rewrite Hy; cbn;
    [reflexivity|].
  apply elem_of_cons in Hx as [->|Hx]; [congruence|].
  rewrite IH; [reflexivity| |assumption..].
  intros z Hz. apply Hall. now right.
Qed.

Lemma mapM_lookup_cases {V : Type} (d : list (Z * V)) (l : list Z) :
  mapM (fun n => nx.lookup n d) l = Raise KeyError
  \/ exists r, mapM (fun n => nx.lookup n d) l = Ok r.
Proof.
  induction l as [|n l IH]; cbn; [right; eauto|].
  destruct (nx.lookup n d) as [v|e|] eqn:E; cbn.
  - destruct IH as [->|[r ->]]; cbn; eauto.
  - left. unfold nx.lookup in E. destruct (PyDict.get n d); congruence.
  - unfold nx.lookup in E. destruct (PyDict.get n d); discriminate.
Qed.

(** A node of the graph without coordinates makes the export fail with
    [KeyError], whatever the analyser holds: the graph has the nodes of
    [brasilia.net], the coordinates come from [brasilia_edge_info.txt]. *)
Theorem exportar_metricas_sem_coordenadas self coordenadas distancias n :
  n ∈ nx.nodes (Centralidades.grafo self) ->
  n ∉ PyDict.keys coordenadas ->
  exportar_metricas self coordenadas distancias = Raise KeyError.
Proof.
  intros Hn Hc. unfold exportar_metricas.
  destruct (mapM_lookup_cases
              (nx.degree_view (Centralidades.grafo self))
              (nx.nodes (Centralidades.grafo self))) as [->|[gs ->]];
    cbn [mbind result_bind]; [reflexivity|].
  destruct (mapM_lookup_cases (Centralidades.degree_centrality self)
              (nx.nodes (Centralidades.grafo self))) as [->|[dcs ->]];
    cbn [mbind result_bind]; [reflexivity|].
  destruct (mapM_lookup_cases (Centralidades.betweenness_centrality self)
              (nx.nodes (Centralidades.grafo self))) as [->|[bcs ->]];
    cbn [mbind result_bind]; [reflexivity|].
  destruct (mapM_lookup_cases (Centralidades.closeness_centrality self)
              (nx.nodes (Centralidades.grafo self))) as [->|[ccs ->]];
    cbn [mbind result_bind]; [reflexivity|].
  rewrite (mapM_raises (fun n => c ← nx.lookup n coordenadas; Ok (fst c))
             _ KeyError n); [reflexivity| |assumption|].
  - intros y _. unfold nx.lookup. destruct (PyDict.get y coordenadas); cbn;
      eauto.
  - apply get_None in Hc. unfold nx.lookup. now rewrite Hc.
Qed.

Lemma exportar_metricas_sem_coordenadas_witness :
  exportar_metricas triangle_computed [(1, (0%Q, 0%Q)); (2, (1%Q, 0%Q))] []
  = Raise KeyError.
Proof.
  apply (exportar_metricas_sem_coordenadas triangle_computed
           [(1, (0%Q, 0%Q)); (2, (1%Q, 0%Q))] [] 3).
  - apply list_elem_of_In. vm_compute. tauto.
  - intros H. apply list_elem_of_In in H. vm_compute in H. intuition lia.
Defined.

(** ** The impact simulation: every field of a result *)

Lemma simular_uma_campos self eb h u v h' r :
  Impacto.simular_uma self eb h (u, v) = Ok (h', r) ->
  exists G Gmod,
    Impacto.deref h (Impacto.grafo self) = Ok G
    /\ nx.remove_edge u v (nx.copy G) = Ok Gmod
    /\ h' = h ++ [Gmod]
    /\ Impacto.aresta r = (u, v)
    /\ Impacto.distancia r
       = PyDict.get_default (chave u v) 0%Q (Impacto.tabela_distancias self)
    /\ Impacto.edge_betweenness r = PyDict.get_default (u, v) 0%Q eb
    /\ nx.number_connected_components G = Ok (Impacto.componentes_antes r)
    /\ nx.is_connected G = Ok (Impacto.is_conexo_antes r)
    /\ nx.number_connected_components Gmod
       = Ok (Impacto.componentes_depois r)
    /\ nx.is_connected Gmod = Ok (Impacto.is_conexo_depois r)
    /\ (if decide (1 < Impacto.componentes_depois r)
        then exists cs,
               nx.connected_components Gmod = Ok cs
               /\ Impacto.tamanhos_componentes r
                  = rev (sorted_asc (map (fun c => Z.of_nat (size c)) cs))
               /\ Impacto.nos_isolados r
                  = match cs with
                    | [] => []
                    | c :: cs' => sorted_asc (elements (min_by_size c cs'))
                    end
        else Impacto.tamanhos_componentes r = []
             /\ Impacto.nos_isolados r = [])
    /\ Impacto.comparar_origens G Gmod (take 20 (nx.nodes G))
         (take 20 (nx.nodes G)) ([], 0)
       = Ok (Impacto.aumentos_distancia r, Impacto.pares_desconectados r).
Proof.
  unfold Impacto.simular_uma. intros H.
  apply bind_Ok in H as ([h1 modificado] & Hcopy & H).
  apply bind_Ok in H as (h2 & Hrem & H).
  unfold Impacto.copy_ref in Hcopy.
  apply bind_Ok in Hcopy as (G & HG & Hcopy). injection Hcopy as <- <-.
  unfold Impacto.remove_edge_ref in Hrem.
  apply bind_Ok in Hrem as (G1 & HG1 & Hrem).
  apply bind_Ok in Hrem as (Gmod & HGmod & Hrem). injection Hrem as <-.
  apply deref_Some in HG1.
  rewrite lookup_app_r in HG1 by lia. rewrite Nat.sub_diag in HG1.
  injection HG1 as <-.
  assert (Hh2 : <[length h := Gmod]> (h ++ [nx.copy G]) = h ++ [Gmod]).
  { rewrite insert_app_r_alt by lia. now rewrite Nat.sub_diag. }
  rewrite Hh2 in H.
  assert (HG' : Impacto.deref (h ++ [Gmod]) (Impacto.grafo self) = Ok G).
  { destruct (Impacto.grafo self) as [a|]; [|discriminate].
    apply deref_Some in HG. apply deref_Some.
    rewrite lookup_app_l; [assumption|]. now apply lookup_lt_Some in HG. }
  assert (HGm : Impacto.deref (h ++ [Gmod]) (Some (length h)) = Ok Gmod).
  { apply deref_Some. rewrite lookup_app_r by lia. now rewrite Nat.sub_diag. }
  rewrite HG', HGm in H. cbn [mbind result_bind] in H.
  apply bind_Ok in H as (ka & Hka & H).
  apply bind_Ok in H as (ca & Hca & H).
  apply bind_Ok in H as (kd & Hkd & H).
  apply bind_Ok in H as (cd & Hcd & H).
  apply bind_Ok in H as ([tam menor] & Htam & H).
  apply bind_Ok in H as ([aum sem] & Hcmp & H).
  injection H as <- <-. cbn.
  exists G, Gmod. repeat (split; [first [assumption | reflexivity]|]).
  split; [|assumption].
  destruct (decide (1 < kd)).
  - apply bind_Ok in Htam as (cs & Hcs & Htam). injection Htam as <- <-.
    exists cs. auto.
  - injection Htam as <- <-. auto.
Qed.

(** Every result of [simular_todas] comes from one run of [simular_uma]
    on a store that extends the first one. *)
Lemma simular_todas_cada self eb arestas : forall h h' rs r,
  Impacto.simular_todas self eb h arestas = Ok (h', rs) ->
  r ∈ rs ->
  exists hs a hi',
    a ∈ arestas /\ Impacto.simular_uma self eb (h ++ hs) a = Ok (hi', r).
Proof.
  induction arestas as [|a arestas IH]; intros h h' rs r; simpl.
  - intros [= <- <-] Hr. inversion Hr.
  - intros H Hr. apply bind_Ok in H as ([h1 r1] & H1 & H).
    apply bind_Ok in H as ([h2 rs'] & H2 & H). injection H as <- <-.
    apply elem_of_cons in Hr as [->|Hr].
    + exists [], a, h1. rewrite app_nil_r. split; [left|assumption].
    + destruct a as [u v]. pose proof H1 as H1'.
      apply simular_uma_inv in H1' as (G & Gmod & _ & _ & -> & _).
      destruct (IH _ _ _ _ H2 Hr) as (hs & a' & hi' & Ha' & Hsim).
      exists ([Gmod] ++ hs), a', hi'. split; [now right|].
      now rewrite app_assoc.
Qed.

Lemma simular_todas_arestas self eb arestas : forall h h' rs,
  Impacto.simular_todas self eb h arestas = Ok (h', rs) ->
  map Impacto.aresta rs = arestas.
Proof.
  induction arestas as [|a arestas IH]; intros h h' rs; simpl.
  - now intros [= <- <-].
  - intros H. apply bind_Ok in H as ([h1 r1] & H1 & H).
    apply bind_Ok in H as ([h2 rs'] & H2 & H). injection H as <- <-.
    destruct a as [u v].
    apply simular_uma_campos in H1 as (G & Gmod & _ & _ & _ & Ha & _).
    cbn. rewrite Ha. f_equal. eapply IH; eauto.
Qed.

Lemma deref_app h hs r G :
  Impacto.deref h r = Ok G -> Impacto.deref (h ++ hs) r = Ok G.
Proof.
  destruct r as [a|]; [|discriminate]. intros H.
  apply deref_Some in H. apply deref_Some.
  rewrite lookup_app_l; [assumption|]. now apply lookup_lt_Some in H.
Qed.

(** Every result of [simular_remocao_ponte] is the outcome of removing
    its edge from a copy of the graph of the analyser. *)
Lemma simular_remocao_ponte_cada self h aresta top_n h' rs G r :
  Impacto.deref h (Impacto.grafo self) = Ok G ->
  Impacto.simular_remocao_ponte self h aresta top_n = Ok (h', rs) ->
  r ∈ rs ->
  exists eb hi hi',
    nx.edge_betweenness_centrality G true = Ok eb
    /\ Impacto.deref hi (Impacto.grafo self) = Ok G
    /\ Impacto.simular_uma self eb hi (Impacto.aresta r) = Ok (hi', r).
Proof.
  intros HG H Hr. unfold Impacto.simular_remocao_ponte in H.
  rewrite HG in H. cbn [mbind result_bind] in H.
  apply bind_Ok in H as (pontes & Hp & H).
  destruct pontes as [|p pontes].
  - injection H as <- <-. inversion Hr.
  - apply bind_Ok in H as (arestas & _ & H).
    apply bind_Ok in H as (eb & Heb & H).
    destruct (simular_todas_cada _ _ _ _ _ _ _ H Hr)
      as (hs & [u v] & hi' & _ & Hsim).
    exists eb, (h ++ hs), hi'. split; [assumption|].
    split; [now apply deref_app|].
    pose proof Hsim as Hsim'.
    apply simular_uma_campos in Hsim' as (_ & _ & _ & _ & _ & -> & _).
    exact Hsim.
Qed.

(** ** Removing an edge that the graph does not have *)

Lemma remove_edge_missing G u v :
  wf_graph G -> ~ adjacent G u v ->
  nx.remove_edge u v (nx.copy G) = Raise NetworkXError.
Proof.
  intros Hwf Huv. destruct (copy_spec G Hwf) as (_ & _ & Hw).
  unfold nx.remove_edge.
  assert (Hn : v ∉ PyDict.keys (nx.adj (nx.copy G) u)).
  { intros Hin. apply Huv. apply adjacent_weight.
    rewrite <- Hw. apply has_edge_weight, has_edge_neighbors. exact Hin. }
  apply del_None in Hn. now rewrite Hn.
Qed.

(** When the graph has a bridge, asking for the removal of an edge that
    is not in the graph ends in networkx's [NetworkXError], raised by
    [remove_edge] on the copy. *)
Theorem simular_aresta_inexistente self h u v top_n G p ps eb :
  wf_graph G ->
  Impacto.deref h (Impacto.grafo self) = Ok G ->
  nx.bridges G = Ok (p :: ps) ->
  nx.edge_betweenness_centrality G true = Ok eb ->
  ~ adjacent G u v ->
  Impacto.simular_remocao_ponte self h (Some (u, v)) top_n
  = Raise NetworkXError.
Proof.
  intros Hwf HG Hp Heb Huv. unfold Impacto.simular_remocao_ponte.
  rewrite HG. cbn [mbind result_bind]. rewrite Hp. cbn [mbind result_bind].
  rewrite Heb. cbn [mbind result_bind Impacto.simular_todas].
  unfold Impacto.simular_uma, Impacto.copy_ref. rewrite HG.
  cbn [mbind result_bind]. unfold Impacto.remove_edge_ref.
  assert (HGc : Impacto.deref (h ++ [nx.copy G]) (Some (length h))
                = Ok (nx.copy G)).
  { apply deref_Some. rewrite lookup_app_r by lia. now rewrite Nat.sub_diag. }
  rewrite HGc. cbn [mbind result_bind].
  rewrite (remove_edge_missing G u v Hwf Huv). reflexivity.
Qed.

Lemma simular_aresta_inexistente_witness :
  Impacto.simular_remocao_ponte impacto_loaded [Ex.kite] (Some (1, 4)) 1
  = Raise NetworkXError.
Proof.
  eapply (simular_aresta_inexistente impacto_loaded [Ex.kite] 1 4 1 Ex.kite).
  - repeat apply wf_add_edge. apply wf_empty.
  - reflexivity.
  - vm_compute. reflexivity.
  - vm_compute. reflexivity.
  - intros H. apply has_edge_neighbors in H. vm_compute in H. discriminate.
Defined.

(** ** The bridges chosen without an explicit edge *)

Lemma bridges_adjacent G pontes u v :
  wf_graph G -> nx.bridges G = Ok pontes -> (u, v) ∈ pontes ->
  adjacent G u v.
Proof.
  intros Hwf Hp Huv. destruct (bridges_spec G Hwf) as (pontes' & Hp' & Hsub & _).
  rewrite Hp in Hp'. injection Hp' as <-.
  apply edges_adjacent; auto.
Qed.

(** Called without an edge, the simulation removes the [top_n] bridges
    of greatest edge betweenness, or all bridges when there are fewer:
    every simulated edge is a bridge, its removal adds one connected
    component, and no bridge left out has a greater betweenness than a
    simulated one. *)
Theorem simular_pontes_mais_criticas self h top_n h' rs G :
  wf_graph G ->
  Impacto.deref h (Impacto.grafo self) = Ok G ->
  Impacto.simular_remocao_ponte self h None top_n = Ok (h', rs) ->
  exists pontes,
    nx.bridges G = Ok pontes
    /\ length rs = Nat.min top_n (length pontes)
    /\ (forall r, r ∈ rs ->
          Impacto.aresta r ∈ pontes
          /\ Impacto.componentes_depois r = Impacto.componentes_antes r + 1)
    /\ (forall r p eb, r ∈ rs -> p ∈ pontes ->
          p ∉ map Impacto.aresta rs ->
          nx.edge_betweenness_centrality G true = Ok eb ->
          (PyDict.get_default p 0 eb <= Impacto.edge_betweenness r)%Q).
Proof.
  intros Hwf HG H. unfold Impacto.simular_remocao_ponte in H.
  rewrite HG in H. cbn [mbind result_bind] in H.
  apply bind_Ok in H as (pontes & Hp & H). exists pontes.
  split; [assumption|]. destruct pontes as [|p0 pontes0].
  { injection H as <- <-. split; [now rewrite Nat.min_0_r|].
    split; intros r; intros; match goal with Hr : _ ∈ [] |- _ => inversion Hr end. }
  set (pontes := p0 :: pontes0) in *.
  apply bind_Ok in H as (arestas & Ha & H).
  apply bind_Ok in Ha as (eb & Heb & Ha). injection Ha as <-.
  apply bind_Ok in H as (eb' & Heb' & H).
  rewrite Heb in Heb'. injection Heb' as <-.
  set (pb := map (fun p => (p, PyDict.get_default p 0%Q eb)) pontes) in *.
  assert (Hmap : map Impacto.aresta rs = map fst (ranking top_n pb))
    by exact (simular_todas_arestas _ _ _ _ _ _ H).
  assert (Hpb : forall a b, (a, b) ∈ pb ->
            a ∈ pontes /\ b = PyDict.get_default a 0%Q eb).
  { intros a b Hab. unfold pb in Hab.
    apply (list_elem_of_fmap _ pontes) in Hab as (p & [= -> ->] & Hin). auto. }
  assert (Hrank : forall r, r ∈ rs ->
            (Impacto.aresta r, PyDict.get_default (Impacto.aresta r) 0%Q eb)
            ∈ ranking top_n pb).
  { intros r Hr.
    apply (list_elem_of_fmap_2 Impacto.aresta) in Hr.
    change (Impacto.aresta <$> rs) with (map Impacto.aresta rs) in Hr.
    rewrite Hmap in Hr.
    apply (list_elem_of_fmap fst) in Hr as ([a b] & -> & Hab).
    pose proof (ranking_elem _ _ _ Hab) as Hin.
    apply Hpb in Hin as [_ ->]. exact Hab. }
  split; [|split].
  - rewrite <- (length_map Impacto.aresta), Hmap, length_map, ranking_length.
    unfold pb. now rewrite length_map.
  - intros r Hr. pose proof (Hrank r Hr) as Hin.
    apply ranking_elem, Hpb in Hin as [Hin _]. split; [assumption|].
    destruct (simular_todas_cada _ _ _ _ _ _ _ H Hr)
      as (hs & [u v] & hi' & _ & Hsim).
    pose proof Hsim as Hsim'.
    apply simular_uma_campos in Hsim' as (_ & _ & _ & _ & _ & Har & _).
    rewrite Har in Hin.
    pose proof (bridges_adjacent G pontes u v Hwf Hp Hin) as Huv.
    destruct (simular_uma_componentes self eb (h ++ hs) u v hi' r G Hwf
                (deref_app _ _ _ _ HG) Huv Hsim) as (pontes' & Hp' & Hiff & _).
    rewrite Hp in Hp'. injection Hp' as <-. apply Hiff. now left.
  - intros r p eb0 Hr Hpin Hnot Heb0.
    rewrite Heb in Heb0. injection Heb0 as <-.
    pose proof (Hrank r Hr) as Hin.
    destruct (simular_todas_cada _ _ _ _ _ _ _ H Hr)
      as (hs & [u v] & hi' & _ & Hsim).
    apply simular_uma_campos in Hsim
      as (_ & _ & _ & _ & _ & Har & _ & Hbet & _).
    rewrite Hbet. rewrite Har in Hin.
    apply (ranking_dominates top_n pb
             ((u, v), PyDict.get_default (u, v) 0%Q eb)
             (p, PyDict.get_default p 0%Q eb)); [assumption| |].
    + unfold pb.
      apply (list_elem_of_fmap_2 (fun p => (p, PyDict.get_default p 0%Q eb))).
      exact Hpin.
    + intros Hin'. apply Hnot. rewrite Hmap.
      apply (list_elem_of_fmap_2 fst) in Hin'. exact Hin'.
Qed.

Lemma simular_pontes_mais_criticas_witness :
  exists h' rs,
    Impacto.simular_remocao_ponte impacto_loaded [Ex.kite] None 1
    = Ok (h', rs)
    /\ exists pontes,
         nx.bridges Ex.kite = Ok pontes
         /\ length rs = Nat.min 1 (length pontes)
         /\ (forall r, r ∈ rs ->
               Impacto.aresta r ∈ pontes
               /\ Impacto.componentes_depois r
                  = Impacto.componentes_antes r + 1)
         /\ (forall r p eb, r ∈ rs -> p ∈ pontes ->
               p ∉ map Impacto.aresta rs ->
               nx.edge_betweenness_centrality Ex.kite true = Ok eb ->
               (PyDict.get_default p 0 eb <= Impacto.edge_betweenness r)%Q).
Proof.
  eexists _, _. split; [vm_compute; reflexivity|].
  eapply (simular_pontes_mais_criticas impacto_loaded [Ex.kite] 1).
  - repeat apply wf_add_edge. apply wf_empty.
  - reflexivity.
  - vm_compute. reflexivity.
Defined.

(** ** Components before and after the removal *)

Lemma components_one G v vs k :
  wf_graph G -> nx.nodes G = v :: vs ->
  nx.number_connected_components G = Ok k ->
  k = 1 <-> forall x, x ∈ nx.nodes G -> connected G v x.
Proof.
  intros Hwf Hn Hk.
  destruct (number_connected_components_spec G Hwf) as (cs & Hk' & Hcs).
  rewrite Hk in Hk'. injection Hk' as ->.
  destruct (plain_bfs_spec G v Hwf) as (cv & _ & Hcv); [rewrite Hn; left|].
  assert (Hv : cv ∈ (list_to_set cs : gset (gset Z))).
  { apply elem_of_list_to_set, Hcs. exists v. split; [rewrite Hn; left|auto]. }
  split.
  - intros H1 x Hx.
    assert (Hs : size (list_to_set cs : gset (gset Z)) = 1%nat) by lia.
    apply size_1_elem_of in Hs as [c Hc].
    destruct (plain_bfs_spec G x Hwf Hx) as (cx & _ & Hcx).
    assert (Hxin : cx ∈ (list_to_set cs : gset (gset Z))).
    { apply elem_of_list_to_set, Hcs. eauto. }
    rewrite Hc in Hv, Hxin. apply elem_of_singleton in Hv, Hxin.
    assert (E : cx = cv) by congruence.
    apply Hcv. rewrite <- E. apply Hcx. constructor.
  - intros Hall.
    assert (E : (list_to_set cs : gset (gset Z)) = {[cv]}).
    { apply set_eq. intros c. rewrite elem_of_singleton. split.
      - intros Hc. apply elem_of_list_to_set, Hcs in Hc as (x & Hx & Hcx).
        apply (is_component_unique G x); [assumption|].
        apply (is_component_connected G v x); auto.
      - intros ->. exact Hv. }
    rewrite E, size_singleton. reflexivity.
Qed.

Lemma is_connected_components G b k :
  wf_graph G -> nx.is_connected G = Ok b ->
  nx.number_connected_components G = Ok k ->
  b = true <-> k = 1.
Proof.
  intros Hwf Hb Hk. destruct (nx.nodes G) as [|v vs] eqn:Hn.
  { unfold nx.is_connected in Hb. rewrite Hn in Hb. discriminate. }
  destruct (is_connected_spec G v vs Hwf Hn) as (b' & Hb' & Hspec).
  rewrite Hb in Hb'. injection Hb' as <-.
  rewrite Hspec. symmetry. now apply (components_one G v vs).
Qed.

Lemma copy_remove_wf G u v Gmod :
  wf_graph G -> nx.remove_edge u v (nx.copy G) = Ok Gmod ->
  wf_graph Gmod /\ nx.nodes Gmod = nx.nodes G /\ adjacent G u v.
Proof.
  intros Hwf Hrem.
  destruct (decide (v ∈ nx.neighbors G u)) as [Huv|Huv].
  - destruct (copy_remove_spec G u v Hwf Huv) as (G' & H1 & H2 & H3 & _).
    rewrite Hrem in H1. injection H1 as <-. auto.
  - rewrite (remove_edge_missing G u v Hwf Huv) in Hrem. discriminate.
Qed.

(** In every result the two flags agree with the two counts: the graph
    is reported connected, before or after the removal, exactly when
    the number of components reported beside it is 1. *)
Theorem simulacao_conexo self h aresta top_n h' rs G r :
  wf_graph G ->
  Impacto.deref h (Impacto.grafo self) = Ok G ->
  Impacto.simular_remocao_ponte self h aresta top_n = Ok (h', rs) ->
  r ∈ rs ->
  (Impacto.is_conexo_antes r = true <-> Impacto.componentes_antes r = 1)
  /\ (Impacto.is_conexo_depois r = true
      <-> Impacto.componentes_depois r = 1).
Proof.
  intros Hwf HG H Hr.
  destruct (simular_remocao_ponte_cada _ _ _ _ _ _ _ _ HG H Hr)
    as (eb & hi & hi' & _ & HGi & Hsim).
  destruct (Impacto.aresta r) as [u v].
  apply simular_uma_campos in Hsim
    as (G0 & Gmod & HG0 & Hrem & _ & _ & _ & _ & Hka & Hca & Hkd & Hcd & _).
  rewrite HGi in HG0. injection HG0 as <-.
  destruct (copy_remove_wf G u v Gmod Hwf Hrem) as (Hwfm & _ & _).
  split; [apply (is_connected_components G _ _ Hwf Hca Hka)
        | apply (is_connected_components Gmod _ _ Hwfm Hcd Hkd)].
Qed.

Lemma simulacao_conexo_witness :
  exists r,
    r ∈ kite_simulation.2
    /\ (Impacto.is_conexo_antes r = true <-> Impacto.componentes_antes r = 1)
    /\ (Impacto.is_conexo_depois r = true
        <-> Impacto.componentes_depois r = 1).
Proof.
  eexists. split; [left|].
  apply (simulacao_conexo impacto_loaded [Ex.kite] (Some (3, 4)) 1
           kite_simulation.1 kite_simulation.2 Ex.kite).
  - repeat apply wf_add_edge. apply wf_empty.
  - reflexivity.
  - vm_compute. reflexivity.
  - left.
Defined.

(** ** The sizes of the components after the removal *)

Lemma insert_asc_perm x xs : insert_asc x xs ≡ₚ x :: xs.
Proof.
  induction xs as [|y ys IH]; simpl; [reflexivity|].
  destruct (x <? y); [reflexivity|]. rewrite IH. apply Permutation_swap.
Qed.

Lemma sorted_asc_perm xs : sorted_asc xs ≡ₚ xs.
Proof.
  induction xs as [|x xs IH]; simpl; [reflexivity|].
  unfold sorted_asc in *. cbn [fold_right].
  rewrite insert_asc_perm. now rewrite IH.
Qed.

Lemma insert_asc_sorted x xs :
  StronglySorted Z.le xs -> StronglySorted Z.le (insert_asc x xs).
Proof.
  induction 1 as [|y ys Hs IH Hall]; simpl.
  - repeat constructor.
  - destruct (x <? y) eqn:E.
    + apply Z.ltb_lt in E. constructor; [now constructor|].
      constructor; [lia|]. eapply Forall_impl; [exact Hall|].
      intros z Hz. simpl in Hz. lia.
    + apply Z.ltb_ge in E. constructor; [assumption|].
      rewrite insert_asc_perm. constructor; assumption.
Qed.

Lemma sorted_asc_sorted xs : StronglySorted Z.le (sorted_asc xs).
Proof.
  induction xs as [|x xs IH]; [constructor|].
  unfold sorted_asc in *. cbn [fold_right]. now apply insert_asc_sorted.
Qed.

Lemma foldr_add_perm (l k : list Z) :
  l ≡ₚ k -> foldr Z.add 0 l = foldr Z.add 0 k.
Proof. induction 1; simpl; lia. Qed.

Lemma rev_sorted_lookup (l : list Z) i j a b :
  StronglySorted Z.le l -> (i < j)%nat ->
  rev l !! i = Some a -> rev l !! j = Some b -> b <= a.
Proof.
  intros Hs Hij Hi Hj.
  assert (Hlj : (j < length l)%nat).
  { apply lookup_lt_Some in Hj. now rewrite length_rev in Hj. }
  assert (E : rev l = reverse l) by (unfold reverse; now rewrite <- rev_alt).
  rewrite E in Hi, Hj.
  rewrite reverse_lookup in Hi by lia. rewrite reverse_lookup in Hj by lia.
  apply (StronglySorted_lookup_le Z.le l (length l - S j) (length l - S i) b a);
    [assumption|lia|assumption..].
Qed.

Lemma min_by_size_spec cs : forall best,
  min_by_size best cs ∈ best :: cs
  /\ forall c, c ∈ best :: cs -> (size (min_by_size best cs) <= size c)%nat.
Proof.
  induction cs as [|c cs IH]; intros best; simpl.
  - split; [left|]. intros c Hc. apply list_elem_of_singleton in Hc. now subst.
  - destruct (decide (size c < size best)%nat) as [Hlt|Hge].
    + destruct (IH c) as [Hin Hmin]. split.
      * right. exact Hin.
      * intros c' Hc'. apply elem_of_cons in Hc' as [->|Hc'].
        -- specialize (Hmin c ltac:(left)). lia.
        -- now apply Hmin.
    + destruct (IH best) as [Hin Hmin]. split.
      * apply elem_of_cons in Hin as [->|Hin]; [left|right; now right].
      * intros c' Hc'. apply elem_of_cons in Hc' as [->|Hc'];
          [apply Hmin; left|].
        apply elem_of_cons in Hc' as [->|Hc'].
        -- specialize (Hmin best ltac:(left)). lia.
        -- apply Hmin. now right.
Qed.

(** The components of a graph are pairwise disjoint and cover the nodes:
    their sizes add up to the number of nodes. *)
Lemma components_sizes G cs :
  wf_graph G -> nx.connected_components G = Ok cs ->
  foldr Z.add 0 (map (fun c => Z.of_nat (size c)) cs)
  = nx.number_of_nodes G.
Proof.
  intros Hwf Hcs.
  destruct (connected_components_spec G Hwf) as (cs' & Hcs' & Hnd & Hin).
  rewrite Hcs in Hcs'. injection Hcs' as <-.
  assert (Hdisj : forall c1 c2, c1 ∈ cs -> c2 ∈ cs -> c1 <> c2 -> c1 ## c2).
  { intros c1 c2 H1 H2 Hne x Hx1 Hx2. apply Hne.
    apply Hin in H1 as (v1 & _ & Hc1). apply Hin in H2 as (v2 & _ & Hc2).
    apply Hc1 in Hx1. apply Hc2 in Hx2.
    apply (is_component_unique G x).
    - apply (is_component_connected G v1 x); auto.
    - apply (is_component_connected G v2 x); auto. }
  assert (Hsum : forall l : list (gset Z),
            NoDup l -> (forall c1 c2, c1 ∈ l -> c2 ∈ l -> c1 <> c2 -> c1 ## c2) ->
            foldr Z.add 0 (map (fun c => Z.of_nat (size c)) l)
            = Z.of_nat (size (⋃ l))).
  { clear. induction l as [|c l IH]; intros Hnd Hd.
    - cbn [map foldr]. change (⋃ []) with (∅ : gset Z).
      now rewrite size_empty.
    - apply NoDup_cons in Hnd as [Hc Hnd]. cbn [map foldr].
      rewrite union_list_cons, size_union.
      + rewrite IH; [lia|assumption|].
        intros c1 c2 H1 H2. apply Hd; now right.
      + intros x Hx Hx'. apply elem_of_union_list in Hx' as (c' & Hc' & Hx').
        assert (Hcc : c ## c').
        { apply Hd; [left|now right|]. intros ->. contradiction. }
        exact (Hcc x Hx Hx'). }
  rewrite (Hsum cs Hnd Hdisj).
  assert (E : ⋃ cs = (list_to_set (nx.nodes G) : gset Z)).
  { apply set_eq. intros x. rewrite elem_of_union_list, elem_of_list_to_set.
    split.
    - intros (c & Hc & Hx). apply Hin in Hc as (v & Hv & Hcv).
      apply Hcv in Hx. eapply connected_node; eauto.
    - intros Hx. destruct (plain_bfs_spec G x Hwf Hx) as (c & _ & Hc).
      exists c. split; [apply Hin; eauto|]. apply Hc. constructor. }
  rewrite E, size_list_to_set by apply Hwf.
  unfold nx.number_of_nodes, nx.nodes, PyDict.keys. now rewrite length_fmap.
Qed.

(** When the removal leaves more than one component,
    [tamanhos_componentes] holds the sizes of the components of the
    graph without the edge, one entry per component, largest first, so
    that they add up to the number of nodes; [nos_isolados] holds, in
    ascending order, the nodes of one of these components that has the
    least size.  With a single component both lists are empty. *)
Theorem simulacao_tamanhos self h aresta top_n h' rs G r :
  wf_graph G ->
  Impacto.deref h (Impacto.grafo self) = Ok G ->
  Impacto.simular_remocao_ponte self h aresta top_n = Ok (h', rs) ->
  r ∈ rs ->
  let tamanhos := Impacto.tamanhos_componentes r in
  let isolados := Impacto.nos_isolados r in
  let sem_aresta :=
    connected_without G (Impacto.aresta r).1 (Impacto.aresta r).2 in
  (Impacto.componentes_depois r <= 1 -> tamanhos = [] /\ isolados = [])
  /\ (1 < Impacto.componentes_depois r ->
      exists (cs : list (gset Z)) (menor : gset Z),
        NoDup cs
        /\ (forall c, c ∈ cs
              <-> exists x, x ∈ nx.nodes G
                    /\ forall y, y ∈ c <-> sem_aresta x y)
        /\ Z.of_nat (length cs) = Impacto.componentes_depois r
        /\ tamanhos ≡ₚ map (fun c => Z.of_nat (size c)) cs
        /\ (forall i j a b, (i < j)%nat ->
              tamanhos !! i = Some a -> tamanhos !! j = Some b -> b <= a)
        /\ foldr Z.add 0 tamanhos = nx.number_of_nodes G
        /\ menor ∈ cs
        /\ (forall c, c ∈ cs -> (size menor <= size c)%nat)
        /\ isolados ≡ₚ elements menor
        /\ StronglySorted Z.le isolados).
Proof.
  intros Hwf HG H Hr. cbv zeta.
  destruct (simular_remocao_ponte_cada _ _ _ _ _ _ _ _ HG H Hr)
    as (eb & hi & hi' & _ & HGi & Hsim).
  destruct (Impacto.aresta r) as [u v] eqn:Har.
  apply simular_uma_campos in Hsim
    as (G0 & Gmod & HG0 & Hrem & _ & _ & _ & _ & _ & _ & Hkd & _ & Htam & _).
  rewrite HGi in HG0. injection HG0 as <-.
  destruct (copy_remove_wf G u v Gmod Hwf Hrem) as (Hwfm & Hnodes & Huv).
  split.
  - intros Hle. rewrite decide_False in Htam by lia. exact Htam.
  - intros Hgt. rewrite decide_True in Htam by lia.
    destruct Htam as (cs & Hcs & -> & ->).
    assert (Hlen : Impacto.componentes_depois r = Z.of_nat (length cs)).
    { unfold nx.number_connected_components in Hkd. rewrite Hcs in Hkd.
      cbn in Hkd. now injection Hkd as <-. }
    destruct (connected_components_spec Gmod Hwfm) as (cs0 & Hcs0 & Hnd & Hin).
    rewrite Hcs in Hcs0. injection Hcs0 as <-.
    destruct (copy_remove_spec G u v Hwf Huv) as (G' & H1 & _ & _ & Hadj).
    rewrite Hrem in H1. injection H1 as <-.
    destruct cs as [|c cs']; [simpl in Hlen; lia|].
    set (cs := c :: cs') in *.
    set (sizes := map (fun c => Z.of_nat (size c)) cs).
    destruct (min_by_size_spec cs' c) as [Hmin_in Hmin].
    set (m := min_by_size c cs') in *.
    exists cs, m. cbn [fst snd].
    split; [exact Hnd|]. split; [|split; [|split; [|split; [|split;
      [|split; [|split; [|split]]]]]]].
    + intros c0. rewrite (Hin c0), Hnodes. split.
      * intros (x & Hx & Hc). exists x. split; [exact Hx|]. intros y.
        rewrite (Hc y). apply rtc_iff. exact Hadj.
      * intros (x & Hx & Hc). exists x. split; [exact Hx|]. intros y.
        rewrite (Hc y). symmetry. apply rtc_iff. exact Hadj.
    + lia.
    + fold sizes. rewrite <- (sorted_asc_perm sizes) at 2.
      symmetry. apply Permutation_rev.
    + intros i j a b Hij Hi Hj.
      eapply (rev_sorted_lookup (sorted_asc sizes)); eauto.
      apply sorted_asc_sorted.
    + rewrite (foldr_add_perm (rev (sorted_asc sizes)) sizes).
      * unfold sizes. rewrite (components_sizes Gmod cs Hwfm Hcs).
        unfold nx.number_of_nodes, nx.nodes in *. unfold PyDict.keys in *.
        apply (f_equal (@length Z)) in Hnodes.
        rewrite !length_fmap in Hnodes. lia.
      * rewrite <- (sorted_asc_perm sizes) at 2. symmetry. apply Permutation_rev.
    + exact Hmin_in.
    + exact Hmin.
    + apply sorted_asc_perm.
    + apply sorted_asc_sorted.
Qed.

Lemma simulacao_tamanhos_witness :
  exists r,
    r ∈ kite_simulation.2
    /\ let tamanhos := Impacto.tamanhos_componentes r in
       let isolados := Impacto.nos_isolados r in
       let sem_aresta :=
         connected_without Ex.kite (Impacto.aresta r).1
           (Impacto.aresta r).2 in
       (Impacto.componentes_depois r <= 1 -> tamanhos = [] /\ isolados = [])
       /\ (1 < Impacto.componentes_depois r ->
           exists (cs : list (gset Z)) (menor : gset Z),
             NoDup cs
             /\ (forall c, c ∈ cs
                   <-> exists x, x ∈ nx.nodes Ex.kite
                         /\ forall y, y ∈ c <-> sem_aresta x y)
             /\ Z.of_nat (length cs) = Impacto.componentes_depois r
             /\ tamanhos ≡ₚ map (fun c => Z.of_nat (size c)) cs
             /\ (forall i j a b, (i < j)%nat ->
                   tamanhos !! i = Some a -> tamanhos !! j = Some b ->
                   b <= a)
             /\ foldr Z.add 0 tamanhos = nx.number_of_nodes Ex.kite
             /\ menor ∈ cs
             /\ (forall c, c ∈ cs -> (size menor <= size c)%nat)
             /\ isolados ≡ₚ elements menor
             /\ StronglySorted Z.le isolados).
Proof.
  eexists. split; [left|].
  apply (simulacao_tamanhos impacto_loaded [Ex.kite] (Some (3, 4)) 1
           kite_simulation.1 kite_simulation.2 Ex.kite).
  - repeat apply wf_add_edge. apply wf_empty.
  - reflexivity.
  - vm_compute. reflexivity.
  - left.
Defined.

(** ** Distances before and after the removal *)

Lemma nonneg_weights_empty : nonneg_weights nx.empty.
Proof. intros y z w H. inversion H. Qed.

Lemma nonneg_weights_add_edge G a b w :
  wf_graph G -> nonneg_weights G -> (0 <= w)%Q ->
  nonneg_weights (nx.add_edge a b w G).
Proof.
  intros Hwf Hnn Hw.
  apply nonneg_weights_weight; [now apply wf_add_edge|].
  intros y z w'. rewrite weight_add_edge. case_decide.
  - now intros [= <-].
  - intros H'. apply (Hnn y z w'). now apply adj_weight.
Qed.

Lemma copy_remove_adj G u v Gmod y z w :
  wf_graph G -> nx.remove_edge u v (nx.copy G) = Ok Gmod ->
  (z, w) ∈ nx.adj Gmod y -> (z, w) ∈ nx.adj G y.
Proof.
  intros Hwf Hrem Hzw.
  destruct (copy_remove_wf G u v Gmod Hwf Hrem) as (Hwfm & _ & Huv).
  destruct (copy_spec G Hwf) as (_ & Hwfc & Hw).
  assert (Hin : v ∈ nx.neighbors (nx.copy G) u).
  { apply has_edge_neighbors, has_edge_weight. rewrite Hw.
    now apply adjacent_weight. }
  destruct (remove_edge_spec _ u v Hwfc Hin) as (G' & H1 & _ & _ & H4).
  rewrite Hrem in H1. injection H1 as <-.
  apply adj_weight in Hzw; [|assumption]. rewrite H4 in Hzw.
  case_decide; [discriminate|]. rewrite Hw in Hzw. now apply adj_weight.
Qed.

Lemma walk_sub G G' s x d :
  (forall y z w, (z, w) ∈ nx.adj G' y -> (z, w) ∈ nx.adj G y) ->
  walk G' s x d -> walk G s x d.
Proof.
  intros Hsub. induction 1 as [|y z w d _ IH Hz]; [constructor|].
  econstructor; eauto.
Qed.

Lemma is_shortest_unique G s t a b :
  is_shortest G s t a -> is_shortest G s t b -> (a == b)%Q.
Proof. intros [Wa Ha] [Wb Hb]. apply Qle_antisym; auto. Qed.

Lemma remocao_le G u v Gmod o d d0 d1 :
  wf_graph G -> nonneg_weights G ->
  nx.remove_edge u v (nx.copy G) = Ok Gmod ->
  nx.shortest_path_length G o d = Ok d0 ->
  nx.shortest_path_length Gmod o d = Ok d1 ->
  (d0 <= d1)%Q.
Proof.
  intros Hwf Hnn Hrem H0 H1.
  destruct (copy_remove_nonneg G u v Gmod Hwf Hnn Hrem) as (_ & _ & Hnnm).
  apply shortest_path_length_Ok in H0; [|assumption].
  apply shortest_path_length_Ok in H1; [|assumption].
  destruct H0 as [_ Hmin]. destruct H1 as [Hw _]. apply Hmin.
  eapply walk_sub; [|exact Hw]. intros y z w.
  now apply (copy_remove_adj G u v Gmod).
Qed.

(** Removing an edge never shortens a shortest path: a pair that has a
    path in both graphs is left out of the percentages exactly when its
    distance is the same in both. *)
Theorem remocao_nao_encurta G u v Gmod o d d0 d1 :
  wf_graph G -> nonneg_weights G ->
  nx.remove_edge u v (nx.copy G) = Ok Gmod ->
  nx.shortest_path_length G o d = Ok d0 ->
  nx.shortest_path_length Gmod o d = Ok d1 ->
  (d0 <= d1)%Q /\ (aumento_par G Gmod (o, d) = [] <-> (d1 == d0)%Q).
Proof.
  intros Hwf Hnn Hrem H0 H1.
  pose proof (remocao_le G u v Gmod o d d0 d1 Hwf Hnn Hrem H0 H1) as Hle.
  split; [assumption|]. unfold aumento_par. cbn [fst snd]. rewrite H0, H1.
  destruct (Qlt_le_dec d0 d1) as [Hlt|Hge].
  - split; [discriminate|]. intros E. rewrite E in Hlt.
    now apply Qlt_irrefl in Hlt.
  - split; [|reflexivity]. intros _. now apply Qle_antisym.
Qed.

Lemma wf_kite : wf_graph Ex.kite.
Proof. repeat apply wf_add_edge. apply wf_empty. Qed.

Lemma nonneg_kite : nonneg_weights Ex.kite.
Proof.
  unfold Ex.kite, Ex.triangle.
  repeat (apply nonneg_weights_add_edge;
          [repeat apply wf_add_edge; apply wf_empty | | discriminate]).
  apply nonneg_weights_empty.
Qed.

Lemma remocao_nao_encurta_witness :
  exists Gmod,
    nx.remove_edge 1 2 (nx.copy Ex.kite) = Ok Gmod
    /\ (1 <= 2)%Q /\ (aumento_par Ex.kite Gmod (1, 2) = [] <-> (2 == 1)%Q).
Proof.
  eexists. split; [vm_compute; reflexivity|].
  eapply (remocao_nao_encurta Ex.kite 1 2 _ 1 2 1%Q 2%Q).
  - repeat apply wf_add_edge. apply wf_empty.
  - unfold Ex.kite, Ex.triangle.
    repeat (apply nonneg_weights_add_edge;
            [repeat apply wf_add_edge; apply wf_empty | | discriminate]).
    apply nonneg_weights_empty.
  - vm_compute. reflexivity.
  - vm_compute. reflexivity.
  - vm_compute. reflexivity.
Defined.

(** ** The reported percentages *)

Lemma shortest_path_length_nonneg G s t d :
  nonneg_weights G -> nx.shortest_path_length G s t = Ok d -> (0 <= d)%Q.
Proof.
  intros Hnn H. apply shortest_path_length_Ok in H as [Hw _]; [|assumption].
  eapply walk_nonneg; eauto.
Qed.

Lemma py_div_Ok a b q : py_div a b = Ok q -> ~ (b == 0)%Q /\ q = (a / b)%Q.
Proof.
  unfold py_div. destruct (Qeq_bool b 0) eqn:E; [discriminate|].
  intros [= <-]. split; [|reflexivity]. intros Hb.
  apply Qeq_bool_iff in Hb. congruence.
Qed.

Lemma comparar_par_pos G Gmod o d acc acc' :
  nonneg_weights G ->
  (forall q, q ∈ acc.1 -> (0 < q)%Q) ->
  Impacto.comparar_par G Gmod o d acc = Ok acc' ->
  forall q, q ∈ acc'.1 -> (0 < q)%Q.
Proof.
  intros Hnn Hacc. unfold Impacto.comparar_par.
  case_bool_decide; [now intros [= <-]|].
  destruct (nx.shortest_path_length G o d) as [d0|e|] eqn:E0.
  - pose proof (shortest_path_length_nonneg G o d d0 Hnn E0) as H0.
    destruct (nx.shortest_path_length Gmod o d) as [d1|e|].
    + destruct (Qlt_le_dec d0 d1) as [Hlt|_]; [|now intros [= <-]].
      intros Hq. apply bind_Ok in Hq as (q0 & Hdiv & Hq).
      injection Hq as <-. apply py_div_Ok in Hdiv as [Hne ->].
      intros q Hq. cbn [fst] in Hq. apply elem_of_app in Hq as [Hq|Hq];
        [now apply Hacc|].
      apply list_elem_of_singleton in Hq. subst q.
      assert (Hpos : (0 < d0)%Q).
      { destruct (Qlt_le_dec 0 d0) as [|Hle]; [assumption|].
        exfalso. apply Hne. now apply Qle_antisym. }
      apply Qmult_lt_0_compat; [|reflexivity].
      apply Qlt_shift_div_l; [assumption|]. lra.
    + destruct e; try discriminate. intros [= <-]. exact Hacc.
    + discriminate.
  - destruct e; try discriminate. now intros [= <-].
  - discriminate.
Qed.

Lemma comparar_destinos_pos G Gmod o ds : forall acc acc',
  nonneg_weights G ->
  (forall q, q ∈ acc.1 -> (0 < q)%Q) ->
  Impacto.comparar_destinos G Gmod o ds acc = Ok acc' ->
  forall q, q ∈ acc'.1 -> (0 < q)%Q.
Proof.
  induction ds as [|d ds IH]; intros acc acc' Hnn Hacc; simpl.
  - now intros [= <-].
  - intros H. apply bind_Ok in H as (acc1 & H1 & H).
    eapply IH; [assumption| |exact H].
    eapply comparar_par_pos; eauto.
Qed.

Lemma comparar_origens_pos G Gmod os amostra : forall acc acc',
  nonneg_weights G ->
  (forall q, q ∈ acc.1 -> (0 < q)%Q) ->
  Impacto.comparar_origens G Gmod os amostra acc = Ok acc' ->
  forall q, q ∈ acc'.1 -> (0 < q)%Q.
Proof.
  induction os as [|o os IH]; intros acc acc' Hnn Hacc; simpl.
  - now intros [= <-].
  - intros H. apply bind_Ok in H as (acc1 & H1 & H).
    eapply IH; [assumption| |exact H].
    eapply comparar_destinos_pos; eauto.
Qed.

(** Without negative weights every percentage that a result reports is
    strictly positive. *)
Theorem simulacao_aumentos_positivos self h aresta top_n h' rs G r q :
  nonneg_weights G ->
  Impacto.deref h (Impacto.grafo self) = Ok G ->
  Impacto.simular_remocao_ponte self h aresta top_n = Ok (h', rs) ->
  r ∈ rs -> q ∈ Impacto.aumentos_distancia r -> (0 < q)%Q.
Proof.
  intros Hnn HG H Hr Hq.
  destruct (simular_remocao_ponte_cada _ _ _ _ _ _ _ _ HG H Hr)
    as (eb & hi & hi' & _ & HGi & Hsim).
  destruct (Impacto.aresta r) as [u v].
  apply simular_uma_inv in Hsim as (G0 & Gmod & HG0 & _ & _ & _ & _ & Hcmp).
  rewrite HGi in HG0. injection HG0 as <-.
  eapply (comparar_origens_pos G Gmod _ _ ([], 0)); eauto.
  intros q0 Hq0. inversion Hq0.
Qed.

Lemma simulacao_aumentos_positivos_witness :
  exists r q,
    r ∈ kite_desvio.2 /\ q ∈ Impacto.aumentos_distancia r /\ (0 < q)%Q.
Proof.
  eexists _, _. split; [left|]. split; [left|].
  apply (simulacao_aumentos_positivos impacto_loaded [Ex.kite] (Some (1, 2)) 1
           kite_desvio.1 kite_desvio.2 Ex.kite
           (default impacto_vazio (head kite_desvio.2))).
  - unfold Ex.kite, Ex.triangle.
    repeat (apply nonneg_weights_add_edge;
            [repeat apply wf_add_edge; apply wf_empty | | discriminate]).
    apply nonneg_weights_empty.
  - reflexivity.
  - vm_compute. reflexivity.
  - left.
  - left.
Defined.

(** ** The number of compared pairs *)

Lemma pares_amostra_length (l : list Z) :
  (2 * length (pares_amostra l) <= length l * (length l - 1))%nat.
Proof.
  unfold pares_amostra.
  assert (Hgen : forall l0 : list Z,
            length (flat_map (fun o => map (pair o)
                                (filter (fun d => o < d) l)) l0)
            = sum_list_with (fun o => length (filter (fun d => o < d) l)) l0).
  { induction l0 as [|o l0 IH]; [reflexivity|].
    cbn [flat_map sum_list_with]. now rewrite length_app, length_map, IH. }
  rewrite Hgen. clear Hgen.
  induction l as [|x l IH]; [simpl; lia|].
  cbn [sum_list_with length]. rewrite filter_cons_False by lia.
  assert (Hs : forall l0 : list Z,
            sum_list_with
              (fun o => length (filter (fun d => o < d) (x :: l))) l0
            = (sum_list_with
                 (fun o => length (filter (fun d => (o < d)%Z) l)) l0
               + length (filter (fun o => (o < x)%Z) l0))%nat).
  { induction l0 as [|o l0 IHl]; [reflexivity|].
    cbn [sum_list_with]. rewrite IHl, !filter_cons.
    destruct (decide (o < x)); cbn [length]; lia. }
  rewrite Hs.
  assert (Hf : (length (filter (fun d => (x < d)%Z) l)
                + length (filter (fun o => (o < x)%Z) l) <= length l)%nat).
  { clear. induction l as [|y l IH]; [simpl; lia|].
    rewrite !filter_cons. destruct (decide (x < y)), (decide (y < x));
      cbn [length]; lia. }
  nia.
Qed.

Lemma aumento_desconectado_par G Gmod p :
  (length (aumento_par G Gmod p)
   + (if desconectado_par G Gmod p then 1 else 0) <= 1)%nat.
Proof.
  unfold aumento_par, desconectado_par.
  destruct (nx.shortest_path_length G p.1 p.2) as [d0|e|];
    destruct (nx.shortest_path_length Gmod p.1 p.2) as [d1|e'|];
    try destruct (Qlt_le_dec d0 d1); try destruct e; try destruct e';
    simpl; lia.
Qed.

(** The comparison looks at the pairs of the first 20 nodes only: the
    percentages and the disconnected pairs of a result are together at
    most 190, the number of pairs of 20 nodes. *)
Theorem simulacao_pares self h aresta top_n h' rs G r :
  Impacto.deref h (Impacto.grafo self) = Ok G ->
  Impacto.simular_remocao_ponte self h aresta top_n = Ok (h', rs) ->
  r ∈ rs ->
  0 <= Impacto.pares_desconectados r
  /\ Z.of_nat (length (Impacto.aumentos_distancia r))
     + Impacto.pares_desconectados r <= 190.
Proof.
  intros HG H Hr.
  destruct (simular_remocao_ponte_cada _ _ _ _ _ _ _ _ HG H Hr)
    as (eb & hi & hi' & _ & HGi & Hsim).
  destruct (Impacto.aresta r) as [u v].
  apply simular_uma_inv in Hsim as (G0 & Gmod & HG0 & _ & _ & _ & _ & Hcmp).
  rewrite HGi in HG0. injection HG0 as <-.
  apply comparar_origens_inv in Hcmp. cbv zeta in Hcmp.
  injection Hcmp as Ha Hs. rewrite Ha, Hs. cbn [app].
  fold (pares_amostra (take 20 (nx.nodes G))).
  set (pares := pares_amostra (take 20 (nx.nodes G))).
  assert (Hlen : (length pares <= 190)%nat).
  { pose proof (pares_amostra_length (take 20 (nx.nodes G))) as Hp.
    fold pares in Hp.
    assert (Hn : (length (take 20 (nx.nodes G)) <= 20)%nat)
      by (rewrite length_take; lia).
    nia. }
  unfold conta_desconectados.
  assert (Hsum : (length (flat_map (aumento_par G Gmod) pares)
                  + length (filter (fun p => desconectado_par G Gmod p = true)
                              pares)
                  <= length pares)%nat).
  { clear. induction pares as [|p pares IH]; [simpl; lia|].
    cbn [flat_map]. rewrite length_app, filter_cons.
    pose proof (aumento_desconectado_par G Gmod p) as Hp.
    destruct (desconectado_par G Gmod p); destruct (decide _);
      try congruence; cbn [length]; lia. }
  lia.
Qed.

Lemma simulacao_pares_witness :
  exists r,
    r ∈ kite_desvio.2
    /\ 0 <= Impacto.pares_desconectados r
    /\ Z.of_nat (length (Impacto.aumentos_distancia r))
       + Impacto.pares_desconectados r <= 190.
Proof.
  eexists. split; [left|].
  apply (simulacao_pares impacto_loaded [Ex.kite] (Some (1, 2)) 1
           kite_desvio.1 kite_desvio.2 Ex.kite).
  - reflexivity.
  - vm_compute. reflexivity.
  - left.
Defined.

(** * The betweenness measures return *)

(** ** Keys of a dictionary after an assignment *)

Lemma keys_set_elem {K V : Type} `{EqDecision K} (k x : K) (v : V) d :
  x ∈ PyDict.keys (PyDict.set k v d) <-> x = k \/ x ∈ PyDict.keys d.
Proof.
  rewrite keys_set. destruct (PyDict.mem k d) eqn:E.
  - apply mem_true in E. split; [auto|]. intros [->|H]; assumption.
  - rewrite elem_of_app, list_elem_of_singleton. tauto.
Qed.

Lemma lookup_Ok {K V : Type} `{EqDecision K} (k : K) (d : list (K * V)) :
  k ∈ PyDict.keys d -> exists v, nx.lookup k d = Ok v /\ PyDict.get k d = Some v.
Proof.
  intros Hk. apply mem_true in Hk. unfold PyDict.mem in Hk. unfold nx.lookup.
  destruct (PyDict.get k d) as [v|]; [eauto|discriminate].
Qed.

Lemma lookup_get {K V : Type} `{EqDecision K} (k : K) (d : list (K * V)) v :
  nx.lookup k d = Ok v <-> PyDict.get k d = Some v.
Proof.
  unfold nx.lookup. destruct (PyDict.get k d); split; intros H;
    try discriminate; congruence.
Qed.

Lemma get_keys {K V : Type} `{EqDecision K} (k : K) (d : list (K * V)) v :
  PyDict.get k d = Some v -> k ∈ PyDict.keys d.
Proof.
  intros H. apply mem_true. unfold PyDict.mem. now rewrite H.
Qed.

Lemma sig_set st x k q sigma' :
  sigma' = PyDict.set k q (nx.sp_sigma st) ->
  PyDict.get_default x 0%Q sigma'
  = if decide (x = k) then q else sig st x.
Proof.
  intros ->. unfold sig, PyDict.get_default. rewrite get_set.
  destruct (decide (x = k)); reflexivity.
Qed.

Lemma sig_get st x q :
  PyDict.get x (nx.sp_sigma st) = Some q -> sig st x = q.
Proof. intros H. unfold sig, PyDict.get_default. now rewrite H. Qed.

(** ** The loop of the search reads no missing key *)

Section Keys.
Variable G : nx.Graph.
Hypothesis Hwf : wf_graph G.

Lemma sssp_scan_keys v d nbrs : forall st,
  sssp_keys G st ->
  v ∈ PyDict.keys (nx.sp_D st) ->
  (forall w c, (w, c) ∈ nbrs -> w ∈ nx.neighbors G v) ->
  exists st',
    nx.sssp_scan v d nbrs st = Ok st'
    /\ sssp_keys G st'
    /\ nx.sp_D st' = nx.sp_D st.
Proof.
  induction nbrs as [|[w cost] rest IH]; intros st Hk Hv Hn.
  - exists st. auto.
  - assert (Hrest : forall w c, (w, c) ∈ rest -> w ∈ nx.neighbors G v).
    { intros w' c' H. apply (Hn w' c'). now right. }
    assert (Hw : w ∈ nx.neighbors G v) by (apply (Hn w cost); left).
    assert (Hwn : w ∈ nx.nodes G) by (eapply wf_edge_nodes; eauto).
    destruct Hk as [HS Hnd Hsig HP Hseen HD Hheap Hnn Hpos Hpred].
    cbn [nx.sssp_scan].
    destruct (negb (PyDict.mem w (nx.sp_D st)) && _) eqn:Eimp.
    + apply andb_prop in Eimp as [Em _]. apply negb_true_iff in Em.
      apply mem_false in Em.
      match goal with |- context [nx.sssp_scan v d rest ?s] =>
        destruct (IH s) as (st' & E & Hk' & HD') end.
      * constructor; cbn [nx.sp_S nx.sp_P nx.sp_sigma nx.sp_D nx.sp_seen
                            nx.sp_Q nx.sp_count]; auto.
        -- intros x Hx. apply keys_set_elem. right. auto.
        -- intros x Hx. apply keys_set_elem. right. auto.
        -- intros x Hx. apply keys_set_elem in Hx as [->|Hx]; auto.
        -- intros x Hx. apply keys_set_elem. right. auto.
        -- intros d' c' p' v' H. apply elem_of_cons in H as [[= -> -> -> ->]|H].
           ++ split; [apply keys_set_elem; now left|now left].
           ++ destruct (Hheap _ _ _ _ H) as [H1 [H2|(H2 & _)]].
              ** split; [apply keys_set_elem; now right|now left].
              ** rewrite H2 in Hv. inversion Hv.
        -- intros x. unfold sig. cbn [nx.sp_sigma].
           erewrite sig_set by reflexivity.
           destruct (decide (x = w)); [apply Qle_refl|apply Hnn].
        -- intros x Hx. unfold sig. cbn [nx.sp_sigma].
           erewrite sig_set by reflexivity.
           destruct (decide (x = w)) as [->|Hne]; [contradiction|].
           now apply Hpos.
        -- intros w' Pw u H Hu. rewrite get_set in H.
           destruct (decide (w' = w)) as [->|Hne]; [|eauto].
           injection H as <-. apply list_elem_of_singleton in Hu. subst.
           split; [assumption|exact Hw].
      * exact Hv.
      * exact Hrest.
      * exists st'. rewrite HD'. auto.
    + assert (Hws : w ∈ PyDict.keys (nx.sp_seen st)).
      { apply andb_false_iff in Eimp as [Em|Es].
        - apply negb_false_iff, mem_true in Em. auto.
        - destruct (PyDict.get w (nx.sp_seen st)) eqn:E; [|discriminate].
          eapply get_keys; eauto. }
      destruct (lookup_Ok w _ Hws) as (seen_w & El & _). rewrite El.
      cbn [mbind result_bind].
      destruct (Qeq_bool (d + cost) seen_w) eqn:Eq.
      * destruct (lookup_Ok w _ (Hsig w Hwn)) as (sigma_w & E1 & G1).
        rewrite E1. cbn [mbind result_bind].
        assert (Hvn : v ∈ nx.nodes G) by (apply Hseen, HD, Hv).
        destruct (lookup_Ok v _ (Hsig v Hvn)) as (sigma_v & E2 & G2).
        rewrite E2. cbn [mbind result_bind].
        destruct (lookup_Ok w _ (HP w Hwn)) as (P_w & E3 & G3).
        rewrite E3. cbn [mbind result_bind].
        match goal with |- context [nx.sssp_scan v d rest ?s] =>
          destruct (IH s) as (st' & E & Hk' & HD') end.
        -- pose proof (Hnn w) as Hw0. pose proof (Hnn v) as Hv0.
           rewrite (sig_get _ _ _ G1) in Hw0.
           rewrite (sig_get _ _ _ G2) in Hv0.
           constructor; cbn [nx.sp_S nx.sp_P nx.sp_sigma nx.sp_D nx.sp_seen
                               nx.sp_Q nx.sp_count]; auto.
           ++ intros x Hx. apply keys_set_elem. right. auto.
           ++ intros x Hx. apply keys_set_elem. right. auto.
           ++ intros d' c' p' v' H.
              destruct (Hheap _ _ _ _ H) as [H1 [H2|(H2 & _)]].
              ** split; [assumption|now left].
              ** rewrite H2 in Hv. inversion Hv.
           ++ intros x. unfold sig. cbn [nx.sp_sigma].
              erewrite sig_set by reflexivity.
              destruct (decide (x = w)); [lra|apply Hnn].
           ++ intros x Hx. unfold sig. cbn [nx.sp_sigma].
              erewrite sig_set by reflexivity.
              destruct (decide (x = w)) as [->|Hne]; [|now apply Hpos].
              pose proof (Hpos w Hx) as Hp.
              rewrite (sig_get _ _ _ G1) in Hp. lra.
           ++ intros w' Pw u H Hu. rewrite get_set in H.
              destruct (decide (w' = w)) as [->|Hne]; [|eauto].
              injection H as <-. apply elem_of_app in Hu as [Hu|Hu]; [eauto|].
              apply list_elem_of_singleton in Hu. subst.
              split; [assumption|exact Hw].
        -- exact Hv.
        -- exact Hrest.
        -- exists st'. rewrite HD'. auto.
      * destruct (IH st) as (st' & E & Hk' & HD'); auto.
        -- constructor; auto.
        -- exists st'. auto.
Qed.

Lemma sssp_loop_keys fuel : forall st,
  sssp_keys G st ->
  match nx.sssp_loop fuel G st with
  | Ok st' => sssp_keys G st' /\ nx.sp_Q st' = []
  | Raise _ => False
  | OutOfFuel => True
  end.
Proof.
  induction fuel as [|fuel IH]; intros st Hk.
  - simpl. destruct (nx.heappop _ (nx.sp_Q st)) as [[[[[d c] p] v] fr]|] eqn:Ep;
      [exact I|]. split; [assumption|]. eapply heappop_None; eauto.
  - simpl. destruct (nx.heappop _ (nx.sp_Q st)) as [[[[[d c] p] v] fr]|] eqn:Ep;
      [|split; [assumption|eapply heappop_None; eauto]].
    pose proof (heappop_elem _ _ _ _ Ep) as Hpop.
    pose proof (heappop_length _ _ _ _ Ep) as Hlen.
    destruct Hk as [HS Hnd Hsig HP Hseen HD Hheap Hnn Hpos Hpred].
    assert (Hfr : forall d' c' p' v', (d', c', p', v') ∈ fr ->
              v' ∈ PyDict.keys (nx.sp_seen st)
              /\ p' ∈ PyDict.keys (nx.sp_D st)).
    { intros d' c' p' v' H.
      destruct (Hheap d' c' p' v') as [H1 [H2|(_ & H2 & _)]];
        [apply Hpop; now right|auto|].
      rewrite H2 in Hlen. simpl in Hlen.
      destruct fr; [inversion H|simpl in Hlen; lia]. }
    destruct (Hheap d c p v) as [Hvs Hp]; [apply Hpop; now left|].
    destruct (PyDict.mem v (nx.sp_D st)) eqn:Em.
    + apply IH. constructor; cbn [nx.sp_S nx.sp_P nx.sp_sigma nx.sp_D
                                    nx.sp_seen nx.sp_Q nx.sp_count]; auto.
      intros d' c' p' v' H. destruct (Hfr _ _ _ _ H). auto.
    + apply mem_false in Em.
      assert (Hvn : v ∈ nx.nodes G) by auto.
      assert (Hpn : p ∈ nx.nodes G).
      { destruct Hp as [Hp|(_ & _ & Hp & _)]; auto. }
      assert (Hpp : (0 < sig st p)%Q).
      { destruct Hp as [Hp|(_ & _ & _ & Hp)]; auto. }
      destruct (lookup_Ok v _ (Hsig v Hvn)) as (sigma_v & E1 & G1).
      rewrite E1. cbn [mbind result_bind].
      destruct (lookup_Ok p _ (Hsig p Hpn)) as (sigma_p & E2 & G2).
      rewrite E2. cbn [mbind result_bind].
      pose proof (Hnn v) as Hv0. rewrite (sig_get _ _ _ G1) in Hv0.
      rewrite (sig_get _ _ _ G2) in Hpp.
      match goal with |- context [nx.sssp_scan v d ?n ?s] =>
        destruct (sssp_scan_keys v d n s) as (st' & E & Hk' & HD') end.
      * constructor; cbn [nx.sp_S nx.sp_P nx.sp_sigma nx.sp_D
                            nx.sp_seen nx.sp_Q nx.sp_count]; auto.
        -- rewrite keys_set. apply mem_false in Em. rewrite Em.
           now rewrite HS.
        -- now apply NoDup_keys_set.
        -- intros x Hx. apply keys_set_elem. right. auto.
        -- intros x Hx. apply keys_set_elem in Hx as [->|Hx]; auto.
        -- intros d' c' p' v' H. destruct (Hfr _ _ _ _ H) as [H1 H2].
           split; [assumption|]. left. apply keys_set_elem. now right.
        -- intros x. unfold sig. cbn [nx.sp_sigma].
           erewrite sig_set by reflexivity.
           destruct (decide (x = v)); [lra|apply Hnn].
        -- intros x Hx. unfold sig. cbn [nx.sp_sigma].
           erewrite sig_set by reflexivity.
           destruct (decide (x = v)) as [->|Hne]; [lra|].
           apply keys_set_elem in Hx as [->|Hx]; [contradiction|].
           now apply Hpos.
        -- intros w Pw u H Hu. destruct (Hpred _ _ _ H Hu) as [H1 H2].
           split; [|assumption]. apply keys_set_elem. now right.
      * cbn [nx.sp_D]. apply keys_set_elem. now left.
      * intros w c0 H. unfold nx.neighbors, PyDict.keys.
        apply list_elem_of_fmap. exists (w, c0). auto.
      * rewrite E. cbn [mbind result_bind]. apply IH. exact Hk'.
Qed.

Lemma sssp_keys_init s :
  s ∈ nx.nodes G ->
  sssp_keys G
    {| nx.sp_S := [];
       nx.sp_P := map (fun v => (v, [])) (nx.nodes G);
       nx.sp_sigma := PyDict.set s 1%Q (map (fun v => (v, 0%Q)) (nx.nodes G));
       nx.sp_D := [];
       nx.sp_seen := [(s, 0%Q)];
       nx.sp_count := 1%nat;
       nx.sp_Q := [(0%Q, 0%nat, s, s)] |}.
Proof.
  intros Hs.
  assert (Hkeys : forall (A : Type) (a : A) (l : list Z),
            PyDict.keys (map (fun v => (v, a)) l) = l).
  { intros A a l. unfold PyDict.keys. induction l as [|x l IH];
      [reflexivity|]. cbn. now f_equal. }
  assert (Hget0 : forall (l : list Z) x q,
            PyDict.get x (map (fun v => (v, 0%Q)) l) = Some q -> q = 0%Q).
  { intros l x q. induction l as [|y l IH]; simpl; [discriminate|].
    destruct (decide (x = y)); [now intros [= <-]|exact IH]. }
  constructor; cbn [nx.sp_S nx.sp_P nx.sp_sigma nx.sp_D nx.sp_seen nx.sp_Q].
  - reflexivity.
  - constructor.
  - intros x Hx. apply keys_set_elem. right. now rewrite Hkeys.
  - intros x Hx. now rewrite Hkeys.
  - intros x Hx. apply list_elem_of_singleton in Hx. now subst.
  - intros x Hx. inversion Hx.
  - intros d c p v H. apply list_elem_of_singleton in H.
    injection H as -> -> -> ->. split; [now left|]. right.
    repeat split; auto. unfold sig. cbn [nx.sp_sigma].
    unfold PyDict.get_default. rewrite get_set.
    rewrite decide_True by reflexivity. reflexivity.
  - intros x. unfold sig. cbn [nx.sp_sigma]. unfold PyDict.get_default.
    rewrite get_set. destruct (decide (x = s)); [discriminate|].
    destruct (PyDict.get x _) as [q|] eqn:E; [|apply Qle_refl].
    apply Hget0 in E. subst. apply Qle_refl.
  - intros x Hx. inversion Hx.
  - intros w Pw u H Hu. exfalso. clear -H Hu.
    induction (nx.nodes G) as [|y l IH]; simpl in H; [discriminate|].
    destruct (decide (w = y)); [|auto]. injection H as <-. inversion Hu.
Qed.

(** From a node of the graph the search returns, and the final state
    holds what the accumulation reads. *)
Lemma sssp_returns s :
  s ∈ nx.nodes G ->
  exists st,
    nx.single_source_dijkstra_path_basic G s = Ok st /\ sssp_keys G st.
Proof.
  intros Hs. pose proof (sssp_fuel_enough G s) as Hfuel.
  unfold nx.single_source_dijkstra_path_basic in *.
  pose proof (sssp_loop_keys (nx.dijkstra_fuel G) _ (sssp_keys_init s Hs)) as H.
  destruct (nx.sssp_loop _ _ _) as [st| |]; [|contradiction|congruence].
  exists st. split; [reflexivity|apply H].
Qed.

End Keys.

(** ** The accumulation reads no missing key *)

Lemma add_at_Ok {K : Type} `{EqDecision K} (k : K) c d :
  k ∈ PyDict.keys d ->
  exists d', nx.add_at k c d = Ok d' /\ PyDict.keys d' = PyDict.keys d.
Proof.
  intros Hk. destruct (lookup_Ok k d Hk) as (x & E & _).
  destruct (nx.add_at k c d) as [d'| |] eqn:Ea.
  - exists d'. split; [reflexivity|]. eapply add_at_keys; eauto.
  - unfold nx.add_at in Ea. rewrite E in Ea. discriminate.
  - unfold nx.add_at in Ea. rewrite E in Ea. discriminate.
Qed.

Section Accumulate.
Variable G : nx.Graph.
Hypothesis Hwf : wf_graph G.
Variable st : nx.sssp_state.
Hypothesis Hk : sssp_keys G st.

Lemma settled_node x : x ∈ nx.sp_S st -> x ∈ nx.nodes G.
Proof.
  intros Hx. rewrite (sk_S G st Hk) in Hx.
  apply (sk_seen G st Hk), (sk_D G st Hk), Hx.
Qed.

Lemma accumulate_preds_returns w coeff preds : forall acc,
  (forall v, v ∈ preds -> v ∈ nx.sp_S st /\ adjacent G v w) ->
  (forall u v, adjacent G u v ->
     (u, v) ∈ PyDict.keys (fst acc) \/ (v, u) ∈ PyDict.keys (fst acc)) ->
  (forall x, x ∈ nx.sp_S st -> x ∈ PyDict.keys (snd acc)) ->
  exists acc',
    nx.accumulate_preds w coeff preds (nx.sp_sigma st) acc = Ok acc'
    /\ PyDict.keys (fst acc') = PyDict.keys (fst acc)
    /\ PyDict.keys (snd acc') = PyDict.keys (snd acc).
Proof.
  induction preds as [|v preds IH]; intros acc Hp He Hd.
  - exists acc. auto.
  - destruct (Hp v) as [HvS Hvw]; [left|].
    cbn [nx.accumulate_preds].
    destruct (lookup_Ok v _ (sk_sigma G st Hk v (settled_node v HvS)))
      as (sigma_v & E1 & _).
    rewrite E1. cbn [mbind result_bind].
    assert (Hb : exists b,
      (if PyDict.mem (v, w) (fst acc)
       then nx.add_at (v, w) (sigma_v * coeff)%Q (fst acc)
       else nx.add_at (w, v) (sigma_v * coeff)%Q (fst acc)) = Ok b
      /\ PyDict.keys b = PyDict.keys (fst acc)).
    { destruct (PyDict.mem (v, w) (fst acc)) eqn:Em.
      - apply add_at_Ok. now apply mem_true.
      - apply add_at_Ok. apply mem_false in Em.
        destruct (He v w Hvw); [contradiction|assumption]. }
    destruct Hb as (b & Eb & Hkb). rewrite Eb. cbn [mbind result_bind].
    destruct (add_at_Ok v (sigma_v * coeff)%Q (snd acc) (Hd v HvS))
      as (dl & Ed & Hkd).
    rewrite Ed. cbn [mbind result_bind].
    destruct (IH (b, dl)) as (acc' & E & H1 & H2).
    + intros v' Hv'. apply Hp. now right.
    + cbn [fst]. rewrite Hkb. exact He.
    + cbn [snd]. rewrite Hkd. exact Hd.
    + exists acc'. cbn [fst snd] in *. rewrite H1, H2, Hkb, Hkd. auto.
Qed.

Lemma accumulate_stack_returns stack : forall acc,
  (forall w, w ∈ stack -> w ∈ nx.sp_S st) ->
  (forall u v, adjacent G u v ->
     (u, v) ∈ PyDict.keys (fst acc) \/ (v, u) ∈ PyDict.keys (fst acc)) ->
  (forall x, x ∈ nx.sp_S st -> x ∈ PyDict.keys (snd acc)) ->
  exists acc', nx.accumulate_stack stack st acc = Ok acc'.
Proof.
  induction stack as [|w stack IH]; intros acc Hs He Hd.
  - exists acc. reflexivity.
  - assert (HwS : w ∈ nx.sp_S st) by (apply Hs; left).
    pose proof (settled_node w HwS) as Hwn.
    cbn [nx.accumulate_stack].
    destruct (lookup_Ok w _ (Hd w HwS)) as (delta_w & E1 & _).
    rewrite E1. cbn [mbind result_bind].
    destruct (lookup_Ok w _ (sk_sigma G st Hk w Hwn)) as (sigma_w & E2 & G2).
    rewrite E2. cbn [mbind result_bind].
    assert (Hpos : (0 < sigma_w)%Q).
    { rewrite <- (sig_get _ _ _ G2). apply (sk_pos G st Hk).
      now rewrite <- (sk_S G st Hk). }
    rewrite (py_div_pos _ _ Hpos). cbn [mbind result_bind].
    destruct (lookup_Ok w _ (sk_P G st Hk w Hwn)) as (P_w & E3 & G3).
    rewrite E3. cbn [mbind result_bind].
    destruct (accumulate_preds_returns w ((1 + delta_w) / sigma_w)%Q P_w acc)
      as (acc1 & Ea & H1 & H2); auto.
    { intros v Hv. destruct (sk_pred G st Hk _ _ _ G3 Hv) as [Hv1 Hv2].
      split; [|assumption]. now rewrite (sk_S G st Hk). }
    rewrite Ea. cbn [mbind result_bind]. apply IH.
    + intros w' Hw'. apply Hs. now right.
    + rewrite H1. exact He.
    + rewrite H2. exact Hd.
Qed.

Lemma accumulate_preds_basic_returns coeff preds : forall delta,
  (forall v, v ∈ preds -> v ∈ nx.sp_S st) ->
  (forall x, x ∈ nx.sp_S st -> x ∈ PyDict.keys delta) ->
  exists delta',
    nx.accumulate_preds_basic coeff preds (nx.sp_sigma st) delta = Ok delta'
    /\ PyDict.keys delta' = PyDict.keys delta.
Proof.
  induction preds as [|v preds IH]; intros delta Hp Hd.
  - exists delta. auto.
  - assert (HvS : v ∈ nx.sp_S st) by (apply Hp; left).
    cbn [nx.accumulate_preds_basic].
    destruct (lookup_Ok v _ (sk_sigma G st Hk v (settled_node v HvS)))
      as (sigma_v & E1 & _).
    rewrite E1. cbn [mbind result_bind].
    destruct (add_at_Ok v (sigma_v * coeff)%Q delta (Hd v HvS))
      as (dl & Ed & Hkd).
    rewrite Ed. cbn [mbind result_bind].
    destruct (IH dl) as (delta' & E & H1).
    + intros v' Hv'. apply Hp. now right.
    + rewrite Hkd. exact Hd.
    + exists delta'. rewrite H1, Hkd. auto.
Qed.

Lemma accumulate_stack_basic_returns s stack : forall acc,
  (forall w, w ∈ stack -> w ∈ nx.sp_S st) ->
  (forall x, x ∈ nx.nodes G -> x ∈ PyDict.keys (fst acc)) ->
  (forall x, x ∈ nx.sp_S st -> x ∈ PyDict.keys (snd acc)) ->
  exists acc', nx.accumulate_stack_basic s stack st acc = Ok acc'.
Proof.
  induction stack as [|w stack IH]; intros acc Hs Hb Hd.
  - exists acc. reflexivity.
  - assert (HwS : w ∈ nx.sp_S st) by (apply Hs; left).
    pose proof (settled_node w HwS) as Hwn.
    cbn [nx.accumulate_stack_basic].
    destruct (lookup_Ok w _ (Hd w HwS)) as (delta_w & E1 & _).
    rewrite E1. cbn [mbind result_bind].
    destruct (lookup_Ok w _ (sk_sigma G st Hk w Hwn)) as (sigma_w & E2 & G2).
    rewrite E2. cbn [mbind result_bind].
    assert (Hpos : (0 < sigma_w)%Q).
    { rewrite <- (sig_get _ _ _ G2). apply (sk_pos G st Hk).
      now rewrite <- (sk_S G st Hk). }
    rewrite (py_div_pos _ _ Hpos). cbn [mbind result_bind].
    destruct (lookup_Ok w _ (sk_P G st Hk w Hwn)) as (P_w & E3 & G3).
    rewrite E3. cbn [mbind result_bind].
    destruct (accumulate_preds_basic_returns ((1 + delta_w) / sigma_w)%Q P_w
                (snd acc)) as (dl & Ea & H1); auto.
    { intros v Hv. destruct (sk_pred G st Hk _ _ _ G3 Hv) as [Hv1 Hv2].
      now rewrite (sk_S G st Hk). }
    rewrite Ea. cbn [mbind result_bind].
    assert (Hbet : exists b,
      (if decide (w = s) then Ok (fst acc)
       else delta_w' ← nx.lookup w dl; nx.add_at w delta_w' (fst acc)) = Ok b
      /\ PyDict.keys b = PyDict.keys (fst acc)).
    { destruct (decide (w = s)); [eauto|].
      destruct (lookup_Ok w dl) as (x & Ex & _).
      { rewrite H1. auto. }
      rewrite Ex. cbn [mbind result_bind]. apply add_at_Ok. auto. }
    destruct Hbet as (b & Eb & Hkb). rewrite Eb. cbn [mbind result_bind].
    apply IH.
    + intros w' Hw'. apply Hs. now right.
    + cbn [fst]. rewrite Hkb. exact Hb.
    + cbn [snd]. rewrite H1. exact Hd.
Qed.

End Accumulate.

Lemma keys_zero_map {A B : Type} (b : B) (l : list A) :
  PyDict.keys (map (fun v => (v, b)) l) = l.
Proof.
  unfold PyDict.keys. induction l as [|x l IH]; [reflexivity|].
  cbn. now f_equal.
Qed.

Lemma accumulate_sources_returns G sources : forall b,
  wf_graph G ->
  (forall s, s ∈ sources -> s ∈ nx.nodes G) ->
  PyDict.keys b = nx.edges G ->
  exists b', nx.accumulate_sources G sources b = Ok b'.
Proof.
  induction sources as [|s sources IH]; intros b Hwf Hs Hb.
  - exists b. reflexivity.
  - cbn [nx.accumulate_sources].
    destruct (sssp_returns G Hwf s) as (st & E & Hk); [apply Hs; left|].
    rewrite E. cbn [mbind result_bind]. unfold nx.accumulate_edges.
    destruct (accumulate_stack_returns G st Hk (rev (nx.sp_S st))
                (b, map (fun v => (v, 0%Q)) (nx.sp_S st))) as (acc & Ea).
    + intros w Hw. apply list_elem_of_In. apply in_rev.
      now apply list_elem_of_In.
    + cbn [fst]. rewrite Hb. intros u v Huv. now apply edges_either.
    + cbn [snd]. intros x Hx. now rewrite keys_zero_map.
    + rewrite Ea. cbn [mbind result_bind]. apply IH; auto.
      * intros s' Hs'. apply Hs. now right.
      * apply accumulate_stack_keys in Ea. cbn [fst] in Ea. now rewrite Ea.
Qed.

(** Brandes' accumulation over the edges returns on every graph. *)
Lemma edge_accumulation_returns G :
  wf_graph G -> exists acc, nx.edge_accumulation G = Ok acc.
Proof.
  intros Hwf. unfold nx.edge_accumulation.
  apply accumulate_sources_returns; auto.
  apply keys_zero_map.
Qed.

Lemma edge_betweenness_centrality_returns G normalized :
  wf_graph G ->
  exists eb, nx.edge_betweenness_centrality G normalized = Ok eb.
Proof.
  intros Hwf. unfold nx.edge_betweenness_centrality.
  destruct (edge_accumulation_returns G Hwf) as (acc & E). rewrite E.
  cbn [mbind result_bind]. unfold nx.rescale_e.
  destruct normalized; [|eauto].
  destruct (decide (nx.number_of_nodes G <= 1)) as [Hn|Hn]; [eauto|].
  rewrite py_div_inject_Z by nia. cbn [mbind result_bind]. eauto.
Qed.

Lemma accumulate_sources_basic_returns G sources : forall b,
  wf_graph G ->
  (forall s, s ∈ sources -> s ∈ nx.nodes G) ->
  PyDict.keys b = nx.nodes G ->
  exists b', nx.accumulate_sources_basic G sources b = Ok b'.
Proof.
  induction sources as [|s sources IH]; intros b Hwf Hs Hb.
  - exists b. reflexivity.
  - cbn [nx.accumulate_sources_basic].
    destruct (sssp_returns G Hwf s) as (st & E & Hk); [apply Hs; left|].
    rewrite E. cbn [mbind result_bind].
    destruct (accumulate_stack_basic_returns G st Hk s (rev (nx.sp_S st))
                (b, map (fun v => (v, 0%Q)) (nx.sp_S st))) as (acc & Ea).
    + intros w Hw. apply list_elem_of_In. apply in_rev.
      now apply list_elem_of_In.
    + cbn [fst]. now rewrite Hb.
    + cbn [snd]. intros x Hx. now rewrite keys_zero_map.
    + rewrite Ea. cbn [mbind result_bind]. apply IH; auto.
      * intros s' Hs'. apply Hs. now right.
      * apply accumulate_stack_basic_keys in Ea. cbn [fst] in Ea.
        now rewrite Ea.
Qed.

Lemma betweenness_centrality_returns G :
  wf_graph G -> exists bc, nx.betweenness_centrality G = Ok bc.
Proof.
  intros Hwf. unfold nx.betweenness_centrality.
  destruct (accumulate_sources_basic_returns G (nx.nodes G)
              (map (fun v => (v, 0%Q)) (nx.nodes G)) Hwf) as (b & E); auto.
  { apply keys_zero_map. }
  rewrite E. cbn [mbind result_bind]. unfold nx.rescale.
  destruct (decide (nx.number_of_nodes G <= 2)) as [Hn|Hn]; [eauto|].
  rewrite py_div_inject_Z by nia. cbn [mbind result_bind]. eauto.
Qed.

Lemma mapM_returns {A B : Type} (f : A -> result B) (l : list A) :
  (forall x, x ∈ l -> exists b, f x = Ok b) -> exists r, mapM f l = Ok r.
Proof.
  induction l as [|x l IH]; intros Hf; [exists []; reflexivity|].
  destruct (Hf x) as (b & Eb); [left|].
  destruct IH as (r & Er); [intros y Hy; apply Hf; now right|].
  exists (b :: r). cbn. rewrite Eb. cbn. rewrite Er. reflexivity.
Qed.

Lemma closeness_centrality_returns G :
  nonneg_weights G -> exists cc, nx.closeness_centrality G = Ok cc.
Proof.
  intros Hnn. unfold nx.closeness_centrality. apply mapM_returns.
  intros n Hn. destruct (closeness_of_returns G n Hnn Hn) as (c & E).
  rewrite E. cbn [mbind result_bind]. eauto.
Qed.

(** On a graph without negative weights whose number of nodes is not 1
    the four measures are computed. *)
Lemma calcular_centralidades_returns self :
  wf_graph (Centralidades.grafo self) ->
  nonneg_weights (Centralidades.grafo self) ->
  nx.number_of_nodes (Centralidades.grafo self) <> 1 ->
  exists s1, Centralidades.calcular_centralidades self = Ok s1.
Proof.
  intros Hwf Hnn Hn. unfold Centralidades.calcular_centralidades.
  rewrite (calcular_degree_Ok _ Hn). cbn [mbind result_bind].
  destruct (betweenness_centrality_returns _ Hwf) as (bc & E1).
  rewrite E1. cbn [mbind result_bind].
  destruct (closeness_centrality_returns _ Hnn) as (cc & E2).
  rewrite E2. cbn [mbind result_bind].
  destruct (edge_betweenness_centrality_returns _ true Hwf) as (eb & E3).
  rewrite E3. cbn [mbind result_bind]. eauto.
Qed.



(** * Brandes' algorithm on graphs with positive weights *)

(** ** Sums of rationals *)

Lemma Qsum_app l k : (Qsum (l ++ k) == Qsum l + Qsum k)%Q.
Proof.
  induction l as [|x l IH]; simpl; [lra|]. rewrite IH. lra.
Qed.

Lemma Qsum_perm l k : l ≡ₚ k -> (Qsum l == Qsum k)%Q.
Proof.
  induction 1 as [|x l k _ IH|x y l|l k m _ IH1 _ IH2]; simpl.
  - reflexivity.
  - rewrite IH. reflexivity.
  - lra.
  - rewrite IH1. exact IH2.
Qed.

Lemma Qsum_ext {A : Type} (f g : A -> Q) (l : list A) :
  (forall x, x ∈ l -> (f x == g x)%Q) ->
  (Qsum (map f l) == Qsum (map g l))%Q.
Proof.
  induction l as [|x l IH]; intros H; simpl; [reflexivity|].
  rewrite (H x) by left. rewrite IH; [reflexivity|].
  intros y Hy. apply H. now right.
Qed.

Lemma Qsum_nonneg {A : Type} (f : A -> Q) (l : list A) :
  (forall x, x ∈ l -> (0 <= f x)%Q) -> (0 <= Qsum (map f l))%Q.
Proof.
  induction l as [|x l IH]; intros H; simpl; [apply Qle_refl|].
  pose proof (H x ltac:(left)). specialize (IH ltac:(intros y Hy; apply H; now right)).
  lra.
Qed.

Lemma Qsum_filter {A : Type} (p : A -> bool) (f : A -> Q) (l : list A) :
  (Qsum (map (fun x => if p x then f x else 0%Q) l)
   == Qsum (map f (filter (fun x => p x = true) l)))%Q.
Proof.
  induction l as [|x l IH]; simpl; [reflexivity|].
  rewrite filter_cons. destruct (p x) eqn:E.
  - rewrite decide_True by reflexivity. simpl. rewrite IH. reflexivity.
  - rewrite decide_False by discriminate. rewrite IH. lra.
Qed.

Lemma Qsum_select {A : Type} (p q : A -> bool) (f g : A -> Q)
    (l k : list A) :
  NoDup l -> NoDup k ->
  (forall x, (x ∈ l /\ p x = true) <-> (x ∈ k /\ q x = true)) ->
  (forall x, x ∈ l -> p x = true -> (f x == g x)%Q) ->
  (Qsum (map (fun x => if p x then f x else 0%Q) l)
   == Qsum (map (fun x => if q x then g x else 0%Q) k))%Q.
Proof.
  intros Hl Hk Hiff Hfg. rewrite !Qsum_filter.
  rewrite (Qsum_ext f g).
  - apply Qsum_perm. apply Permutation_map.
    apply NoDup_Permutation; try now apply NoDup_filter.
    intros x. rewrite !list_elem_of_filter. specialize (Hiff x). tauto.
  - intros x Hx. apply list_elem_of_filter in Hx as [Hp Hx]. auto.
Qed.

Lemma Qsum_indicator {A : Type} `{EqDecision A} (x : A) (f : A -> Q)
    (l : list A) :
  NoDup l ->
  (Qsum (map (fun v => if bool_decide (x = v) then f v else 0%Q) l)
   == if bool_decide (x ∈ l) then f x else 0%Q)%Q.
Proof.
  induction l as [|y l IH]; intros Hnd.
  - reflexivity.
  - apply NoDup_cons in Hnd as [Hy Hnd]. specialize (IH Hnd).
    unfold Qsum in *. cbn [map foldr]. rewrite IH.
    destruct (decide (x = y)) as [->|Hne].
    + rewrite (bool_decide_eq_true_2 (y = y)) by reflexivity.
      rewrite (bool_decide_eq_true_2 (y ∈ y :: l)) by left.
      rewrite (bool_decide_eq_false_2 (y ∈ l)) by assumption. lra.
    + rewrite (bool_decide_eq_false_2 (x = y)) by assumption.
      destruct (decide (x ∈ l)) as [Hin|Hin].
      * rewrite (bool_decide_eq_true_2 (x ∈ l)) by assumption.
        rewrite (bool_decide_eq_true_2 (x ∈ y :: l)) by now right. lra.
      * rewrite (bool_decide_eq_false_2 (x ∈ l)) by assumption.
        rewrite (bool_decide_eq_false_2 (x ∈ y :: l)); [lra|].
        intros H. apply elem_of_cons in H as [?|?]; contradiction.
Qed.

Lemma Qsum_scale {A : Type} (f : A -> Q) (c : Q) (l : list A) :
  (Qsum (map (fun x => f x * c) l) == Qsum (map f l) * c)%Q.
Proof.
  induction l as [|x l IH]; simpl; [lra|]. rewrite IH. lra.
Qed.

(** ** Dictionaries and the path counts of a state *)

Lemma keys_get {K V : Type} `{EqDecision K} (k : K) (d : list (K * V)) :
  k ∈ PyDict.keys d -> exists v, PyDict.get k d = Some v.
Proof.
  intros Hk. apply mem_true in Hk. unfold PyDict.mem in Hk.
  destruct (PyDict.get k d) as [v|]; [eauto|discriminate].
Qed.

Lemma set_new {K V : Type} `{EqDecision K} (k : K) (v : V) d :
  k ∉ PyDict.keys d -> PyDict.set k v d = d ++ [(k, v)].
Proof.
  induction d as [|[k' v'] d IH]; intros Hk; simpl; [reflexivity|].
  destruct (decide (k = k')) as [->|Hne].
  - exfalso. apply Hk. left.
  - rewrite IH; [reflexivity|]. intros H. apply Hk. now right.
Qed.

Lemma sig_update st st2 w q :
  nx.sp_sigma st2 = PyDict.set w q (nx.sp_sigma st) ->
  forall y, sig st2 y = if decide (y = w) then q else sig st y.
Proof.
  intros E y. unfold sig, PyDict.get_default. rewrite E, get_set.
  destruct (decide (y = w)); reflexivity.
Qed.

Lemma sig_same st st2 :
  nx.sp_sigma st2 = nx.sp_sigma st -> forall y, sig st2 y = sig st y.
Proof. intros E y. unfold sig. now rewrite E. Qed.

Lemma map_sig_update st st2 w q (l : list Z) :
  nx.sp_sigma st2 = PyDict.set w q (nx.sp_sigma st) ->
  w ∉ l -> map (sig st2) l = map (sig st) l.
Proof.
  intros E Hw. apply map_ext_in. intros y Hy.
  rewrite (sig_update st st2 w q E). destruct (decide (y = w)) as [->|];
    [|reflexivity].
  exfalso. apply Hw. now apply list_elem_of_In.
Qed.

Lemma adj_cost G u w c c' :
  wf_graph G -> (w, c) ∈ nx.adj G u -> (w, c') ∈ nx.adj G u -> c = c'.
Proof.
  intros Hwf H1 H2. apply (adj_weight G u w c Hwf) in H1.
  apply (adj_weight G u w c' Hwf) in H2. congruence.
Qed.

Lemma positive_nonneg G : positive_weights G -> nonneg_weights G.
Proof. intros H y z w Hw. apply Qlt_le_weak. eapply H; eauto. Qed.

Lemma brandes_inv_ext G s sc sc' st :
  (forall u w c, sc u w c <-> sc' u w c) ->
  brandes_inv G s sc st -> brandes_inv G s sc' st.
Proof.
  intros Hext [HS Hnd Hsrc HsrcP Hdist Hsc Hscs HsD Hwalk Hle Hord Hent
                 Hpend Hset Hpos'].
  constructor; auto.
  - intros u w c H. apply Hsc. now apply Hext.
  - intros u w c H. eapply Hscs. apply Hext. eassumption.
  - intros w x Hx Hw. destruct (Hpend w x Hx Hw)
      as (c & p & rest & H1 & H2 & H3 & H4 & H5 & H6).
    exists c, p, rest. repeat split; auto.
    + intros Hu. apply H4 in Hu as (cost & du & Ha & Hb & Hc).
      exists cost, du. rewrite <- Hext. auto.
    + intros (cost & du & Ha & Hb & Hc). apply H4.
      exists cost, du. rewrite Hext. auto.
    + intros u cost du Ha Hb. eapply H6; eauto. apply Hext. eassumption.
  - intros w dw Hw Hne. destruct (Hset w dw Hw Hne) as (Pw & H1 & H2 & H3 & H4).
    exists Pw. repeat split; auto.
    + intros Hu. apply H3 in Hu as (cost & du & Ha & Hb & Hc).
      exists cost, du. rewrite <- Hext. auto.
    + intros (cost & du & Ha & Hb & Hc). apply H3.
      exists cost, du. rewrite Hext. auto.
Qed.

(** ** The scan of the neighbours of a settled node *)

Section Search.
Variables (G : nx.Graph) (s : Z).
Hypothesis Hwf : wf_graph G.
Hypothesis Hpos : positive_weights G.

(** Members of a predecessor list are settled. *)
Lemma pred_settled sc st (l : list Z) w x :
  (forall u w c, sc u w c -> u ∈ PyDict.keys (nx.sp_D st) /\ (w, c) ∈ nx.adj G u) ->
  (forall u, u ∈ l
     <-> exists cost du,
           sc u w cost /\ PyDict.get u (nx.sp_D st) = Some du
           /\ (du + cost == x)%Q) ->
  forall u, u ∈ l -> u ∈ PyDict.keys (nx.sp_D st).
Proof.
  intros Hsc Hiff u Hu. apply Hiff in Hu as (cost & du & Hs & _).
  now apply Hsc in Hs.
Qed.

(** A strictly shorter way to [w]: its entry, its predecessors and its
    count start again. *)
Lemma scan_improve sc st st2 v d w cost :
  brandes_inv G s sc st ->
  PyDict.get v (nx.sp_D st) = Some d ->
  (forall x dx, PyDict.get x (nx.sp_D st) = Some dx -> (dx <= d)%Q) ->
  (w, cost) ∈ nx.adj G v ->
  (forall c', ~ sc v w c') ->
  w ∉ PyDict.keys (nx.sp_D st) ->
  (forall x0, PyDict.get w (nx.sp_seen st) = Some x0 -> (d + cost < x0)%Q) ->
  nx.sp_S st2 = nx.sp_S st ->
  nx.sp_P st2 = PyDict.set w [v] (nx.sp_P st) ->
  nx.sp_sigma st2 = PyDict.set w 0%Q (nx.sp_sigma st) ->
  nx.sp_D st2 = nx.sp_D st ->
  nx.sp_seen st2 = PyDict.set w (d + cost)%Q (nx.sp_seen st) ->
  nx.sp_Q st2 = (d + cost, nx.sp_count st, v, w)%Q :: nx.sp_Q st ->
  brandes_inv G s
    (fun u w' c' => sc u w' c' \/ (u = v /\ w' = w /\ c' = cost)) st2.
Proof.
  intros [HS Hnd Hsrc HsrcP Hdist Hsc Hscs HsD Hwalk Hle Hord Hent
            Hpend Hset Hpos'] Hv Hmax Hwc Hnsc HwD Hlt ES EP Esig ED Eseen EQ.
  pose proof (sig_update st st2 w 0%Q Esig) as Hsig.
  pose proof (Hpos _ _ _ Hwc) as Hcost.
  assert (Hold : forall u cost' du,
            sc u w cost' -> PyDict.get u (nx.sp_D st) = Some du ->
            (d + cost < du + cost')%Q).
  { intros u cost' du Hs' Hdu.
    destruct (keys_get w _ (Hscs _ _ _ Hs')) as (x0 & Hx0).
    specialize (Hlt x0 Hx0).
    destruct (Hpend w x0 Hx0 HwD) as (_ & _ & _ & _ & _ & _ & _ & _ & H6).
    specialize (H6 u cost' du Hs' Hdu). lra. }
  assert (Hother : forall w0, w0 ∈ PyDict.keys (nx.sp_D st) -> w0 <> w).
  { intros w0 H0 ->. contradiction. }
  constructor; rewrite ?ES, ?EP, ?ED, ?Eseen, ?EQ; auto.
  - destruct HsrcP as [H1 H2]. rewrite get_set, Hsig.
    rewrite !decide_False by (apply Hother; eapply get_keys; eauto). auto.
  - intros u w' c' [H|(-> & -> & ->)]; [now apply Hsc|].
    split; [eapply get_keys; eauto|assumption].
  - intros u w' c' [H|(-> & -> & ->)]; apply keys_set_elem;
      [right; eapply Hscs; eauto|now left].
  - intros w0 dw H0. rewrite get_set.
    rewrite decide_False by (apply Hother; eapply get_keys; eauto). auto.
  - intros d0 c0 p0 v0 H. apply elem_of_cons in H as [[= -> -> -> ->]|H];
      [|eauto]. apply walk_step with (y := v); [|assumption].
    apply (Hdist v d Hv).
  - intros x dx d0 c0 p0 v0 Hx H.
    apply elem_of_cons in H as [[= -> -> -> ->]|H]; [|eauto].
    specialize (Hmax x dx Hx). lra.
  - intros d0 c0 p0 w0 H Hw0.
    apply elem_of_cons in H as [[= -> -> -> ->]|H].
    + exists (d + cost)%Q. rewrite !get_set, !decide_True by reflexivity.
      split; [reflexivity|]. split; [apply Qle_refl|]. intros _. now exists [].
    + destruct (Hent _ _ _ _ H Hw0) as (x & Hx & Hxd & HP).
      destruct (decide (w0 = w)) as [->|Hne].
      * exists (d + cost)%Q. rewrite !get_set, !decide_True by reflexivity.
        specialize (Hlt x Hx). split; [reflexivity|]. split; [lra|].
        intros Hd0. exfalso. lra.
      * exists x. rewrite !get_set, !decide_False by assumption. auto.
  - intros w0 x Hx Hw0. rewrite get_set in Hx.
    destruct (decide (w0 = w)) as [->|Hne].
    + injection Hx as <-. exists (nx.sp_count st), v, [].
      split; [left|]. split; [now rewrite get_set, decide_True|].
      split; [apply NoDup_singleton|]. split; [|split].
      * intros u. split.
        -- intros Hu. apply list_elem_of_singleton in Hu. subst u.
           exists cost, d. split; [right; auto|]. split; [assumption|reflexivity].
        -- intros (cost' & du & [Hs'|(-> & _ & ->)] & Hdu & Heq).
           ++ exfalso. pose proof (Hold u cost' du Hs' Hdu). lra.
           ++ left.
      * rewrite Hsig, decide_True by reflexivity. reflexivity.
      * intros u cost' du [Hs'|(-> & _ & ->)] Hdu.
        -- pose proof (Hold u cost' du Hs' Hdu). lra.
        -- rewrite Hv in Hdu. injection Hdu as <-. apply Qle_refl.
    + destruct (Hpend w0 x Hx Hw0)
        as (c0 & p0 & rest0 & H1 & H2 & H3 & H4 & H5 & H6).
      exists c0, p0, rest0. split; [now right|].
      split; [now rewrite get_set, decide_False|]. split; [assumption|].
      split; [|split].
      * intros u. rewrite (H4 u). split.
        -- intros (cost' & du & Hs' & Hdu & Heq). exists cost', du. auto.
        -- intros (cost' & du & [Hs'|(_ & Hw' & _)] & Hdu & Heq);
             [|contradiction]. exists cost', du. auto.
      * rewrite Hsig, decide_False by assumption.
        rewrite (map_sig_update st st2 w 0%Q rest0 Esig); [exact H5|].
        intros Hin. apply HwD. eapply (pred_settled sc st); eauto.
        now right.
      * intros u cost' du [Hs'|(_ & Hw' & _)] Hdu; [eauto|contradiction].
  - intros w0 dw H0 Hne.
    assert (Hw0 : w0 <> w) by (apply Hother; eapply get_keys; eauto).
    destruct (Hset w0 dw H0 Hne) as (Pw & H1 & H2 & H3 & H4).
    exists Pw. split; [now rewrite get_set, decide_False|].
    split; [assumption|]. split.
    + intros u. rewrite (H3 u). split.
      * intros (cost' & du & Hs' & Hdu & Heq). exists cost', du. auto.
      * intros (cost' & du & [Hs'|(_ & Hw' & _)] & Hdu & Heq);
          [|contradiction]. exists cost', du. auto.
    + rewrite Hsig, decide_False by assumption.
      rewrite (map_sig_update st st2 w 0%Q Pw Esig); [exact H4|].
      intros Hin. apply HwD. eapply (pred_settled sc st); eauto.
  - intros w0 H0. rewrite Hsig, decide_False by now apply Hother. auto.
Qed.

(** Another way to [w] of the same length: one more predecessor. *)
Lemma scan_equal sc st st3 v d w cost x Pw sigma_w sigma_v :
  brandes_inv G s sc st ->
  PyDict.get v (nx.sp_D st) = Some d ->
  (forall x dx, PyDict.get x (nx.sp_D st) = Some dx -> (dx <= d)%Q) ->
  (w, cost) ∈ nx.adj G v ->
  (forall c', ~ sc v w c') ->
  PyDict.get w (nx.sp_seen st) = Some x ->
  (d + cost == x)%Q ->
  PyDict.get w (nx.sp_P st) = Some Pw ->
  PyDict.get w (nx.sp_sigma st) = Some sigma_w ->
  PyDict.get v (nx.sp_sigma st) = Some sigma_v ->
  nx.sp_S st3 = nx.sp_S st ->
  nx.sp_P st3 = PyDict.set w (Pw ++ [v]) (nx.sp_P st) ->
  nx.sp_sigma st3 = PyDict.set w (sigma_w + sigma_v)%Q (nx.sp_sigma st) ->
  nx.sp_D st3 = nx.sp_D st ->
  nx.sp_seen st3 = nx.sp_seen st ->
  nx.sp_Q st3 = nx.sp_Q st ->
  brandes_inv G s
    (fun u w' c' => sc u w' c' \/ (u = v /\ w' = w /\ c' = cost)) st3.
Proof.
  intros [HS Hnd Hsrc HsrcP Hdist Hsc Hscs HsD Hwalk Hle Hord Hent
            Hpend Hset Hpos'] Hv Hmax Hwc Hnsc Hx Heq HPw Gw Gv
         ES EP Esig ED Eseen EQ.
  pose proof (sig_update st st3 w (sigma_w + sigma_v)%Q Esig) as Hsig.
  pose proof (Hpos _ _ _ Hwc) as Hcost.
  assert (HwD : w ∉ PyDict.keys (nx.sp_D st)).
  { intros HwD. destruct (keys_get w _ HwD) as (dw & Hdw).
    destruct (HsD w dw Hdw) as (x' & Hx' & Hxd). rewrite Hx in Hx'.
    injection Hx' as <-. specialize (Hmax w dw Hdw). lra. }
  assert (HvD : v ∈ PyDict.keys (nx.sp_D st)) by (eapply get_keys; eauto).
  assert (Hother : forall w0, w0 ∈ PyDict.keys (nx.sp_D st) -> w0 <> w).
  { intros w0 H0 ->. contradiction. }
  constructor; rewrite ?ES, ?EP, ?ED, ?Eseen, ?EQ; auto.
  - destruct HsrcP as [H1 H2]. rewrite get_set, Hsig.
    rewrite !decide_False by (apply Hother; eapply get_keys; eauto). auto.
  - intros u w' c' [H|(-> & -> & ->)]; [now apply Hsc|]. auto.
  - intros u w' c' [H|(-> & -> & ->)]; [eapply Hscs; eauto|].
    eapply get_keys; eauto.
  - intros d0 c0 p0 w0 H Hw0.
    destruct (Hent _ _ _ _ H Hw0) as (x1 & Hx1 & Hxd & HP).
    exists x1. split; [assumption|]. split; [assumption|]. intros Hd0.
    destruct (HP Hd0) as (rest & Hrest). rewrite get_set.
    destruct (decide (w0 = w)) as [->|Hne]; [|eauto].
    rewrite HPw in Hrest. injection Hrest as ->. now exists (rest ++ [v]).
  - intros w0 x0 Hx0 Hw0.
    destruct (Hpend w0 x0 Hx0 Hw0)
      as (c0 & p0 & rest0 & H1 & H2 & H3 & H4 & H5 & H6).
    destruct (decide (w0 = w)) as [->|Hne].
    + rewrite Hx in Hx0. injection Hx0 as <-.
      rewrite HPw in H2. injection H2 as ->.
      assert (Hvn : v ∉ p0 :: rest0).
      { intros Hin. apply H4 in Hin as (c' & _ & Hs' & _).
        exact (Hnsc c' Hs'). }
      assert (Hwn : w ∉ rest0 ++ [v]).
      { intros Hin. apply elem_of_app in Hin as [Hin|Hin].
        - apply HwD. eapply (pred_settled sc st); eauto. now right.
        - apply list_elem_of_singleton in Hin. subst. contradiction. }
      exists c0, p0, (rest0 ++ [v]). split; [assumption|].
      split; [now rewrite get_set, decide_True|]. split; [|split; [|split]].
      * change (p0 :: rest0 ++ [v]) with ((p0 :: rest0) ++ [v]).
        apply NoDup_app. split; [assumption|]. split; [|apply NoDup_singleton].
        intros u Hu Hu'. apply list_elem_of_singleton in Hu'. subst.
        contradiction.
      * intros u. change (p0 :: rest0 ++ [v]) with ((p0 :: rest0) ++ [v]).
        rewrite elem_of_app, (H4 u), list_elem_of_singleton. split.
        -- intros [(cost' & du & Hs' & Hdu & He)| ->].
           ++ exists cost', du. auto.
           ++ exists cost, d. split; [right; auto|]. auto.
        -- intros (cost' & du & [Hs'|(-> & _ & ->)] & Hdu & He).
           ++ left. exists cost', du. auto.
           ++ now right.
      * rewrite Hsig, decide_True by reflexivity.
        rewrite (map_sig_update st st3 w _ _ Esig Hwn).
        rewrite map_app, Qsum_app. cbn [map Qsum foldr].
        rewrite <- H5. rewrite (sig_get _ _ _ Gw), (sig_get _ _ _ Gv). lra.
      * intros u cost' du [Hs'|(-> & _ & ->)] Hdu; [eauto|].
        rewrite Hv in Hdu. injection Hdu as <-. lra.
    + exists c0, p0, rest0. split; [assumption|].
      split; [now rewrite get_set, decide_False|]. split; [assumption|].
      split; [|split].
      * intros u. rewrite (H4 u). split.
        -- intros (cost' & du & Hs' & Hdu & He). exists cost', du. auto.
        -- intros (cost' & du & [Hs'|(_ & Hw' & _)] & Hdu & He);
             [|contradiction]. exists cost', du. auto.
      * rewrite Hsig, decide_False by assumption.
        rewrite (map_sig_update st st3 w _ rest0 Esig); [exact H5|].
        intros Hin. apply HwD. eapply (pred_settled sc st); eauto.
        now right.
      * intros u cost' du [Hs'|(_ & Hw' & _)] Hdu; [eauto|contradiction].
  - intros w0 dw H0 Hne.
    assert (Hw0 : w0 <> w) by (apply Hother; eapply get_keys; eauto).
    destruct (Hset w0 dw H0 Hne) as (Pw0 & H1 & H2 & H3 & H4).
    exists Pw0. split; [now rewrite get_set, decide_False|].
    split; [assumption|]. split.
    + intros u. rewrite (H3 u). split.
      * intros (cost' & du & Hs' & Hdu & He). exists cost', du. auto.
      * intros (cost' & du & [Hs'|(_ & Hw' & _)] & Hdu & He);
          [|contradiction]. exists cost', du. auto.
    + rewrite Hsig, decide_False by assumption.
      rewrite (map_sig_update st st3 w _ Pw0 Esig); [exact H4|].
      intros Hin. apply HwD. eapply (pred_settled sc st); eauto.
  - intros w0 H0. rewrite Hsig, decide_False by now apply Hother. auto.
Qed.

(** A longer way to [w], or a way back to a settled node: nothing
    changes. *)
Lemma scan_keep sc st v d w cost x :
  brandes_inv G s sc st ->
  PyDict.get v (nx.sp_D st) = Some d ->
  (forall x dx, PyDict.get x (nx.sp_D st) = Some dx -> (dx <= d)%Q) ->
  (w, cost) ∈ nx.adj G v ->
  PyDict.get w (nx.sp_seen st) = Some x ->
  ~ (d + cost == x)%Q ->
  (w ∈ PyDict.keys (nx.sp_D st) \/ (x <= d + cost)%Q) ->
  brandes_inv G s
    (fun u w' c' => sc u w' c' \/ (u = v /\ w' = w /\ c' = cost)) st.
Proof.
  intros [HS Hnd Hsrc HsrcP Hdist Hsc Hscs HsD Hwalk Hle Hord Hent
            Hpend Hset Hpos'] Hv Hmax Hwc Hx Hne Hcase.
  pose proof (Hpos _ _ _ Hwc) as Hcost.
  constructor; auto.
  - intros u w' c' [H|(-> & -> & ->)]; [now apply Hsc|].
    split; [eapply get_keys; eauto|assumption].
  - intros u w' c' [H|(-> & -> & ->)]; [eapply Hscs; eauto|].
    eapply get_keys; eauto.
  - intros w0 x0 Hx0 Hw0.
    destruct (Hpend w0 x0 Hx0 Hw0)
      as (c0 & p0 & rest0 & H1 & H2 & H3 & H4 & H5 & H6).
    exists c0, p0, rest0. repeat split; auto.
    + intros Hu. apply H4 in Hu as (cost' & du & Hs' & Hdu & He).
      exists cost', du. auto.
    + intros (cost' & du & [Hs'|(-> & -> & ->)] & Hdu & He).
      * apply H4. exists cost', du. auto.
      * exfalso. rewrite Hv in Hdu. injection Hdu as <-.
        rewrite Hx in Hx0. injection Hx0 as <-. contradiction.
    + intros u cost' du [Hs'|(-> & -> & ->)] Hdu; [eauto|].
      rewrite Hv in Hdu. injection Hdu as <-.
      rewrite Hx in Hx0. injection Hx0 as <-.
      destruct Hcase as [Hc|Hc]; [contradiction|assumption].
  - intros w0 dw H0 Hne0.
    destruct (Hset w0 dw H0 Hne0) as (Pw0 & H1 & H2 & H3 & H4).
    exists Pw0. repeat split; auto.
    + intros Hu. apply H3 in Hu as (cost' & du & Hs' & Hdu & He).
      exists cost', du. auto.
    + intros (cost' & du & [Hs'|(-> & -> & ->)] & Hdu & He).
      * apply H3. exists cost', du. auto.
      * exfalso. rewrite Hv in Hdu. injection Hdu as <-.
        specialize (Hmax _ dw H0). lra.
Qed.

(** The scan of a list of neighbours keeps the invariant and adds the
    scanned entries. *)
Lemma sssp_scan_inv v d nbrs : forall sc st st',
  brandes_inv G s sc st ->
  PyDict.get v (nx.sp_D st) = Some d ->
  (forall x dx, PyDict.get x (nx.sp_D st) = Some dx -> (dx <= d)%Q) ->
  (forall w c, (w, c) ∈ nbrs -> (w, c) ∈ nx.adj G v) ->
  NoDup (PyDict.keys nbrs) ->
  (forall w c c', (w, c) ∈ nbrs -> ~ sc v w c') ->
  nx.sssp_scan v d nbrs st = Ok st' ->
  brandes_inv G s (fun u w c => sc u w c \/ (u = v /\ (w, c) ∈ nbrs)) st'
  /\ nx.sp_D st' = nx.sp_D st.
Proof.
  induction nbrs as [|[w cost] rest IH];
    intros sc st st' Hinv Hv Hmax Hadj Hnd Hnsc Hscan.
  - simpl in Hscan. injection Hscan as <-. split; [|reflexivity].
    eapply brandes_inv_ext; [|exact Hinv]. intros u w c. split; [now left|].
    intros [H|[_ H]]; [exact H|inversion H].
  - cbn [nx.sssp_scan] in Hscan.
    assert (Hwc : (w, cost) ∈ nx.adj G v) by (apply Hadj; left).
    assert (Hnw : forall c', ~ sc v w c').
    { intros c'. apply (Hnsc w cost c'). left. }
    cbn [PyDict.keys fmap list_fmap fst] in Hnd.
    apply NoDup_cons in Hnd as [Hwr Hnd].
    set (sc2 := fun u w' c' => sc u w' c' \/ (u = v /\ w' = w /\ c' = cost)).
    assert (Hcont : forall st2,
              brandes_inv G s sc2 st2 -> nx.sp_D st2 = nx.sp_D st ->
              nx.sssp_scan v d rest st2 = Ok st' ->
              brandes_inv G s
                (fun u w0 c => sc u w0 c \/ (u = v /\ (w0, c) ∈ (w, cost) :: rest))
                st'
              /\ nx.sp_D st' = nx.sp_D st).
    { intros st2 H2 HD2 Hs2.
      destruct (IH sc2 st2 st' H2) as [Hfin HDfin]; auto.
      - now rewrite HD2.
      - intros x dx. rewrite HD2. apply Hmax.
      - intros w0 c H. apply Hadj. now right.
      - intros w0 c c' H [Hs'|(_ & -> & _)].
        + apply (Hnsc w0 c c'); [now right|assumption].
        + apply Hwr. apply (list_elem_of_fmap_2 fst) in H. exact H.
      - split; [|congruence]. eapply brandes_inv_ext; [|exact Hfin].
        intros u w0 c. unfold sc2. rewrite elem_of_cons. split.
        + intros [[H|(-> & -> & ->)]|[-> H]]; auto.
        + intros [H|[-> [[= -> ->]|H]]]; auto. }
    destruct (negb (PyDict.mem w (nx.sp_D st)) && _) eqn:Eimp.
    + apply andb_prop in Eimp as [Em Es]. apply negb_true_iff in Em.
      apply mem_false in Em.
      eapply Hcont; cycle 2; [exact Hscan| |reflexivity].
      eapply (scan_improve sc st); eauto; try reflexivity.
      intros x0 Hx0. cbn [nx.sp_seen] in Es. rewrite Hx0 in Es.
      destruct (Qlt_le_dec (d + cost) x0); [assumption|discriminate].
    + apply bind_Ok in Hscan as (seen_w & El & Hscan).
      apply lookup_get in El.
      destruct (Qeq_bool (d + cost) seen_w) eqn:Eq.
      * apply Qeq_bool_iff in Eq.
        apply bind_Ok in Hscan as (sigma_w & E1 & Hscan).
        apply bind_Ok in Hscan as (sigma_v & E2 & Hscan).
        apply bind_Ok in Hscan as (P_w & E3 & Hscan).
        apply lookup_get in E1, E2, E3.
        eapply Hcont; cycle 2; [exact Hscan| |reflexivity].
        eapply (scan_equal sc st); eauto; reflexivity.
      * apply Qeq_bool_neq in Eq.
        eapply Hcont; cycle 2; [exact Hscan| |reflexivity].
        eapply (scan_keep sc st); eauto.
        apply andb_false_iff in Eimp as [Em|Es].
        -- left. now apply negb_false_iff, mem_true in Em.
        -- right. rewrite El in Es.
           destruct (Qlt_le_dec (d + cost) seen_w); [discriminate|assumption].
Qed.

(** ** The loop of the search *)

Lemma StronglySorted_snoc {A : Type} (R : A -> A -> Prop) (l : list A) x :
  StronglySorted R l -> (forall a, a ∈ l -> R a x) ->
  StronglySorted R (l ++ [x]).
Proof.
  induction 1 as [|a l Hl IH Ha]; intros Hx; simpl.
  - constructor; constructor.
  - constructor.
    + apply IH. intros b Hb. apply Hx. now right.
    + apply Forall_app. split; [assumption|].
      constructor; [apply Hx; left|constructor].
Qed.

Lemma StronglySorted_app_r {A : Type} (R : A -> A -> Prop) (l1 l2 : list A) :
  StronglySorted R (l1 ++ l2) -> StronglySorted R l2.
Proof.
  induction l1 as [|a l1 IH]; simpl; [auto|]. intros H.
  apply StronglySorted_inv in H as [H _]. auto.
Qed.

(** Every walk that leaves the settled nodes is at least as long as the
    least distance of the heap. *)
Lemma sssp_frontier st d :
  brandes_inv G s (scanned_all G st) st ->
  (forall d' c' p' v', (d', c', p', v') ∈ nx.sp_Q st -> (d <= d')%Q) ->
  forall x L, walk G s x L -> x ∈ PyDict.keys (nx.sp_D st) \/ (d <= L)%Q.
Proof.
  intros [HS Hnd Hsrc HsrcP Hdist Hsc Hscs HsD Hwalk Hle Hord Hent
            Hpend Hset Hpos'] Hmin.
  induction 1 as [|y z w L Hw IH Hz].
  - left. eapply get_keys; eauto.
  - pose proof (Hpos _ _ _ Hz) as Hcost.
    destruct IH as [Hy|Hm]; [|right; lra].
    destruct (keys_get y _ Hy) as (dy & Hdy).
    assert (Hs' : scanned_all G st y z w) by (split; assumption).
    destruct (keys_get z _ (Hscs _ _ _ Hs')) as (xz & Hxz).
    destruct (decide (z ∈ PyDict.keys (nx.sp_D st))) as [Hz'|Hz'];
      [now left|right].
    destruct (Hpend z xz Hxz Hz') as (c0 & p0 & rest0 & H1 & _ & _ & _ & _ & H6).
    specialize (H6 y w dy Hs' Hdy). apply Hmin in H1.
    destruct (Hdist y dy Hdy) as [_ Hsh]. specialize (Hsh L Hw). lra.
Qed.

(** An entry of a settled node is dropped. *)
Lemma sssp_pop_inv sc st st2 d c p v fr :
  brandes_inv G s sc st ->
  (forall y, y ∈ nx.sp_Q st <-> y = (d, c, p, v) \/ y ∈ fr) ->
  v ∈ PyDict.keys (nx.sp_D st) ->
  nx.sp_S st2 = nx.sp_S st -> nx.sp_P st2 = nx.sp_P st ->
  nx.sp_sigma st2 = nx.sp_sigma st -> nx.sp_D st2 = nx.sp_D st ->
  nx.sp_seen st2 = nx.sp_seen st -> nx.sp_Q st2 = fr ->
  brandes_inv G s sc st2.
Proof.
  intros [HS Hnd Hsrc HsrcP Hdist Hsc Hscs HsD Hwalk Hle Hord Hent
            Hpend Hset Hpos'] Hpop HvD ES EP Esig ED Eseen EQ.
  pose proof (sig_same st st2 Esig) as Hsig.
  assert (Hmap : forall l, map (sig st2) l = map (sig st) l).
  { intros l. apply map_ext. exact Hsig. }
  constructor; rewrite ?ES, ?EP, ?ED, ?Eseen, ?EQ, ?Hsig; auto.
  - intros d0 c0 p0 v0 H. eapply Hwalk, Hpop. right. eassumption.
  - intros x dx d0 c0 p0 v0 Hx H. apply (Hle x dx d0 c0 p0 v0 Hx).
    apply Hpop. now right.
  - intros d0 c0 p0 w0 H Hw0. apply (Hent d0 c0 p0 w0); [|assumption].
    apply Hpop. now right.
  - intros w x Hx Hw. destruct (Hpend w x Hx Hw)
      as (c0 & p0 & rest0 & H1 & H2 & H3 & H4 & H5 & H6).
    exists c0, p0, rest0. rewrite Hmap, Hsig.
    repeat split; auto; try apply H4.
    apply Hpop in H1 as [[= -> -> -> ->]|H1]; [contradiction|assumption].
  - intros w dw Hw Hne. destruct (Hset w dw Hw Hne) as (Pw & H1 & H2 & H3 & H4).
    exists Pw. rewrite Hmap, Hsig. auto.
  - intros w Hw. rewrite Hsig. auto.
Qed.

(** A node is settled: its distance is the shortest, its predecessors
    are complete and its count is their sum. *)
Lemma sssp_settle_inv st st1 d c p v fr sigma_v sigma_p :
  brandes_inv G s (scanned_all G st) st ->
  (forall y, y ∈ nx.sp_Q st <-> y = (d, c, p, v) \/ y ∈ fr) ->
  (forall d' c' p' v', (d', c', p', v') ∈ nx.sp_Q st -> (d <= d')%Q) ->
  v ∉ PyDict.keys (nx.sp_D st) ->
  PyDict.get v (nx.sp_sigma st) = Some sigma_v ->
  PyDict.get p (nx.sp_sigma st) = Some sigma_p ->
  nx.sp_S st1 = nx.sp_S st ++ [v] ->
  nx.sp_P st1 = nx.sp_P st ->
  nx.sp_sigma st1 = PyDict.set v (sigma_v + sigma_p)%Q (nx.sp_sigma st) ->
  nx.sp_D st1 = PyDict.set v d (nx.sp_D st) ->
  nx.sp_seen st1 = nx.sp_seen st ->
  nx.sp_Q st1 = fr ->
  brandes_inv G s (scanned_all G st) st1
  /\ forall x dx, PyDict.get x (nx.sp_D st1) = Some dx -> (dx <= d)%Q.
Proof.
  intros Hinv Hpop Hmin HvD Gv Gp ES EP Esig ED Eseen EQ.
  pose proof (sssp_frontier st d Hinv Hmin) as Hfront.
  destruct Hinv as [HS Hnd Hsrc HsrcP Hdist Hsc Hscs HsD Hwalk Hle Hord Hent
                      Hpend Hset Hpos'].
  pose proof (sig_update st st1 v _ Esig) as Hsig.
  assert (Hin : (d, c, p, v) ∈ nx.sp_Q st) by (apply Hpop; now left).
  destruct (Hent _ _ _ _ Hin HvD) as (x & Hx & Hxd & HP).
  destruct (Hpend v x Hx HvD) as (c0 & p0 & rest & H1 & H2 & H3 & H4 & H5 & H6).
  pose proof (Hmin _ _ _ _ H1) as Hdx.
  destruct (HP Hdx) as (rest' & Hrest'). rewrite H2 in Hrest'.
  injection Hrest' as -> <-.
  assert (Hxeq : (x == d)%Q) by (apply Qle_antisym; assumption).
  assert (Hother : forall u, u ∈ PyDict.keys (nx.sp_D st) -> u <> v).
  { intros u Hu ->. contradiction. }
  assert (HgetD : forall u du,
            u ∈ PyDict.keys (nx.sp_D st) ->
            PyDict.get u (PyDict.set v d (nx.sp_D st)) = Some du
            <-> PyDict.get u (nx.sp_D st) = Some du).
  { intros u du Hu. rewrite get_set, decide_False by now apply Hother.
    reflexivity. }
  assert (Hvs : v <> s).
  { intros ->. apply HvD. eapply get_keys; eauto. }
  assert (Hshort : is_shortest G s v d).
  { split; [eapply Hwalk; eauto|]. intros L HL.
    destruct (Hfront v L HL); [contradiction|assumption]. }
  assert (Hpreds : forall u, u ∈ p :: rest -> u ∈ PyDict.keys (nx.sp_D st)).
  { intros u Hu. apply H4 in Hu as (cost & du & [Hs' _] & _). exact Hs'. }
  assert (Hiff : forall (l : list Z) w y,
            (forall u, u ∈ l
               <-> exists cost du,
                     scanned_all G st u w cost
                     /\ PyDict.get u (nx.sp_D st) = Some du
                     /\ (du + cost == y)%Q) ->
            forall u, u ∈ l
               <-> exists cost du,
                     scanned_all G st u w cost
                     /\ PyDict.get u (PyDict.set v d (nx.sp_D st)) = Some du
                     /\ (du + cost == y)%Q).
  { intros l w y Hl u. rewrite (Hl u). split.
    - intros (cost & du & Hs' & Hdu & He). exists cost, du.
      split; [assumption|]. split; [|assumption].
      apply HgetD; [apply Hs'|assumption].
    - intros (cost & du & Hs' & Hdu & He). exists cost, du.
      split; [assumption|]. split; [|assumption].
      apply HgetD in Hdu; [assumption|apply Hs']. }
  assert (Hmapv : forall (l : list Z),
            (forall u, u ∈ l -> u ∈ PyDict.keys (nx.sp_D st)) ->
            map (sig st1) l = map (sig st) l).
  { intros l Hl. apply (map_sig_update st st1 v _ l Esig).
    intros Hv. apply HvD. auto. }
  split.
  - constructor; rewrite ?ES, ?EP, ?ED, ?Eseen, ?EQ.
    + rewrite keys_set. pose proof HvD as Em. apply mem_false in Em.
      now rewrite Em, HS.
    + now apply NoDup_keys_set.
    + rewrite get_set, decide_False by (intros ->; now apply Hvs). assumption.
    + destruct HsrcP as [Ha Hb]. split; [assumption|].
      rewrite Hsig, decide_False by (intros ->; now apply Hvs). assumption.
    + intros u du. rewrite get_set. destruct (decide (u = v)) as [->|Hne].
      * now intros [= <-].
      * apply Hdist.
    + intros u w c' [Hu Hw]. split; [|assumption].
      apply keys_set_elem. now right.
    + intros u w c' Hs'. eapply Hscs; eauto.
    + intros w dw. rewrite get_set. destruct (decide (w = v)) as [->|Hne].
      * intros [= <-]. eauto.
      * apply HsD.
    + intros d0 c1 p1 v1 H. eapply Hwalk, Hpop. right. eassumption.
    + intros u du d0 c1 p1 v1. rewrite get_set.
      destruct (decide (u = v)) as [->|Hne].
      * intros [= <-] H. eapply Hmin, Hpop. right. eassumption.
      * intros Hu H. apply (Hle u du d0 c1 p1 v1 Hu). apply Hpop. now right.
    + rewrite (set_new v d _ HvD). apply StronglySorted_snoc; [assumption|].
      intros [u du] Hu. cbn [snd].
      apply (Hle u du d c p v); [apply in_get; assumption|exact Hin].
    + intros d0 c1 p1 w H Hw. apply (Hent d0 c1 p1 w); [apply Hpop; now right|].
      intros Hw'. apply Hw, keys_set_elem. now right.
    + intros w y Hy Hw.
      assert (Hw' : w ∉ PyDict.keys (nx.sp_D st)).
      { intros Hw'. apply Hw, keys_set_elem. now right. }
      assert (Hwv : w <> v).
      { intros ->. apply Hw, keys_set_elem. now left. }
      destruct (Hpend w y Hy Hw')
        as (c1 & p1 & rest1 & G1 & G2 & G3 & G4 & G5 & G6).
      exists c1, p1, rest1.
      split.
      { apply Hpop in G1 as [[= _ _ _ E]|G1]; [congruence|assumption]. }
      split; [assumption|]. split; [assumption|].
      split; [now apply Hiff|]. split.
      * rewrite Hsig, decide_False by assumption. rewrite Hmapv; [assumption|].
        intros u Hu. assert (Hu' : u ∈ p1 :: rest1) by now right.
        apply G4 in Hu' as (cost & du & [Hs' _] & _). exact Hs'.
      * intros u cost du Hs' Hdu. eapply G6; eauto.
        apply HgetD in Hdu; [assumption|apply Hs'].
    + intros w dw. rewrite get_set. destruct (decide (w = v)) as [->|Hne].
      * intros [= <-] _. exists (p :: rest). split; [assumption|].
        split; [assumption|]. split.
        -- intros u. split.
           ++ intros Hu. apply H4 in Hu as (cost & du & Hs' & Hdu & He).
              exists cost, du. split; [assumption|]. split; [|lra].
              apply HgetD; [apply Hs'|assumption].
           ++ intros (cost & du & Hs' & Hdu & He). apply H4.
              exists cost, du. split; [assumption|]. split; [|lra].
              apply HgetD in Hdu; [assumption|apply Hs'].
        -- rewrite Hsig, decide_True by reflexivity.
           rewrite (Hmapv (p :: rest) Hpreds). cbn [map Qsum foldr].
           fold (Qsum (map (sig st) rest)). rewrite <- H5.
           rewrite (sig_get _ _ _ Gv), (sig_get _ _ _ Gp). lra.
      * intros Hw Hws. destruct (Hset w dw Hw Hws) as (Pw & G1 & G2 & G3 & G4).
        exists Pw. split; [assumption|]. split; [assumption|].
        split; [now apply Hiff|].
        rewrite Hsig, decide_False by assumption. rewrite Hmapv; [assumption|].
        intros u Hu. apply G3 in Hu as (cost & du & [Hs' _] & _). exact Hs'.
    + intros w Hw. rewrite Hsig. destruct (decide (w = v)) as [->|Hne].
      * assert (Hp : (0 < sig st p)%Q) by (apply Hpos', Hpreds; left).
        assert (Hr : (0 <= Qsum (map (sig st) rest))%Q).
        { apply Qsum_nonneg. intros u Hu. apply Qlt_le_weak, Hpos', Hpreds.
          now right. }
        rewrite <- H5, (sig_get _ _ _ Gv) in Hr.
        rewrite (sig_get _ _ _ Gp) in Hp. lra.
      * apply Hpos'. apply keys_set_elem in Hw as [?|?]; [contradiction|auto].
  - intros u du. rewrite ED, get_set. destruct (decide (u = v)) as [->|Hne].
    + intros [= <-]. apply Qle_refl.
    + intros Hu. eapply Hle; eauto.
Qed.

Lemma scanned_all_D st st2 :
  nx.sp_D st2 = nx.sp_D st ->
  forall u w c, scanned_all G st u w c <-> scanned_all G st2 u w c.
Proof. intros E u w c. unfold scanned_all. now rewrite E. Qed.

Lemma sssp_loop_inv fuel : forall st st',
  brandes_inv G s (scanned_all G st) st ->
  nx.sssp_loop fuel G st = Ok st' ->
  brandes_inv G s (scanned_all G st') st' /\ nx.sp_Q st' = [].
Proof.
  induction fuel as [|fuel IH]; intros st st' Hinv Hloop.
  - simpl in Hloop.
    destruct (nx.heappop _ (nx.sp_Q st)) as [[[[[d c] p] v] fr]|] eqn:Ep;
      [discriminate|]. injection Hloop as <-.
    split; [assumption|]. eapply heappop_None; eauto.
  - simpl in Hloop.
    destruct (nx.heappop _ (nx.sp_Q st)) as [[[[[d c] p] v] fr]|] eqn:Ep.
    2:{ injection Hloop as <-. split; [assumption|].
        eapply heappop_None; eauto. }
    pose proof (heappop_elem _ _ _ _ Ep) as Hpop.
    assert (Hmin : forall d' c' p' v',
              (d', c', p', v') ∈ nx.sp_Q st -> (d <= d')%Q).
    { intros d' c' p' v' H.
      apply (heappop_min _ _ _ _ Ep (d', c', p', v') H). }
    destruct (PyDict.mem v (nx.sp_D st)) eqn:Em.
    + apply mem_true in Em. apply IH in Hloop; [assumption|].
      eapply brandes_inv_ext; [apply scanned_all_D; reflexivity|].
      eapply (sssp_pop_inv (scanned_all G st) st); eauto.
    + apply mem_false in Em.
      apply bind_Ok in Hloop as (sigma_v & E1 & Hloop).
      apply bind_Ok in Hloop as (sigma_p & E2 & Hloop).
      apply bind_Ok in Hloop as (st2 & Escan & Hloop).
      apply lookup_get in E1, E2.
      match type of Escan with nx.sssp_scan _ _ _ ?s1 = _ =>
        destruct (sssp_settle_inv st s1 d c p v fr sigma_v sigma_p)
          as [Hinv1 Hmax]; auto;
        destruct (sssp_scan_inv v d (nx.adj G v) (scanned_all G st) s1 st2)
          as [Hinv2 HD2]; auto end.
      * cbn [nx.sp_D]. now rewrite get_set, decide_True.
      * apply (wf_neighbors G Hwf v).
      * intros w c0 c' _ [Hv _]. contradiction.
      * apply IH in Hloop; [assumption|].
        eapply brandes_inv_ext; [|exact Hinv2].
        intros u w c0. unfold scanned_all. rewrite HD2. cbn [nx.sp_D].
        rewrite keys_set_elem. split.
        -- intros [[Hu Hw]|[-> Hw]]; auto.
        -- intros [[->|Hu] Hw]; auto.
Qed.

(** The state after the source is settled. *)
Lemma sssp_first_inv st1 sigma0 P0 :
  s ∈ nx.nodes G ->
  nx.sp_S st1 = [s] -> nx.sp_P st1 = P0 ->
  PyDict.get s P0 = Some [] ->
  nx.sp_sigma st1 = PyDict.set s (1 + 1)%Q sigma0 ->
  nx.sp_D st1 = [(s, 0%Q)] -> nx.sp_seen st1 = [(s, 0%Q)] ->
  nx.sp_Q st1 = [] ->
  brandes_inv G s (fun _ _ _ => False) st1.
Proof.
  intros Hs ES EP HP0 Esig ED Eseen EQ.
  assert (Hsig : sig st1 s = (1 + 1)%Q).
  { unfold sig, PyDict.get_default. rewrite Esig, get_set.
    now rewrite decide_True. }
  assert (Hget : forall x dx,
            PyDict.get x [(s, 0%Q)] = Some dx -> x = s /\ dx = 0%Q).
  { intros x dx. cbn. destruct (decide (x = s)) as [->|]; [|discriminate].
    now intros [= <-]. }
  assert (Hkey : forall x, x ∈ PyDict.keys [(s, 0%Q)] -> x = s).
  { intros x Hx. now apply list_elem_of_singleton in Hx. }
  constructor; rewrite ?ES, ?EP, ?ED, ?Eseen, ?EQ.
  - reflexivity.
  - apply NoDup_singleton.
  - cbn. now rewrite decide_True.
  - split; [assumption|]. rewrite Hsig. reflexivity.
  - intros x dx Hx. apply Hget in Hx as [-> ->]. split; [constructor|].
    intros d' Hd'. eapply walk_nonneg; [|exact Hd'].
    now apply positive_nonneg.
  - intros u w c [].
  - intros u w c [].
  - intros w dw Hw. apply Hget in Hw as [-> ->]. exists 0%Q. cbn.
    rewrite decide_True by reflexivity. split; reflexivity.
  - intros d c p v H. inversion H.
  - intros x dx d c p v _ H. inversion H.
  - repeat constructor.
  - intros d c p w H. inversion H.
  - intros w x Hx Hw. exfalso. apply Hw. apply Hget in Hx as [-> _]. left.
  - intros w dw Hw Hne. apply Hget in Hw as [-> _]. contradiction.
  - intros w Hw. apply Hkey in Hw. subst. rewrite Hsig. reflexivity.
Qed.

(** What the path-counting search returns from a node of a graph with
    positive weights. *)
Lemma sssp_spec st :
  s ∈ nx.nodes G ->
  nx.single_source_dijkstra_path_basic G s = Ok st ->
  brandes_inv G s (scanned_all G st) st /\ nx.sp_Q st = [].
Proof.
  intros Hs Hrun. unfold nx.single_source_dijkstra_path_basic in Hrun.
  unfold nx.dijkstra_fuel in Hrun. cbn [nx.sssp_loop nx.sp_Q nx.heappop] in Hrun.
  cbn [nx.sp_D PyDict.mem PyDict.get nx.sp_sigma] in Hrun.
  unfold nx.lookup in Hrun. rewrite get_set in Hrun.
  rewrite decide_True in Hrun by reflexivity.
  cbn [mbind result_bind] in Hrun.
  apply bind_Ok in Hrun as (st2 & Escan & Hloop).
  match type of Escan with nx.sssp_scan _ _ _ ?s1 = _ =>
    pose proof (sssp_first_inv s1 _ _ Hs eq_refl eq_refl
                  (get_map_fn (fun _ => []) (nx.nodes G) s Hs)
                  eq_refl eq_refl eq_refl eq_refl) as Hinv1;
    destruct (sssp_scan_inv s 0%Q (nx.adj G s) (fun _ _ _ => False) s1 st2)
      as [Hinv2 HD2]; auto end.
  - cbn. now rewrite decide_True.
  - intros x dx. cbn. destruct (decide (x = s)); [|discriminate].
    intros [= <-]. apply Qle_refl.
  - apply (wf_neighbors G Hwf s).
  - eapply sssp_loop_inv; [|exact Hloop].
    eapply brandes_inv_ext; [|exact Hinv2].
    intros u w c. unfold scanned_all. rewrite HD2. cbn [nx.sp_D PyDict.set].
    split.
    + intros [[]|[-> Hw]]. split; [left|assumption].
    + intros [Hu Hw]. right. apply list_elem_of_singleton in Hu. subst.
      auto.
Qed.

End Search.

(** ** The state that the search returns *)

Section Post.
Variables (G : nx.Graph) (s : Z) (st : nx.sssp_state).
Hypothesis Hwf : wf_graph G.
Hypothesis Hpos : positive_weights G.
Hypothesis Hinv : brandes_inv G s (scanned_all G st) st.
Hypothesis HQ : nx.sp_Q st = [].

Lemma post_settled_seen w :
  w ∈ PyDict.keys (nx.sp_seen st) -> w ∈ PyDict.keys (nx.sp_D st).
Proof.
  intros Hw. destruct (decide (w ∈ PyDict.keys (nx.sp_D st))) as [|Hn];
    [assumption|].
  destruct (keys_get w _ Hw) as (x & Hx).
  destruct (bi_pending _ _ _ _ Hinv w x Hx Hn) as (c & p & rest & H1 & _).
  rewrite HQ in H1. inversion H1.
Qed.

(** The settled nodes are the nodes joined to the source. *)
Lemma post_reach x : x ∈ nx.sp_S st <-> connected G s x.
Proof.
  rewrite (bi_S _ _ _ _ Hinv). split.
  - intros Hx. destruct (keys_get x _ Hx) as (dx & Hdx).
    destruct (bi_dist _ _ _ _ Hinv x dx Hdx) as [Hw _].
    eapply walk_connected; eauto.
  - apply (closed_holds_connected G (fun y => y ∈ PyDict.keys (nx.sp_D st))).
    + intros a b Ha Hab. apply post_settled_seen.
      destruct (adjacent_entry G a b Hab) as (da & wa & Hga & Hin).
      apply (bi_sc_seen _ _ _ _ Hinv a b wa). split; [assumption|].
      unfold nx.adj. now rewrite Hga.
    + eapply get_keys. apply (bi_source _ _ _ _ Hinv).
Qed.

Lemma post_dist_nonneg x dx :
  PyDict.get x (nx.sp_D st) = Some dx -> (0 <= dx)%Q.
Proof.
  intros Hx. destruct (bi_dist _ _ _ _ Hinv x dx Hx) as [Hw _].
  eapply walk_nonneg; [|exact Hw]. now apply positive_nonneg.
Qed.

(** [P[w]] of a settled node holds the neighbours that precede it on a
    shortest path. *)
Lemma post_inP u w :
  w ∈ nx.sp_S st -> inP st u w = precede G (dist_of st) u w.
Proof.
  rewrite (bi_S _ _ _ _ Hinv). intros Hw.
  destruct (keys_get w _ Hw) as (dw & Hdw).
  unfold inP, precede, dist_of. rewrite Hdw.
  destruct (decide (w = s)) as [->|Hne].
  - destruct (bi_source_P _ _ _ _ Hinv) as [HP _]. rewrite HP.
    rewrite (bi_source _ _ _ _ Hinv) in Hdw. injection Hdw as <-.
    rewrite bool_decide_eq_false_2 by (intros H; inversion H).
    destruct (PyDict.get u (nx.sp_D st)) as [du|] eqn:Hdu; [|reflexivity].
    destruct (nx.weight G u s) as [c|] eqn:Hc; [|reflexivity].
    symmetry. apply not_true_is_false. intros He. apply Qeq_bool_iff in He.
    pose proof (post_dist_nonneg u du Hdu).
    apply (adj_weight G u s c Hwf) in Hc. apply Hpos in Hc. lra.
  - destruct (bi_settled _ _ _ _ Hinv w dw Hdw Hne)
      as (Pw & HP & _ & Hiff & _).
    rewrite HP.
    destruct (PyDict.get u (nx.sp_D st)) as [du|] eqn:Hdu.
    + destruct (nx.weight G u w) as [c|] eqn:Hc.
      * destruct (Qeq_bool (du + c) dw) eqn:He.
        -- apply bool_decide_eq_true_2. apply Hiff. exists c, du.
           apply Qeq_bool_iff in He. split; [|auto]. split.
           ++ eapply get_keys; eauto.
           ++ now apply (adj_weight G u w c Hwf).
        -- apply bool_decide_eq_false_2. intros Hu.
           apply Hiff in Hu as (c' & du' & [_ Hs'] & Hdu' & He').
           apply (adj_weight G u w c' Hwf) in Hs'.
           rewrite Hc in Hs'. injection Hs' as <-.
           rewrite Hdu in Hdu'. injection Hdu' as <-.
           apply Qeq_bool_neq in He. contradiction.
      * apply bool_decide_eq_false_2. intros Hu.
        apply Hiff in Hu as (c' & du' & [_ Hs'] & _).
        apply (adj_weight G u w c' Hwf) in Hs'. congruence.
    + apply bool_decide_eq_false_2. intros Hu.
      apply Hiff in Hu as (c' & du' & _ & Hdu' & _). congruence.
Qed.

(** A predecessor is settled, and strictly nearer to the source. *)
Lemma post_pred_lt u w :
  precede G (dist_of st) u w = true ->
  exists du dw,
    PyDict.get u (nx.sp_D st) = Some du
    /\ PyDict.get w (nx.sp_D st) = Some dw /\ (du < dw)%Q
    /\ w ∈ nx.neighbors G u.
Proof.
  unfold precede, dist_of. intros H.
  destruct (PyDict.get u (nx.sp_D st)) as [du|]; [|discriminate].
  destruct (PyDict.get w (nx.sp_D st)) as [dw|]; [|discriminate].
  destruct (nx.weight G u w) as [c|] eqn:Hc; [|discriminate].
  apply Qeq_bool_iff in H. exists du, dw.
  pose proof Hc as Hc'. apply (adj_weight G u w c Hwf) in Hc'.
  pose proof (Hpos _ _ _ Hc'). repeat split; auto; [lra|].
  apply has_edge_neighbors, has_edge_weight. rewrite Hc. eauto.
Qed.

(** The predecessor list and the count of a settled node. *)
Lemma post_sigma w :
  w ∈ nx.sp_S st -> w <> s ->
  exists Pw,
    PyDict.get w (nx.sp_P st) = Some Pw /\ NoDup Pw
    /\ (sig st w == Qsum (map (sig st) Pw))%Q.
Proof.
  rewrite (bi_S _ _ _ _ Hinv). intros Hw Hne.
  destruct (keys_get w _ Hw) as (dw & Hdw).
  destruct (bi_settled _ _ _ _ Hinv w dw Hdw Hne) as (Pw & HP & Hnd & _ & Hs).
  eauto.
Qed.

Lemma post_P w :
  w ∈ nx.sp_S st ->
  exists Pw, PyDict.get w (nx.sp_P st) = Some Pw /\ NoDup Pw.
Proof.
  intros Hw. destruct (decide (w = s)) as [->|Hne].
  - exists []. split; [apply (bi_source_P _ _ _ _ Hinv)|constructor].
  - destruct (post_sigma w Hw Hne) as (Pw & H1 & H2 & _). eauto.
Qed.

(** In the list of the settled nodes a predecessor comes before the
    node. *)
Lemma post_order S1 w S2 u :
  nx.sp_S st = S1 ++ w :: S2 ->
  precede G (dist_of st) u w = true -> u ∉ w :: S2.
Proof.
  intros HS Hp Hu.
  destruct (post_pred_lt u w Hp) as (du & dw & Hdu & Hdw & Hlt & _).
  rewrite (bi_S _ _ _ _ Hinv) in HS. unfold PyDict.keys in HS.
  apply fmap_app_inv in HS as (D1 & D2' & HS1 & HS2 & HD).
  destruct D2' as [|[w' dw'] D2]; [discriminate|].
  cbn in HS2. injection HS2 as Hww HS2. subst w'.
  pose proof (bi_order _ _ _ _ Hinv) as Hord. rewrite HD in Hord.
  apply StronglySorted_app_r in Hord.
  pose proof (bi_nodup _ _ _ _ Hinv) as Hnd.
  assert (Hwin : (w, dw') ∈ nx.sp_D st).
  { rewrite HD. apply elem_of_app. right. left. }
  apply (in_get _ _ _ Hnd) in Hwin. rewrite Hdw in Hwin. injection Hwin as <-.
  apply elem_of_cons in Hu as [->|Hu]; [rewrite Hdu in Hdw; injection Hdw as ->; lra|].
  rewrite HS2 in Hu. apply list_elem_of_fmap in Hu as ([u' du'] & -> & Hin).
  cbn [fst] in *.
  assert (Huin : (u', du') ∈ nx.sp_D st).
  { rewrite HD. apply elem_of_app. right. now right. }
  apply (in_get _ _ _ Hnd) in Huin. rewrite Hdu in Huin. injection Huin as <-.
  apply StronglySorted_inv in Hord as [_ Hall].
  rewrite Forall_forall in Hall. specialize (Hall _ Hin). cbn in Hall. lra.
Qed.

Lemma post_sig_pos w : w ∈ nx.sp_S st -> (0 < sig st w)%Q.
Proof.
  rewrite (bi_S _ _ _ _ Hinv). apply (bi_pos _ _ _ _ Hinv).
Qed.

End Post.

(** * The accumulation of Brandes' algorithm over the edges *)

Lemma add_at_spec {K : Type} `{EqDecision K} (k : K) c d d' :
  nx.add_at k c d = Ok d' ->
  exists x,
    PyDict.get k d = Some x
    /\ forall e, PyDict.get e d'
                 = if decide (e = k) then Some (x + c)%Q else PyDict.get e d.
Proof.
  unfold nx.add_at. intros H. apply bind_Ok in H as (x & E & H).
  apply lookup_get in E. injection H as <-. exists x. split; [assumption|].
  intros e. apply get_set.
Qed.

Lemma Qsum_plus {A : Type} (f g : A -> Q) (l : list A) :
  (Qsum (map (fun x => f x + g x) l) == Qsum (map f l) + Qsum (map g l))%Q.
Proof.
  induction l as [|x l IH]; simpl; [lra|]. rewrite IH. lra.
Qed.

Lemma elem_of_rev {A : Type} (x : A) (l : list A) : x ∈ rev l <-> x ∈ l.
Proof. rewrite !list_elem_of_In. symmetry. apply in_rev. Qed.

(** ** The predecessors of one node *)

Lemma accumulate_preds_spec w coeff sigma preds : forall acc acc',
  nx.accumulate_preds w coeff preds sigma acc = Ok acc' ->
  (forall a b, (a, b) ∈ PyDict.keys (fst acc) -> a <> b ->
     (b, a) ∉ PyDict.keys (fst acc)) ->
  w ∉ preds ->
  let sgm := fun v => PyDict.get_default v 0%Q sigma in
  PyDict.keys (fst acc') = PyDict.keys (fst acc)
  /\ (forall x q,
        PyDict.get x (snd acc) = Some q ->
        exists q',
          PyDict.get x (snd acc') = Some q'
          /\ (q' == q + Qsum (map (fun v => if bool_decide (x = v)
                                           then sgm v * coeff else 0) preds))%Q)
  /\ (forall a b q,
        PyDict.get (a, b) (fst acc) = Some q ->
        exists q',
          PyDict.get (a, b) (fst acc') = Some q'
          /\ (q' == q
                + Qsum (map (fun v => if bool_decide (a = v)
                                      then (if bool_decide (b = w)
                                            then sgm v * coeff else 0)
                                      else 0) preds)
                + Qsum (map (fun v => if bool_decide (b = v)
                                      then (if bool_decide (a = w)
                                            then sgm v * coeff else 0)
                                      else 0) preds))%Q).
Proof.
  induction preds as [|v preds IH]; intros acc acc' Hrun Hch Hw sgm.
  - simpl in Hrun. injection Hrun as <-. split; [reflexivity|].
    split.
    + intros x q Hx. exists q. split; [assumption|]. simpl. lra.
    + intros a b q Hq. exists q. split; [assumption|]. simpl. lra.
  - cbn [nx.accumulate_preds] in Hrun.
    apply bind_Ok in Hrun as (sigma_v & E1 & Hrun).
    apply bind_Ok in Hrun as (bet1 & Eb & Hrun).
    apply bind_Ok in Hrun as (dl1 & Ed & Hrun).
    apply lookup_get in E1.
    assert (Hsv : sgm v = sigma_v).
    { unfold sgm, PyDict.get_default. now rewrite E1. }
    assert (Hvw : v <> w).
    { intros ->. apply Hw. left. }
    assert (Hw' : w ∉ preds).
    { intros H. apply Hw. now right. }
    set (c := (sigma_v * coeff)%Q) in *.
    assert (Hbet : PyDict.keys bet1 = PyDict.keys (fst acc)
              /\ forall a b q,
                   PyDict.get (a, b) (fst acc) = Some q ->
                   exists q1,
                     PyDict.get (a, b) bet1 = Some q1
                     /\ (q1 == q
                           + (if bool_decide (a = v)
                              then (if bool_decide (b = w) then c else 0)
                              else 0)
                           + (if bool_decide (b = v)
                              then (if bool_decide (a = w) then c else 0)
                              else 0))%Q).
    { destruct (PyDict.mem (v, w) (fst acc)) eqn:Em.
      - pose proof (add_at_keys _ _ _ _ Eb) as Hk.
        apply add_at_spec in Eb as (x & Hx & Hget). split; [assumption|].
        apply mem_true in Em. pose proof (Hch v w Em Hvw) as Hno.
        intros a b q Hq. rewrite Hget.
        destruct (decide ((a, b) = (v, w))) as [[= -> ->]|Hne].
        + rewrite Hx in Hq. injection Hq as <-. eexists. split; [reflexivity|].
          rewrite (bool_decide_eq_true_2 (v = v)) by reflexivity.
          rewrite (bool_decide_eq_true_2 (w = w)) by reflexivity.
          rewrite (bool_decide_eq_false_2 (w = v)) by congruence. lra.
        + exists q. split; [assumption|].
          destruct (decide (a = v)) as [->|Hav].
          * rewrite (bool_decide_eq_true_2 (v = v)) by reflexivity.
            rewrite (bool_decide_eq_false_2 (b = w)) by congruence.
            rewrite (bool_decide_eq_false_2 (v = w)) by assumption.
            destruct (bool_decide (b = v)); lra.
          * rewrite (bool_decide_eq_false_2 (a = v)) by assumption.
            destruct (decide (b = v)) as [->|Hbv].
            -- rewrite (bool_decide_eq_true_2 (v = v)) by reflexivity.
               rewrite (bool_decide_eq_false_2 (a = w)); [lra|].
               intros ->. apply Hno. eapply get_keys; eauto.
            -- rewrite (bool_decide_eq_false_2 (b = v)) by assumption. lra.
      - pose proof (add_at_keys _ _ _ _ Eb) as Hk.
        apply add_at_spec in Eb as (x & Hx & Hget). split; [assumption|].
        apply mem_false in Em.
        intros a b q Hq. rewrite Hget.
        destruct (decide ((a, b) = (w, v))) as [[= -> ->]|Hne].
        + rewrite Hx in Hq. injection Hq as <-. eexists. split; [reflexivity|].
          rewrite (bool_decide_eq_false_2 (w = v)) by congruence.
          rewrite (bool_decide_eq_true_2 (v = v)) by reflexivity.
          rewrite (bool_decide_eq_true_2 (w = w)) by reflexivity. lra.
        + exists q. split; [assumption|].
          destruct (decide (a = v)) as [->|Hav].
          * rewrite (bool_decide_eq_true_2 (v = v)) by reflexivity.
            rewrite (bool_decide_eq_false_2 (v = w)) by assumption.
            rewrite (bool_decide_eq_false_2 (b = w)).
            -- destruct (bool_decide (b = v)); lra.
            -- intros ->. apply Em. eapply get_keys; eauto.
          * rewrite (bool_decide_eq_false_2 (a = v)) by assumption.
            destruct (decide (b = v)) as [->|Hbv].
            -- rewrite (bool_decide_eq_true_2 (v = v)) by reflexivity.
               rewrite (bool_decide_eq_false_2 (a = w)) by congruence. lra.
            -- rewrite (bool_decide_eq_false_2 (b = v)) by assumption. lra. }
    destruct Hbet as [Hkb Hbet].
    apply add_at_spec in Ed as (xd & Hxd & Hgetd).
    destruct (IH (bet1, dl1) acc' Hrun) as (Hk' & Hd' & Hb'); auto.
    { cbn [fst]. rewrite Hkb. exact Hch. }
    cbn [fst snd] in *. subst sgm c. cbn beta in *.
    split; [congruence|]. split.
    + intros x q Hq.
      assert (Hq1 : exists q1, PyDict.get x dl1 = Some q1
                /\ (q1 == q + (if bool_decide (x = v)
                                then sigma_v * coeff else 0))%Q).
      { rewrite Hgetd. destruct (decide (x = v)) as [->|Hne].
        - rewrite Hxd in Hq. injection Hq as <-. eexists. split; [reflexivity|].
          rewrite bool_decide_eq_true_2 by reflexivity. lra.
        - exists q. split; [assumption|].
          rewrite bool_decide_eq_false_2 by assumption. lra. }
      destruct Hq1 as (q1 & Hq1 & He1).
      destruct (Hd' x q1 Hq1) as (q' & Hq' & He'). exists q'.
      split; [assumption|]. cbn [map Qsum foldr]. rewrite He', He1, Hsv.
      unfold Qsum. lra.
    + intros a b q Hq. destruct (Hbet a b q Hq) as (q1 & Hq1 & He1).
      destruct (Hb' a b q1 Hq1) as (q' & Hq' & He'). exists q'.
      split; [assumption|]. cbn [map Qsum foldr]. rewrite He', He1, Hsv.
      unfold Qsum. lra.
Qed.

(** ** The stack of the settled nodes *)

Section Stack.
Variables (G : nx.Graph) (s : Z) (st : nx.sssp_state).
Hypothesis Hwf : wf_graph G.
Hypothesis Hpos : positive_weights G.
Hypothesis Hinv : brandes_inv G s (scanned_all G st) st.
Hypothesis HQ : nx.sp_Q st = [].
Variable bet0 : list (Z * Z * Q).
Hypothesis Hch : forall a b,
  (a, b) ∈ PyDict.keys bet0 -> a <> b -> (b, a) ∉ PyDict.keys bet0.

Lemma cr_ext delta delta' x w :
  delta' w = delta w -> cr st delta' x w = cr st delta x w.
Proof. intros E. unfold cr. now rewrite E. Qed.

Lemma accumulate_stack_spec stack : forall T acc acc' delta,
  rev (nx.sp_S st) = T ++ stack ->
  nx.accumulate_stack stack st acc = Ok acc' ->
  acc_inv st bet0 T delta acc ->
  exists delta',
    (forall w, w ∈ T -> delta' w = delta w)
    /\ acc_inv st bet0 (T ++ stack) delta' acc'.
Proof.
  induction stack as [|w stack IH]; intros T acc acc' delta HS Hrun Hacc.
  - simpl in Hrun. injection Hrun as <-. exists delta.
    split; [reflexivity|]. now rewrite app_nil_r.
  - cbn [nx.accumulate_stack] in Hrun.
    apply bind_Ok in Hrun as (delta_w & E1 & Hrun).
    apply bind_Ok in Hrun as (sigma_w & E2 & Hrun).
    apply bind_Ok in Hrun as (coeff & E3 & Hrun).
    apply bind_Ok in Hrun as (P_w & E4 & Hrun).
    apply bind_Ok in Hrun as (acc1 & E5 & Hrun).
    apply lookup_get in E1, E2, E4.
    destruct Hacc as (Hk & I1 & I2 & I3).
    assert (HnoS : NoDup (nx.sp_S st)).
    { rewrite (bi_S _ _ _ _ Hinv). apply (bi_nodup _ _ _ _ Hinv). }
    assert (HnoT : NoDup (T ++ w :: stack)).
    { rewrite <- HS. apply NoDup_ListNoDup, NoDup_rev, NoDup_ListNoDup.
      exact HnoS. }
    assert (HSdec : nx.sp_S st = rev stack ++ w :: rev T).
    { rewrite <- (rev_involutive (nx.sp_S st)), HS.
      rewrite rev_app_distr. cbn [rev]. now rewrite <- app_assoc. }
    assert (HwS : w ∈ nx.sp_S st).
    { rewrite HSdec. apply elem_of_app. right. left. }
    assert (HwT : w ∉ T).
    { apply NoDup_app in HnoT as (_ & Hd & _). intros H. apply (Hd w H). left. }
    pose proof (post_sig_pos G s st Hinv w HwS) as Hsw.
    rewrite (sig_get _ _ _ E2) in Hsw.
    rewrite (py_div_pos _ _ Hsw) in E3. injection E3 as <-.
    destruct (post_P G s st Hinv w HwS) as (Pw & HP & HndP).
    rewrite E4 in HP. injection HP as ->.
    assert (HinP : forall u, inP st u w = bool_decide (u ∈ Pw)).
    { intros u. unfold inP. now rewrite E4. }
    assert (Hpreds : forall u, u ∈ Pw -> u ∉ w :: rev T).
    { intros u Hu. apply (post_order G s st Hwf Hpos Hinv (rev stack) w (rev T));
        [assumption|].
      rewrite <- (post_inP G s st Hwf Hpos Hinv u w HwS), HinP.
      now apply bool_decide_eq_true_2. }
    assert (HwP : w ∉ Pw).
    { intros H. apply (Hpreds w H). left. }
    destruct (accumulate_preds_spec w _ _ Pw acc acc1 E5) as (Hk1 & Hd1 & Hb1);
      auto.
    { rewrite Hk. exact Hch. }
    cbn zeta in Hd1, Hb1.
    set (delta1 := fun x => if decide (x = w) then delta_w else delta x).
    assert (Hcr1 : forall x,
              (cr st delta1 x w
               == if bool_decide (x ∈ Pw)
                  then sig st x * ((1 + delta_w) / sigma_w) else 0)%Q).
    { intros x. unfold cr, delta1. rewrite HinP, decide_True by reflexivity.
      rewrite (sig_get _ _ _ E2). reflexivity. }
    assert (HcrT : forall x w', w' ∈ T -> cr st delta1 x w' = cr st delta x w').
    { intros x w' Hw'. apply cr_ext. unfold delta1.
      rewrite decide_False; [reflexivity|]. intros ->. contradiction. }
    assert (HsumT : forall (f : (Z -> Q) -> Z -> Q),
              (forall dl dl' w', dl' w' = dl w' -> f dl' w' = f dl w') ->
              (Qsum (map (f delta1) T) == Qsum (map (f delta) T))%Q).
    { intros f Hf. apply Qsum_ext. intros w' Hw'.
      rewrite (Hf delta delta1 w'); [reflexivity|]. unfold delta1.
      rewrite decide_False; [reflexivity|]. intros ->. contradiction. }
    assert (Hacc1 : acc_inv st bet0 (T ++ [w]) delta1 acc1).
    { split; [congruence|]. split; [|split].
      - intros x Hx. destruct (I1 x Hx) as (q & Hq & He).
        destruct (Hd1 x q Hq) as (q' & Hq' & He'). exists q'.
        split; [assumption|]. rewrite He', He.
        rewrite (Qsum_indicator x (fun v => (PyDict.get_default v 0 (nx.sp_sigma st) * ((1 + delta_w) / sigma_w))%Q) Pw HndP).
        rewrite map_app, Qsum_app. cbn [map Qsum foldr].
        rewrite (HsumT (fun dl => cr st dl x)) by (intros; now apply cr_ext).
        rewrite Hcr1. unfold sig. lra.
      - intros w' Hw'. apply elem_of_app in Hw' as [Hw'|Hw'].
        + destruct (I2 w' Hw') as (q & Hq & He).
          destruct (Hd1 w' q Hq) as (q' & Hq' & He'). exists q'.
          split; [assumption|]. rewrite He', He.
          rewrite (Qsum_indicator w' (fun v => (PyDict.get_default v 0 (nx.sp_sigma st) * ((1 + delta_w) / sigma_w))%Q) Pw HndP).
          rewrite bool_decide_eq_false_2.
          * unfold delta1. rewrite decide_False; [lra|].
            intros ->. contradiction.
          * intros H. apply (Hpreds w' H). right. now rewrite elem_of_rev.
        + apply list_elem_of_singleton in Hw'. subst w'.
          destruct (Hd1 w delta_w E1) as (q' & Hq' & He'). exists q'.
          split; [assumption|]. rewrite He'.
          rewrite (Qsum_indicator w (fun v => (PyDict.get_default v 0 (nx.sp_sigma st) * ((1 + delta_w) / sigma_w))%Q) Pw HndP).
          rewrite bool_decide_eq_false_2 by assumption.
          unfold delta1. rewrite decide_True by reflexivity. lra.
      - intros a b q0 Hq0. destruct (I3 a b q0 Hq0) as (q & Hq & He).
        destruct (Hb1 a b q Hq) as (q' & Hq' & He'). exists q'.
        split; [assumption|]. rewrite He', He.
        rewrite (Qsum_indicator a (fun v => if bool_decide (b = w) then (PyDict.get_default v 0 (nx.sp_sigma st) * ((1 + delta_w) / sigma_w))%Q else 0%Q) Pw HndP).
        rewrite (Qsum_indicator b (fun v => if bool_decide (a = w) then (PyDict.get_default v 0 (nx.sp_sigma st) * ((1 + delta_w) / sigma_w))%Q else 0%Q) Pw HndP).
        rewrite map_app, Qsum_app. cbn [map Qsum foldr].
        rewrite (HsumT (fun dl w' =>
                   ((if bool_decide (b = w') then cr st dl a w' else 0)
                    + (if bool_decide (a = w') then cr st dl b w' else 0))%Q)).
        2:{ intros dl dl' w' E. now rewrite !(cr_ext dl dl' _ w' E). }
        pose proof (Hcr1 a) as Ha. pose proof (Hcr1 b) as Hb.
        unfold sig in Ha, Hb. revert Ha Hb.
        destruct (bool_decide (b = w)), (bool_decide (a = w)),
          (bool_decide (a ∈ Pw)), (bool_decide (b ∈ Pw));
          intros Ha Hb; lra. }
    destruct (IH (T ++ [w]) acc1 acc' delta1) as (delta' & Hag & Hfin); auto.
    { now rewrite <- app_assoc. }
    exists delta'. split.
    + intros w' Hw'. rewrite Hag by (apply elem_of_app; now left).
      unfold delta1. rewrite decide_False; [reflexivity|].
      intros ->. contradiction.
    + now rewrite <- app_assoc in Hfin.
Qed.

End Stack.

(** ** One source *)

Section Source.
Variables (G : nx.Graph) (s : Z) (st : nx.sssp_state).
Hypothesis Hwf : wf_graph G.
Hypothesis Hpos : positive_weights G.
Hypothesis Hinv : brandes_inv G s (scanned_all G st) st.
Hypothesis HQ : nx.sp_Q st = [].

Lemma settled_dist x : x ∈ nx.sp_S st <-> is_Some (dist_of st x).
Proof.
  rewrite (bi_S _ _ _ _ Hinv). unfold dist_of. split.
  - intros Hx. destruct (keys_get x _ Hx) as (dx & Hdx). rewrite Hdx. eauto.
  - intros [dx Hdx]. eapply get_keys; eauto.
Qed.

Lemma precede_settled u w :
  precede G (dist_of st) u w = true ->
  u ∈ nx.sp_S st /\ w ∈ nx.sp_S st
  /\ w ∈ nx.neighbors G u /\ u ∈ nx.neighbors G w.
Proof.
  intros H. destruct (post_pred_lt G st Hwf Hpos u w H)
    as (du & dw & Hdu & Hdw & _ & Hn).
  split; [apply settled_dist; unfold dist_of; rewrite Hdu; eauto|].
  split; [apply settled_dist; unfold dist_of; rewrite Hdw; eauto|].
  split; [assumption|]. now apply wf_neighbors_sym.
Qed.

(** The amount of the accumulation is the share of Brandes'
    formulation. *)
Lemma cr_credit delta a b :
  ((if bool_decide (b ∈ rev (nx.sp_S st)) then cr st delta a b else 0)
   == credit G (dist_of st) (fun x => sig st x / 2) delta a b)%Q.
Proof.
  unfold credit. case_bool_decide as Hb.
  - rewrite elem_of_rev in Hb.
    unfold cr. rewrite (post_inP G s st Hwf Hpos Hinv a b Hb).
    destruct (precede G (dist_of st) a b); [|reflexivity].
    pose proof (post_sig_pos G s st Hinv b Hb) as Hsb.
    field; repeat match goal with |- _ /\ _ => split end; lra.
  - destruct (precede G (dist_of st) a b) eqn:E; [|reflexivity].
    exfalso. apply Hb. rewrite elem_of_rev.
    apply (precede_settled a b E).
Qed.

Lemma source_spec bet0 bet' :
  (forall a b, (a, b) ∈ PyDict.keys bet0 -> a <> b ->
     (b, a) ∈ PyDict.keys bet0 -> False) ->
  nx.accumulate_edges bet0 st = Ok bet' ->
  exists delta,
    brandes_source G s (dist_of st) (fun x => sig st x / 2)%Q delta
    /\ forall e q0,
         PyDict.get e bet0 = Some q0 ->
         exists q,
           PyDict.get e bet' = Some q
           /\ (q == q0
                 + edge_credit G (dist_of st) (fun x => sig st x / 2) delta
                     e)%Q.
Proof.
  intros Hch Hrun. unfold nx.accumulate_edges in Hrun.
  apply bind_Ok in Hrun as (acc & Erun & Hrun). injection Hrun as <-.
  assert (HnoS : NoDup (nx.sp_S st)).
  { rewrite (bi_S _ _ _ _ Hinv). apply (bi_nodup _ _ _ _ Hinv). }
  assert (HnoR : NoDup (rev (nx.sp_S st))).
  { apply NoDup_ListNoDup, NoDup_rev, NoDup_ListNoDup. exact HnoS. }
  destruct (accumulate_stack_spec G s st Hwf Hpos Hinv bet0 Hch
              (rev (nx.sp_S st)) [] _ acc (fun _ => 0%Q) eq_refl Erun)
    as (delta & _ & Hk & I1 & I2 & I3).
  { split; [reflexivity|]. split; [|split].
    - intros x Hx. exists 0%Q. cbn [snd map Qsum foldr].
      split; [|reflexivity]. now apply (get_map_fn (fun _ => 0%Q)).
    - intros w Hw. inversion Hw.
    - intros a b q0 Hq0. exists q0. cbn [fst map Qsum foldr].
      split; [assumption|]. lra. }
  cbn [app] in *.
  exists delta. split.
  - constructor.
    + intros v. unfold dist_of. rewrite get_None.
      rewrite <- (post_reach G s st Hinv HQ v), (bi_S _ _ _ _ Hinv). tauto.
    + intros v x Hx. apply (bi_dist _ _ _ _ Hinv v x Hx).
    + destruct (bi_source_P _ _ _ _ Hinv) as [_ H2]. rewrite H2. reflexivity.
    + intros w Hw Hne. apply (post_reach G s st Hinv HQ) in Hw.
      destruct (post_sigma G s st Hinv w Hw Hne) as (Pw & HP & Hnd & Hs).
      rewrite Hs.
      rewrite <- (Qsum_select (fun _ => true) (fun u => precede G (dist_of st) u w)
                   (fun x => sig st x / 2)%Q (fun x => sig st x / 2)%Q
                   Pw (nx.neighbors G w)).
      * unfold Qdiv. rewrite Qsum_scale. reflexivity.
      * exact Hnd.
      * apply (wf_neighbors G Hwf).
      * intros u.
        assert (Hpe : precede G (dist_of st) u w = bool_decide (u ∈ Pw)).
        { rewrite <- (post_inP G s st Hwf Hpos Hinv u w Hw). unfold inP.
          now rewrite HP. }
        split.
        -- intros [Hu _].
           assert (Hp : precede G (dist_of st) u w = true).
           { rewrite Hpe. now apply bool_decide_eq_true_2. }
           split; [|assumption]. apply (precede_settled u w Hp).
        -- intros [_ Hp]. rewrite Hpe in Hp.
           apply bool_decide_eq_true_1 in Hp. auto.
      * reflexivity.
    + intros w Hw. apply (post_reach G s st Hinv HQ) in Hw.
      pose proof (post_sig_pos G s st Hinv w Hw). 
      apply Qlt_shift_div_l; lra.
    + intros v Hv. apply (post_reach G s st Hinv HQ) in Hv.
      destruct (I1 v Hv) as (q & Hq & He).
      destruct (I2 v) as (q2 & Hq2 & He2).
      { now rewrite elem_of_rev. }
      rewrite Hq in Hq2. injection Hq2 as <-. rewrite <- He2, He.
      unfold credit, cr.
      apply (Qsum_select (inP st v) (fun w => precede G (dist_of st) v w)
               (fun w => sig st v * ((1 + delta w) / sig st w))%Q
               (fun w => sig st v / 2 / (sig st w / 2) * (1 + delta w))%Q
               (rev (nx.sp_S st)) (nx.neighbors G v)).
      * exact HnoR.
      * apply (wf_neighbors G Hwf).
      * intros w. split.
        -- intros [Hw Hp]. rewrite elem_of_rev in Hw.
           rewrite (post_inP G s st Hwf Hpos Hinv v w Hw) in Hp.
           split; [|assumption]. apply (precede_settled v w Hp).
        -- intros [_ Hp]. destruct (precede_settled v w Hp) as (_ & Hw & _).
           split; [now rewrite elem_of_rev|].
           now rewrite (post_inP G s st Hwf Hpos Hinv v w Hw).
      * intros w Hw _. rewrite elem_of_rev in Hw.
        pose proof (post_sig_pos G s st Hinv w Hw). field; repeat match goal with |- _ /\ _ => split end; lra.
  - intros [a b] q0 Hq0. destruct (I3 a b q0 Hq0) as (q & Hq & He).
    exists q. split; [assumption|]. rewrite He. unfold edge_credit.
    cbn [fst snd]. rewrite Qsum_plus.
    rewrite (Qsum_indicator b (cr st delta a) _ HnoR).
    rewrite (Qsum_indicator a (cr st delta b) _ HnoR).
    rewrite !cr_credit. reflexivity.
Qed.

End Source.

(** ** All sources *)

Lemma NoDup_fmap_eq {A B : Type} (f : A -> B) (l : list A) x y :
  NoDup (f <$> l) -> x ∈ l -> y ∈ l -> f x = f y -> x = y.
Proof.
  induction l as [|a l IH]; intros Hnd Hx Hy Hf; [inversion Hx|].
  cbn in Hnd. apply NoDup_cons in Hnd as [Ha Hnd].
  apply elem_of_cons in Hx as [->|Hx]; apply elem_of_cons in Hy as [->|Hy].
  - reflexivity.
  - exfalso. apply Ha. rewrite Hf. now apply list_elem_of_fmap_2.
  - exfalso. apply Ha. rewrite <- Hf. now apply list_elem_of_fmap_2.
  - now apply IH.
Qed.

(** An edge is listed in one orientation only. *)
Lemma edges_one_way G a b :
  wf_graph G -> (a, b) ∈ nx.edges G -> a <> b -> (b, a) ∈ nx.edges G -> False.
Proof.
  intros Hwf H1 Hne H2.
  pose proof (NoDup_fmap_eq (fun '(u, v) => chave u v) (nx.edges G)
                (a, b) (b, a) (NoDup_edges_chave G Hwf) H1 H2
                (chave_comm a b)) as E.
  injection E as E1 E2. contradiction.
Qed.

Lemma accumulate_sources_spec G :
  wf_graph G -> positive_weights G ->
  forall sources bet0 bet',
  NoDup sources ->
  (forall s, s ∈ sources -> s ∈ nx.nodes G) ->
  (forall a b, (a, b) ∈ PyDict.keys bet0 -> a <> b ->
     (b, a) ∈ PyDict.keys bet0 -> False) ->
  nx.accumulate_sources G sources bet0 = Ok bet' ->
  exists (d : Z -> Z -> option Q) (sigma delta : Z -> Z -> Q),
    (forall s, s ∈ sources -> brandes_source G s (d s) (sigma s) (delta s))
    /\ forall e q0,
         PyDict.get e bet0 = Some q0 ->
         exists q,
           PyDict.get e bet' = Some q
           /\ (q == q0
                 + Qsum (map (fun s =>
                               edge_credit G (d s) (sigma s) (delta s) e)
                           sources))%Q.
Proof.
  intros Hwf Hpos. induction sources as [|s sources IH];
    intros bet0 bet' Hnd Hs Hch Hrun.
  - simpl in Hrun. injection Hrun as <-.
    exists (fun _ _ => None), (fun _ _ => 0%Q), (fun _ _ => 0%Q).
    split; [intros s Hs'; inversion Hs'|].
    intros e q0 Hq0. exists q0. split; [assumption|]. simpl. lra.
  - cbn [nx.accumulate_sources] in Hrun.
    apply bind_Ok in Hrun as (st & Est & Hrun).
    apply bind_Ok in Hrun as (bet1 & Eacc & Hrun).
    apply NoDup_cons in Hnd as [Hsn Hnd].
    destruct (sssp_spec G s Hwf Hpos st (Hs s ltac:(left)) Est) as [Hinv HQ].
    destruct (source_spec G s st Hwf Hpos Hinv HQ bet0 bet1 Hch Eacc)
      as (delta_s & Hbs & Hcredit).
    assert (Hk1 : PyDict.keys bet1 = PyDict.keys bet0).
    { unfold nx.accumulate_edges in Eacc.
      apply bind_Ok in Eacc as (acc & Ea & Eacc). injection Eacc as <-.
      apply accumulate_stack_keys in Ea. exact Ea. }
    destruct (IH bet1 bet' Hnd) as (d & sigma & delta & Hall & Hrest); auto.
    { intros s' Hs'. apply Hs. now right. }
    { rewrite Hk1. exact Hch. }
    exists (fun s' => if decide (s' = s) then dist_of st else d s'),
           (fun s' => if decide (s' = s) then (fun x => sig st x / 2)%Q
                      else sigma s'),
           (fun s' => if decide (s' = s) then delta_s else delta s').
    split.
    + intros s' Hs'. apply elem_of_cons in Hs' as [->|Hs'].
      * rewrite !decide_True by reflexivity. exact Hbs.
      * rewrite !decide_False by (intros ->; contradiction). now apply Hall.
    + intros e q0 Hq0. destruct (Hcredit e q0 Hq0) as (q1 & Hq1 & He1).
      destruct (Hrest e q1 Hq1) as (q & Hq & He). exists q.
      split; [assumption|]. cbn [map Qsum foldr].
      rewrite !decide_True by reflexivity. rewrite He, He1.
      rewrite (Qsum_ext
                 (fun s0 =>
                    edge_credit G
                      (if decide (s0 = s) then dist_of st else d s0)
                      (if decide (s0 = s) then (fun x => sig st x / 2)%Q
                       else sigma s0)
                      (if decide (s0 = s) then delta_s else delta s0) e)
                 (fun s0 => edge_credit G (d s0) (sigma s0) (delta s0) e)).
      * unfold Qsum. lra.
      * intros s' Hs'. rewrite !decide_False by (intros ->; contradiction).
        reflexivity.
Qed.

(** With positive weights the accumulation of every edge is the sum,
    over all sources, of the shares of Brandes' formulation. *)
Lemma edge_accumulation_spec G acc :
  wf_graph G -> positive_weights G ->
  nx.edge_accumulation G = Ok acc ->
  exists (d : Z -> Z -> option Q) (sigma delta : Z -> Z -> Q),
    (forall s, s ∈ nx.nodes G ->
       brandes_source G s (d s) (sigma s) (delta s))
    /\ forall e total,
         PyDict.get e acc = Some total ->
         (total
          == Qsum (map (fun s => edge_credit G (d s) (sigma s) (delta s) e)
                     (nx.nodes G)))%Q.
Proof.
  intros Hwf Hpos Hacc. pose proof (edge_accumulation_keys G acc Hacc) as Hk.
  unfold nx.edge_accumulation in Hacc.
  destruct (accumulate_sources_spec G Hwf Hpos (nx.nodes G)
              (map (fun e => (e, 0%Q)) (nx.edges G)) acc
              (wf_nodes G Hwf) (fun _ H => H))
    as (d & sigma & delta & Hall & Hsum); [|exact Hacc|].
  { rewrite keys_zero_map. intros a b. now apply edges_one_way. }
  exists d, sigma, delta. split; [assumption|].
  intros e total He.
  assert (He0 : PyDict.get e (map (fun e => (e, 0%Q)) (nx.edges G)) = Some 0%Q).
  { assert (Hin : e ∈ nx.edges G).
    { rewrite <- Hk. eapply get_keys; eauto. }
    clear -Hin. induction (nx.edges G) as [|x l IH]; [inversion Hin|].
    simpl. destruct (decide (e = x)); [reflexivity|].
    apply elem_of_cons in Hin as [?|?]; [contradiction|auto]. }
  destruct (Hsum e 0%Q He0) as (q & Hq & Heq).
  rewrite He in Hq. injection Hq as <-. rewrite Heq. lra.
Qed.

(** ** The recurrence has one solution *)

(** Two distance maps of a source agree on which neighbour precedes
    which. *)
Lemma precede_unique G s d1 d2 :
  (forall v, d1 v = None <-> ~ connected G s v) ->
  (forall v x, d1 v = Some x -> is_shortest G s v x) ->
  (forall v, d2 v = None <-> ~ connected G s v) ->
  (forall v x, d2 v = Some x -> is_shortest G s v x) ->
  forall u w, precede G d1 u w = precede G d2 u w.
Proof.
  intros R1 D1 R2 D2 u w.
  assert (H : forall v,
            match d1 v, d2 v with
            | Some x, Some y => (x == y)%Q
            | None, None => True
            | _, _ => False
            end).
  { intros v. destruct (d1 v) as [x|] eqn:E1, (d2 v) as [y|] eqn:E2.
    - eapply is_shortest_unique; eauto.
    - apply R2 in E2. apply E2. apply D1 in E1 as [W _].
      eapply walk_connected; eauto.
    - apply R1 in E1. apply E1. apply D2 in E2 as [W _].
      eapply walk_connected; eauto.
    - exact I. }
  unfold precede. pose proof (H u) as Hu. pose proof (H w) as Hw.
  destruct (d1 u) as [x1|], (d2 u) as [x2|]; try contradiction;
    [|reflexivity].
  destruct (d1 w) as [y1|], (d2 w) as [y2|]; try contradiction;
    [|reflexivity].
  destruct (nx.weight G u w) as [c|]; [|reflexivity].
  destruct (Qeq_bool (x1 + c) y1) eqn:B1, (Qeq_bool (x2 + c) y2) eqn:B2;
    try reflexivity.
  - apply Qeq_bool_iff in B1. apply Qeq_bool_neq in B2. exfalso. apply B2. lra.
  - apply Qeq_bool_iff in B2. apply Qeq_bool_neq in B1. exfalso. apply B1. lra.
Qed.

Section Unique.
Variables (G : nx.Graph) (s : Z) (st : nx.sssp_state).
Hypothesis Hwf : wf_graph G.
Hypothesis Hpos : positive_weights G.
Hypothesis Hinv : brandes_inv G s (scanned_all G st) st.
Hypothesis HQ : nx.sp_Q st = [].
Variables (d1 d2 : Z -> option Q) (sigma1 sigma2 delta1 delta2 : Z -> Q).
Hypothesis H1 : brandes_source G s d1 sigma1 delta1.
Hypothesis H2 : brandes_source G s d2 sigma2 delta2.

Lemma precede_search d sigma delta u w :
  brandes_source G s d sigma delta ->
  precede G d u w = precede G (dist_of st) u w.
Proof.
  intros H. apply (precede_unique G s).
  - apply (bs_reach _ _ _ _ _ H).
  - apply (bs_dist _ _ _ _ _ H).
  - intros v. unfold dist_of. rewrite get_None.
    rewrite <- (post_reach G s st Hinv HQ v), (bi_S _ _ _ _ Hinv). tauto.
  - intros v x Hx. apply (bi_dist _ _ _ _ Hinv v x Hx).
Qed.

(** The path counts agree, node after node in the order in which the
    search settled them. *)
Lemma sigma_unique_prefix S1 : forall S2,
  nx.sp_S st = S1 ++ S2 ->
  forall w, w ∈ S1 -> (sigma1 w == sigma2 w)%Q.
Proof.
  induction S1 as [|x S1 IH] using rev_ind; intros S2 HS w Hw;
    [inversion Hw|].
  rewrite <- app_assoc in HS. cbn [app] in HS.
  apply elem_of_app in Hw as [Hw|Hw]; [now apply (IH (x :: S2))|].
  apply list_elem_of_singleton in Hw as ->.
  destruct (decide (x = s)) as [->|Hne].
  { rewrite (bs_sigma_source _ _ _ _ _ H1), (bs_sigma_source _ _ _ _ _ H2).
    reflexivity. }
  assert (Hx : x ∈ nx.sp_S st).
  { rewrite HS. apply elem_of_app. right. left. }
  pose proof Hx as Hc. apply (post_reach G s st Hinv HQ) in Hc.
  rewrite (bs_sigma _ _ _ _ _ H1 x Hc Hne), (bs_sigma _ _ _ _ _ H2 x Hc Hne).
  apply Qsum_ext. intros u _.
  rewrite (precede_search _ _ _ u x H1), (precede_search _ _ _ u x H2).
  destruct (precede G (dist_of st) u x) eqn:Hp; [|reflexivity].
  apply (IH (x :: S2) HS).
  pose proof (post_order G s st Hwf Hpos Hinv S1 x S2 u HS Hp) as Hnot.
  destruct (precede_settled G s st Hwf Hpos Hinv u x Hp) as (Hu & _).
  rewrite HS in Hu. apply elem_of_app in Hu as [Hu|Hu];
    [assumption|contradiction].
Qed.

Lemma sigma_unique w : w ∈ nx.sp_S st -> (sigma1 w == sigma2 w)%Q.
Proof.
  apply (sigma_unique_prefix (nx.sp_S st) []). now rewrite app_nil_r.
Qed.

Lemma credit_step u w :
  (precede G (dist_of st) u w = true -> (delta1 w == delta2 w)%Q) ->
  (credit G d1 sigma1 delta1 u w == credit G d2 sigma2 delta2 u w)%Q.
Proof.
  intros Hd. unfold credit.
  rewrite (precede_search _ _ _ u w H1), (precede_search _ _ _ u w H2).
  destruct (precede G (dist_of st) u w) eqn:Hp; [|reflexivity].
  destruct (precede_settled G s st Hwf Hpos Hinv u w Hp) as (Hu & Hw & _).
  rewrite (sigma_unique u Hu), (sigma_unique w Hw), (Hd eq_refl).
  reflexivity.
Qed.

(** The dependencies agree, from the node settled last backwards. *)
Lemma delta_unique_suffix S2 : forall S1,
  nx.sp_S st = S1 ++ S2 ->
  forall v, v ∈ S2 -> (delta1 v == delta2 v)%Q.
Proof.
  induction S2 as [|x S2 IH]; intros S1 HS v Hv; [inversion Hv|].
  assert (HS' : nx.sp_S st = (S1 ++ [x]) ++ S2).
  { now rewrite <- app_assoc. }
  apply elem_of_cons in Hv as [->|Hv]; [|now apply (IH _ HS')].
  assert (Hx : x ∈ nx.sp_S st).
  { rewrite HS. apply elem_of_app. right. left. }
  pose proof Hx as Hc. apply (post_reach G s st Hinv HQ) in Hc.
  rewrite (bs_delta _ _ _ _ _ H1 x Hc), (bs_delta _ _ _ _ _ H2 x Hc).
  apply Qsum_ext. intros w _. apply credit_step. intros Hp.
  apply (IH _ HS').
  destruct (precede_settled G s st Hwf Hpos Hinv x w Hp) as (_ & Hw & _).
  rewrite HS in Hw. apply elem_of_app in Hw as [Hw|Hw].
  - exfalso. apply list_elem_of_split in Hw as (A & B & ->).
    rewrite <- app_assoc in HS. cbn [app] in HS.
    apply (post_order G s st Hwf Hpos Hinv A w (B ++ x :: S2) x HS Hp).
    right. apply elem_of_app. right. left.
  - apply elem_of_cons in Hw as [->|Hw]; [|assumption].
    exfalso.
    destruct (post_pred_lt G st Hwf Hpos x x Hp) as (du & dw & E1 & E2 & Hlt & _).
    rewrite E1 in E2. injection E2 as <-. lra.
Qed.

Lemma credit_unique u w :
  (credit G d1 sigma1 delta1 u w == credit G d2 sigma2 delta2 u w)%Q.
Proof.
  apply credit_step. intros Hp.
  destruct (precede_settled G s st Hwf Hpos Hinv u w Hp) as (_ & Hw & _).
  now apply (delta_unique_suffix (nx.sp_S st) []).
Qed.

End Unique.

(** Brandes' recurrence determines the share of every edge: two
    solutions for a source give the same credit. *)
Lemma brandes_source_unique G s d1 sigma1 delta1 d2 sigma2 delta2 :
  wf_graph G -> positive_weights G -> s ∈ nx.nodes G ->
  brandes_source G s d1 sigma1 delta1 ->
  brandes_source G s d2 sigma2 delta2 ->
  forall e,
    (edge_credit G d1 sigma1 delta1 e == edge_credit G d2 sigma2 delta2 e)%Q.
Proof.
  intros Hwf Hpos Hs H1 H2 e.
  destruct (sssp_returns G Hwf s Hs) as (st & Est & _).
  destruct (sssp_spec G s Hwf Hpos st Hs Est) as [Hinv HQ].
  unfold edge_credit.
  rewrite (credit_unique G s st Hwf Hpos Hinv HQ _ _ _ _ _ _ H1 H2 e.1 e.2).
  rewrite (credit_unique G s st Hwf Hpos Hinv HQ _ _ _ _ _ _ H1 H2 e.2 e.1).
  reflexivity.
Qed.

Lemma positive_weights_empty : positive_weights nx.empty.
Proof. intros y z w H. inversion H. Qed.

Lemma positive_weights_add_edge G a b w :
  wf_graph G -> positive_weights G -> (0 < w)%Q ->
  positive_weights (nx.add_edge a b w G).
Proof.
  intros Hwf Hp Hw y z w' Hin.
  apply adj_weight in Hin; [|now apply wf_add_edge].
  rewrite weight_add_edge in Hin. case_decide.
  - now injection Hin as <-.
  - apply (Hp y z w'). now apply adj_weight.
Qed.


Lemma positive_path3 : positive_weights Ex.path3.
Proof.
  unfold Ex.path3.
  repeat (apply positive_weights_add_edge;
          [repeat apply wf_add_edge; apply wf_empty | | reflexivity]).
  apply positive_weights_empty.
Qed.


